(** * ELF Explorer: the binary parser ([elf-parser.ts])

    A shallow embedding of [parseElf] and of the [Reader] class it drives,
    followed by the properties of the decoder that the design document
    states about it.

    Conventions of the embedding.
    - A Node [Buffer] is a [list byte]; Node never allocates a buffer of
      [2^53] bytes or more, and the lemmas that need it say so with
      [length data < 2^53].
    - A JavaScript [number] that holds an integer is a [Z]; every
      addition and multiplication on numbers goes through [fround], the
      rounding of IEEE 754 binary64, so that large 64-bit fields behave
      as they do in the engine.  The one true division of the parser
      ([Number(sh.size) / entSize]) is computed in binary64 with the
      specification of the Standard Library ([SpecFloat]).
    - A [bigint] is a [Z].
    - A JavaScript string is the list of its UTF-16 code units.
    - [undefined] is [None].
    - The [Reader] object is threaded explicitly: a computation takes the
      reader and gives back an outcome and the reader as it leaves it. *)

From Stdlib Require Import Strings.Byte Strings.Ascii Strings.String.
From Stdlib Require Import ZArith List Bool Lia.
From Stdlib Require Import Floats.SpecFloat.
Import Init.Datatypes ListNotations.
Local Close Scope string_scope.
Local Open Scope Z_scope.

(** ** JavaScript numbers *)

Module JSNumber.

(** [fround x] is the binary64 value nearest to the integer [x]
    (ties to even): the result of [Number(x)] on a bigint, and of an
    arithmetic operation on numbers whose exact result is [x]. *)
Definition fround_pos (x : Z) : Z :=
  if x <? 2 ^ 53 then x
  else
    let e := Z.log2 x - 52 in
    let q := x / 2 ^ e in
    let r := x mod 2 ^ e in
    let h := 2 ^ (e - 1) in
    if r <? h then q * 2 ^ e
    else if h <? r then (q + 1) * 2 ^ e
    else if Z.even q then q * 2 ^ e
    else (q + 1) * 2 ^ e.

Definition fround (x : Z) : Z :=
  if x <? 0 then - fround_pos (- x) else fround_pos x.

(** [Number(b)] for a bigint [b]. *)
Definition Number (b : Z) : Z := fround b.

(** [a + b] and [a * b] on numbers that hold integers. *)
Definition add (a b : Z) : Z := fround (a + b).
Definition mul (a b : Z) : Z := fround (a * b).

(** The binary64 value of a number that holds an integer. *)
Definition to_float (a : Z) : spec_float :=
  binary_normalize 53 1024 a 0 false.

(** [a / b] on numbers: a binary64 quotient, in general not an integer. *)
Definition div (a b : Z) : spec_float :=
  SFdiv 53 1024 (to_float a) (to_float b).

(** [i < c] where [i] holds an integer and [c] is any number. *)
Definition ltb_float (i : Z) (c : spec_float) : bool :=
  SFltb (to_float i) c.

(** [a || d] on numbers that hold integers: [0] is falsy. *)
Definition or_default (a d : Z) : Z := if a =? 0 then d else a.

End JSNumber.

(** ** Buffers *)

Definition Buffer := list byte.

Definition byte_val (b : byte) : Z := Z.of_N (Byte.to_N b).

Definition buf_length (b : Buffer) : Z := Z.of_nat (length b).

(** [buf[i]]: the byte at index [i], [undefined] outside the buffer. *)
Definition buf_get (b : Buffer) (i : Z) : option Z :=
  if i <? 0 then None else option_map byte_val (nth_error b (Z.to_nat i)).

(** The [n] bytes at [[p, p+n)], when they all lie in the buffer. *)
Definition buf_bytes (b : Buffer) (p : Z) (n : nat) : option (list Z) :=
  if (0 <=? p) && (p + Z.of_nat n <=? buf_length b)
  then Some (map byte_val (firstn n (skipn (Z.to_nat p) b)))
  else None.

(** Little-endian and big-endian reassembly of a run of bytes. *)
Fixpoint le_value (bs : list Z) : Z :=
  match bs with
  | [] => 0
  | b :: rest => b + 256 * le_value rest
  end.

Definition be_value (bs : list Z) : Z := le_value (rev bs).

(** Two's-complement reading of an unsigned [bits]-bit value. *)
Definition to_signed (bits : Z) (v : Z) : Z :=
  if v <? 2 ^ (bits - 1) then v else v - 2 ^ bits.

(** ** Outcomes and the reader monad *)

(** What a call can raise: Node's buffer reads raise a [RangeError]
    ([ERR_OUT_OF_RANGE]) when the offset leaves the buffer, and
    [buf.toString] raises a plain [Error] ([ERR_STRING_TOO_LONG]) when
    the string it is asked for is longer than the engine allows. *)
Inductive exn := RangeError | Error.

(** The outcome of running a piece of the parser: a value, a raised
    exception, or a loop that is still running when the fuel is spent. *)
Inductive result (A : Type) :=
| Ok (a : A)
| Throw (e : exn)
| OutOfFuel.
Arguments Ok {A} a.
Arguments Throw {A} e.
Arguments OutOfFuel {A}.

(** [class Reader]: the buffer, the two flags fixed by the constructor,
    and the cursor. *)
Record Reader := mkReader {
  buf : Buffer;
  is64 : bool;
  isLE : bool;
  pos : Z
}.

Definition set_pos (r : Reader) (p : Z) : Reader :=
  mkReader (buf r) (is64 r) (isLE r) p.

Definition M (A : Type) := Reader -> result A * Reader.

Definition ret {A} (a : A) : M A := fun r => (Ok a, r).

Definition throw {A} (e : exn) : M A := fun r => (Throw e, r).

Definition bind {A B} (m : M A) (k : A -> M B) : M B :=
  fun r =>
    match m r with
    | (Ok a, r') => k a r'
    | (Throw e, r') => (Throw e, r')
    | (OutOfFuel, r') => (OutOfFuel, r')
    end.

Declare Scope reader_scope.
Delimit Scope reader_scope with reader.
Notation "x <- c ;; k" := (bind c (fun x => k))
  (at level 100, c at next level, right associativity) : reader_scope.
Notation "c ;;; k" := (bind c (fun _ => k))
  (at level 100, right associativity) : reader_scope.
Local Open Scope reader_scope.

(** Reading a field of the reader without touching it. *)
Definition get_buf : M Buffer := fun r => (Ok (buf r), r).
Definition get_is64 : M bool := fun r => (Ok (is64 r), r).

(** A call that does not use the reader (it may raise, or be a loop
    that runs out of fuel), run inside the parser. *)
Definition lift {A} (x : result A) : M A := fun r => (x, r).

(** Running the actions of a list in order, collecting the results. *)
Fixpoint mapM {A B} (f : A -> M B) (l : list A) : M (list B) :=
  match l with
  | [] => ret []
  | a :: rest =>
      b <- f a ;;
      bs <- mapM f rest ;;
      ret (b :: bs)
  end.

(** ** [class Reader] *)

Module Rd.

(** [seek(pos) { this.pos = pos; }] *)
Definition seek (p : Z) : M unit := fun r => (Ok tt, set_pos r p).

(** [u8() { return this.buf[this.pos++]; }]: an index read, which gives
    [undefined] outside the buffer and moves the cursor all the same. *)
Definition u8 : M (option Z) :=
  fun r => (Ok (buf_get (buf r) (pos r)), set_pos r (JSNumber.add (pos r) 1)).

(** The shape shared by the multi-byte reads: Node's [readUIntNN{LE,BE}]
    raises when the run leaves the buffer, before the cursor moves. *)
Definition read_n (n : nat) (conv : Z -> Z) : M Z :=
  fun r =>
    match buf_bytes (buf r) (pos r) n with
    | Some bs =>
        (Ok (conv (if isLE r then le_value bs else be_value bs)),
         set_pos r (JSNumber.add (pos r) (Z.of_nat n)))
    | None => (Throw RangeError, r)
    end.

Definition u16 : M Z := read_n 2 (fun v => v).
Definition u32 : M Z := read_n 4 (fun v => v).
Definition u64 : M Z := read_n 8 (fun v => v).

(** [addr], [off] and [xword] have one body:
    [this.is64 ? this.u64() : BigInt(this.u32())]. *)
Definition addr : M Z := fun r => if is64 r then u64 r else u32 r.
Definition off : M Z := addr.
Definition xword : M Z := addr.

(** [sxword]: [readBigInt64{LE,BE}] or [readInt32{LE,BE}]. *)
Definition sxword : M Z :=
  fun r => if is64 r then read_n 8 (to_signed 64) r
           else read_n 4 (to_signed 32) r.

End Rd.

(** ** Strings *)

(** A JavaScript string: its UTF-16 code units. *)
Definition jsstring := list Z.

(** A string literal of the source (ASCII only). *)
Definition js (s : string) : jsstring :=
  map (fun a => Z.of_N (N_of_ascii a)) (list_ascii_of_string s).
Arguments js s%_string.

Definition jsstring_eqb (a b : jsstring) : bool :=
  if list_eq_dec Z.eq_dec a b then true else false.

(** [v === n] for a value that may be [undefined]. *)
Definition is_num (v : option Z) (n : Z) : bool :=
  match v with Some x => x =? n | None => false end.

(** [buf.toString('utf8', start, end)]: the UTF-8 decoder of the engine,
    which follows the WHATWG algorithm: every maximal ill-formed run
    becomes one U+FFFD, and a byte that breaks a sequence is looked at
    again as the start of the next one. *)
Module Utf8.

Record state := mkState {
  cp : Z;        (* code point so far *)
  needed : Z;    (* continuation bytes still to come *)
  lower : Z;     (* bounds of the next continuation byte *)
  upper : Z
}.

Inductive step := Emit (c : Z) | Pending (s : state).

Definition lead (b : Z) : step :=
  if b <=? 127 then Emit b
  else if (194 <=? b) && (b <=? 223) then
    Pending (mkState (Z.land b 31) 1 128 191)
  else if (224 <=? b) && (b <=? 239) then
    Pending (mkState (Z.land b 15) 2
               (if b =? 224 then 160 else 128)
               (if b =? 237 then 159 else 191))
  else if (240 <=? b) && (b <=? 244) then
    Pending (mkState (Z.land b 7) 3
               (if b =? 240 then 144 else 128)
               (if b =? 244 then 143 else 191))
  else Emit 65533.

Fixpoint code_points (bs : list Z) (st : option state) : list Z :=
  match bs with
  | [] => match st with None => [] | Some _ => [65533] end
  | b :: rest =>
      match st with
      | None =>
          match lead b with
          | Emit c => c :: code_points rest None
          | Pending s => code_points rest (Some s)
          end
      | Some s =>
          if (lower s <=? b) && (b <=? upper s) then
            let c := Z.lor (Z.shiftl (cp s) 6) (Z.land b 63) in
            if needed s =? 1 then c :: code_points rest None
            else code_points rest (Some (mkState c (needed s - 1) 128 191))
          else
            65533 ::
            match lead b with
            | Emit c => c :: code_points rest None
            | Pending s' => code_points rest (Some s')
            end
      end
  end.

(** The UTF-16 code units of a code point. *)
Definition units (c : Z) : list Z :=
  if c <? 65536 then [c]
  else [55296 + Z.shiftr (c - 65536) 10; 56320 + Z.land (c - 65536) 1023].

Definition decode (bs : list Z) : jsstring :=
  flat_map units (code_points bs None).

End Utf8.

(** The bytes from the head of [bs] up to the first NUL, the NUL left
    out. *)
Fixpoint until_nul (bs : list byte) : list byte :=
  match bs with
  | [] => []
  | b :: rest => if byte_val b =? 0 then [] else b :: until_nul rest
  end.

(** [buffer.constants.MAX_STRING_LENGTH] of Node on a 64-bit platform,
    [2^29 - 24]: the engine creates no string longer than that. *)
Definition MAX_STRING_LENGTH : Z := 536870888.

(** [buf.indexOf(0, byteOffset)] for a [byteOffset] that is not
    negative: the index of the first NUL from [byteOffset] on, or [None]
    for the [-1] that says there is none.  Node takes a [byteOffset]
    above [0x7fffffff] for [0x7fffffff], so that the search then starts
    there, before [byteOffset]. *)
Definition indexOf_nul (b : Buffer) (byteOffset : Z) : option Z :=
  let from := if 2147483647 <? byteOffset then 2147483647 else byteOffset in
  let e := from + Z.of_nat (length (until_nul (skipn (Z.to_nat from) b))) in
  if e <? buf_length b then Some e else None.

(** [buf.toString('utf8', start, end)], [end_] being [None] when the
    call leaves [end] out: the decoding of the bytes at [[start, end)],
    the empty string when the range is empty, and a plain [Error]
    (Cannot create a string longer than 0x1fffffe8 characters) when the
    range holds more than [MAX_STRING_LENGTH] bytes. *)
Definition toString (b : Buffer) (start : Z) (end_ : option Z)
    : result jsstring :=
  let len := buf_length b in
  if (0 <? start) && (len <=? start) then Ok []
  else
    let start := Z.max start 0 in
    let e := match end_ with
             | Some e => if len <? e then len else e
             | None => len
             end in
    if e <=? start then Ok []
    else if MAX_STRING_LENGTH <? e - start then Throw Error
    else Ok (Utf8.decode
               (map byte_val
                  (firstn (Z.to_nat (e - start)) (skipn (Z.to_nat start) b)))).

(** [function readCString(buf, offset)]. *)
Definition readCString (b : Buffer) (offset : Z) : result jsstring :=
  if (offset <? 0) || (buf_length b <=? offset) then Ok []
  else
    match indexOf_nul b offset with
    | None => toString b offset None
    | Some e => toString b offset (Some e)
    end.

(** ** The decoded model (the interfaces of [elf-parser.ts]) *)

Record ElfHeader := mkElfHeader {
  h_class : option Z;
  h_data : option Z;
  h_version : option Z;
  h_osabi : option Z;
  h_type : Z;
  h_machine : Z;
  h_entry : Z;
  h_phoff : Z;
  h_shoff : Z;
  h_flags : Z;
  h_ehsize : Z;
  h_phentsize : Z;
  h_phnum : Z;
  h_shentsize : Z;
  h_shnum : Z;
  h_shstrndx : Z
}.

Record ProgramHeader := mkProgramHeader {
  ph_type : Z;
  ph_flags : Z;
  ph_offset : Z;
  ph_vaddr : Z;
  ph_paddr : Z;
  ph_filesz : Z;
  ph_memsz : Z;
  ph_align : Z
}.

Record SectionHeader := mkSectionHeader {
  sh_nameIdx : Z;
  sh_name : jsstring;
  sh_type : Z;
  sh_flags : Z;
  sh_addr : Z;
  sh_offset : Z;
  sh_size : Z;
  sh_link : Z;
  sh_info : Z;
  sh_addralign : Z;
  sh_entsize : Z
}.

Record ElfSymbol := mkElfSymbol {
  sym_nameIdx : Z;
  sym_name : jsstring;
  sym_value : Z;
  sym_size : Z;
  sym_info : option Z;
  sym_other : option Z;
  sym_shndx : Z;
  sym_fileOffset : Z;
  sym_entSize : Z
}.

Record DynEntry := mkDynEntry {
  dyn_tag : Z;
  dyn_val : Z;
  dyn_fileOffset : Z;
  dyn_entSize : Z
}.

Record RelEntry := mkRelEntry {
  rel_offset : Z;
  rel_info : Z;
  rel_addend : option Z;
  rel_symbolName : option jsstring;
  rel_fileOffset : Z;
  rel_entSize : Z
}.

Record StringEntry := mkStringEntry {
  str_value : jsstring;
  str_fileOffset : Z;
  str_length : Z
}.

(** The three [{ section, sectionOffset, ... }] shapes of [ElfFile]. *)
Record Table (A : Type) := mkTable {
  section : jsstring;
  sectionOffset : Z;
  entries : list A
}.
Arguments mkTable {A} _ _ _.
Arguments section {A} _.
Arguments sectionOffset {A} _.
Arguments entries {A} _.

Record ElfFile := mkElfFile {
  header : ElfHeader;
  programHeaders : list ProgramHeader;
  sectionHeaders : list SectionHeader;
  symbols : list (Table ElfSymbol);
  dynamicEntries : list DynEntry;
  dynamicSectionOffset : Z;
  relocations : list (Table RelEntry);
  stringTables : list (Table StringEntry)
}.

(** ** [parseElf] *)

(** The indices [0, 1, ..., n-1] of a [for (let i = 0; i < n; i++)] whose
    bound is a 16-bit count. *)
Definition indices (n : Z) : list Z := map Z.of_nat (seq 0 (Z.to_nat n)).

(** A [for (let i = 0; i < count; i++)] whose bound is the binary64
    quotient [count]; [body] gives the entry it pushes and whether it
    then breaks out of the loop. *)
Fixpoint count_loop {A} (fuel : nat) (count : spec_float)
    (body : Z -> M (A * bool)) (i : Z) : M (list A) :=
  if JSNumber.ltb_float i count then
    match fuel with
    | O => fun r => (OutOfFuel, r)
    | S fuel' =>
        ab <- body i ;;
        if snd ab then ret [fst ab]
        else
          rest <- count_loop fuel' count body (JSNumber.add i 1) ;;
          ret (fst ab :: rest)
    end
  else ret [].

(** The header fields read through the reader (from [r.seek(6)] to
    [const shstrndx = r.u16()]) and the [header] object built from
    them. *)
Definition parseHeader (elfClass elfData : option Z) : M ElfHeader :=
  Rd.seek 6 ;;;
  version <- Rd.u8 ;;
  osabi <- Rd.u8 ;;
  Rd.seek 16 ;;;
  type <- Rd.u16 ;;
  machine <- Rd.u16 ;;
  _ <- Rd.u32 ;;
  entry <- Rd.addr ;;
  phoff <- Rd.off ;;
  shoff <- Rd.off ;;
  flags <- Rd.u32 ;;
  ehsize <- Rd.u16 ;;
  phentsize <- Rd.u16 ;;
  phnum <- Rd.u16 ;;
  shentsize <- Rd.u16 ;;
  shnum <- Rd.u16 ;;
  shstrndx <- Rd.u16 ;;
  ret (mkElfHeader elfClass elfData version osabi type machine
         entry phoff shoff flags ehsize phentsize phnum shentsize shnum
         shstrndx).

(** The body of the program header loop at index [i]. *)
Definition programHeader (phoff phentsize : Z) (i : Z) : M ProgramHeader :=
  Rd.seek (JSNumber.add (JSNumber.Number phoff) (JSNumber.mul i phentsize)) ;;;
  is64 <- get_is64 ;;
  ptype <- Rd.u32 ;;
  pflags0 <- (if is64 : bool then Rd.u32 else ret 0) ;;
  poffset <- Rd.off ;;
  pvaddr <- Rd.addr ;;
  ppaddr <- Rd.addr ;;
  pfilesz <- Rd.xword ;;
  pmemsz <- Rd.xword ;;
  pflags <- (if is64 : bool then ret pflags0 else Rd.u32) ;;
  palign <- Rd.xword ;;
  ret (mkProgramHeader ptype pflags poffset pvaddr ppaddr pfilesz pmemsz
         palign).

Definition parseProgramHeaders (h : ElfHeader) : M (list ProgramHeader) :=
  mapM (programHeader (h_phoff h) (h_phentsize h)) (indices (h_phnum h)).

(** The body of the section header loop at index [i]. *)
Definition sectionHeader (shoff shentsize : Z) (i : Z) : M SectionHeader :=
  Rd.seek (JSNumber.add (JSNumber.Number shoff) (JSNumber.mul i shentsize)) ;;;
  shnameIdx <- Rd.u32 ;;
  shtype <- Rd.u32 ;;
  shflags <- Rd.xword ;;
  shaddr <- Rd.addr ;;
  shoffset <- Rd.off ;;
  shsize <- Rd.xword ;;
  shlink <- Rd.u32 ;;
  shinfo <- Rd.u32 ;;
  shaddralign <- Rd.xword ;;
  shentsize2 <- Rd.xword ;;
  ret (mkSectionHeader shnameIdx [] shtype shflags shaddr shoffset shsize
         shlink shinfo shaddralign shentsize2).

Definition parseSectionHeaders (h : ElfHeader) : M (list SectionHeader) :=
  mapM (sectionHeader (h_shoff h) (h_shentsize h)) (indices (h_shnum h)).

Definition set_sh_name (sh : SectionHeader) (n : jsstring) : SectionHeader :=
  mkSectionHeader (sh_nameIdx sh) n (sh_type sh) (sh_flags sh) (sh_addr sh)
    (sh_offset sh) (sh_size sh) (sh_link sh) (sh_info sh) (sh_addralign sh)
    (sh_entsize sh).

(** [sectionHeaders[i]] for a number [i] that holds an integer. *)
Definition section_at (shs : list SectionHeader) (i : Z) : option SectionHeader :=
  if i <? 0 then None else nth_error shs (Z.to_nat i).

(** [if (shstrndx < sectionHeaders.length) { ... sh.name = ... }]: the
    names are set one section after the other, and a [readCString] that
    raises ends the loop and the parse. *)
Definition resolveSectionNames (data : Buffer) (shstrndx : Z)
    (shs : list SectionHeader) : M (list SectionHeader) :=
  if shstrndx <? Z.of_nat (length shs) then
    match section_at shs shstrndx with
    | Some strtab =>
        let strtabOff := JSNumber.Number (sh_offset strtab) in
        mapM (fun sh =>
                name <- lift (readCString data
                                (JSNumber.add strtabOff (sh_nameIdx sh))) ;;
                ret (set_sh_name sh name))
             shs
    | None => ret shs
    end
  else ret shs.

(** [sh.link < sectionHeaders.length ? sectionHeaders[sh.link] : null]. *)
Definition linked_section (shs : list SectionHeader) (sh : SectionHeader)
    : option SectionHeader :=
  if sh_link sh <? Z.of_nat (length shs) then section_at shs (sh_link sh)
  else None.

(** *** Symbol tables *)

(** [Number(sh.entsize) || (is64 ? 24 : 16)]. *)
Definition symEntSize (is64 : bool) (sh : SectionHeader) : Z :=
  JSNumber.or_default (JSNumber.Number (sh_entsize sh))
    (if is64 then 24 else 16).

(** [Number(sh.size) / entSize]. *)
Definition entryCount (sh : SectionHeader) (entSize : Z) : spec_float :=
  JSNumber.div (JSNumber.Number (sh_size sh)) entSize.

(** The body of the symbol loop at index [i]. *)
Definition symbol (secOff entSize : Z) (strSec : option SectionHeader)
    (strOff : Z) (i : Z) : M (ElfSymbol * bool) :=
  let symFileOffset := JSNumber.add secOff (JSNumber.mul i entSize) in
  Rd.seek symFileOffset ;;;
  is64 <- get_is64 ;;
  sym <- (if is64 : bool then
            nameIdx <- Rd.u32 ;;
            info <- Rd.u8 ;;
            other <- Rd.u8 ;;
            shndx <- Rd.u16 ;;
            value <- Rd.addr ;;
            size <- Rd.xword ;;
            ret (mkElfSymbol nameIdx [] value size info other shndx
                   symFileOffset entSize)
          else
            nameIdx <- Rd.u32 ;;
            value <- Rd.addr ;;
            size <- Rd.xword ;;
            info <- Rd.u8 ;;
            other <- Rd.u8 ;;
            shndx <- Rd.u16 ;;
            ret (mkElfSymbol nameIdx [] value size info other shndx
                   symFileOffset entSize)) ;;
  data <- get_buf ;;
  match strSec with
  | Some _ =>
      name <- lift (readCString data
                      (JSNumber.add strOff (sym_nameIdx sym))) ;;
      ret (mkElfSymbol (sym_nameIdx sym) name
             (sym_value sym) (sym_size sym) (sym_info sym) (sym_other sym)
             (sym_shndx sym) (sym_fileOffset sym) (sym_entSize sym), false)
  | None => ret (sym, false)
  end.

(** [a || b] on strings: the empty string is falsy. *)
Definition str_or (a b : jsstring) : jsstring :=
  match a with [] => b | _ => a end.

(** One turn of [for (const sh of sectionHeaders)] past the
    [sh.type !== 2 && sh.type !== 11] test. *)
Definition symbolTable (fuel : nat) (shs : list SectionHeader)
    (sh : SectionHeader) : M (Table ElfSymbol) :=
  is64 <- get_is64 ;;
  let entSize := symEntSize is64 sh in
  let count := entryCount sh entSize in
  let secOff := JSNumber.Number (sh_offset sh) in
  let strSec := linked_section shs sh in
  let strOff := match strSec with
                | Some s => JSNumber.Number (sh_offset s)
                | None => 0
                end in
  syms <- count_loop fuel count (symbol secOff entSize strSec strOff) 0 ;;
  ret (mkTable
         (str_or (sh_name sh)
            (if sh_type sh =? 2 then js ".symtab" else js ".dynsym"))
         secOff syms).

Definition is_symtab (sh : SectionHeader) : bool :=
  (sh_type sh =? 2) || (sh_type sh =? 11).

Definition parseSymbols (fuel : nat) (shs : list SectionHeader)
    : M (list (Table ElfSymbol)) :=
  mapM (symbolTable fuel shs) (filter is_symtab shs).

(** *** The dynamic section *)

(** [Number(sh.entsize) || (is64 ? 16 : 8)]. *)
Definition dynEntSize (is64 : bool) (sh : SectionHeader) : Z :=
  JSNumber.or_default (JSNumber.Number (sh_entsize sh))
    (if is64 then 16 else 8).

(** The body of the dynamic loop at index [i]: the entry is pushed, then
    [if (tag === 0n) break]. *)
Definition dynEntry (secOff entSize : Z) (i : Z) : M (DynEntry * bool) :=
  let entFileOffset := JSNumber.add secOff (JSNumber.mul i entSize) in
  Rd.seek entFileOffset ;;;
  tag <- Rd.sxword ;;
  val <- Rd.xword ;;
  ret (mkDynEntry tag val entFileOffset entSize, tag =? 0).

(** The entries one section of type 6 adds to [dynamicEntries]. *)
Definition dynamicSection (fuel : nat) (sh : SectionHeader)
    : M (list DynEntry) :=
  is64 <- get_is64 ;;
  let entSize := dynEntSize is64 sh in
  let count := entryCount sh entSize in
  let secOff := JSNumber.Number (sh_offset sh) in
  count_loop fuel count (dynEntry secOff entSize) 0.

(** [for (const sh of sectionHeaders)] over the sections of type 6:
    every one appends to the same [dynamicEntries] and overwrites
    [dynamicSectionOffset]. *)
Fixpoint parseDynamic (fuel : nat) (shs : list SectionHeader)
    (acc : list DynEntry) (dynOff : Z) : M (list DynEntry * Z) :=
  match shs with
  | [] => ret (acc, dynOff)
  | sh :: rest =>
      if sh_type sh =? 6 then
        es <- dynamicSection fuel sh ;;
        parseDynamic fuel rest (acc ++ es) (JSNumber.Number (sh_offset sh))
      else parseDynamic fuel rest acc dynOff
  end.

(** *** Relocations *)

(** [Number(sh.entsize) || (is64 ? (isRela ? 24 : 16) : (isRela ? 12 : 8))]. *)
Definition relEntSize (is64 isRela : bool) (sh : SectionHeader) : Z :=
  JSNumber.or_default (JSNumber.Number (sh_entsize sh))
    (if is64 then (if isRela then 24 else 16)
     else (if isRela then 12 else 8)).

(** [is64 ? Number(info >> 32n) : Number(info >> 8n)]. *)
Definition symIdx (is64 : bool) (info : Z) : Z :=
  if is64 then JSNumber.Number (Z.shiftr info 32)
  else JSNumber.Number (Z.shiftr info 8).

(** [symSymbols && symIdx > 0 && symIdx < symSymbols.length] and the
    name it then picks. *)
Definition relSymbolName (symSymbols : option (list ElfSymbol)) (idx : Z)
    : option jsstring :=
  match symSymbols with
  | Some syms =>
      if (0 <? idx) && (idx <? Z.of_nat (length syms)) then
        option_map sym_name (nth_error syms (Z.to_nat idx))
      else None
  | None => None
  end.

(** The body of the relocation loop at index [i]. *)
Definition relEntry (isRela : bool) (secOff entSize : Z)
    (symSymbols : option (list ElfSymbol)) (i : Z) : M (RelEntry * bool) :=
  let entFileOffset := JSNumber.add secOff (JSNumber.mul i entSize) in
  Rd.seek entFileOffset ;;;
  is64 <- get_is64 ;;
  offset <- Rd.addr ;;
  info <- Rd.xword ;;
  addend <- (if isRela then a <- Rd.sxword ;; ret (Some a) else ret None) ;;
  let symbolName := relSymbolName symSymbols (symIdx is64 info) in
  ret (mkRelEntry offset info addend symbolName entFileOffset entSize, false).

(** [symbols.find(s => s.section === symSec.name)] and its [.symbols]. *)
Definition findSymbols (symbols : list (Table ElfSymbol))
    (symSec : option SectionHeader) : option (list ElfSymbol) :=
  match symSec with
  | Some sec =>
      option_map entries
        (find (fun s => jsstring_eqb (section s) (sh_name sec)) symbols)
  | None => None
  end.

(** One turn of [for (const sh of sectionHeaders)] past the
    [sh.type !== 4 && sh.type !== 9] test. *)
Definition relocationTable (fuel : nat) (shs : list SectionHeader)
    (symbols : list (Table ElfSymbol)) (sh : SectionHeader)
    : M (Table RelEntry) :=
  is64 <- get_is64 ;;
  let isRela := sh_type sh =? 4 in
  let entSize := relEntSize is64 isRela sh in
  let count := entryCount sh entSize in
  let secOff := JSNumber.Number (sh_offset sh) in
  let symSymbols := findSymbols symbols (linked_section shs sh) in
  es <- count_loop fuel count (relEntry isRela secOff entSize symSymbols) 0 ;;
  ret (mkTable (sh_name sh) secOff es).

Definition is_reloc (sh : SectionHeader) : bool :=
  (sh_type sh =? 4) || (sh_type sh =? 9).

Definition parseRelocations (fuel : nat) (shs : list SectionHeader)
    (symbols : list (Table ElfSymbol)) : M (list (Table RelEntry)) :=
  mapM (relocationTable fuel shs symbols) (filter is_reloc shs).

(** *** String tables *)

(** What comes of a result when a function is applied to its value. *)
Definition result_map {A B} (f : A -> B) (x : result A) : result B :=
  match x with
  | Ok a => Ok (f a)
  | Throw e => Throw e
  | OutOfFuel => OutOfFuel
  end.

(** [while (pos < end) { const s = readCString(data, pos); ... }]. *)
Fixpoint walkStrings (fuel : nat) (data : Buffer) (pos end_ : Z)
    : result (list StringEntry) :=
  if pos <? end_ then
    match fuel with
    | O => OutOfFuel
    | S fuel' =>
        match readCString data pos with
        | Ok s =>
            let slen := Z.of_nat (length s) in
            let next := JSNumber.add pos (JSNumber.add slen 1) in
            let rest := walkStrings fuel' data next end_ in
            if 0 <? slen then
              result_map (cons (mkStringEntry s pos (JSNumber.add slen 1)))
                rest
            else rest
        | Throw e => Throw e
        | OutOfFuel => OutOfFuel
        end
    end
  else Ok [].

(** One turn of [for (const sh of sectionHeaders)] past the
    [sh.type !== 3] test. *)
Definition stringTable (fuel : nat) (data : Buffer) (sh : SectionHeader)
    : result (Table StringEntry) :=
  let off := JSNumber.Number (sh_offset sh) in
  let end_ := JSNumber.add off (JSNumber.Number (sh_size sh)) in
  result_map (mkTable (sh_name sh) off) (walkStrings fuel data off end_).

Definition is_strtab (sh : SectionHeader) : bool := sh_type sh =? 3.

Definition parseStringTables (fuel : nat) (shs : list SectionHeader)
    : M (list (Table StringEntry)) :=
  mapM (fun sh => data <- get_buf ;; lift (stringTable fuel data sh))
       (filter is_strtab shs).

(** *** The whole parser *)

(** Everything [parseElf] does with the reader [r], from [r.seek(6)] to
    the [return] of the model. *)
Definition parseBody (fuel : nat) (elfClass elfData : option Z) : M ElfFile :=
  hdr <- parseHeader elfClass elfData ;;
  phs <- parseProgramHeaders hdr ;;
  shs0 <- parseSectionHeaders hdr ;;
  data <- get_buf ;;
  shs <- resolveSectionNames data (h_shstrndx hdr) shs0 ;;
  syms <- parseSymbols fuel shs ;;
  dyn <- parseDynamic fuel shs [] 0 ;;
  rels <- parseRelocations fuel shs syms ;;
  strs <- parseStringTables fuel shs ;;
  ret (mkElfFile hdr phs shs syms (fst dyn) (snd dyn) rels strs).

(** [data[0] !== 0x7f || data[1] !== 0x45 || data[2] !== 0x4c ||
    data[3] !== 0x46]. *)
Definition bad_magic (data : Buffer) : bool :=
  negb (is_num (buf_get data 0) 127) || negb (is_num (buf_get data 1) 69)
  || negb (is_num (buf_get data 2) 76) || negb (is_num (buf_get data 3) 70).

(** [export function parseElf(data: Buffer): ElfFile | null].  The
    outcome comes with the buffer as the call leaves it; [Ok None] is
    the [null] the parser returns for what is not an ELF file. *)
Definition parseElf (fuel : nat) (data : Buffer)
    : result (option ElfFile) * Buffer :=
  if buf_length data <? 52 then (Ok None, data)
  else if bad_magic data then (Ok None, data)
  else
    let elfClass := buf_get data 4 in
    let elfData := buf_get data 5 in
    let r := mkReader data (is_num elfClass 2) (is_num elfData 1) 0 in
    match parseBody fuel elfClass elfData r with
    | (Ok m, r') => (Ok (Some m), buf r')
    | (Throw e, r') => (Throw e, buf r')
    | (OutOfFuel, r') => (OutOfFuel, buf r')
    end.


(** ** The objects of a decode *)

(** [parseElf] once more, now with the objects it creates.  The parser
    above computes the values of the model; here every object literal
    and every array literal of the source allocates an object in a
    heap, [push] and the assignment [sh.name = ...] update an object in
    place, and an object that holds another holds a reference to it.
    The values of the fields are those the parser above computes: each
    loop body below runs the body of the parser and then creates the
    object. *)

Module Heap.

(** The location of an object in the heap. *)
Definition loc := nat.

(** A JavaScript value: a primitive, or a reference to an object. *)
Inductive value :=
| Undefined
| Bool (b : bool)
| Num (n : Z)
| Big (n : Z)
| Str (s : jsstring)
| Ref (l : loc).

(** An object: a [Buffer] with its bytes, an object with its named
    properties, or an array. *)
Inductive object :=
| Buf (bytes : Buffer)
| Obj (fields : list (string * value))
| Arr (elems : list value).

(** The heap: the object at every location, in the order of creation. *)
Definition heap := list object.

(** A computation of the parser that also creates and updates objects. *)
Definition H (A : Type) := heap -> Reader -> result A * heap * Reader.

Definition retH {A} (a : A) : H A := fun h r => (Ok a, h, r).

Definition bindH {A B} (m : H A) (k : A -> H B) : H B :=
  fun h r =>
    match m h r with
    | (Ok a, h', r') => k a h' r'
    | (Throw e, h', r') => (Throw e, h', r')
    | (OutOfFuel, h', r') => (OutOfFuel, h', r')
    end.

Declare Scope heap_scope.
Delimit Scope heap_scope with heap.
Notation "x <- c ;; k" := (bindH c (fun x => k))
  (at level 100, c at next level, right associativity) : heap_scope.
Notation "c ;;; k" := (bindH c (fun _ => k))
  (at level 100, right associativity) : heap_scope.
Local Open Scope heap_scope.

(** The object at [l] replaced by [f] of it. *)
Definition update (h : heap) (l : loc) (f : object -> object) : heap :=
  match nth_error h l with
  | Some o => firstn l h ++ f o :: skipn (S l) h
  | None => h
  end.

(** An object or array literal: a new object, at a new location. *)
Definition alloc (o : object) : H loc :=
  fun h r => (Ok (length h), h ++ [o], r).

Definition push_elem (v : value) (o : object) : object :=
  match o with
  | Arr es => Arr (es ++ [v])
  | _ => o
  end.

(** [arr.push(v)]. *)
Definition push (arr : loc) (v : value) : H unit :=
  fun h r => (Ok tt, update h arr (push_elem v), r).

Fixpoint set_field (fs : list (string * value)) (name : string) (v : value)
    : list (string * value) :=
  match fs with
  | [] => [(name, v)]
  | (n, x) :: rest =>
      if String.eqb n name then (n, v) :: rest
      else (n, x) :: set_field rest name v
  end.

Definition set_prop (name : string) (v : value) (o : object) : object :=
  match o with
  | Obj fs => Obj (set_field fs name v)
  | _ => o
  end.

(** [o.name = v]. *)
Definition setField (l : loc) (name : string) (v : value) : H unit :=
  fun h r => (Ok tt, update h l (set_prop name v), r).

(** The [Reader] object: it holds a reference to the buffer it was
    given, the two flags and the cursor. *)
Definition readerObject (ldata : loc) (r : Reader) : object :=
  Obj [("buf"%string, Ref ldata); ("is64"%string, Bool (is64 r));
       ("isLE"%string, Bool (isLE r)); ("pos"%string, Num (pos r))].

(** A computation of the parser above, run on the reader object at
    [lr], which holds the buffer at [ldata]: the calls move its
    cursor. *)
Definition run {A} (lr ldata : loc) (m : M A) : H A :=
  fun h r =>
    let (res, r') := m r in
    (res, update h lr (fun _ => readerObject ldata r'), r').

Fixpoint mapH {A B} (f : A -> H B) (l : list A) : H (list B) :=
  match l with
  | [] => retH []
  | a :: rest =>
      b <- f a ;;
      bs <- mapH f rest ;;
      retH (b :: bs)
  end.

(** [count_loop] with a body that creates objects. *)
Fixpoint count_loop {A} (fuel : nat) (count : spec_float)
    (body : Z -> H (A * bool)) (i : Z) : H (list A) :=
  if JSNumber.ltb_float i count then
    match fuel with
    | O => fun h r => (OutOfFuel, h, r)
    | S fuel' =>
        ab <- body i ;;
        if snd ab then retH [fst ab]
        else
          rest <- count_loop fuel' count body (JSNumber.add i 1) ;;
          retH (fst ab :: rest)
    end
  else retH [].

(** *** The object literals of the source *)

(** A number that may be [undefined] (a byte read past the end). *)
Definition num_or_undefined (v : option Z) : value :=
  match v with Some n => Num n | None => Undefined end.

(** [{ class: elfClass, data: elfData, version, osabi, type, machine,
    entry, phoff, shoff, flags, ehsize, phentsize, phnum, shentsize,
    shnum, shstrndx }]. *)
Definition headerFields (h : ElfHeader) : list (string * value) :=
  [("class", num_or_undefined (h_class h));
   ("data", num_or_undefined (h_data h));
   ("version", num_or_undefined (h_version h));
   ("osabi", num_or_undefined (h_osabi h));
   ("type", Num (h_type h)); ("machine", Num (h_machine h));
   ("entry", Big (h_entry h)); ("phoff", Big (h_phoff h));
   ("shoff", Big (h_shoff h)); ("flags", Num (h_flags h));
   ("ehsize", Num (h_ehsize h)); ("phentsize", Num (h_phentsize h));
   ("phnum", Num (h_phnum h)); ("shentsize", Num (h_shentsize h));
   ("shnum", Num (h_shnum h)); ("shstrndx", Num (h_shstrndx h))]%string.

(** [{ type: ptype, flags: pflags, offset: poffset, vaddr: pvaddr,
    paddr: ppaddr, filesz: pfilesz, memsz: pmemsz, align: palign }]. *)
Definition programHeaderFields (p : ProgramHeader) : list (string * value) :=
  [("type", Num (ph_type p)); ("flags", Num (ph_flags p));
   ("offset", Big (ph_offset p)); ("vaddr", Big (ph_vaddr p));
   ("paddr", Big (ph_paddr p)); ("filesz", Big (ph_filesz p));
   ("memsz", Big (ph_memsz p)); ("align", Big (ph_align p))]%string.

(** [{ nameIdx: shnameIdx, name: '', type: shtype, flags: shflags,
    addr: shaddr, offset: shoffset, size: shsize, link: shlink,
    info: shinfo, addralign: shaddralign, entsize: shentsize2 }]. *)
Definition sectionHeaderFields (s : SectionHeader) : list (string * value) :=
  [("nameIdx", Num (sh_nameIdx s)); ("name", Str (sh_name s));
   ("type", Num (sh_type s)); ("flags", Big (sh_flags s));
   ("addr", Big (sh_addr s)); ("offset", Big (sh_offset s));
   ("size", Big (sh_size s)); ("link", Num (sh_link s));
   ("info", Num (sh_info s)); ("addralign", Big (sh_addralign s));
   ("entsize", Big (sh_entsize s))]%string.

(** [{ nameIdx, name: '', value, size, info, other, shndx,
    _fileOffset: symFileOffset, _entSize: entSize }], with the name
    that [sym.name = readCString(...)] then gives it. *)
Definition symbolFields (s : ElfSymbol) : list (string * value) :=
  [("nameIdx", Num (sym_nameIdx s)); ("name", Str (sym_name s));
   ("value", Big (sym_value s)); ("size", Big (sym_size s));
   ("info", num_or_undefined (sym_info s));
   ("other", num_or_undefined (sym_other s));
   ("shndx", Num (sym_shndx s));
   ("_fileOffset", Num (sym_fileOffset s));
   ("_entSize", Num (sym_entSize s))]%string.

(** [{ tag, val, _fileOffset: entFileOffset, _entSize: entSize }]. *)
Definition dynEntryFields (e : DynEntry) : list (string * value) :=
  [("tag", Big (dyn_tag e)); ("val", Big (dyn_val e));
   ("_fileOffset", Num (dyn_fileOffset e));
   ("_entSize", Num (dyn_entSize e))]%string.

(** [{ offset, info, addend, symbolName, _fileOffset: entFileOffset,
    _entSize: entSize }]; the symbol name is the string that
    [symSymbols[symIdx].name] evaluates to. *)
Definition relEntryFields (e : RelEntry) : list (string * value) :=
  [("offset", Big (rel_offset e)); ("info", Big (rel_info e));
   ("addend", match rel_addend e with Some a => Big a | None => Undefined end);
   ("symbolName",
    match rel_symbolName e with Some s => Str s | None => Undefined end);
   ("_fileOffset", Num (rel_fileOffset e));
   ("_entSize", Num (rel_entSize e))]%string.

(** [{ value: s, fileOffset: pos, length: s.length + 1 }]. *)
Definition stringEntryFields (e : StringEntry) : list (string * value) :=
  [("value", Str (str_value e)); ("fileOffset", Num (str_fileOffset e));
   ("length", Num (str_length e))]%string.

(** [{ section: ..., sectionOffset: ..., <items>: <the array> }]. *)
Definition tableFields (items : string) (name : jsstring) (off : Z)
    (arr : loc) : list (string * value) :=
  [("section"%string, Str name); ("sectionOffset"%string, Num off);
   (items, Ref arr)].

(** [{ header, programHeaders, sectionHeaders, symbols, dynamicEntries,
    dynamicSectionOffset, relocations, stringTables }]. *)
Definition fileFields (header programHeaders sectionHeaders symbols
    dynamicEntries : loc) (dynamicSectionOffset : Z)
    (relocations stringTables : loc) : list (string * value) :=
  [("header", Ref header); ("programHeaders", Ref programHeaders);
   ("sectionHeaders", Ref sectionHeaders); ("symbols", Ref symbols);
   ("dynamicEntries", Ref dynamicEntries);
   ("dynamicSectionOffset", Num dynamicSectionOffset);
   ("relocations", Ref relocations);
   ("stringTables", Ref stringTables)]%string.

(** *** The parser *)

Section Parser.

(** The reader object and the buffer it reads. *)
Variables lr ldata : loc.

(** [const programHeaders = []] and the loop that fills it. *)
Definition parseProgramHeaders (h : ElfHeader)
    : H (loc * list ProgramHeader) :=
  programHeaders <- alloc (Arr []) ;;
  phs <- mapH (fun i =>
                 ph <- run lr ldata
                         (programHeader (h_phoff h) (h_phentsize h) i) ;;
                 o <- alloc (Obj (programHeaderFields ph)) ;;
                 push programHeaders (Ref o) ;;;
                 retH ph)
              (indices (h_phnum h)) ;;
  retH (programHeaders, phs).

(** [const sectionHeaders = []] and the loop that fills it; every
    section header comes with the location of its object. *)
Definition parseSectionHeaders (h : ElfHeader)
    : H (loc * list (loc * SectionHeader)) :=
  sectionHeaders <- alloc (Arr []) ;;
  shs <- mapH (fun i =>
                 sh <- run lr ldata
                         (sectionHeader (h_shoff h) (h_shentsize h) i) ;;
                 o <- alloc (Obj (sectionHeaderFields sh)) ;;
                 push sectionHeaders (Ref o) ;;;
                 retH (o, sh))
              (indices (h_shnum h)) ;;
  retH (sectionHeaders, shs).

(** [for (const sh of sectionHeaders) sh.name = readCString(...)]: the
    objects of the section headers are updated in place. *)
Definition resolveSectionNames (data : Buffer) (shstrndx : Z)
    (shs : list (loc * SectionHeader)) : H (list SectionHeader) :=
  if shstrndx <? Z.of_nat (length shs) then
    match section_at (map snd shs) shstrndx with
    | Some strtab =>
        let strtabOff := JSNumber.Number (sh_offset strtab) in
        mapH (fun osh =>
                name <- run lr ldata
                          (lift (readCString data
                                   (JSNumber.add strtabOff
                                      (sh_nameIdx (snd osh))))) ;;
                setField (fst osh) "name" (Str name) ;;;
                retH (set_sh_name (snd osh) name))
             shs
    | None => retH (map snd shs)
    end
  else retH (map snd shs).

(** One turn of the symbol loop: [const syms = []], the inner loop
    that fills it, and [symbols.push({ section, sectionOffset,
    symbols: syms })]. *)
Definition symbolTable (fuel : nat) (symbols : loc)
    (shs : list SectionHeader) (sh : SectionHeader) : H (Table ElfSymbol) :=
  syms <- alloc (Arr []) ;;
  is64 <- run lr ldata get_is64 ;;
  let entSize := symEntSize is64 sh in
  let count := entryCount sh entSize in
  let secOff := JSNumber.Number (sh_offset sh) in
  let strSec := linked_section shs sh in
  let strOff := match strSec with
                | Some s => JSNumber.Number (sh_offset s)
                | None => 0
                end in
  l <- count_loop fuel count
         (fun i =>
            sb <- run lr ldata (symbol secOff entSize strSec strOff i) ;;
            sym <- alloc (Obj (symbolFields (fst sb))) ;;
            push syms (Ref sym) ;;;
            retH sb) 0 ;;
  let name := str_or (sh_name sh)
                (if sh_type sh =? 2 then js ".symtab" else js ".dynsym") in
  t <- alloc (Obj (tableFields "symbols" name secOff syms)) ;;
  push symbols (Ref t) ;;;
  retH (mkTable name secOff l).

(** [const symbols = []] and the loop over the sections. *)
Definition parseSymbols (fuel : nat) (shs : list SectionHeader)
    : H (loc * list (Table ElfSymbol)) :=
  symbols <- alloc (Arr []) ;;
  ts <- mapH (symbolTable fuel symbols shs) (filter is_symtab shs) ;;
  retH (symbols, ts).

(** The entries one section of type 6 pushes on [dynamicEntries]. *)
Definition dynamicSection (fuel : nat) (dynamicEntries : loc)
    (sh : SectionHeader) : H (list DynEntry) :=
  is64 <- run lr ldata get_is64 ;;
  let entSize := dynEntSize is64 sh in
  let count := entryCount sh entSize in
  let secOff := JSNumber.Number (sh_offset sh) in
  count_loop fuel count
    (fun i =>
       eb <- run lr ldata (dynEntry secOff entSize i) ;;
       e <- alloc (Obj (dynEntryFields (fst eb))) ;;
       push dynamicEntries (Ref e) ;;;
       retH eb) 0.

Fixpoint parseDynamic (fuel : nat) (dynamicEntries : loc)
    (shs : list SectionHeader) (acc : list DynEntry) (dynOff : Z)
    : H (list DynEntry * Z) :=
  match shs with
  | [] => retH (acc, dynOff)
  | sh :: rest =>
      if sh_type sh =? 6 then
        es <- dynamicSection fuel dynamicEntries sh ;;
        parseDynamic fuel dynamicEntries rest (acc ++ es)
          (JSNumber.Number (sh_offset sh))
      else parseDynamic fuel dynamicEntries rest acc dynOff
  end.

(** One turn of the relocation loop: [symSymbols] is looked up in the
    symbol tables decoded before, [const entries = []] is filled, and
    [relocations.push({ section, sectionOffset, entries })]. *)
Definition relocationTable (fuel : nat) (relocations : loc)
    (shs : list SectionHeader) (symbols : list (Table ElfSymbol))
    (sh : SectionHeader) : H (Table RelEntry) :=
  is64 <- run lr ldata get_is64 ;;
  let isRela := sh_type sh =? 4 in
  let entSize := relEntSize is64 isRela sh in
  let count := entryCount sh entSize in
  let secOff := JSNumber.Number (sh_offset sh) in
  let symSymbols := findSymbols symbols (linked_section shs sh) in
  entries <- alloc (Arr []) ;;
  l <- count_loop fuel count
         (fun i =>
            eb <- run lr ldata (relEntry isRela secOff entSize symSymbols i) ;;
            e <- alloc (Obj (relEntryFields (fst eb))) ;;
            push entries (Ref e) ;;;
            retH eb) 0 ;;
  t <- alloc (Obj (tableFields "entries" (sh_name sh) secOff entries)) ;;
  push relocations (Ref t) ;;;
  retH (mkTable (sh_name sh) secOff l).

Definition parseRelocations (fuel : nat) (shs : list SectionHeader)
    (symbols : list (Table ElfSymbol)) : H (loc * list (Table RelEntry)) :=
  relocations <- alloc (Arr []) ;;
  ts <- mapH (relocationTable fuel relocations shs symbols)
          (filter is_reloc shs) ;;
  retH (relocations, ts).

(** [while (pos < end) { ... strs.push({ value, fileOffset, length }) ... }]. *)
Fixpoint walkStrings (fuel : nat) (strs : loc) (data : Buffer)
    (pos end_ : Z) : H (list StringEntry) :=
  if pos <? end_ then
    match fuel with
    | O => fun h r => (OutOfFuel, h, r)
    | S fuel' =>
        s <- run lr ldata (lift (readCString data pos)) ;;
        let slen := Z.of_nat (length s) in
        let next := JSNumber.add pos (JSNumber.add slen 1) in
        let e := mkStringEntry s pos (JSNumber.add slen 1) in
        (if 0 <? slen then
           o <- alloc (Obj (stringEntryFields e)) ;;
           push strs (Ref o)
         else retH tt) ;;;
        rest <- walkStrings fuel' strs data next end_ ;;
        retH (if 0 <? slen then e :: rest else rest)
    end
  else retH [].

(** One turn of the string table loop: [const strs = []], the walk, and
    [stringTables.push({ section, sectionOffset, strings: strs })]. *)
Definition stringTable (fuel : nat) (stringTables : loc)
    (sh : SectionHeader) : H (Table StringEntry) :=
  strs <- alloc (Arr []) ;;
  data <- run lr ldata get_buf ;;
  let off := JSNumber.Number (sh_offset sh) in
  let end_ := JSNumber.add off (JSNumber.Number (sh_size sh)) in
  l <- walkStrings fuel strs data off end_ ;;
  t <- alloc (Obj (tableFields "strings" (sh_name sh) off strs)) ;;
  push stringTables (Ref t) ;;;
  retH (mkTable (sh_name sh) off l).

Definition parseStringTables (fuel : nat) (shs : list SectionHeader)
    : H (loc * list (Table StringEntry)) :=
  stringTables <- alloc (Arr []) ;;
  ts <- mapH (stringTable fuel stringTables) (filter is_strtab shs) ;;
  retH (stringTables, ts).

(** Everything [parseElf] does once it has its reader: the model, and
    the location of the object it returns. *)
Definition parseBody (fuel : nat) (elfClass elfData : option Z)
    : H (loc * ElfFile) :=
  hdr <- run lr ldata (parseHeader elfClass elfData) ;;
  header <- alloc (Obj (headerFields hdr)) ;;
  phs <- parseProgramHeaders hdr ;;
  shs0 <- parseSectionHeaders hdr ;;
  data <- run lr ldata get_buf ;;
  shs <- resolveSectionNames data (h_shstrndx hdr) (snd shs0) ;;
  syms <- parseSymbols fuel shs ;;
  dynamicEntries <- alloc (Arr []) ;;
  dyn <- parseDynamic fuel dynamicEntries shs [] 0 ;;
  rels <- parseRelocations fuel shs (snd syms) ;;
  strs <- parseStringTables fuel shs ;;
  file <- alloc (Obj (fileFields header (fst phs) (fst shs0) (fst syms)
                        dynamicEntries (snd dyn) (fst rels) (fst strs))) ;;
  retH (file, mkElfFile hdr (snd phs) shs (snd syms) (fst dyn) (snd dyn)
                (snd rels) (snd strs)).

End Parser.

(** [parseElf(data)] for the buffer [data] that sits at [ldata] in the
    heap: [new Reader(data, is64, isLE)] is the first object it
    creates. *)
Definition parseElf (fuel : nat) (ldata : loc) (data : Buffer) (h : heap)
    : result (option (loc * ElfFile)) * heap :=
  if buf_length data <? 52 then (Ok None, h)
  else if bad_magic data then (Ok None, h)
  else
    let elfClass := buf_get data 4 in
    let elfData := buf_get data 5 in
    let r := mkReader data (is_num elfClass 2) (is_num elfData 1) 0 in
    let lr := length h in
    match parseBody lr ldata fuel elfClass elfData
            (h ++ [readerObject ldata r]) r with
    | (Ok m, h', _) => (Ok (Some m), h')
    | (Throw e, h', _) => (Throw e, h')
    | (OutOfFuel, h', _) => (OutOfFuel, h')
    end.

(** *** Who holds what *)

Definition value_refs (v : value) : list loc :=
  match v with Ref l => [l] | _ => [] end.

(** The references an object holds. *)
Definition refs_of (o : object) : list loc :=
  match o with
  | Buf _ => []
  | Obj fs => flat_map (fun f => value_refs (snd f)) fs
  | Arr es => flat_map value_refs es
  end.

(** The references held by the objects from location [lo] on. *)
Definition refs_from (lo : nat) (h : heap) : list loc :=
  flat_map refs_of (skipn lo h).

(** How many times [x] is in [l]. *)
Definition cnt (l : list loc) (x : loc) : nat := count_occ Nat.eq_dec l x.

Definition is_buffer (o : object) : bool :=
  match o with Buf _ => true | _ => false end.

(** The heap [h] still has the objects of [h0], as they were. *)
Definition extends (h0 h : heap) : Prop := firstn (length h0) h = h0.

(** The objects created from [lo] on own what they hold: every
    reference they hold is to an object created from [lo] on, and no
    two of them are to the same object.  [pending] lists the objects
    created from [lo] on that nothing holds yet. *)
Definition owns (lo : nat) (pending : list loc) (h : heap) : Prop :=
  (lo <= length h)%nat /\
  existsb is_buffer (skipn lo h) = false /\
  Forall (fun l => (lo <= l < length h)%nat) (refs_from lo h ++ pending) /\
  NoDup (refs_from lo h ++ pending).

(** What the call leaves in the heap [h1] when it returns the object
    at [root], for a heap that had [n0] objects before: no object it
    created is a buffer; the first is the reader; the objects created
    after the reader hold references to one another only, never the
    same one twice, and none to [root]. *)
Definition owned (n0 : nat) (h1 : heap) (root : loc) : Prop :=
  (n0 < root < length h1)%nat /\
  existsb is_buffer (skipn (S n0) h1) = false /\
  Forall (fun l => (n0 < l < length h1)%nat) (refs_from (S n0) h1) /\
  NoDup (refs_from (S n0) h1) /\
  ~ In root (refs_from (S n0) h1).

(** The computation [m] keeps the objects of [h0], and takes a heap
    with [P] to a heap with [Q] when it returns. *)
Definition hoare {A} (h0 : heap) (P : heap -> Prop) (m : H A)
    (Q : A -> heap -> Prop) : Prop :=
  forall h r, extends h0 h -> P h ->
    match m h r with
    | (Ok a, h', _) => extends h0 h' /\ Q a h'
    | (_, h', _) => extends h0 h'
    end.

(** The computation [mh] does to the reader what [m] does, and returns
    what [m] returns once [f] has dropped the locations. *)
Definition erases {A B} (f : A -> B) (mh : H A) (m : M B) : Prop :=
  forall h r,
    (result_map f (fst (fst (mh h r))), snd (mh h r)) = m r.

End Heap.

(** ** Notions used to state the properties *)

(** The [n] bytes at [[p, p+n)] lie inside the buffer. *)
Definition in_bounds (data : Buffer) (p n : Z) : Prop :=
  0 <= p /\ p + n <= buf_length data.

(** The unsigned value of the [n] bytes at [p], read independently of
    the reader, in the given byte order. *)
Definition field (data : Buffer) (le : bool) (p : Z) (n : nat) : Z :=
  let bs := map byte_val (firstn n (skipn (Z.to_nat p) data)) in
  if le then le_value bs else be_value bs.

(** The reader [r'] still holds the buffer and the flags of [r]. *)
Definition same_buffer (r r' : Reader) : Prop :=
  buf r' = buf r /\ is64 r' = is64 r /\ isLE r' = isLE r.

(** A computation that leaves the buffer and the flags of any reader
    as it found them. *)
Definition frame {A} (m : M A) : Prop :=
  forall r, same_buffer r (snd (m r)).

(** The first four bytes of an ELF file. *)
Definition ELF_MAGIC : list byte := [x7f; x45; x4c; x46].

(** The header that reading the fixed offsets of the 32-bit layout
    ([w64 = false]) or of the 64-bit layout ([w64 = true]) gives, the
    byte order being little-endian exactly when the data byte is 1. *)
Definition header_as (w64 : bool) (data : Buffer) : ElfHeader :=
  let le := is_num (buf_get data 5) 1 in
  if w64 then
    mkElfHeader (buf_get data 4) (buf_get data 5)
      (buf_get data 6) (buf_get data 7)
      (field data le 16 2) (field data le 18 2)
      (field data le 24 8) (field data le 32 8) (field data le 40 8)
      (field data le 48 4) (field data le 52 2) (field data le 54 2)
      (field data le 56 2) (field data le 58 2) (field data le 60 2)
      (field data le 62 2)
  else
    mkElfHeader (buf_get data 4) (buf_get data 5)
      (buf_get data 6) (buf_get data 7)
      (field data le 16 2) (field data le 18 2)
      (field data le 24 4) (field data le 28 4) (field data le 32 4)
      (field data le 36 4) (field data le 40 2) (field data le 42 2)
      (field data le 44 2) (field data le 46 2) (field data le 48 2)
      (field data le 50 2).

(** The eight bytes the string-table scenario begins with: the
    characters abc, two NULs, the characters de, and a NUL. *)
Definition strtab_begin : list byte :=
  [x61; x62; x63; x00; x00; x64; x65; x00].

(** The 20 bytes of a section that holds nothing else: [strtab_begin]
    and NUL padding up to the end of the section. *)
Definition strtab_scenario : list byte := strtab_begin ++ repeat x00 12.

(** The bytes of the string that starts at offset [p]: up to the first
    NUL, or up to the end of the buffer when no NUL follows. *)
Definition run_at (data : Buffer) (p : Z) : list byte :=
  until_nul (skipn (Z.to_nat p) data).

(** What holds of an entry of a string table decoded from the declared
    extent [[lo, hi)] of a section: it starts inside the extent, its
    bytes lie inside the buffer, hold no NUL, and stop at a NUL or at
    the end of the buffer; its text is the decoding of these bytes and
    is not empty. *)
Definition string_entry_in_buffer (data : Buffer) (lo hi : Z)
    (e : StringEntry) : Prop :=
  let p := str_fileOffset e in
  let run := run_at data p in
  lo <= p < hi /\
  in_bounds data p (Z.of_nat (length run)) /\
  ~ In x00 run /\
  (buf_get data (p + Z.of_nat (length run)) = Some 0 \/
   p + Z.of_nat (length run) = buf_length data) /\
  str_value e = Utf8.decode (map byte_val run) /\
  str_value e <> [] /\
  str_length e = JSNumber.add (Z.of_nat (length (str_value e))) 1.

(** The list [l] is what a [for (let i = i0; i < count; i++)] loop
    pushes when it runs to its end: one element per index, from [i0]
    on, none left out, up to the first index that fails [i < count] or
    to the element after which the loop breaks.  [P i a brk] says what
    the turn at index [i] did: it pushed [a] and then broke out
    ([brk = true]) or went on. *)
Fixpoint loop_ran {A} (count : spec_float) (P : Z -> A -> bool -> Prop)
    (i : Z) (l : list A) : Prop :=
  match l with
  | [] => JSNumber.ltb_float i count = false
  | a :: rest =>
      JSNumber.ltb_float i count = true /\
      exists brk, P i a brk /\
        if brk then rest = [] else loop_ran count P (JSNumber.add i 1) rest
  end.

(** The bytes the parser reads for one entry of each table. *)
Definition ph_span (w64 : bool) : Z := if w64 then 56 else 32.
Definition sh_span (w64 : bool) : Z := if w64 then 64 else 40.
Definition sym_span (w64 : bool) : Z := if w64 then 24 else 16.
Definition dyn_span (w64 : bool) : Z := if w64 then 16 else 8.
Definition rel_span (w64 rela : bool) : Z :=
  if w64 then (if rela then 24 else 16) else (if rela then 12 else 8).

(** [base + i * entsize], as the parser computes it. *)
Definition entry_pos (base entsize i : Z) : Z :=
  JSNumber.add base (JSNumber.mul i entsize).

(** The entries [l] of a table are those of all the turns of its loop:
    the entry of index [i] sits at [base + i * entsize], its [span]
    bytes lie inside the buffer, and the loop stopped only at its bound
    or after an entry that [stop] marks. *)
Definition table_complete {A} (fileOffset : A -> Z) (stop : A -> bool)
    (data : Buffer) (span : Z) (count : spec_float) (base entsize : Z)
    (l : list A) : Prop :=
  loop_ran count
    (fun i a brk =>
       fileOffset a = entry_pos base entsize i /\
       in_bounds data (fileOffset a) span /\
       brk = stop a)
    0 l.

(** The reader [r] works on the buffer [d] with the width flag [w]. *)
Definition reads_from (d : Buffer) (w : bool) (r : Reader) : Prop :=
  buf r = d /\ is64 r = w.

(** The test [sh.type !== 6] of the dynamic loop, negated. *)
Definition is_dynamic (sh : SectionHeader) : bool := sh_type sh =? 6.

(** A computation that always ends by itself: it never runs out of
    fuel. *)
Definition fuel_free {A} (m : M A) : Prop :=
  forall r, fst (m r) <> OutOfFuel.

(** A computation that raises nothing but [RangeError]. *)
Definition range_only {A} (m : M A) : Prop :=
  forall r e, fst (m r) = Throw e -> e = RangeError.

(** A computation that raises nothing but [RangeError] when its reader
    works on the buffer [d]. *)
Definition range_only_on {A} (d : Buffer) (m : M A) : Prop :=
  forall r e, buf r = d -> fst (m r) = Throw e -> e = RangeError.

(** One of the two tables the header declares has an entry that does
    not fit in the buffer. *)
Definition header_table_overruns (data : Buffer) (w : bool) (h : ElfHeader)
    : Prop :=
  Exists (fun i => ~ in_bounds data
                       (entry_pos (JSNumber.Number (h_phoff h))
                          (h_phentsize h) i)
                       (ph_span w))
         (indices (h_phnum h)) \/
  Exists (fun i => ~ in_bounds data
                       (entry_pos (JSNumber.Number (h_shoff h))
                          (h_shentsize h) i)
                       (sh_span w))
         (indices (h_shnum h)).

(** Every table of the model [m] holds all the entries its loop goes
    through, and each of them was read inside the buffer. *)
Definition all_entries_fit (data : Buffer) (m : ElfFile) : Prop :=
  let h := header m in
  let shs := sectionHeaders m in
  let w := is_num (h_class h) 2 in
  (length (programHeaders m) = Z.to_nat (h_phnum h) /\
   Forall (fun i => in_bounds data
                      (entry_pos (JSNumber.Number (h_phoff h))
                         (h_phentsize h) i)
                      (ph_span w))
          (indices (h_phnum h))) /\
  (length shs = Z.to_nat (h_shnum h) /\
   Forall (fun i => in_bounds data
                      (entry_pos (JSNumber.Number (h_shoff h))
                         (h_shentsize h) i)
                      (sh_span w))
          (indices (h_shnum h))) /\
  Forall2 (fun sh t =>
             table_complete sym_fileOffset (fun _ => false) data (sym_span w)
               (entryCount sh (symEntSize w sh))
               (JSNumber.Number (sh_offset sh)) (symEntSize w sh)
               (entries t))
          (filter is_symtab shs) (symbols m) /\
  (exists parts,
     dynamicEntries m = concat parts /\
     Forall2 (fun sh l =>
                table_complete dyn_fileOffset (fun e => dyn_tag e =? 0) data
                  (dyn_span w) (entryCount sh (dynEntSize w sh))
                  (JSNumber.Number (sh_offset sh)) (dynEntSize w sh) l)
             (filter is_dynamic shs) parts) /\
  Forall2 (fun sh t =>
             table_complete rel_fileOffset (fun _ => false) data
               (rel_span w (sh_type sh =? 4))
               (entryCount sh (relEntSize w (sh_type sh =? 4) sh))
               (JSNumber.Number (sh_offset sh))
               (relEntSize w (sh_type sh =? 4) sh)
               (entries t))
          (filter is_reloc shs) (relocations m).

(** Where the symbol index of a relocation sits in [info]: above the
    low 32 bits in a 64-bit file, above the low 8 bits in a 32-bit
    file. *)
Definition sym_shift (w64 : bool) : Z := if w64 then 32 else 8.

(** The number of bits of the symbol index. *)
Definition sym_bits (w64 : bool) : Z := if w64 then 32 else 24.

(** Every relocation entry of the model [m] names the symbol whose
    index is [info] shifted right by [sym_shift]: the bits of [info]
    from that position up, and nothing of the bits below. *)
Definition rel_indices_resolved (m : ElfFile) : Prop :=
  let w := is_num (h_class (header m)) 2 in
  Forall2
    (fun sh t =>
       Forall
         (fun e =>
            let idx := symIdx w (rel_info e) in
            rel_symbolName e =
              relSymbolName
                (findSymbols (symbols m)
                   (linked_section (sectionHeaders m) sh))
                idx /\
            idx = rel_info e / 2 ^ sym_shift w /\
            0 <= idx < 2 ^ sym_bits w /\
            forall k, 0 <= k ->
                      Z.testbit idx k = Z.testbit (rel_info e) (k + sym_shift w))
         (entries t))
    (filter is_reloc (sectionHeaders m)) (relocations m).

(** A computation that takes fuel gives the same outcome with more
    fuel, once it has enough to end. *)
Definition fuel_mono {A} (m : nat -> M A) : Prop :=
  forall f f' r, (f <= f')%nat -> fst (m f r) <> OutOfFuel -> m f' r = m f r.

(** The integer a binary64 value stands for, when it is one. *)
Definition float_to_Z (x : spec_float) : option Z :=
  match x with
  | S754_zero _ => Some 0
  | S754_finite s m e =>
      if 0 <=? e then Some ((if s then -1 else 1) * Z.pos m * 2 ^ e)
      else if Z.pos m mod 2 ^ (- e) =? 0
           then Some ((if s then -1 else 1) * (Z.pos m / 2 ^ (- e)))
           else None
  | _ => None
  end.

(** ** Sample files *)

(** A 52-byte header whose class byte and data byte are both 3; its
    16-bit type field holds the bytes 00 02. *)
Definition unknown_variant_elf : Buffer :=
  [x7f; x45; x4c; x46; x03; x03; x01; x00; x00; x00; x00; x00; x00; x00;
   x00; x00; x00; x02; x00; x03; x00; x00; x00; x01; x00; x00; x00; x00;
   x00; x00; x00; x00; x00; x00; x00; x00; x00; x00; x00; x00; x00; x34;
   x00; x20; x00; x00; x00; x28; x00; x00; x00; x00].

(** A 32-bit little-endian file that declares two program headers of 32
    bytes at offset 52 and ends 4 bytes into the second one. *)
Definition truncated_phdr_elf : Buffer :=
  [x7f; x45; x4c; x46; x01; x01; x01; x00; x00; x00; x00; x00; x00; x00;
   x00; x00; x01; x00; x03; x00; x01; x00; x00; x00; x00; x00; x00; x00;
   x34; x00; x00; x00; x00; x00; x00; x00; x00; x00; x00; x00; x34; x00;
   x20; x00; x02; x00; x28; x00; x00; x00; x00; x00; x01; x00; x00; x00;
   x00; x00; x00; x00; x00; x00; x00; x00; x00; x00; x00; x00; x58; x00;
   x00; x00; x58; x00; x00; x00; x05; x00; x00; x00; x04; x00; x00; x00;
   x01; x00; x00; x00].

(** A 32-bit little-endian file with a symbol table (section 0, named
    s) of three symbols (one unnamed, then a and b), the string table
    that names them (section 1), and a REL section (section 2, linked to
    section 0) with one entry whose [info] is 0x00000102. *)
Definition rel32_elf : Buffer :=
  [x7f; x45; x4c; x46; x01; x01; x01; x00; x00; x00; x00; x00; x00; x00;
   x00; x00; x01; x00; x03; x00; x01; x00; x00; x00; x00; x00; x00; x00;
   x00; x00; x00; x00; x34; x00; x00; x00; x00; x00; x00; x00; x34; x00;
   x20; x00; x00; x00; x28; x00; x03; x00; x01; x00; x01; x00; x00; x00;
   x02; x00; x00; x00; x00; x00; x00; x00; x00; x00; x00; x00; xac; x00;
   x00; x00; x30; x00; x00; x00; x01; x00; x00; x00; x00; x00; x00; x00;
   x00; x00; x00; x00; x10; x00; x00; x00; x00; x00; x00; x00; x03; x00;
   x00; x00; x00; x00; x00; x00; x00; x00; x00; x00; xdc; x00; x00; x00;
   x07; x00; x00; x00; x00; x00; x00; x00; x00; x00; x00; x00; x00; x00;
   x00; x00; x00; x00; x00; x00; x00; x00; x00; x00; x09; x00; x00; x00;
   x00; x00; x00; x00; x00; x00; x00; x00; xe3; x00; x00; x00; x08; x00;
   x00; x00; x00; x00; x00; x00; x00; x00; x00; x00; x00; x00; x00; x00;
   x08; x00; x00; x00; x00; x00; x00; x00; x00; x00; x00; x00; x00; x00;
   x00; x00; x00; x00; x00; x00; x03; x00; x00; x00; x10; x00; x00; x00;
   x04; x00; x00; x00; x12; x00; x01; x00; x05; x00; x00; x00; x20; x00;
   x00; x00; x04; x00; x00; x00; x12; x00; x01; x00; x00; x73; x00; x61;
   x00; x62; x00; x40; x00; x00; x00; x02; x01; x00; x00].

(** A 32-bit little-endian file with one STRTAB section that declares
    the four bytes from offset 92 to offset 96 as its extent; the buffer
    holds abcdefg and a NUL from offset 92 on. *)
Definition overrun_strtab_elf : Buffer :=
  [x7f; x45; x4c; x46; x01; x01; x01; x00; x00; x00; x00; x00; x00; x00;
   x00; x00; x01; x00; x03; x00; x01; x00; x00; x00; x00; x00; x00; x00;
   x00; x00; x00; x00; x34; x00; x00; x00; x00; x00; x00; x00; x34; x00;
   x20; x00; x00; x00; x28; x00; x01; x00; x01; x00; x00; x00; x00; x00;
   x03; x00; x00; x00; x00; x00; x00; x00; x00; x00; x00; x00; x5c; x00;
   x00; x00; x04; x00; x00; x00; x00; x00; x00; x00; x00; x00; x00; x00;
   x00; x00; x00; x00; x00; x00; x00; x00; x61; x62; x63; x64; x65; x66;
   x67; x00].

(** A 32-bit little-endian file with one STRTAB section that spans the
    bytes from 100 to 120: abc, NUL, NUL, de, NUL, then xy, NUL and NUL
    padding. *)
Definition tail_strtab_elf : Buffer :=
  [x7f; x45; x4c; x46; x01; x01; x01; x00; x00; x00; x00; x00; x00; x00;
   x00; x00; x01; x00; x03; x00; x01; x00; x00; x00; x00; x00; x00; x00;
   x00; x00; x00; x00; x34; x00; x00; x00; x00; x00; x00; x00; x34; x00;
   x20; x00; x00; x00; x28; x00; x01; x00; x01; x00; x00; x00; x00; x00;
   x03; x00; x00; x00; x00; x00; x00; x00; x00; x00; x00; x00; x64; x00;
   x00; x00; x14; x00; x00; x00; x00; x00; x00; x00; x00; x00; x00; x00;
   x00; x00; x00; x00; x00; x00; x00; x00; x00; x00; x00; x00; x00; x00;
   x00; x00; x61; x62; x63; x00; x00; x64; x65; x00; x78; x79; x00; x00;
   x00; x00; x00; x00; x00; x00; x00; x00].

(** A 32-bit little-endian file with one SYMTAB section of declared size
    17 and entry size 16 at offset 92, followed by 32 bytes. *)
Definition ragged_symtab_elf : Buffer :=
  [x7f; x45; x4c; x46; x01; x01; x01; x00; x00; x00; x00; x00; x00; x00;
   x00; x00; x01; x00; x03; x00; x01; x00; x00; x00; x00; x00; x00; x00;
   x00; x00; x00; x00; x34; x00; x00; x00; x00; x00; x00; x00; x34; x00;
   x20; x00; x00; x00; x28; x00; x01; x00; x01; x00; x00; x00; x00; x00;
   x02; x00; x00; x00; x00; x00; x00; x00; x00; x00; x00; x00; x5c; x00;
   x00; x00; x11; x00; x00; x00; x01; x00; x00; x00; x00; x00; x00; x00;
   x00; x00; x00; x00; x10; x00; x00; x00; x00; x00; x00; x00; x00; x00;
   x00; x00; x00; x00; x00; x00; x00; x00; x00; x00; x00; x00; x00; x00;
   x00; x10; x00; x00; x08; x00; x00; x00; x12; x00; x01; x00].

(** A 32-bit little-endian file with one DYNAMIC section of declared
    size 12 and entry size 8 at offset 92, followed by two entries with
    the tags 1 and 14 (no terminator). *)
Definition ragged_dynamic_elf : Buffer :=
  [x7f; x45; x4c; x46; x01; x01; x01; x00; x00; x00; x00; x00; x00; x00;
   x00; x00; x01; x00; x03; x00; x01; x00; x00; x00; x00; x00; x00; x00;
   x00; x00; x00; x00; x34; x00; x00; x00; x00; x00; x00; x00; x34; x00;
   x20; x00; x00; x00; x28; x00; x01; x00; x01; x00; x00; x00; x00; x00;
   x06; x00; x00; x00; x00; x00; x00; x00; x00; x00; x00; x00; x5c; x00;
   x00; x00; x0c; x00; x00; x00; x00; x00; x00; x00; x00; x00; x00; x00;
   x00; x00; x00; x00; x08; x00; x00; x00; x01; x00; x00; x00; x05; x00;
   x00; x00; x0e; x00; x00; x00; x09; x00; x00; x00].

(** * The rest of the extension *)

From Stdlib Require Numbers.HexadecimalString Numbers.HexadecimalZ
  Numbers.HexadecimalPos Numbers.HexadecimalFacts.

(** ** The byte spans of the tree view ([buildTree] in [extension.ts]) *)

(** The [fileOffset] and [fileSize] a tree item is created with. *)
Definition Span : Type := (Z * Z)%type.

(** [is64 ? 8 : 4], the size [buildTree] gives the address-sized
    fields. *)
Definition wordSize (is64 : bool) : Z := if is64 then 8 else 4.

(** The [kv(...)] items of [headerChildren]: offset and size of each
    header field. *)
Record HeaderSpans := mkHeaderSpans {
  hs_class : Span;
  hs_data : Span;
  hs_osabi : Span;
  hs_type : Span;
  hs_machine : Span;
  hs_entry : Span;
  hs_phoff : Span;
  hs_shoff : Span;
  hs_flags : Span;
  hs_ehsize : Span;
  hs_phentsize : Span;
  hs_phnum : Span;
  hs_shentsize : Span;
  hs_shnum : Span;
  hs_shstrndx : Span
}.

Definition headerSpans (is64 : bool) : HeaderSpans :=
  mkHeaderSpans (4, 1) (5, 1) (7, 1) (16, 2) (18, 2)
    (if is64 then 24 else 24, if is64 then 8 else 4)
    (if is64 then 32 else 28, if is64 then 8 else 4)
    (if is64 then 40 else 32, if is64 then 8 else 4)
    (if is64 then 48 else 36, 4)
    (if is64 then 52 else 40, 2)
    (if is64 then 54 else 42, 2)
    (if is64 then 56 else 44, 2)
    (if is64 then 58 else 46, 2)
    (if is64 then 60 else 48, 2)
    (if is64 then 62 else 50, 2).

(** The field offsets of a program header entry ([typeOff], [flagsOff],
    ...) with the sizes of the [kv] items of [phSubItems]. *)
Record PhSpans := mkPhSpans {
  phs_type : Span;
  phs_flags : Span;
  phs_offset : Span;
  phs_vaddr : Span;
  phs_paddr : Span;
  phs_filesz : Span;
  phs_memsz : Span;
  phs_align : Span
}.

Definition phSpans (is64 : bool) (entryOff : Z) : PhSpans :=
  let ws := wordSize is64 in
  if is64 then
    mkPhSpans (JSNumber.add entryOff 0, 4) (JSNumber.add entryOff 4, 4)
      (JSNumber.add entryOff 8, ws) (JSNumber.add entryOff 16, ws)
      (JSNumber.add entryOff 24, ws) (JSNumber.add entryOff 32, ws)
      (JSNumber.add entryOff 40, ws) (JSNumber.add entryOff 48, ws)
  else
    mkPhSpans (JSNumber.add entryOff 0, 4) (JSNumber.add entryOff 24, 4)
      (JSNumber.add entryOff 4, ws) (JSNumber.add entryOff 8, ws)
      (JSNumber.add entryOff 12, ws) (JSNumber.add entryOff 16, ws)
      (JSNumber.add entryOff 20, ws) (JSNumber.add entryOff 28, ws).

(** The field offsets of a section header entry with the sizes of the
    [kv] items of [shSubItems]. *)
Record ShSpans := mkShSpans {
  shs_name : Span;
  shs_type : Span;
  shs_flags : Span;
  shs_addr : Span;
  shs_offset : Span;
  shs_size : Span;
  shs_link : Span;
  shs_info : Span;
  shs_addralign : Span;
  shs_entsize : Span
}.

Definition shSpans (is64 : bool) (entryOff : Z) : ShSpans :=
  let ws := wordSize is64 in
  if is64 then
    mkShSpans (JSNumber.add entryOff 0, 4) (JSNumber.add entryOff 4, 4)
      (JSNumber.add entryOff 8, ws) (JSNumber.add entryOff 16, ws)
      (JSNumber.add entryOff 24, ws) (JSNumber.add entryOff 32, ws)
      (JSNumber.add entryOff 40, 4) (JSNumber.add entryOff 44, 4)
      (JSNumber.add entryOff 48, ws) (JSNumber.add entryOff 56, ws)
  else
    mkShSpans (JSNumber.add entryOff 0, 4) (JSNumber.add entryOff 4, 4)
      (JSNumber.add entryOff 8, ws) (JSNumber.add entryOff 12, ws)
      (JSNumber.add entryOff 16, ws) (JSNumber.add entryOff 20, ws)
      (JSNumber.add entryOff 24, 4) (JSNumber.add entryOff 28, 4)
      (JSNumber.add entryOff 32, ws) (JSNumber.add entryOff 36, ws).

(** The field offsets of a symbol entry, from [s._fileOffset], with the
    sizes of the [kv] items of [symSubItems]. *)
Record SymSpans := mkSymSpans {
  sys_name : Span;
  sys_info : Span;
  sys_other : Span;
  sys_shndx : Span;
  sys_value : Span;
  sys_size : Span
}.

Definition symSpans (is64 : bool) (fileOffset : Z) : SymSpans :=
  let ws := wordSize is64 in
  if is64 then
    mkSymSpans (JSNumber.add fileOffset 0, 4) (JSNumber.add fileOffset 4, 1)
      (JSNumber.add fileOffset 5, 1) (JSNumber.add fileOffset 6, 2)
      (JSNumber.add fileOffset 8, ws) (JSNumber.add fileOffset 16, ws)
  else
    mkSymSpans (JSNumber.add fileOffset 0, 4) (JSNumber.add fileOffset 12, 1)
      (JSNumber.add fileOffset 13, 1) (JSNumber.add fileOffset 14, 2)
      (JSNumber.add fileOffset 4, ws) (JSNumber.add fileOffset 8, ws).

(** The field offsets of a dynamic entry, from [d._fileOffset]. *)
Record DynSpans := mkDynSpans {
  dys_tag : Span;
  dys_val : Span
}.

Definition dynSpans (is64 : bool) (fileOffset : Z) : DynSpans :=
  let ws := wordSize is64 in
  if is64 then
    mkDynSpans (JSNumber.add fileOffset 0, ws) (JSNumber.add fileOffset 8, ws)
  else
    mkDynSpans (JSNumber.add fileOffset 0, ws) (JSNumber.add fileOffset 4, ws).

(** The field offsets of a relocation entry, from [r._fileOffset];
    [addendOff] stays [undefined] unless [isRela]. *)
Record RelSpans := mkRelSpans {
  res_offset : Span;
  res_info : Span;
  res_addend : option Span
}.

Definition relSpans (is64 isRela : bool) (fileOffset : Z) : RelSpans :=
  let ws := wordSize is64 in
  if is64 then
    if isRela then
      mkRelSpans (JSNumber.add fileOffset 0, ws) (JSNumber.add fileOffset 8, ws)
        (Some (JSNumber.add fileOffset 16, ws))
    else
      mkRelSpans (JSNumber.add fileOffset 0, ws) (JSNumber.add fileOffset 8, ws)
        None
  else
    if isRela then
      mkRelSpans (JSNumber.add fileOffset 0, ws) (JSNumber.add fileOffset 4, ws)
        (Some (JSNumber.add fileOffset 8, ws))
    else
      mkRelSpans (JSNumber.add fileOffset 0, ws) (JSNumber.add fileOffset 4, ws)
        None.

(** ** Notions used to state the properties of the tree spans *)

(** The unsigned value of the bytes of a span, read again from the
    buffer in the given byte order. *)
Definition reread (data : Buffer) (le : bool) (sp : Span) : Z :=
  field data le (fst sp) (Z.to_nat (snd sp)).

(** The same bytes read as a two's-complement number. *)
Definition reread_signed (data : Buffer) (le : bool) (sp : Span) : Z :=
  to_signed (8 * snd sp) (reread data le sp).

(** The reader [r] works on the buffer [d] with the width flag [w] and
    the byte order flag [le]. *)
Definition reads_as (d : Buffer) (w le : bool) (r : Reader) : Prop :=
  buf r = d /\ is64 r = w /\ isLE r = le.

(** [const is64 = h.class === 2] of [buildTree], and the byte order the
    parser read the file in ([elfData === 1]). *)
Definition treeIs64 (h : ElfHeader) : bool := is_num (h_class h) 2.
Definition readLE (h : ElfHeader) : bool := is_num (h_data h) 1.

(** Every field of the header [h] that the tree shows is the value of
    the bytes at the span of its item. *)
Definition header_at_spans (data : Buffer) (h : ElfHeader) : Prop :=
  let le := readLE h in
  let sp := headerSpans (treeIs64 h) in
  h_class h = Some (reread data le (hs_class sp)) /\
  h_data h = Some (reread data le (hs_data sp)) /\
  h_osabi h = Some (reread data le (hs_osabi sp)) /\
  h_type h = reread data le (hs_type sp) /\
  h_machine h = reread data le (hs_machine sp) /\
  h_entry h = reread data le (hs_entry sp) /\
  h_phoff h = reread data le (hs_phoff sp) /\
  h_shoff h = reread data le (hs_shoff sp) /\
  h_flags h = reread data le (hs_flags sp) /\
  h_ehsize h = reread data le (hs_ehsize sp) /\
  h_phentsize h = reread data le (hs_phentsize sp) /\
  h_phnum h = reread data le (hs_phnum sp) /\
  h_shentsize h = reread data le (hs_shentsize sp) /\
  h_shnum h = reread data le (hs_shnum sp) /\
  h_shstrndx h = reread data le (hs_shstrndx sp).

(** The same for the program header at index [i] of the list. *)
Definition ph_at_spans (data : Buffer) (h : ElfHeader) (i : Z)
    (ph : ProgramHeader) : Prop :=
  let le := readLE h in
  let sp := phSpans (treeIs64 h)
              (entry_pos (JSNumber.Number (h_phoff h)) (h_phentsize h) i) in
  ph_type ph = reread data le (phs_type sp) /\
  ph_flags ph = reread data le (phs_flags sp) /\
  ph_offset ph = reread data le (phs_offset sp) /\
  ph_vaddr ph = reread data le (phs_vaddr sp) /\
  ph_paddr ph = reread data le (phs_paddr sp) /\
  ph_filesz ph = reread data le (phs_filesz sp) /\
  ph_memsz ph = reread data le (phs_memsz sp) /\
  ph_align ph = reread data le (phs_align sp).

(** The same for the section header at index [i] of the list. *)
Definition sh_at_spans (data : Buffer) (h : ElfHeader) (i : Z)
    (sh : SectionHeader) : Prop :=
  let le := readLE h in
  let sp := shSpans (treeIs64 h)
              (entry_pos (JSNumber.Number (h_shoff h)) (h_shentsize h) i) in
  sh_nameIdx sh = reread data le (shs_name sp) /\
  sh_type sh = reread data le (shs_type sp) /\
  sh_flags sh = reread data le (shs_flags sp) /\
  sh_addr sh = reread data le (shs_addr sp) /\
  sh_offset sh = reread data le (shs_offset sp) /\
  sh_size sh = reread data le (shs_size sp) /\
  sh_link sh = reread data le (shs_link sp) /\
  sh_info sh = reread data le (shs_info sp) /\
  sh_addralign sh = reread data le (shs_addralign sp) /\
  sh_entsize sh = reread data le (shs_entsize sp).

(** The same for a symbol, whose items start from [s._fileOffset]; its
    [info] and [other] bytes are defined. *)
Definition sym_at_spans (data : Buffer) (h : ElfHeader) (s : ElfSymbol)
    : Prop :=
  let le := readLE h in
  let sp := symSpans (treeIs64 h) (sym_fileOffset s) in
  sym_nameIdx s = reread data le (sys_name sp) /\
  sym_info s = Some (reread data le (sys_info sp)) /\
  sym_other s = Some (reread data le (sys_other sp)) /\
  sym_shndx s = reread data le (sys_shndx sp) /\
  sym_value s = reread data le (sys_value sp) /\
  sym_size s = reread data le (sys_size sp).

(** The same for a dynamic entry; the tag is read as a signed number. *)
Definition dyn_at_spans (data : Buffer) (h : ElfHeader) (e : DynEntry)
    : Prop :=
  let le := readLE h in
  let sp := dynSpans (treeIs64 h) (dyn_fileOffset e) in
  dyn_tag e = reread_signed data le (dys_tag sp) /\
  dyn_val e = reread data le (dys_val sp).

(** [elf.sectionHeaders.find(s => s.name === name)]. *)
Definition findSection (shs : list SectionHeader) (name : jsstring)
    : option SectionHeader :=
  find (fun s => jsstring_eqb (sh_name s) name) shs.

(** [const isRela = relSecHdr?.type === 4] for the table [rel]. *)
Definition treeIsRela (shs : list SectionHeader) (rel : Table RelEntry)
    : bool :=
  match findSection shs (section rel) with
  | Some s => sh_type s =? 4
  | None => false
  end.

(** The [Addend] item of a relocation entry, with the value it shows:
    pushed when [r.addend !== undefined && addendOff !== undefined]. *)
Definition addendItem (is64 isRela : bool) (r : RelEntry)
    : option (Z * Span) :=
  match rel_addend r, res_addend (relSpans is64 isRela (rel_fileOffset r)) with
  | Some a, Some sp => Some (a, sp)
  | _, _ => None
  end.

(** The items of a relocation entry of the table [rel] show the bytes
    of their spans: the offset, the info and, when the tree has one, the
    addend. *)
Definition rel_at_spans (data : Buffer) (h : ElfHeader)
    (shs : list SectionHeader) (rel : Table RelEntry) (e : RelEntry) : Prop :=
  let le := readLE h in
  let isRela := treeIsRela shs rel in
  let sp := relSpans (treeIs64 h) isRela (rel_fileOffset e) in
  rel_offset e = reread data le (res_offset sp) /\
  rel_info e = reread data le (res_info sp) /\
  forall a spa, addendItem (treeIs64 h) isRela e = Some (a, spa) ->
                a = reread_signed data le spa.

(** A buffer Node can hold: its length is a safe integer. *)
Definition safe_length (data : Buffer) : Prop :=
  buf_length data < 9007199254740992.

(** ** The editable items of the tree *)

(** The spans of the items [buildTree] creates with [editable] set, for
    each kind of entry. *)
Definition headerItems (is64 : bool) : list Span :=
  let s := headerSpans is64 in
  [hs_class s; hs_data s; hs_osabi s; hs_type s; hs_machine s; hs_entry s;
   hs_phoff s; hs_shoff s; hs_flags s; hs_ehsize s; hs_phentsize s;
   hs_phnum s; hs_shentsize s; hs_shnum s; hs_shstrndx s].

Definition phItems (s : PhSpans) : list Span :=
  [phs_type s; phs_flags s; phs_offset s; phs_vaddr s; phs_paddr s;
   phs_filesz s; phs_memsz s; phs_align s].

Definition shItems (s : ShSpans) : list Span :=
  [shs_name s; shs_type s; shs_flags s; shs_addr s; shs_offset s;
   shs_size s; shs_link s; shs_info s; shs_addralign s; shs_entsize s].

Definition symItems (s : SymSpans) : list Span :=
  [sys_name s; sys_info s; sys_other s; sys_shndx s; sys_value s;
   sys_size s].

Definition dynItems (s : DynSpans) : list Span := [dys_tag s; dys_val s].

(** ** Notions used to state how names and tables are resolved *)

(** The string [s] is what [readCString] returned for the offset [p]:
    the empty string for an offset outside the buffer; otherwise the
    decoding of the bytes from [p] up to the first NUL that follows (up
    to the end of the buffer when none does), unless [p] lies above
    [0x7fffffff] and a NUL lies between [0x7fffffff] and [p], in which
    case it is the empty string. *)
Definition string_read_at (data : Buffer) (p : Z) (s : jsstring) : Prop :=
  readCString data p = Ok s /\
  (p < 0 \/ buf_length data <= p -> s = []) /\
  (0 <= p < buf_length data ->
   (forall k, 2147483647 <= k < p -> buf_get data k = Some 0 -> s = []) /\
   ((forall k, 2147483647 <= k < p -> buf_get data k <> Some 0) ->
    s = Utf8.decode (map byte_val (run_at data p)))).

(** The names of the section headers [shs] of a file: each one is the
    string read at its name index in the section at index [shstrndx],
    and when [shstrndx] is not the index of a section, every name is
    left empty. *)
Definition section_names_resolved (data : Buffer) (h : ElfHeader)
    (shs : list SectionHeader) : Prop :=
  Z.of_nat (length shs) = h_shnum h /\
  (h_shstrndx h < h_shnum h ->
   exists strtab,
     nth_error shs (Z.to_nat (h_shstrndx h)) = Some strtab /\
     Forall (fun sh =>
               string_read_at data
                 (JSNumber.add (JSNumber.Number (sh_offset strtab))
                    (sh_nameIdx sh))
                 (sh_name sh))
            shs) /\
  (h_shnum h <= h_shstrndx h -> Forall (fun sh => sh_name sh = []) shs).

(** The symbol table [t] is the one decoded from the section [sh]: it
    carries the name of the section, or a default name by type when the
    section has none, every symbol records the entry size used, and the
    names are read in the section [sh] links to, whatever its type; with
    a link that is no section index the names stay empty. *)
Definition symbol_table_of (data : Buffer) (w : bool)
    (shs : list SectionHeader) (sh : SectionHeader) (t : Table ElfSymbol)
    : Prop :=
  section t = str_or (sh_name sh)
                (if sh_type sh =? 2 then js ".symtab" else js ".dynsym") /\
  sectionOffset t = JSNumber.Number (sh_offset sh) /\
  Forall (fun s =>
            sym_entSize s = symEntSize w sh /\
            match linked_section shs sh with
            | Some sec =>
                string_read_at data
                  (JSNumber.add (JSNumber.Number (sh_offset sec))
                     (sym_nameIdx s))
                  (sym_name s)
            | None => sym_name s = []
            end)
         (entries t).

(** The relocation table [t] is the one decoded from the section [sh]:
    it carries the name of the section as it is, even empty, and its
    entries have an addend exactly when the section has type 4. *)
Definition relocation_table_of (w : bool) (sh : SectionHeader)
    (t : Table RelEntry) : Prop :=
  section t = sh_name sh /\
  sectionOffset t = JSNumber.Number (sh_offset sh) /\
  Forall (fun e =>
            (rel_addend e <> None <-> sh_type sh = 4) /\
            rel_entSize e = relEntSize w (sh_type sh =? 4) sh)
         (entries t).

(** The dynamic entries of the model [m] are those of its sections of
    type 6, one run per section in the order of the section headers; in
    each run an entry with tag 0 can only be the last one; and the
    recorded section offset is that of the last section of type 6, or 0
    when there is none. *)
Definition dynamic_runs_end_at_terminator (m : ElfFile) : Prop :=
  exists parts,
    dynamicEntries m = concat parts /\
    Forall2 (fun (sh : SectionHeader) l =>
               forall k e, nth_error l k = Some e -> dyn_tag e = 0 ->
                           length l = S k)
            (filter is_dynamic (sectionHeaders m)) parts /\
    dynamicSectionOffset m =
      last (map (fun sh => JSNumber.Number (sh_offset sh))
              (filter is_dynamic (sectionHeaders m))) 0.


(** The editable items of a relocation entry: offset, info and, when
    the tree shows it, the addend. *)
Definition relItems (is64 isRela : bool) (r : RelEntry) : list Span :=
  let s := relSpans is64 isRela (rel_fileOffset r) in
  [res_offset s; res_info s] ++
  match addendItem is64 isRela r with
  | Some (_, sp) => [sp]
  | None => []
  end.

(** The spans of all the editable items the tree can show for the model
    [m]: the tree leaves out some symbols and the relocation entries
    past the first 500 of a table, and shows no other. *)
Definition editableItems (m : ElfFile) : list Span :=
  let h := header m in
  let w := treeIs64 h in
  headerItems w
  ++ flat_map (fun i => phItems (phSpans w
                 (entry_pos (JSNumber.Number (h_phoff h)) (h_phentsize h) i)))
       (indices (Z.of_nat (length (programHeaders m))))
  ++ flat_map (fun i => shItems (shSpans w
                 (entry_pos (JSNumber.Number (h_shoff h)) (h_shentsize h) i)))
       (indices (Z.of_nat (length (sectionHeaders m))))
  ++ flat_map (fun t =>
                 flat_map (fun s => symItems (symSpans w (sym_fileOffset s)))
                   (entries t))
       (symbols m)
  ++ flat_map (fun d => dynItems (dynSpans w (dyn_fileOffset d)))
       (dynamicEntries m)
  ++ flat_map (fun t =>
                 flat_map (relItems w (treeIsRela (sectionHeaders m) t))
                   (entries t))
       (relocations m).

(** A span that holds at least one byte and lies inside the buffer:
    what the edit dialog needs to read it and write it back. *)
Definition fits (data : Buffer) (sp : Span) : Prop :=
  0 <= fst sp /\ 0 < snd sp /\ fst sp + snd sp <= buf_length data.

(** The tree shows an Addend item for every entry of the table [t]
    that has an addend, and for no other. *)
Definition addends_all_shown (w : bool) (shs : list SectionHeader)
    (t : Table RelEntry) : Prop :=
  Forall (fun e =>
            addendItem w (treeIsRela shs t) e = None <-> rel_addend e = None)
         (entries t).

(** ** Notions used to state that the loops end *)

(** Section headers as the reader produces them: offsets and entry
    sizes are unsigned. *)
Definition unsigned_sections (shs : list SectionHeader) : Prop :=
  Forall (fun sh => 0 <= sh_offset sh /\ 0 <= sh_entsize sh) shs.

(** A symbol table section that declares far more entries than the
    buffer can hold: 2^40 bytes of 16-byte entries at offset 0. *)
Definition oversized_symtab : SectionHeader :=
  mkSectionHeader 0 [] 2 0 0 0 (2 ^ 40) 0 0 0 16.

(** * The document of the hex editor ([hex-view.ts]) *)

(** ** Writing into a buffer *)

(** The byte a buffer stores for a number written into it: the number
    modulo 256.  A value that is [undefined] or [NaN] ([None]) is stored
    as 0. *)
Definition to_uint8 (v : option Z) : byte :=
  match v with
  | Some x =>
      match Byte.of_N (Z.to_N (x mod 256)) with
      | Some b => b
      | None => x00
      end
  | None => x00
  end.

(** [buf[i] = v]: an index write, which stores the byte inside the
    buffer and does nothing outside of it. *)
Definition buf_set (b : Buffer) (i : Z) (v : option Z) : Buffer :=
  if (0 <=? i) && (i <? buf_length b)
  then firstn (Z.to_nat i) b ++ to_uint8 v :: skipn (S (Z.to_nat i)) b
  else b.

(** ** [class ElfDocument] *)

(** An element of [_edits]. *)
Record Edit := mkEdit {
  ed_offset : Z;
  ed_oldValue : option Z;
  ed_newValue : option Z
}.

(** The fields of the document that its methods use: [_edits] grows at
    its end. *)
Record ElfDocument := mkElfDocument {
  doc_data : Buffer;
  doc_edits : list Edit;
  doc_savedEditCount : Z
}.

(** [constructor(uri)], given the content of the file. *)
Definition openDocument (file : Buffer) : ElfDocument :=
  mkElfDocument file [] 0.

(** [applyEdit(offset, newValue)]: the document after the call and the
    [oldValue] it returns. *)
Definition applyEdit (doc : ElfDocument) (offset : Z) (newValue : option Z)
    : ElfDocument * option Z :=
  let oldValue := buf_get (doc_data doc) offset in
  (mkElfDocument (buf_set (doc_data doc) offset newValue)
     (doc_edits doc ++ [mkEdit offset oldValue newValue])
     (doc_savedEditCount doc),
   oldValue).

(** [undoEdit()]: the document after the call and the [{ offset, value }]
    it returns, [None] for [undefined]. *)
Definition undoEdit (doc : ElfDocument)
    : ElfDocument * option (Z * option Z) :=
  match rev (doc_edits doc) with
  | [] => (doc, None)
  | edit :: _ =>
      (mkElfDocument
         (buf_set (doc_data doc) (ed_offset edit) (ed_oldValue edit))
         (removelast (doc_edits doc))
         (doc_savedEditCount doc),
       Some (ed_offset edit, ed_oldValue edit))
  end.

(** [get isDirty()]. *)
Definition isDirty (doc : ElfDocument) : bool :=
  negb (Z.of_nat (length (doc_edits doc)) =? doc_savedEditCount doc).

(** [save()]: the document after the call and the bytes written to the
    file. *)
Definition save (doc : ElfDocument) : ElfDocument * Buffer :=
  (mkElfDocument (doc_data doc) (doc_edits doc)
     (Z.of_nat (length (doc_edits doc))),
   doc_data doc).

(** ** [ElfHexEditorProvider.readBytes] and [writeBytes] *)

(** How [subarray] places a bound: a negative one counts from the end,
    and both are kept within the buffer. *)
Definition adjustOffset (offset len : Z) : Z :=
  if offset <? 0 then Z.max (JSNumber.add offset len) 0
  else Z.min offset len.

(** [buf.subarray(start, end)]. *)
Definition subarray (b : Buffer) (start end_ : Z) : Buffer :=
  let s := adjustOffset start (buf_length b) in
  let e := adjustOffset end_ (buf_length b) in
  if s <? e then firstn (Z.to_nat (e - s)) (skipn (Z.to_nat s) b) else [].

(** [v.toString(16)] for an integer: lower-case digits, no leading
    zero, a minus sign for a negative number. *)
Definition toString16 (v : Z) : jsstring :=
  js (HexadecimalString.NilZero.string_of_int (Z.to_hex_int v)).

(** [s.padStart(n, c)] for a filler of one character. *)
Definition padStart (n : Z) (fill : Z) (s : jsstring) : jsstring :=
  repeat fill (Z.to_nat (n - Z.of_nat (length s))) ++ s.

(** [b.toString(16).padStart(2, '0')]. *)
Definition byteHex (b : Z) : jsstring := padStart 2 48 (toString16 b).

(** [readBytes(offset, size)], given the active document if there is
    one. *)
Definition readBytes (active : option ElfDocument) (offset size : Z)
    : option jsstring :=
  match active with
  | None => None
  | Some doc =>
      Some (flat_map (fun b => byteHex (byte_val b))
              (subarray (doc_data doc) offset (JSNumber.add offset size)))
  end.

(** The loop of [writeBytes] from index [i] on. *)
Fixpoint writeBytes_from (doc : ElfDocument) (offset i : Z)
    (bytes : list (option Z)) : ElfDocument :=
  match bytes with
  | [] => doc
  | b :: rest =>
      writeBytes_from (fst (applyEdit doc (JSNumber.add offset i) b))
        offset (JSNumber.add i 1) rest
  end.

(** [writeBytes(offset, bytes)] on the active document. *)
Definition writeBytes (doc : ElfDocument) (offset : Z)
    (bytes : list (option Z)) : ElfDocument :=
  writeBytes_from doc offset 0 bytes.

(** ** The edit dialog ([elf-explorer.itemClicked] in [extension.ts]) *)

(** The characters [\s] matches. *)
Definition is_space (c : Z) : bool :=
  ((9 <=? c) && (c <=? 13)) || (c =? 32) || (c =? 160) || (c =? 5760)
  || ((8192 <=? c) && (c <=? 8202)) || (c =? 8232) || (c =? 8233)
  || (c =? 8239) || (c =? 8287) || (c =? 12288) || (c =? 65279).

(** [val.replace(/\s/g, '')]. *)
Definition clean (val : jsstring) : jsstring :=
  filter (fun c => negb (is_space c)) val.

(** The value of a hexadecimal digit, in either case. *)
Definition hex_value (c : Z) : option Z :=
  if (48 <=? c) && (c <=? 57) then Some (c - 48)
  else if (97 <=? c) && (c <=? 102) then Some (c - 87)
  else if (65 <=? c) && (c <=? 70) then Some (c - 55)
  else None.

Definition is_hex_digit (c : Z) : bool :=
  match hex_value c with Some _ => true | None => false end.

(** What [validateInput] answers: [null], or one of its two messages. *)
Inductive validation :=
| Accepted
| InvalidHexCharacters
| NeedDigits (need got : Z).

Definition validateInput (fileSize : Z) (val : jsstring) : validation :=
  let c := clean val in
  if negb (forallb is_hex_digit c) then InvalidHexCharacters
  else if negb (Z.of_nat (length c) =? JSNumber.mul fileSize 2)
       then NeedDigits (JSNumber.mul fileSize 2) (Z.of_nat (length c))
       else Accepted.

(** The value of the longest prefix of hexadecimal digits. *)
Fixpoint hex_prefix (s : jsstring) (acc : Z) : Z :=
  match s with
  | c :: rest =>
      match hex_value c with
      | Some d => hex_prefix rest (16 * acc + d)
      | None => acc
      end
  | [] => acc
  end.

(** [parseInt(s, 16)], [None] for [NaN]: leading white space, a sign
    and a [0x] prefix are skipped, then the longest prefix of digits is
    read. *)
Definition parseInt16 (s : jsstring) : option Z :=
  let fix skip (s : jsstring) : jsstring :=
    match s with
    | c :: rest => if is_space c then skip rest else s
    | [] => []
    end in
  let s1 := skip s in
  let signed :=
    match s1 with
    | 45 :: rest => (-1, rest)
    | 43 :: rest => (1, rest)
    | _ => (1, s1)
    end in
  let s3 :=
    match snd signed with
    | 48 :: 120 :: rest => rest
    | 48 :: 88 :: rest => rest
    | s2 => s2
    end in
  match s3 with
  | c :: _ =>
      if is_hex_digit c
      then Some (JSNumber.fround (fst signed * hex_prefix s3 0))
      else None
  | [] => None
  end.

(** The pieces [clean.substring(i, i + 2)] for [i = 0, 2, 4, ...]. *)
Fixpoint substrings2 (s : jsstring) : list jsstring :=
  match s with
  | a :: b :: rest => [a; b] :: substrings2 rest
  | [a] => [[a]]
  | [] => []
  end.

(** The [newBytes] computed from the cleaned input. *)
Definition newBytes (cleaned : jsstring) : list (option Z) :=
  map parseInt16 (substrings2 cleaned).

(** The matches of [/.{2}/g]: pairs of characters that are no line
    terminators, found from left to right. *)
Definition is_line_terminator (c : Z) : bool :=
  (c =? 10) || (c =? 13) || (c =? 8232) || (c =? 8233).

Fixpoint matchPairs (s : jsstring) : list jsstring :=
  match s with
  | a :: ((b :: rest) as t) =>
      if negb (is_line_terminator a) && negb (is_line_terminator b)
      then [a; b] :: matchPairs rest
      else matchPairs t
  | _ => []
  end.

(** [pieces.join(' ')]. *)
Fixpoint joinSpace (pieces : list jsstring) : jsstring :=
  match pieces with
  | [] => []
  | [p] => p
  | p :: rest => p ++ 32 :: joinSpace rest
  end.

(** [currentHex.match(/.{2}/g)?.join(' ') || currentHex]. *)
Definition formatted (currentHex : jsstring) : jsstring :=
  match joinSpace (matchPairs currentHex) with
  | [] => currentHex
  | f => f
  end.

(** What a double click on an editable item does to the document, given
    what the input box returns: [None] when the user cancels, otherwise
    a text that [validateInput] accepted. *)
Definition editDialog (doc : ElfDocument) (fileOffset fileSize : Z)
    (input : option jsstring) : ElfDocument :=
  match readBytes (Some doc) fileOffset fileSize with
  | None | Some [] => doc
  | Some _ =>
      match input with
      | None => doc
      | Some val => writeBytes doc fileOffset (newBytes (clean val))
      end
  end.

(** ** Notions used to state the properties of the editor *)

(** Undoing [n] times. *)
Definition undoEdits (n : nat) (doc : ElfDocument) : ElfDocument :=
  Nat.iter n (fun d => fst (undoEdit d)) doc.

(** A hexadecimal digit in lower case. *)
Definition lowerHex (c : Z) : Z :=
  if (65 <=? c) && (c <=? 70) then c + 32 else c.

(** The bytes of a list, as numbers to write. *)
Definition as_values (bs : list byte) : list (option Z) :=
  map (fun b => Some (byte_val b)) bs.

(** The buffer [b] with the bytes [new] put in place of those from
    offset [p] on. *)
Definition splice (b : Buffer) (p : Z) (new : list byte) : Buffer :=
  firstn (Z.to_nat p) b ++ new ++ skipn (Z.to_nat p + length new) b.

(** The character [toString(16)] prints for a digit below 16. *)
Definition hex_digit_char (d : Z) : Z := if d <? 10 then 48 + d else 87 + d.

(** The characters that are hexadecimal digits. *)
Definition hexDigits : list Z :=
  [48; 49; 50; 51; 52; 53; 54; 55; 56; 57;
   97; 98; 99; 100; 101; 102; 65; 66; 67; 68; 69; 70].

(** * Helpers of the extension and of the hex view *)

(** [function isElfFile(filePath)] of [extension.ts], given the content
    of the file, [None] when it cannot be opened: up to four bytes are
    read into a zeroed buffer of four bytes, which is compared with the
    magic. *)
Definition isElfFile (file : option Buffer) : bool :=
  match file with
  | None => false
  | Some content =>
      let buf := firstn 4 content ++ repeat x00 (4 - length content) in
      if list_eq_dec Byte.byte_eq_dec buf ELF_MAGIC then true else false
  end.

(** [export function hex(v)] of [elf-parser.ts]. *)
Definition hex (v : Z) : jsstring := js "0x" ++ toString16 v.

(** ** Typing into a cell of the hex view (the [keydown] handler) *)

(** The editing state of the view: its copy of the bytes, the offset
    being edited (negative when none is) and the nibble the next digit
    goes to. *)
Record EditState := mkEditState {
  es_bytes : Buffer;
  es_editingOffset : Z;
  es_editNibble : Z
}.

(** [oldByte & mask] where [oldByte] may be [undefined]. *)
Definition and_mask (oldByte : option Z) (mask : Z) : Z :=
  match oldByte with Some b => Z.land b mask | None => 0 end.

(** What a key that is the hexadecimal digit [hexDigit] does: the new
    state and the edit message posted to the extension, as
    [(offset, newValue)]. *)
Definition keyHexDigit (st : EditState) (hexDigit : Z)
    : EditState * option (Z * Z) :=
  if es_editingOffset st <? 0 then (st, None)
  else
    let offset := es_editingOffset st in
    let oldByte := buf_get (es_bytes st) offset in
    let newByte :=
      if es_editNibble st =? 0
      then Z.lor (Z.shiftl hexDigit 4) (and_mask oldByte 15)
      else Z.lor (and_mask oldByte 240) hexDigit in
    let editNibble := if es_editNibble st =? 0 then 1 else 0 in
    let bytes := buf_set (es_bytes st) offset (Some newByte) in
    let next :=
      if (editNibble =? 0) && (offset <? buf_length bytes - 1)
      then offset + 1 else offset in
    (mkEditState bytes next editNibble, Some (offset, newByte)).

(** The span of the tree item of a string entry ([s.fileOffset],
    [s.length]) against the bytes of the string in the buffer: the span
    starts at a byte of the buffer and covers at most the bytes of the
    string and one more (the NUL, or the byte past the end of the buffer
    when the buffer cuts the string off); for a string of ASCII bytes it
    covers exactly that, and the text is the bytes themselves. *)
Definition string_item_covers_its_bytes (data : Buffer) (e : StringEntry)
    : Prop :=
  let run := run_at data (str_fileOffset e) in
  1 <= str_length e <= Z.of_nat (length run) + 1 /\
  0 <= str_fileOffset e < buf_length data /\
  str_fileOffset e + str_length e <= buf_length data + 1 /\
  (Forall (fun b => byte_val b < 128) run ->
   str_value e = map byte_val run /\
   str_length e = Z.of_nat (length run) + 1).

(** ** The document and the view side by side *)

(** The two copies of the file that an editing session keeps: the
    document of the extension and the [bytes] array of the view. *)
Record Session := mkSession {
  ses_doc : ElfDocument;
  ses_bytes : Buffer
}.

(** What the [undo] and [redo] closures of an edit event capture. *)
Record UndoEntry := mkUndoEntry {
  un_offset : Z;
  un_oldValue : option Z;
  un_newValue : option Z
}.

(** The [updateByte] message in the view: [bytes[msg.offset] = msg.value]. *)
Definition updateByte (bytes : Buffer) (offset : Z) (value : option Z)
    : Buffer :=
  buf_set bytes offset value.

(** An edit made in the view: the view stores the byte and posts the
    [edit] message, on which the extension applies the edit to the
    document and fires the event that carries the two closures. *)
Definition viewEdit (s : Session) (offset : Z) (newValue : option Z)
    : Session * UndoEntry :=
  let edited := applyEdit (ses_doc s) offset newValue in
  (mkSession (fst edited) (buf_set (ses_bytes s) offset newValue),
   mkUndoEntry offset (snd edited) newValue).

(** The [undo] closure of an edit event. *)
Definition undo (u : UndoEntry) (s : Session) : Session :=
  mkSession (fst (undoEdit (ses_doc s)))
    (updateByte (ses_bytes s) (un_offset u) (un_oldValue u)).

(** The [redo] closure of an edit event. *)
Definition redo (u : UndoEntry) (s : Session) : Session :=
  mkSession (fst (applyEdit (ses_doc s) (un_offset u) (un_newValue u)))
    (updateByte (ses_bytes s) (un_offset u) (un_newValue u)).

(** The [updateByte] messages [writeBytes] posts, as the view takes
    them. *)
Fixpoint updateBytes_from (bytes : Buffer) (offset i : Z)
    (values : list (option Z)) : Buffer :=
  match values with
  | [] => bytes
  | v :: rest =>
      updateBytes_from (updateByte bytes (JSNumber.add offset i) v)
        offset (JSNumber.add i 1) rest
  end.

(** An edit made through the tree: [writeBytes] on the document, with
    its messages to the view; no edit event is fired. *)
Definition treeEdit (s : Session) (offset : Z) (values : list (option Z))
    : Session :=
  mkSession (writeBytes (ses_doc s) offset values)
    (updateBytes_from (ses_bytes s) offset 0 values).

(** The view shows the bytes the document holds. *)
Definition in_step (s : Session) : Prop :=
  doc_data (ses_doc s) = ses_bytes s.

(** ** A sample file with every kind of table *)

(** A 64-bit little-endian file with one program header and five
    sections: the null section, the section name table [.shstrtab], a
    symbol table [.symtab] of two symbols (the second one named main), a
    dynamic section [.dynamic] that declares three entries, the second
    of which is the terminator, and a RELA section [.rela] with one
    entry whose symbol index is 1 and whose addend is -4. *)
Definition full64_elf : Buffer :=
  [x7f; x45; x4c; x46; x02; x01; x01; x03; x00; x00; x00; x00; x00; x00;
   x00; x00; x02; x00; x3e; x00; x01; x00; x00; x00; x00; x10; x40; x00;
   x00; x00; x00; x00; x40; x00; x00; x00; x00; x00; x00; x00; x78; x00;
   x00; x00; x00; x00; x00; x00; x00; x00; x00; x00; x40; x00; x38; x00;
   x01; x00; x40; x00; x05; x00; x01; x00; x01; x00; x00; x00; x05; x00;
   x00; x00; x00; x00; x00; x00; x00; x00; x00; x00; x00; x00; x40; x00;
   x00; x00; x00; x00; x00; x00; x40; x00; x00; x00; x00; x00; x57; x02;
   x00; x00; x00; x00; x00; x00; x57; x02; x00; x00; x00; x00; x00; x00;
   x00; x10; x00; x00; x00; x00; x00; x00; x00; x00; x00; x00; x00; x00;
   x00; x00; x00; x00; x00; x00; x00; x00; x00; x00; x00; x00; x00; x00;
   x00; x00; x00; x00; x00; x00; x00; x00; x00; x00; x00; x00; x00; x00;
   x00; x00; x00; x00; x00; x00; x00; x00; x00; x00; x00; x00; x00; x00;
   x00; x00; x00; x00; x00; x00; x00; x00; x00; x00; x00; x00; x00; x00;
   x00; x00; x01; x00; x00; x00; x03; x00; x00; x00; x00; x00; x00; x00;
   x00; x00; x00; x00; x00; x00; x00; x00; x00; x00; x00; x00; xb8; x01;
   x00; x00; x00; x00; x00; x00; x27; x00; x00; x00; x00; x00; x00; x00;
   x00; x00; x00; x00; x00; x00; x00; x00; x01; x00; x00; x00; x00; x00;
   x00; x00; x00; x00; x00; x00; x00; x00; x00; x00; x0b; x00; x00; x00;
   x02; x00; x00; x00; x00; x00; x00; x00; x00; x00; x00; x00; x00; x00;
   x00; x00; x00; x00; x00; x00; xdf; x01; x00; x00; x00; x00; x00; x00;
   x30; x00; x00; x00; x00; x00; x00; x00; x01; x00; x00; x00; x01; x00;
   x00; x00; x08; x00; x00; x00; x00; x00; x00; x00; x18; x00; x00; x00;
   x00; x00; x00; x00; x13; x00; x00; x00; x06; x00; x00; x00; x03; x00;
   x00; x00; x00; x00; x00; x00; x00; x00; x00; x00; x00; x00; x00; x00;
   x0f; x02; x00; x00; x00; x00; x00; x00; x30; x00; x00; x00; x00; x00;
   x00; x00; x01; x00; x00; x00; x00; x00; x00; x00; x08; x00; x00; x00;
   x00; x00; x00; x00; x10; x00; x00; x00; x00; x00; x00; x00; x1c; x00;
   x00; x00; x04; x00; x00; x00; x02; x00; x00; x00; x00; x00; x00; x00;
   x00; x00; x00; x00; x00; x00; x00; x00; x3f; x02; x00; x00; x00; x00;
   x00; x00; x18; x00; x00; x00; x00; x00; x00; x00; x02; x00; x00; x00;
   x00; x00; x00; x00; x08; x00; x00; x00; x00; x00; x00; x00; x18; x00;
   x00; x00; x00; x00; x00; x00; x00; x2e; x73; x68; x73; x74; x72; x74;
   x61; x62; x00; x2e; x73; x79; x6d; x74; x61; x62; x00; x2e; x64; x79;
   x6e; x61; x6d; x69; x63; x00; x2e; x72; x65; x6c; x61; x00; x6d; x61;
   x69; x6e; x00; x00; x00; x00; x00; x00; x00; x00; x00; x00; x00; x00;
   x00; x00; x00; x00; x00; x00; x00; x00; x00; x00; x00; x00; x00; x22;
   x00; x00; x00; x12; x00; x01; x00; x00; x10; x40; x00; x00; x00; x00;
   x00; x10; x00; x00; x00; x00; x00; x00; x00; x01; x00; x00; x00; x00;
   x00; x00; x00; x05; x00; x00; x00; x00; x00; x00; x00; x00; x00; x00;
   x00; x00; x00; x00; x00; x00; x00; x00; x00; x00; x00; x00; x00; x0e;
   x00; x00; x00; x00; x00; x00; x00; x09; x00; x00; x00; x00; x00; x00;
   x00; x00; x30; x40; x00; x00; x00; x00; x00; x07; x00; x00; x00; x01;
   x00; x00; x00; xfc; xff; xff; xff; xff; xff; xff; xff].
(** * Properties *)

(** ** Facts about numbers *)

Module JSNumberFacts.
Import JSNumber.

Lemma two53 : 2 ^ 53 = 9007199254740992.
Proof. reflexivity. Qed.

(** Integers up to [2^53] are binary64 values. *)
Lemma fround_exact (x : Z) : 0 <= x <= 2 ^ 53 -> fround x = x.
Proof.
  intros [H0 H1]. unfold fround.
  destruct (Z.ltb_spec x 0) as [Hn|_]; [lia|].
  unfold fround_pos.
  destruct (Z.ltb_spec x (2 ^ 53)) as [_|Hge]; [reflexivity|].
  assert (x = 2 ^ 53) as -> by lia. reflexivity.
Qed.

(** Rounding never takes a value of [2^53] or more below [2^53]. *)
Lemma fround_pos_big (x : Z) : 2 ^ 53 <= x -> 2 ^ 53 <= fround_pos x.
Proof.
  intros Hx. unfold fround_pos.
  destruct (Z.ltb_spec x (2 ^ 53)) as [Hlt|_]; [lia|].
  assert (Hpos : 0 < x) by (rewrite two53 in Hx; lia).
  assert (Hlog : 53 <= Z.log2 x) by (apply Z.log2_le_pow2; assumption).
  set (e := Z.log2 x - 52).
  assert (He : 1 <= e) by (unfold e; lia).
  assert (Hp : 0 < 2 ^ e) by (apply Z.pow_pos_nonneg; lia).
  assert (Hq : 2 ^ 52 <= x / 2 ^ e).
  { apply Z.div_le_lower_bound; [assumption|].
    rewrite Z.mul_comm, <- Z.pow_add_r by lia.
    replace (52 + e) with (Z.log2 x) by (unfold e; lia).
    apply Z.log2_spec; assumption. }
  assert (Hbase : 2 ^ 53 <= x / 2 ^ e * 2 ^ e).
  { assert (2 ^ 1 <= 2 ^ e) by (apply Z.pow_le_mono_r; lia).
    change (2 ^ 1) with 2 in *. change (2 ^ 53) with (2 ^ 52 * 2).
    apply Z.mul_le_mono_nonneg; lia. }
  assert (Hup : x / 2 ^ e * 2 ^ e <= (x / 2 ^ e + 1) * 2 ^ e) by nia.
  repeat match goal with |- context [if ?c then _ else _] => destruct c end;
    lia.
Qed.

Lemma fround_lower (x : Z) : 0 <= x -> Z.min x (2 ^ 53) <= fround x.
Proof.
  intros H0. destruct (Z.le_gt_cases x (2 ^ 53)) as [Hle|Hgt].
  - rewrite fround_exact by lia. lia.
  - unfold fround. destruct (Z.ltb_spec x 0) as [Hn|_]; [lia|].
    pose proof (fround_pos_big x ltac:(lia)). lia.
Qed.

Lemma fround_nonneg (x : Z) : 0 <= x -> 0 <= fround x.
Proof.
  intros H. pose proof (fround_lower x H). rewrite two53 in *. lia.
Qed.

(** A sum that stays below [2^53] after rounding was exact. *)
Lemma add_exact (a b L : Z) :
  0 <= a -> 0 <= b -> L < 2 ^ 53 -> add a b <= L -> add a b = a + b.
Proof.
  intros Ha Hb HL Hle. unfold add in *.
  pose proof (fround_lower (a + b) ltac:(lia)) as Hlow.
  apply fround_exact. lia.
Qed.

Lemma add_small (a b : Z) : 0 <= a -> 0 <= b -> a + b <= 2 ^ 53 -> add a b = a + b.
Proof. intros. unfold add. apply fround_exact. lia. Qed.

Lemma add_nonneg (a b : Z) : 0 <= a -> 0 <= b -> 0 <= add a b.
Proof. intros. unfold add. apply fround_nonneg. lia. Qed.

Lemma mul_nonneg (a b : Z) : 0 <= a -> 0 <= b -> 0 <= mul a b.
Proof. intros. unfold mul. apply fround_nonneg. nia. Qed.

Lemma Number_nonneg (a : Z) : 0 <= a -> 0 <= Number a.
Proof. apply fround_nonneg. Qed.

(** A sum is at least what exact addition gives, up to [2^53]. *)
Lemma add_lower (a b : Z) :
  0 <= a -> 0 <= b -> Z.min (a + b) (2 ^ 53) <= add a b.
Proof. intros. unfold add. apply fround_lower. lia. Qed.

End JSNumberFacts.

(** [fround] is the rounding of the binary64 specification of the
    Standard Library, here at values on both sides of [2^53], at ties
    and next to them. *)
Lemma fround_agrees_with_binary64 :
  Forall (fun x => float_to_Z (binary_normalize 53 1024 x 0 false)
                   = Some (JSNumber.fround x))
    [0; 1; 17; 2 ^ 53 - 1; 2 ^ 53; 2 ^ 53 + 1; 2 ^ 53 + 2; 2 ^ 53 + 3;
     2 ^ 54 + 2; 2 ^ 54 + 6; 2 ^ 60 + 128; 2 ^ 60 + 129; 2 ^ 60 + 384;
     2 ^ 64 - 1025; 2 ^ 64 - 1024; 2 ^ 64 - 1; 2 ^ 64;
     3 * 2 ^ 70 + 12345; 2 ^ 65 - 1; - (2 ^ 53 + 1); - (2 ^ 53 + 3)].
Proof.
  repeat (constructor; [vm_compute; reflexivity|]). constructor.
Qed.

(** The loop bound [17 / 16] lets the indices 0 and 1 through and stops
    at 2; a bound that is a whole number [n] stops at [n]. *)
Lemma count_17_16 :
  JSNumber.ltb_float 0 (JSNumber.div 17 16) = true /\
  JSNumber.ltb_float 1 (JSNumber.div 17 16) = true /\
  JSNumber.ltb_float 2 (JSNumber.div 17 16) = false /\
  JSNumber.ltb_float 0 (JSNumber.div 16 16) = true /\
  JSNumber.ltb_float 1 (JSNumber.div 16 16) = false /\
  JSNumber.ltb_float 0 (JSNumber.div 0 16) = false.
Proof. vm_compute. repeat split. Qed.

(** The default of the entry size: a declared size of zero gives the
    constant of the width, any other declared size is kept. *)
Lemma or_default_Number (x d : Z) :
  0 <= x ->
  JSNumber.or_default (JSNumber.Number x) d =
  if x =? 0 then d else JSNumber.Number x.
Proof.
  intros Hx. unfold JSNumber.or_default, JSNumber.Number.
  destruct (Z.eqb_spec x 0) as [->|Hne]; [reflexivity|].
  pose proof (JSNumberFacts.fround_lower x Hx) as H.
  rewrite JSNumberFacts.two53 in H.
  destruct (Z.eqb_spec (JSNumber.fround x) 0) as [E|_]; [lia|reflexivity].
Qed.

Lemma symEntSize_default (w : bool) (sh : SectionHeader) :
  0 <= sh_entsize sh ->
  symEntSize w sh =
  if sh_entsize sh =? 0 then (if w then 24 else 16)
  else JSNumber.Number (sh_entsize sh).
Proof. intros H. unfold symEntSize. apply or_default_Number. exact H. Qed.

(** ** Facts about the reader monad *)

Lemma bind_Ok_inv {A B} (m : M A) (k : A -> M B) (r r' : Reader) (b : B) :
  bind m k r = (Ok b, r') ->
  exists a r1, m r = (Ok a, r1) /\ k a r1 = (Ok b, r').
Proof.
  unfold bind. destruct (m r) as [[a|e|] r1]; intros H; try discriminate.
  exists a, r1. split; [reflexivity|assumption].
Qed.

Lemma bind_Ok {A B} (m : M A) (k : A -> M B) (r r1 : Reader) (a : A) :
  m r = (Ok a, r1) -> bind m k r = k a r1.
Proof. unfold bind. intros ->. reflexivity. Qed.

Lemma bind_Throw {A B} (m : M A) (k : A -> M B) (r r1 : Reader) (e : exn) :
  m r = (Throw e, r1) -> bind m k r = (Throw e, r1).
Proof. unfold bind. intros ->. reflexivity. Qed.

Lemma same_buffer_refl (r : Reader) : same_buffer r r.
Proof. repeat split. Qed.

Lemma same_buffer_trans (r1 r2 r3 : Reader) :
  same_buffer r1 r2 -> same_buffer r2 r3 -> same_buffer r1 r3.
Proof.
  unfold same_buffer. intros (a & b & c) (d & e & f).
  repeat split; congruence.
Qed.

Lemma frame_run {A} (m : M A) (r r' : Reader) (res : result A) :
  frame m -> m r = (res, r') -> same_buffer r r'.
Proof. intros F H. specialize (F r). rewrite H in F. exact F. Qed.

Lemma frame_ret {A} (a : A) : frame (ret a).
Proof. intros r. apply same_buffer_refl. Qed.

Lemma frame_bind {A B} (m : M A) (k : A -> M B) :
  frame m -> (forall a, frame (k a)) -> frame (bind m k).
Proof.
  intros Fm Fk r. unfold bind. specialize (Fm r).
  destruct (m r) as [[a|e|] r1]; simpl in *; try assumption.
  eapply same_buffer_trans; [exact Fm|apply Fk].
Qed.

Lemma frame_get_buf : frame get_buf.
Proof. intros r. apply same_buffer_refl. Qed.

Lemma frame_get_is64 : frame get_is64.
Proof. intros r. apply same_buffer_refl. Qed.

Lemma frame_lift {A} (x : result A) : frame (lift x).
Proof. intros r. apply same_buffer_refl. Qed.

Lemma frame_seek (p : Z) : frame (Rd.seek p).
Proof. intros r. repeat split. Qed.

Lemma frame_u8 : frame Rd.u8.
Proof. intros r. repeat split. Qed.

Lemma frame_read_n (n : nat) (conv : Z -> Z) : frame (Rd.read_n n conv).
Proof.
  intros r. unfold Rd.read_n.
  destruct (buf_bytes (buf r) (pos r) n); repeat split.
Qed.

Lemma frame_addr : frame Rd.addr.
Proof.
  intros r. unfold Rd.addr, Rd.u64, Rd.u32.
  destruct (is64 r); apply frame_read_n.
Qed.

Lemma frame_sxword : frame Rd.sxword.
Proof. intros r. unfold Rd.sxword. destruct (is64 r); apply frame_read_n. Qed.

Lemma frame_mapM {A B} (f : A -> M B) (l : list A) :
  (forall a, frame (f a)) -> frame (mapM f l).
Proof.
  intros Ff. induction l as [|a l IH]; simpl.
  - apply frame_ret.
  - apply frame_bind; [apply Ff|]. intros b.
    apply frame_bind; [exact IH|]. intros bs. apply frame_ret.
Qed.

Lemma frame_count_loop {A} (fuel : nat) (count : spec_float)
    (body : Z -> M (A * bool)) :
  (forall i, frame (body i)) -> forall i, frame (count_loop fuel count body i).
Proof.
  intros Fb. induction fuel as [|fuel IH]; intros i; simpl.
  - destruct (JSNumber.ltb_float i count).
    + intros r. apply same_buffer_refl.
    + apply frame_ret.
  - destruct (JSNumber.ltb_float i count); [|apply frame_ret].
    apply frame_bind; [apply Fb|]. intros [a brk]. simpl.
    destruct brk; [apply frame_ret|].
    apply frame_bind; [apply IH|]. intros rest. apply frame_ret.
Qed.

Create HintDb frame.
#[export] Hint Resolve frame_ret frame_get_buf frame_get_is64 frame_lift
  frame_seek frame_u8 frame_read_n frame_addr frame_sxword : frame.

Ltac frame_step :=
  match goal with
  | |- frame (bind _ _) => apply frame_bind; [|intros ?]
  | |- frame (if ?c then _ else _) => destruct c
  | |- frame (match ?x with _ => _ end) => destruct x
  | |- frame Rd.u16 => apply frame_read_n
  | |- frame Rd.u32 => apply frame_read_n
  | |- frame Rd.u64 => apply frame_read_n
  | |- frame Rd.off => apply frame_addr
  | |- frame Rd.xword => apply frame_addr
  | |- frame _ => solve [auto with frame]
  end.

Ltac frame_auto := cbv zeta; repeat frame_step.

Lemma frame_parseHeader (c d : option Z) : frame (parseHeader c d).
Proof. unfold parseHeader. frame_auto. Qed.

Lemma frame_programHeader (a b i : Z) : frame (programHeader a b i).
Proof. unfold programHeader. frame_auto. Qed.

Lemma frame_sectionHeader (a b i : Z) : frame (sectionHeader a b i).
Proof. unfold sectionHeader. frame_auto. Qed.

Lemma frame_symbol (a b : Z) (s : option SectionHeader) (c i : Z) :
  frame (symbol a b s c i).
Proof. unfold symbol. frame_auto. Qed.

Lemma frame_dynEntry (a b i : Z) : frame (dynEntry a b i).
Proof. unfold dynEntry. frame_auto. Qed.

Lemma frame_relEntry (ra : bool) (a b : Z) (s : option (list ElfSymbol)) (i : Z) :
  frame (relEntry ra a b s i).
Proof. unfold relEntry. frame_auto. Qed.

Lemma frame_parseDynamic (fuel : nat) (shs : list SectionHeader) :
  forall acc d, frame (parseDynamic fuel shs acc d).
Proof.
  induction shs as [|sh shs IH]; intros acc d; simpl.
  - apply frame_ret.
  - destruct (sh_type sh =? 6); [|apply IH].
    apply frame_bind; [|intros es; apply IH].
    unfold dynamicSection. apply frame_bind; [apply frame_get_is64|].
    intros b. apply frame_count_loop. intros i. apply frame_dynEntry.
Qed.

Lemma frame_resolveSectionNames (data : Buffer) (i : Z)
    (shs : list SectionHeader) : frame (resolveSectionNames data i shs).
Proof.
  unfold resolveSectionNames.
  destruct (i <? Z.of_nat (length shs)); [|apply frame_ret].
  destruct (section_at shs i); [|apply frame_ret].
  apply frame_mapM. intros sh. frame_auto.
Qed.

Lemma frame_parseBody (fuel : nat) (c d : option Z) : frame (parseBody fuel c d).
Proof.
  unfold parseBody.
  apply frame_bind; [apply frame_parseHeader|]. intros hdr.
  apply frame_bind.
  { apply frame_mapM. intros i. apply frame_programHeader. }
  intros phs. apply frame_bind.
  { apply frame_mapM. intros i. apply frame_sectionHeader. }
  intros shs0. apply frame_bind; [apply frame_get_buf|]. intros data.
  apply frame_bind; [apply frame_resolveSectionNames|]. intros shs.
  apply frame_bind.
  { apply frame_mapM. intros sh. unfold symbolTable.
    apply frame_bind; [apply frame_get_is64|]. intros b. cbv zeta.
    apply frame_bind; [|intros; apply frame_ret].
    apply frame_count_loop. intros i. apply frame_symbol. }
  intros syms. apply frame_bind; [apply frame_parseDynamic|]. intros dyn.
  apply frame_bind.
  { apply frame_mapM. intros sh. unfold relocationTable.
    apply frame_bind; [apply frame_get_is64|]. intros b. cbv zeta.
    apply frame_bind; [|intros; apply frame_ret].
    apply frame_count_loop. intros i. apply frame_relEntry. }
  intros rels. apply frame_bind.
  { apply frame_mapM. intros sh.
    apply frame_bind; [apply frame_get_buf|]. intros b.
    apply frame_lift. }
  intros strs. apply frame_ret.
Qed.

(** ** The magic check *)

Lemma byte_val_inj (a b : byte) : byte_val a = byte_val b -> a = b.
Proof.
  unfold byte_val. intros H. apply N2Z.inj in H.
  pose proof (Byte.of_to_N a) as Ha. rewrite H, Byte.of_to_N in Ha.
  congruence.
Qed.

Lemma byte_val_range (b : byte) : 0 <= byte_val b < 256.
Proof.
  unfold byte_val. pose proof (Byte.to_N_bounded b). lia.
Qed.

Lemma bad_magic_false (data : Buffer) :
  bad_magic data = false -> firstn 4 data = ELF_MAGIC.
Proof.
  unfold bad_magic, buf_get.
  destruct data as [|b0 [|b1 [|b2 [|b3 rest]]]]; simpl;
    try discriminate;
    rewrite ?orb_true_r; try discriminate.
  intros H.
  apply orb_false_elim in H as [H H3].
  apply orb_false_elim in H as [H H2].
  apply orb_false_elim in H as [H0 H1].
  apply negb_false_iff, Z.eqb_eq in H0, H1, H2, H3.
  unfold ELF_MAGIC.
  rewrite (byte_val_inj b0 x7f H0), (byte_val_inj b1 x45 H1),
    (byte_val_inj b2 x4c H2), (byte_val_inj b3 x46 H3).
  reflexivity.
Qed.

Lemma bad_magic_ELF (data : Buffer) :
  firstn 4 data = ELF_MAGIC -> bad_magic data = false.
Proof.
  unfold ELF_MAGIC.
  destruct data as [|b0 [|b1 [|b2 [|b3 rest]]]]; simpl; try discriminate.
  intros H. injection H as -> -> -> ->. reflexivity.
Qed.

(** C2.  A buffer shorter than 52 bytes, or one whose first four bytes
    are not 0x7F 'E' 'L' 'F', is always answered with [null] (the
    parser's "not an ELF file"), never with a model, whatever the rest of
    the buffer holds. *)
Theorem C2_not_elf_rejected (fuel : nat) (data : Buffer) :
  buf_length data < 52 \/ firstn 4 data <> ELF_MAGIC ->
  parseElf fuel data = (Ok None, data).
Proof.
  intros H. unfold parseElf.
  destruct (Z.ltb_spec (buf_length data) 52) as [Hs|Hl]; [reflexivity|].
  destruct (bad_magic data) eqn:Hm; [reflexivity|].
  apply bad_magic_false in Hm. destruct H as [H|H]; [lia|contradiction].
Qed.

Lemma C2_not_elf_rejected_witness :
  firstn 4 (repeat x00 52) <> ELF_MAGIC /\
  parseElf 0 (repeat x00 52) = (Ok None, repeat x00 52).
Proof.
  assert (H : firstn 4 (repeat x00 52) <> ELF_MAGIC) by (simpl; discriminate).
  split; [exact H|].
  apply (C2_not_elf_rejected 0 (repeat x00 52)). right. exact H.
Defined.

(** ** The buffer is only read *)

(** *** The objects of a decode *)

Module HeapFacts.
Import Heap.

(** *** Updating the heap *)

Lemma nth_error_split_at (h : heap) (l : loc) (o : object) :
  nth_error h l = Some o ->
  h = firstn l h ++ o :: skipn (S l) h /\ length (firstn l h) = l.
Proof.
  revert l. induction h as [|x h IH]; intros [|l] E; cbn in E; try discriminate.
  - injection E as ->. split; reflexivity.
  - destruct (IH l E) as [E1 E2]. split.
    + cbn [firstn skipn app]. f_equal. exact E1.
    + cbn [firstn length]. rewrite E2. reflexivity.
Qed.

Lemma length_update (h : heap) (l : loc) f :
  length (update h l f) = length h.
Proof.
  unfold update. destruct (nth_error h l) as [o|] eqn:E; [|reflexivity].
  destruct (nth_error_split_at h l o E) as [E1 E2].
  rewrite E1 at 3. rewrite !length_app. reflexivity.
Qed.

Lemma firstn_update (h : heap) (l : loc) f (n : nat) :
  (n <= l)%nat -> firstn n (update h l f) = firstn n h.
Proof.
  intros Hn. unfold update.
  destruct (nth_error h l) as [o|] eqn:E; [|reflexivity].
  destruct (nth_error_split_at h l o E) as [E1 E2].
  rewrite E1 at 3. rewrite !firstn_app, E2.
  replace (n - l)%nat with 0%nat by lia. reflexivity.
Qed.

Lemma skipn_update_below (h : heap) (l : loc) f (lo : nat) :
  (l < lo)%nat -> skipn lo (update h l f) = skipn lo h.
Proof.
  intros Hl. unfold update.
  destruct (nth_error h l) as [o|] eqn:E; [|reflexivity].
  destruct (nth_error_split_at h l o E) as [E1 E2].
  rewrite E1 at 3. rewrite !skipn_app, E2.
  rewrite (skipn_all2 (firstn l h)) by lia.
  destruct (lo - l)%nat as [|k] eqn:Ek; [lia|]. reflexivity.
Qed.

Lemma skipn_update_above (h : heap) (l : loc) f (lo : nat) (o : object) :
  (lo <= l)%nat -> nth_error h l = Some o ->
  skipn lo h = skipn lo (firstn l h) ++ o :: skipn (S l) h /\
  skipn lo (update h l f) = skipn lo (firstn l h) ++ f o :: skipn (S l) h.
Proof.
  intros Hl E. unfold update. rewrite E.
  destruct (nth_error_split_at h l o E) as [E1 E2].
  split.
  - rewrite E1 at 1. rewrite skipn_app, E2.
    replace (lo - l)%nat with 0%nat by lia. reflexivity.
  - rewrite skipn_app, E2.
    replace (lo - l)%nat with 0%nat by lia. reflexivity.
Qed.

Lemma extends_length (h0 h : heap) :
  extends h0 h -> (length h0 <= length h)%nat.
Proof.
  unfold extends. intros E.
  assert (L : length (firstn (length h0) h) = length h0) by (rewrite E; reflexivity).
  rewrite length_firstn in L. lia.
Qed.

Lemma extends_refl (h : heap) : extends h h.
Proof. unfold extends. apply firstn_all. Qed.

Lemma extends_app (h0 h t : heap) : extends h0 h -> extends h0 (h ++ t).
Proof.
  intros E. pose proof (extends_length _ _ E) as L. unfold extends in *.
  rewrite firstn_app. replace (length h0 - length h)%nat with 0%nat by lia.
  cbn [firstn]. rewrite app_nil_r. exact E.
Qed.

Lemma extends_update (h0 h : heap) (l : loc) f :
  (length h0 <= l)%nat -> extends h0 h -> extends h0 (update h l f).
Proof.
  unfold extends. intros Hl E. rewrite firstn_update by exact Hl. exact E.
Qed.

Lemma extends_nth_error (h0 h : heap) (l : loc) (o : object) :
  extends h0 h -> nth_error h0 l = Some o -> nth_error h l = Some o.
Proof.
  unfold extends. intros E Hl.
  assert (l < length h0)%nat by (apply nth_error_Some; congruence).
  rewrite <- (firstn_skipn (length h0) h), E.
  rewrite nth_error_app1 by assumption. exact Hl.
Qed.

(** *** The references the objects hold *)

Lemma cnt_app (l1 l2 : list loc) (x : loc) :
  cnt (l1 ++ l2) x = (cnt l1 x + cnt l2 x)%nat.
Proof. apply count_occ_app. Qed.

Lemma cnt_nil (x : loc) : cnt [] x = 0%nat.
Proof. reflexivity. Qed.

Lemma refs_from_app (lo : nat) (h : heap) (o : object) :
  (lo <= length h)%nat ->
  refs_from lo (h ++ [o]) = refs_from lo h ++ refs_of o.
Proof.
  intros Hlo. unfold refs_from. rewrite skipn_app.
  replace (lo - length h)%nat with 0%nat by lia.
  cbn [skipn]. rewrite flat_map_app. cbn [flat_map]. rewrite app_nil_r.
  reflexivity.
Qed.

Lemma refs_from_update_below (lo : nat) (h : heap) (l : loc) f :
  (l < lo)%nat -> refs_from lo (update h l f) = refs_from lo h.
Proof.
  intros Hl. unfold refs_from. rewrite skipn_update_below by exact Hl.
  reflexivity.
Qed.

Lemma cnt_refs_from_update (lo : nat) (h : heap) (l : loc) f (o : object) x :
  (lo <= l)%nat -> nth_error h l = Some o ->
  (cnt (refs_from lo (update h l f)) x + cnt (refs_of o) x =
   cnt (refs_from lo h) x + cnt (refs_of (f o)) x)%nat.
Proof.
  intros Hl E. unfold refs_from.
  destruct (skipn_update_above h l f lo o Hl E) as [E1 E2].
  rewrite E1, E2, !flat_map_app. cbn [flat_map].
  rewrite !cnt_app. lia.
Qed.

Lemma refs_of_push (v : value) (o : object) x :
  (cnt (refs_of (push_elem v o)) x <= cnt (refs_of o) x + cnt (value_refs v) x)%nat.
Proof.
  destruct o as [b|fs|es]; cbn [push_elem refs_of]; try lia.
  rewrite flat_map_app, cnt_app. cbn [flat_map].
  rewrite app_nil_r. lia.
Qed.

Lemma refs_of_set_field fs name (v : value) x :
  (cnt (flat_map (fun f => value_refs (snd f)) (set_field fs name v)) x <=
   cnt (flat_map (fun f => value_refs (snd f)) fs) x + cnt (value_refs v) x)%nat.
Proof.
  induction fs as [|[n y] fs IH]; cbn [set_field flat_map snd].
  - rewrite app_nil_r. lia.
  - destruct (String.eqb n name); cbn [flat_map snd];
      rewrite !cnt_app; lia.
Qed.

Lemma refs_of_set_prop name (v : value) (o : object) x :
  (cnt (refs_of (set_prop name v o)) x <= cnt (refs_of o) x + cnt (value_refs v) x)%nat.
Proof.
  destruct o as [b|fs|es]; cbn [set_prop refs_of]; try lia.
  apply refs_of_set_field.
Qed.

(** [owns], by counting. *)
Lemma owns_count (lo : nat) (p : list loc) (h : heap) :
  owns lo p h <->
  (lo <= length h)%nat /\
  existsb is_buffer (skipn lo h) = false /\
  forall x, (cnt (refs_from lo h) x + cnt p x <= 1)%nat /\
            (1 <= cnt (refs_from lo h) x + cnt p x -> lo <= x < length h)%nat.
Proof.
  unfold owns, cnt. split.
  - intros (Hlo & Hb & Hr & Hn). split; [exact Hlo|]. split; [exact Hb|].
    intros x. rewrite <- count_occ_app. split.
    + apply NoDup_count_occ. exact Hn.
    + intros Hc. rewrite Forall_forall in Hr. apply Hr.
      apply (count_occ_In Nat.eq_dec). exact Hc.
  - intros (Hlo & Hb & Hx). split; [exact Hlo|]. split; [exact Hb|]. split.
    + apply Forall_forall. intros x Hin.
      apply (count_occ_In Nat.eq_dec) in Hin.
      rewrite count_occ_app in Hin. apply Hx. exact Hin.
    + apply (NoDup_count_occ Nat.eq_dec). intros x.
      rewrite count_occ_app. apply Hx.
Qed.

Lemma cnt_single (l x : nat) :
  cnt [l] x = if Nat.eq_dec l x then 1%nat else 0%nat.
Proof. unfold cnt. cbn. destruct (Nat.eq_dec l x); reflexivity. Qed.

Lemma owns_pending (lo : nat) (p : list loc) (h : heap) (l : loc) :
  owns lo p h -> In l p -> (lo <= l < length h)%nat.
Proof.
  intros (_ & _ & Hr & _) Hin. rewrite Forall_forall in Hr.
  apply Hr. apply in_or_app. right. exact Hin.
Qed.

Lemma existsb_is_buffer_update (lo : nat) (h : heap) (l : loc) f :
  (forall o, is_buffer o = false -> is_buffer (f o) = false) ->
  existsb is_buffer (skipn lo h) = false ->
  existsb is_buffer (skipn lo (update h l f)) = false.
Proof.
  intros Hf Hb. destruct (Nat.lt_ge_cases l lo) as [Hl|Hl].
  - rewrite skipn_update_below by exact Hl. exact Hb.
  - destruct (nth_error h l) as [o|] eqn:E.
    + destruct (skipn_update_above h l f lo o Hl E) as [E1 E2].
      rewrite E1 in Hb. rewrite E2.
      rewrite existsb_app in *. cbn [existsb] in *.
      apply orb_false_iff in Hb. destruct Hb as [Hb1 Hb2].
      apply orb_false_iff in Hb2. destruct Hb2 as [Hb2 Hb3].
      rewrite Hb1, Hb3, (Hf o Hb2). reflexivity.
    + unfold update. rewrite E. exact Hb.
Qed.

Lemma owns_update_below (lo : nat) (p : list loc) (h : heap) (l : loc) f :
  (l < lo)%nat -> owns lo p h -> owns lo p (update h l f).
Proof.
  intros Hl (Hlo & Hb & Hr). unfold owns.
  rewrite length_update, refs_from_update_below, skipn_update_below
    by exact Hl.
  auto.
Qed.

Lemma owns_alloc (lo : nat) (p : list loc) (h : heap) (o : object) :
  is_buffer o = false ->
  owns lo (p ++ refs_of o) h -> owns lo (p ++ [length h]) (h ++ [o]).
Proof.
  intros Ho Hown. apply owns_count in Hown. destruct Hown as (Hlo & Hb & Hx).
  apply owns_count. rewrite length_app. cbn [length]. split; [lia|]. split.
  - rewrite skipn_app. replace (lo - length h)%nat with 0%nat by lia.
    cbn [skipn]. rewrite existsb_app, Hb. cbn. rewrite Ho. reflexivity.
  - intros x. specialize (Hx x).
    rewrite refs_from_app by exact Hlo.
    rewrite !cnt_app in *. rewrite cnt_single.
    destruct (Nat.eq_dec (length h) x) as [Heq|Hne].
    + subst x. destruct Hx as [Hx1 Hx2]. split; [|lia].
      destruct (Nat.eq_dec
                  (cnt (refs_from lo h) (length h) +
                   (cnt p (length h) + cnt (refs_of o) (length h))) 0)
        as [Hz|Hz]; [lia|].
      assert (lo <= length h < length h)%nat by (apply Hx2; lia). lia.
    + destruct Hx as [Hx1 Hx2]. split; [lia|].
      intros Hc. assert (lo <= x < length h)%nat by (apply Hx2; lia). lia.
Qed.

Lemma owns_update (lo : nat) (p q : list loc) (h : heap) (l : loc) f :
  (forall o, is_buffer o = false -> is_buffer (f o) = false) ->
  (forall o x, cnt (refs_of (f o)) x + cnt q x <= cnt (refs_of o) x + cnt p x)%nat ->
  owns lo p h -> owns lo q (update h l f).
Proof.
  intros Hf Hc Hown. apply owns_count in Hown.
  destruct Hown as (Hlo & Hb & Hx).
  apply owns_count. rewrite length_update. split; [exact Hlo|]. split.
  - apply existsb_is_buffer_update; assumption.
  - intros x. specialize (Hx x).
    destruct (Nat.lt_ge_cases l lo) as [Hl|Hl].
    + rewrite refs_from_update_below by exact Hl.
      specialize (Hc (Arr []) x). cbn [refs_of flat_map] in Hc.
      rewrite cnt_nil in Hc.
      split; [lia|]. intros; apply Hx; lia.
    + destruct (nth_error h l) as [o|] eqn:E.
      * pose proof (cnt_refs_from_update lo h l f o x Hl E) as Hu.
        specialize (Hc o x). split; [lia|]. intros; apply Hx; lia.
      * unfold update. rewrite E.
        specialize (Hc (Arr []) x). cbn [refs_of flat_map] in Hc.
        rewrite cnt_nil in Hc.
        split; [lia|]. intros; apply Hx; lia.
Qed.

Lemma owns_push (lo : nat) (p : list loc) (h : heap) (arr l : loc) :
  owns lo (p ++ [l]) h -> owns lo p (update h arr (push_elem (Ref l))).
Proof.
  apply owns_update.
  - intros [b|fs|es]; cbn; auto.
  - intros o x. pose proof (refs_of_push (Ref l) o x) as Hp.
    rewrite cnt_app. cbn [value_refs] in Hp. lia.
Qed.

Lemma owns_set_prop (lo : nat) (p : list loc) (h : heap) (l : loc)
    name (v : value) :
  value_refs v = [] ->
  owns lo p h -> owns lo p (update h l (set_prop name v)).
Proof.
  intros Hv. apply owns_update.
  - intros [b|fs|es]; cbn; auto.
  - intros o x. pose proof (refs_of_set_prop name v o x) as Hp.
    rewrite Hv, cnt_nil in Hp. lia.
Qed.

(** *** The rules of the computations *)

Section Rules.

Variable h0 : heap.

Lemma hoare_ret {A} (P : heap -> Prop) (a : A) (Q : A -> heap -> Prop) :
  (forall h, P h -> Q a h) -> hoare h0 P (retH a) Q.
Proof. intros HPQ h r He HP. cbn. split; auto. Qed.

Lemma hoare_bind {A B} (P : heap -> Prop) (m : H A) (Q : A -> heap -> Prop)
    (k : A -> H B) (R : B -> heap -> Prop) :
  hoare h0 P m Q -> (forall a, hoare h0 (Q a) (k a) R) ->
  hoare h0 P (bindH m k) R.
Proof.
  intros Hm Hk h r He HP. unfold bindH. specialize (Hm h r He HP).
  destruct (m h r) as [[res h'] r']. destruct res as [a|e|]; auto.
  destruct Hm as [He' HQ]. apply Hk; assumption.
Qed.

Lemma hoare_conseq {A} (P P' : heap -> Prop) (m : H A)
    (Q Q' : A -> heap -> Prop) :
  (forall h, P h -> P' h) -> hoare h0 P' m Q' ->
  (forall a h, Q' a h -> Q a h) -> hoare h0 P m Q.
Proof.
  intros HP Hm HQ h r He Hh. specialize (Hm h r He (HP h Hh)).
  destruct (m h r) as [[res h'] r']. destruct res as [a|e|]; auto.
  destruct Hm; split; auto.
Qed.

Lemma hoare_pure {A} (F : Prop) (P : heap -> Prop) (m : H A)
    (Q : A -> heap -> Prop) :
  (F -> hoare h0 P m Q) -> hoare h0 (fun h => P h /\ F) m Q.
Proof. intros Hm h r He [HP HF]. apply Hm; assumption. Qed.

Lemma hoare_mapH {A B} (P : heap -> Prop) (R : B -> Prop) (f : A -> H B)
    (l : list A) :
  (forall a, In a l -> hoare h0 P (f a) (fun b h => P h /\ R b)) ->
  hoare h0 P (mapH f l) (fun bs h => P h /\ Forall R bs).
Proof.
  induction l as [|a l IH]; intros Hf; cbn [mapH].
  - apply hoare_ret. auto.
  - eapply hoare_bind; [apply Hf; left; reflexivity|]. intros b. cbv beta.
    apply hoare_pure. intros Hb.
    eapply hoare_bind; [apply IH; intros; apply Hf; right; assumption|].
    intros bs. cbv beta.
    apply hoare_ret. intros h [HP Hbs]. auto.
Qed.

Lemma hoare_keep {A} (P : heap -> Prop) (R : A -> Prop) (m : H A) :
  hoare h0 P m (fun b h => P h /\ R b) -> hoare h0 P m (fun _ h => P h).
Proof.
  intros Hm. eapply hoare_conseq; [|exact Hm|]; cbv beta; [auto|].
  intros a h [HP _]. exact HP.
Qed.

Lemma hoare_count_loop {A} (P : heap -> Prop) (fuel : nat) count
    (body : Z -> H (A * bool)) (i : Z) :
  (forall j, hoare h0 P (body j) (fun _ h => P h)) ->
  hoare h0 P (count_loop fuel count body i) (fun _ h => P h).
Proof.
  intros Hb. revert i. induction fuel as [|fuel IH]; intros i;
    cbn [count_loop]; destruct (JSNumber.ltb_float i count);
    try (apply hoare_ret; auto).
  - intros h r He HP. exact He.
  - eapply hoare_bind; [apply Hb|]. intros ab. cbv beta.
    destruct (snd ab).
    + apply hoare_ret; auto.
    + eapply hoare_bind; [apply IH|]. intros rest. apply hoare_ret; auto.
Qed.

Variables lr ldata : loc.
Variable lo : nat.
Hypothesis lr_new : (length h0 <= lr)%nat.
Hypothesis lr_lo : (lr < lo)%nat.

Lemma hoare_run {A} (p : list loc) (m : M A) :
  hoare h0 (owns lo p) (run lr ldata m) (fun _ h => owns lo p h).
Proof.
  intros h r He HP. unfold run. destruct (m r) as [res r'].
  assert (extends h0 (update h lr (fun _ => readerObject ldata r')))
    by (apply extends_update; assumption).
  assert (owns lo p (update h lr (fun _ => readerObject ldata r')))
    by (apply owns_update_below; assumption).
  destruct res; auto.
Qed.

Lemma hoare_alloc (p : list loc) (o : object) :
  is_buffer o = false ->
  hoare h0 (owns lo (p ++ refs_of o)) (alloc o)
    (fun l h => owns lo (p ++ [l]) h /\ nth_error h l = Some o).
Proof.
  intros Ho h r He HP. unfold alloc. split; [apply extends_app; exact He|].
  split; [apply owns_alloc; assumption|].
  rewrite nth_error_app2 by lia. rewrite Nat.sub_diag. reflexivity.
Qed.

Lemma hoare_alloc_leaf (p : list loc) (o : object) :
  is_buffer o = false -> refs_of o = [] ->
  hoare h0 (owns lo p) (alloc o) (fun l h => owns lo (p ++ [l]) h).
Proof.
  intros Ho Hr. eapply hoare_conseq; [|apply (hoare_alloc p o Ho)|].
  - intros h Hh. rewrite Hr, app_nil_r. exact Hh.
  - intros l h [Hh _]. exact Hh.
Qed.

Lemma hoare_push (p : list loc) (arr l : loc) :
  In arr p ->
  hoare h0 (owns lo (p ++ [l])) (push arr (Ref l)) (fun _ h => owns lo p h).
Proof.
  intros Hin h r He HP. unfold push. split.
  - apply extends_update; [|exact He].
    assert (lo <= arr < length h)%nat
      by (apply (owns_pending lo (p ++ [l]) h); [exact HP|];
          apply in_or_app; left; exact Hin).
    lia.
  - apply owns_push. exact HP.
Qed.

Lemma hoare_setField (p : list loc) (l : loc) name (v : value) :
  (lo <= l)%nat -> value_refs v = [] ->
  hoare h0 (owns lo p) (setField l name v) (fun _ h => owns lo p h).
Proof.
  intros Hl Hv h r He HP. unfold setField. split.
  - apply extends_update; [lia|exact He].
  - apply owns_set_prop; assumption.
Qed.

(** A loop body that reads an entry, creates its object and pushes it
    on an array that nothing holds yet. *)
Lemma hoare_entry {A B} (p : list loc) (arr : loc) (m : M A)
    (fields : A -> list (string * value)) (g : loc -> A -> B) :
  (forall a, refs_of (Obj (fields a)) = []) -> In arr p ->
  hoare h0 (owns lo p)
    (bindH (run lr ldata m) (fun a =>
     bindH (alloc (Obj (fields a))) (fun o =>
     bindH (push arr (Ref o)) (fun _ => retH (g o a)))))
    (fun b h => owns lo p h /\ exists o a, (lo <= o)%nat /\ b = g o a).
Proof.
  intros Hf Hin.
  eapply hoare_bind; [apply hoare_run|]. intros a. cbv beta.
  eapply hoare_bind; [apply hoare_alloc_leaf; [reflexivity|apply Hf]|].
  intros o. cbv beta.
  intros h r He HP.
  assert (Ho : (lo <= o < length h)%nat)
    by (apply (owns_pending lo (p ++ [o]) h); [exact HP|];
        apply in_or_app; right; left; reflexivity).
  unfold bindH, push, retH. split.
  - apply extends_update; [|exact He].
    assert (lo <= arr < length h)%nat
      by (apply (owns_pending lo (p ++ [o]) h); [exact HP|];
          apply in_or_app; left; exact Hin).
    lia.
  - split; [apply owns_push; exact HP|]. exists o, a. split; [lia|reflexivity].
Qed.

(** *** The objects of the model hold no reference *)

Lemma refs_headerFields (h : ElfHeader) : refs_of (Obj (headerFields h)) = [].
Proof.
  unfold headerFields, refs_of, flat_map, snd, num_or_undefined.
  destruct (h_class h), (h_data h), (h_version h), (h_osabi h); reflexivity.
Qed.

Lemma refs_programHeaderFields (p : ProgramHeader) :
  refs_of (Obj (programHeaderFields p)) = [].
Proof. reflexivity. Qed.

Lemma refs_sectionHeaderFields (s : SectionHeader) :
  refs_of (Obj (sectionHeaderFields s)) = [].
Proof. reflexivity. Qed.

Lemma refs_symbolFields (s : ElfSymbol) : refs_of (Obj (symbolFields s)) = [].
Proof.
  unfold symbolFields, refs_of, flat_map, snd, num_or_undefined.
  destruct (sym_info s), (sym_other s); reflexivity.
Qed.

Lemma refs_dynEntryFields (e : DynEntry) :
  refs_of (Obj (dynEntryFields e)) = [].
Proof. reflexivity. Qed.

Lemma refs_relEntryFields (e : RelEntry) :
  refs_of (Obj (relEntryFields e)) = [].
Proof.
  unfold relEntryFields, refs_of, flat_map, snd.
  destruct (rel_addend e), (rel_symbolName e); reflexivity.
Qed.

Lemma refs_stringEntryFields (e : StringEntry) :
  refs_of (Obj (stringEntryFields e)) = [].
Proof. reflexivity. Qed.

(** *** The stages of the parser *)

Lemma in_last (p : list loc) (l : loc) : In l (p ++ [l]).
Proof. apply in_or_app. right. left. reflexivity. Qed.

Lemma own_parseProgramHeaders (p : list loc) (hdr : ElfHeader) :
  hoare h0 (owns lo p) (parseProgramHeaders lr ldata hdr)
    (fun x h => owns lo (p ++ [fst x]) h).
Proof.
  unfold parseProgramHeaders.
  eapply hoare_bind;
    [apply (hoare_alloc_leaf p (Arr [])); reflexivity|].
  intros arr. cbv beta.
  eapply hoare_bind.
  - apply (hoare_mapH (owns lo (p ++ [arr])) (fun _ => True)).
    intros i _.
    eapply hoare_conseq;
      [|apply (hoare_entry (p ++ [arr]) arr
                 (programHeader (h_phoff hdr) (h_phentsize hdr) i)
                 programHeaderFields (fun _ a => a));
        [exact refs_programHeaderFields|apply in_last]|];
      cbv beta; [auto|].
    intros b h [Hh _]. auto.
  - intros phs. cbv beta. apply hoare_ret. intros h [Hh _]. exact Hh.
Qed.

Lemma own_parseSectionHeaders (p : list loc) (hdr : ElfHeader) :
  hoare h0 (owns lo p) (parseSectionHeaders lr ldata hdr)
    (fun x h => owns lo (p ++ [fst x]) h /\
                Forall (fun osh => (lo <= fst osh)%nat) (snd x)).
Proof.
  unfold parseSectionHeaders.
  eapply hoare_bind;
    [apply (hoare_alloc_leaf p (Arr [])); reflexivity|].
  intros arr. cbv beta.
  eapply hoare_bind.
  - apply (hoare_mapH (owns lo (p ++ [arr]))
             (fun osh : loc * SectionHeader => (lo <= fst osh)%nat)).
    intros i _.
    eapply hoare_conseq;
      [|apply (hoare_entry (p ++ [arr]) arr
                 (sectionHeader (h_shoff hdr) (h_shentsize hdr) i)
                 sectionHeaderFields (fun o a => (o, a)));
        [exact refs_sectionHeaderFields|apply in_last]|];
      cbv beta; [auto|].
    intros b h [Hh (o & a & Ho & Hb)]. subst b. auto.
  - intros shs. cbv beta. apply hoare_ret. intros h [Hh Hs]. auto.
Qed.

Lemma own_resolveSectionNames (p : list loc) (data : Buffer) (shstrndx : Z)
    (shs : list (loc * SectionHeader)) :
  Forall (fun osh => (lo <= fst osh)%nat) shs ->
  hoare h0 (owns lo p) (resolveSectionNames lr ldata data shstrndx shs)
    (fun _ h => owns lo p h).
Proof.
  intros Hs. unfold resolveSectionNames.
  destruct (shstrndx <? Z.of_nat (length shs));
    [|apply hoare_ret; auto].
  destruct (section_at (map snd shs) shstrndx) as [strtab|];
    [|apply hoare_ret; auto].
  apply (hoare_keep _ (Forall (fun _ => True))).
  apply hoare_mapH. intros osh Hin.
  rewrite Forall_forall in Hs. specialize (Hs osh Hin).
  eapply hoare_bind; [apply hoare_run|]. intros name. cbv beta.
  eapply hoare_bind; [apply hoare_setField; [exact Hs|reflexivity]|].
  intros u. apply hoare_ret. auto.
Qed.

(** A table: its array, the loop that fills it, and the table object
    pushed on the array of the tables. *)
Lemma own_table {A B} (p : list loc) (outer : loc)
    (loop : loc -> H A) (fields : loc -> list (string * value))
    (k : A -> B) :
  In outer p ->
  (forall arr, refs_of (Obj (fields arr)) = [arr]) ->
  (forall arr, hoare h0 (owns lo (p ++ [arr])) (loop arr)
                 (fun _ h => owns lo (p ++ [arr]) h)) ->
  hoare h0 (owns lo p)
    (bindH (alloc (Arr [])) (fun arr =>
     bindH (loop arr) (fun l =>
     bindH (alloc (Obj (fields arr))) (fun t =>
     bindH (push outer (Ref t)) (fun _ => retH (k l))))))
    (fun _ h => owns lo p h).
Proof.
  intros Hin Hf Hloop.
  eapply hoare_bind;
    [apply (hoare_alloc_leaf p (Arr [])); reflexivity|].
  intros arr. cbv beta.
  eapply hoare_bind; [apply Hloop|]. intros l. cbv beta.
  eapply hoare_bind.
  - eapply hoare_conseq;
      [|apply (hoare_alloc p (Obj (fields arr))); reflexivity|];
      cbv beta.
    + intros h Hh. rewrite Hf. exact Hh.
    + intros t h [Hh _]. exact Hh.
  - intros t. cbv beta.
    eapply hoare_bind; [apply hoare_push; exact Hin|].
    intros u. apply hoare_ret. auto.
Qed.

Lemma own_entries {A} (p : list loc) (arr : loc) (fuel : nat) count
    (body : Z -> M (A * bool)) (fields : A -> list (string * value)) :
  (forall a, refs_of (Obj (fields a)) = []) -> In arr p ->
  hoare h0 (owns lo p)
    (count_loop fuel count
       (fun i =>
          bindH (run lr ldata (body i)) (fun ab =>
          bindH (alloc (Obj (fields (fst ab)))) (fun o =>
          bindH (push arr (Ref o)) (fun _ => retH ab)))) 0)
    (fun _ h => owns lo p h).
Proof.
  intros Hf Hin. apply hoare_count_loop. intros j.
  apply (hoare_keep _ (fun b => exists (o : loc) (a : A * bool),
                                     (lo <= o)%nat /\ b = a)).
  apply (hoare_entry p arr (body j)
           (fun ab => fields (fst ab)) (fun _ a => a)).
  - intros a. apply Hf.
  - exact Hin.
Qed.

Lemma own_symbolTable (p : list loc) (fuel : nat) (symbols : loc)
    (shs : list SectionHeader) (sh : SectionHeader) :
  In symbols p ->
  hoare h0 (owns lo p) (symbolTable lr ldata fuel symbols shs sh)
    (fun _ h => owns lo p h).
Proof.
  intros Hin. unfold symbolTable.
  apply (own_table p symbols
           (fun syms =>
              bindH (run lr ldata get_is64) (fun is64 =>
                count_loop fuel (entryCount sh (symEntSize is64 sh))
                  (fun i =>
                     bindH (run lr ldata
                              (symbol (JSNumber.Number (sh_offset sh))
                                 (symEntSize is64 sh) (linked_section shs sh)
                                 match linked_section shs sh with
                                 | Some s => JSNumber.Number (sh_offset s)
                                 | None => 0
                                 end i)) (fun sb =>
                     bindH (alloc (Obj (symbolFields (fst sb)))) (fun sym =>
                     bindH (push syms (Ref sym)) (fun _ => retH sb)))) 0))
           (tableFields "symbols"
              (str_or (sh_name sh)
                 (if sh_type sh =? 2 then js ".symtab" else js ".dynsym"))
              (JSNumber.Number (sh_offset sh)))
           (mkTable
              (str_or (sh_name sh)
                 (if sh_type sh =? 2 then js ".symtab" else js ".dynsym"))
              (JSNumber.Number (sh_offset sh)))).
  - exact Hin.
  - reflexivity.
  - intros syms.
    eapply hoare_bind; [apply hoare_run|]. intros w. cbv beta.
    apply own_entries; [exact refs_symbolFields|apply in_last].
Qed.

(** An array of tables: [const tables = []] and the loop over the
    sections. *)
Lemma own_tables {A B} (p : list loc) (table : loc -> A -> H B)
    (l : list A) :
  (forall outer a, hoare h0 (owns lo (p ++ [outer])) (table outer a)
                     (fun _ h => owns lo (p ++ [outer]) h)) ->
  hoare h0 (owns lo p)
    (bindH (alloc (Arr [])) (fun outer =>
     bindH (mapH (table outer) l) (fun ts => retH (outer, ts))))
    (fun x h => owns lo (p ++ [fst x]) h).
Proof.
  intros Ht.
  eapply hoare_bind;
    [apply (hoare_alloc_leaf p (Arr [])); reflexivity|].
  intros outer. cbv beta.
  eapply hoare_bind.
  - apply (hoare_mapH (owns lo (p ++ [outer])) (fun _ => True)).
    intros a _. eapply hoare_conseq; [|apply (Ht outer a)|]; cbv beta; auto.
  - intros ts. cbv beta. apply hoare_ret. intros h [Hh _]. exact Hh.
Qed.

Lemma own_parseSymbols (p : list loc) (fuel : nat)
    (shs : list SectionHeader) :
  hoare h0 (owns lo p) (parseSymbols lr ldata fuel shs)
    (fun x h => owns lo (p ++ [fst x]) h).
Proof.
  unfold parseSymbols.
  apply (own_tables p (fun outer => symbolTable lr ldata fuel outer shs)).
  intros outer sh. apply own_symbolTable. apply in_last.
Qed.

Lemma own_dynamicSection (p : list loc) (fuel : nat) (arr : loc)
    (sh : SectionHeader) :
  In arr p ->
  hoare h0 (owns lo p) (dynamicSection lr ldata fuel arr sh)
    (fun _ h => owns lo p h).
Proof.
  intros Hin. unfold dynamicSection.
  eapply hoare_bind; [apply hoare_run|]. intros w. cbv beta.
  apply own_entries; [exact refs_dynEntryFields|exact Hin].
Qed.

Lemma own_parseDynamic (p : list loc) (fuel : nat) (arr : loc)
    (shs : list SectionHeader) (acc : list DynEntry) (dynOff : Z) :
  In arr p ->
  hoare h0 (owns lo p) (parseDynamic lr ldata fuel arr shs acc dynOff)
    (fun _ h => owns lo p h).
Proof.
  intros Hin. revert acc dynOff.
  induction shs as [|sh shs IH]; intros acc dynOff; cbn [parseDynamic].
  - apply hoare_ret. auto.
  - destruct (sh_type sh =? 6); [|apply IH].
    eapply hoare_bind; [apply own_dynamicSection; exact Hin|].
    intros es. cbv beta. apply IH.
Qed.

Lemma own_relocationTable (p : list loc) (fuel : nat) (relocations : loc)
    (shs : list SectionHeader) (symbols : list (Table ElfSymbol))
    (sh : SectionHeader) :
  In relocations p ->
  hoare h0 (owns lo p)
    (relocationTable lr ldata fuel relocations shs symbols sh)
    (fun _ h => owns lo p h).
Proof.
  intros Hin. unfold relocationTable.
  eapply hoare_bind; [apply hoare_run|]. intros w. cbv beta.
  apply (own_table p relocations
           (fun entries =>
              count_loop fuel
                (entryCount sh (relEntSize w (sh_type sh =? 4) sh))
                (fun i =>
                   bindH (run lr ldata
                            (relEntry (sh_type sh =? 4)
                               (JSNumber.Number (sh_offset sh))
                               (relEntSize w (sh_type sh =? 4) sh)
                               (findSymbols symbols (linked_section shs sh))
                               i)) (fun eb =>
                   bindH (alloc (Obj (relEntryFields (fst eb)))) (fun e =>
                   bindH (push entries (Ref e)) (fun _ => retH eb)))) 0)
           (tableFields "entries" (sh_name sh)
              (JSNumber.Number (sh_offset sh)))
           (mkTable (sh_name sh) (JSNumber.Number (sh_offset sh)))).
  - exact Hin.
  - reflexivity.
  - intros entries.
    apply own_entries; [exact refs_relEntryFields|apply in_last].
Qed.

Lemma own_parseRelocations (p : list loc) (fuel : nat)
    (shs : list SectionHeader) (symbols : list (Table ElfSymbol)) :
  hoare h0 (owns lo p) (parseRelocations lr ldata fuel shs symbols)
    (fun x h => owns lo (p ++ [fst x]) h).
Proof.
  unfold parseRelocations.
  apply (own_tables p
           (fun outer => relocationTable lr ldata fuel outer shs symbols)).
  intros outer sh. apply own_relocationTable. apply in_last.
Qed.

Lemma own_walkStrings (p : list loc) (fuel : nat) (strs : loc)
    (data : Buffer) (pos end_ : Z) :
  In strs p ->
  hoare h0 (owns lo p) (walkStrings lr ldata fuel strs data pos end_)
    (fun _ h => owns lo p h).
Proof.
  intros Hin. revert pos.
  induction fuel as [|fuel IH]; intros pos; cbn [walkStrings];
    destruct (pos <? end_); try (apply hoare_ret; auto).
  - intros h r He HP. exact He.
  - eapply hoare_bind; [apply hoare_run|]. intros s. cbv beta zeta.
    eapply hoare_bind.
    + instantiate (1 := fun _ h => owns lo p h).
      destruct (0 <? Z.of_nat (length s)); [|apply hoare_ret; auto].
      eapply hoare_bind;
        [apply hoare_alloc_leaf; [reflexivity|apply refs_stringEntryFields]|].
      intros o. cbv beta. apply hoare_push. exact Hin.
    + intros u. cbv beta.
      eapply hoare_bind; [apply IH|]. intros rest. apply hoare_ret. auto.
Qed.

Lemma own_stringTable (p : list loc) (fuel : nat) (stringTables : loc)
    (sh : SectionHeader) :
  In stringTables p ->
  hoare h0 (owns lo p) (stringTable lr ldata fuel stringTables sh)
    (fun _ h => owns lo p h).
Proof.
  intros Hin. unfold stringTable.
  apply (own_table p stringTables
           (fun strs =>
              bindH (run lr ldata get_buf) (fun data =>
                walkStrings lr ldata fuel strs data
                  (JSNumber.Number (sh_offset sh))
                  (JSNumber.add (JSNumber.Number (sh_offset sh))
                     (JSNumber.Number (sh_size sh)))))
           (tableFields "strings" (sh_name sh)
              (JSNumber.Number (sh_offset sh)))
           (mkTable (sh_name sh) (JSNumber.Number (sh_offset sh)))).
  - exact Hin.
  - reflexivity.
  - intros strs.
    eapply hoare_bind; [apply hoare_run|]. intros data. cbv beta.
    apply own_walkStrings. apply in_last.
Qed.

Lemma own_parseStringTables (p : list loc) (fuel : nat)
    (shs : list SectionHeader) :
  hoare h0 (owns lo p) (parseStringTables lr ldata fuel shs)
    (fun x h => owns lo (p ++ [fst x]) h).
Proof.
  unfold parseStringTables.
  apply (own_tables p (fun outer => stringTable lr ldata fuel outer)).
  intros outer sh. apply own_stringTable. apply in_last.
Qed.

(** The whole parser: the object it returns is the only one that
    nothing holds. *)
Lemma own_parseBody (fuel : nat) (elfClass elfData : option Z) :
  hoare h0 (owns lo []) (parseBody lr ldata fuel elfClass elfData)
    (fun x h =>
       owns lo [fst x] h /\
       exists header programHeaders sectionHeaders symbols dynamicEntries
              relocations stringTables,
         nth_error h (fst x) =
         Some (Obj (fileFields header programHeaders sectionHeaders symbols
                      dynamicEntries (dynamicSectionOffset (snd x))
                      relocations stringTables))).
Proof.
  unfold parseBody.
  eapply hoare_bind; [apply hoare_run|]. intros hdr. cbv beta.
  eapply hoare_bind;
    [apply (hoare_alloc_leaf [] (Obj (headerFields hdr)));
       [reflexivity|apply refs_headerFields]|].
  intros header. cbv beta.
  eapply hoare_bind; [apply own_parseProgramHeaders|]. intros phs. cbv beta.
  eapply hoare_bind; [apply own_parseSectionHeaders|]. intros shs0. cbv beta.
  apply hoare_pure. intros Hshs0.
  eapply hoare_bind; [apply hoare_run|]. intros data. cbv beta.
  eapply hoare_bind; [apply own_resolveSectionNames; exact Hshs0|].
  intros shs. cbv beta.
  eapply hoare_bind; [apply own_parseSymbols|]. intros syms. cbv beta.
  eapply hoare_bind;
    [apply (hoare_alloc_leaf _ (Arr [])); reflexivity|].
  intros dynamicEntries. cbv beta.
  eapply hoare_bind; [apply own_parseDynamic; apply in_last|].
  intros dyn. cbv beta.
  eapply hoare_bind; [apply own_parseRelocations|]. intros rels. cbv beta.
  eapply hoare_bind; [apply own_parseStringTables|]. intros strs. cbv beta.
  eapply hoare_bind;
    [apply (hoare_alloc []
              (Obj (fileFields header (fst phs) (fst shs0) (fst syms)
                      dynamicEntries (snd dyn) (fst rels) (fst strs))));
     reflexivity|].
  intros file. cbv beta. apply hoare_ret.
  intros h [Hh Hn]. split; [exact Hh|].
  exists header, (fst phs), (fst shs0), (fst syms), dynamicEntries,
    (fst rels), (fst strs).
  exact Hn.
Qed.

End Rules.

Lemma owns_start (h0 : heap) (o : object) :
  owns (S (length h0)) [] (h0 ++ [o]).
Proof.
  assert (E : skipn (S (length h0)) (h0 ++ [o]) = []).
  { apply skipn_all2. rewrite length_app. cbn [length]. lia. }
  unfold owns, refs_from. rewrite E, length_app. cbn [length].
  split; [lia|]. split; [reflexivity|]. split; constructor.
Qed.

Lemma owned_of_owns (n0 : nat) (h : heap) (root : loc) :
  owns (S n0) [root] h -> owned n0 h root.
Proof.
  intros (Hlo & Hb & Hr & Hn). unfold owned.
  apply Forall_app in Hr. destruct Hr as [Hr1 Hr2].
  inversion Hr2 as [|x l Hroot _]; subst.
  split; [lia|]. split; [exact Hb|]. split.
  - eapply Forall_impl; [|exact Hr1]. cbv beta. intros l Hl. lia.
  - split.
    + apply NoDup_app_remove_r in Hn. exact Hn.
    + apply NoDup_remove_2 in Hn. rewrite app_nil_r in Hn. exact Hn.
Qed.

(** [parseElf] leaves the objects it finds as they are, and what it
    returns is owned. *)
Lemma parseElf_owned (fuel : nat) (ldata : loc) (data : Buffer) (h0 : heap) :
  extends h0 (snd (parseElf fuel ldata data h0)) /\
  forall root m,
    fst (parseElf fuel ldata data h0) = Ok (Some (root, m)) ->
    owned (length h0) (snd (parseElf fuel ldata data h0)) root /\
    exists header programHeaders sectionHeaders symbols dynamicEntries
           relocations stringTables,
      nth_error (snd (parseElf fuel ldata data h0)) root =
      Some (Obj (fileFields header programHeaders sectionHeaders symbols
                   dynamicEntries (dynamicSectionOffset m)
                   relocations stringTables)).
Proof.
  unfold parseElf.
  destruct (buf_length data <? 52);
    [split; [apply extends_refl|discriminate]|].
  destruct (bad_magic data);
    [split; [apply extends_refl|discriminate]|].
  cbv zeta.
  pose proof (own_parseBody h0 (length h0) ldata (S (length h0))
                (Nat.le_refl _) (Nat.lt_succ_diag_r _) fuel
                (buf_get data 4) (buf_get data 5)
                (h0 ++ [readerObject ldata
                          (mkReader data (is_num (buf_get data 4) 2)
                             (is_num (buf_get data 5) 1) 0)])
                (mkReader data (is_num (buf_get data 4) 2)
                   (is_num (buf_get data 5) 1) 0)
                (extends_app _ _ _ (extends_refl h0))
                (owns_start h0 _)) as Hb.
  destruct (parseBody _ _ _ _ _ _ _) as [[res h1] r1].
  destruct res as [[root m]|e|]; cbn [fst snd] in *.
  - destruct Hb as [He [Ho Hroot]]. split; [exact He|].
    intros root' m' E. injection E as <- <-.
    split; [apply owned_of_owns; exact Ho|exact Hroot].
  - split; [exact Hb|discriminate].
  - split; [exact Hb|discriminate].
Qed.

End HeapFacts.

(** *** The parser with its objects computes the values of the parser *)

Lemma erases_ret {A B} (f : A -> B) (a : A) :
  Heap.erases f (Heap.retH a) (ret (f a)).
Proof. intros h r. reflexivity. Qed.

Lemma erases_intro {A B} (f : A -> B) (mh : Heap.H A) (m : M B) :
  (forall h r res h' r', mh h r = (res, h', r') ->
     (result_map f res, r') = m r) ->
  Heap.erases f mh m.
Proof.
  intros Hm h r. destruct (mh h r) as [[res h'] r'] eqn:E.
  apply (Hm h r res h' r' E).
Qed.

Lemma erases_bind {A A' B B'} (f1 : A -> A') (f2 : B -> B')
    (mh : Heap.H A) (m : M A') (kh : A -> Heap.H B) (k : A' -> M B') :
  Heap.erases f1 mh m -> (forall a, Heap.erases f2 (kh a) (k (f1 a))) ->
  Heap.erases f2 (Heap.bindH mh kh) (bind m k).
Proof.
  intros Hm Hk h r. unfold Heap.bindH, bind. specialize (Hm h r).
  destruct (mh h r) as [[res h'] r']. cbn [fst snd] in Hm. rewrite <- Hm.
  destruct res as [a|e|]; cbn [result_map fst snd]; try reflexivity.
  apply Hk.
Qed.

Lemma erases_ext {A B} (f g : A -> B) (mh : Heap.H A) (m : M B) :
  (forall a, f a = g a) -> Heap.erases f mh m -> Heap.erases g mh m.
Proof.
  intros Hfg Hm h r. rewrite <- (Hm h r). f_equal.
  destruct (fst (fst (mh h r))); cbn [result_map]; congruence.
Qed.

Lemma erases_run {A} (lr ldata : Heap.loc) (m : M A) :
  Heap.erases (fun a => a) (Heap.run lr ldata m) m.
Proof.
  intros h r. unfold Heap.run. destruct (m r) as [res r'].
  destruct res; reflexivity.
Qed.

Lemma erases_alloc {A B} (f : A -> B) (o : Heap.object)
    (kh : Heap.loc -> Heap.H A) (m : M B) :
  (forall l, Heap.erases f (kh l) m) ->
  Heap.erases f (Heap.bindH (Heap.alloc o) kh) m.
Proof. intros Hk h r. unfold Heap.bindH, Heap.alloc. apply Hk. Qed.

Lemma erases_push {A B} (f : A -> B) (arr : Heap.loc) (v : Heap.value)
    (kh : unit -> Heap.H A) (m : M B) :
  (forall u, Heap.erases f (kh u) m) ->
  Heap.erases f (Heap.bindH (Heap.push arr v) kh) m.
Proof. intros Hk h r. unfold Heap.bindH, Heap.push. apply Hk. Qed.

Lemma erases_setField {A B} (f : A -> B) (l : Heap.loc) name
    (v : Heap.value) (kh : unit -> Heap.H A) (m : M B) :
  (forall u, Heap.erases f (kh u) m) ->
  Heap.erases f (Heap.bindH (Heap.setField l name v) kh) m.
Proof. intros Hk h r. unfold Heap.bindH, Heap.setField. apply Hk. Qed.

(** What is returned may come with locations. *)
Lemma erases_then_ret {A A' B} (f1 : A -> A') (f2 : B -> A')
    (mh : Heap.H A) (m : M A') (g : A -> B) :
  Heap.erases f1 mh m -> (forall a, f2 (g a) = f1 a) ->
  Heap.erases f2 (Heap.bindH mh (fun a => Heap.retH (g a))) m.
Proof.
  intros Hm Hg h r. unfold Heap.bindH, Heap.retH. specialize (Hm h r).
  destruct (mh h r) as [[res h'] r']. cbn [fst snd] in *. rewrite <- Hm.
  destruct res; cbn [fst snd result_map]; rewrite ?Hg; reflexivity.
Qed.

Lemma erases_mapH {A A' B B'} (f : B -> B') (p : A -> A')
    (gh : A -> Heap.H B) (g : A' -> M B') (l : list A) :
  (forall a, Heap.erases f (gh a) (g (p a))) ->
  Heap.erases (map f) (Heap.mapH gh l) (mapM g (map p l)).
Proof.
  intros Hg. induction l as [|a l IH]; cbn [Heap.mapH mapM map].
  - apply (erases_ret (map f) []).
  - apply (erases_bind f (map f)); [apply Hg|]. intros b.
    apply (erases_bind (map f) (map f)); [exact IH|]. intros bs.
    apply (erases_ret (map f) (b :: bs)).
Qed.

Lemma erases_count_loop {A} (fuel : nat) count
    (bh : Z -> Heap.H (A * bool)) (b : Z -> M (A * bool)) (i : Z) :
  (forall j, Heap.erases (fun x => x) (bh j) (b j)) ->
  Heap.erases (fun x => x) (Heap.count_loop fuel count bh i)
    (count_loop fuel count b i).
Proof.
  intros Hb. revert i. induction fuel as [|fuel IH]; intros i;
    cbn [Heap.count_loop count_loop]; destruct (JSNumber.ltb_float i count);
    try (apply (erases_ret (fun x : list A => x) [])).
  - intros h r. reflexivity.
  - apply (erases_bind (fun x => x) (fun x => x)); [apply Hb|]. intros ab.
    destruct (snd ab).
    + apply (erases_ret (fun x : list A => x)).
    + apply (erases_bind (fun x => x) (fun x => x)); [apply IH|].
      intros rest. apply (erases_ret (fun x : list A => x)).
Qed.

(** A loop body that reads an entry, creates its object and pushes it. *)
Lemma erases_entry {A B} (lr ldata arr : Heap.loc) (m : M A)
    (fields : A -> list (string * Heap.value)) (g : Heap.loc -> A -> B)
    (f : B -> A) :
  (forall o a, f (g o a) = a) ->
  Heap.erases f
    (Heap.bindH (Heap.run lr ldata m) (fun a =>
     Heap.bindH (Heap.alloc (Heap.Obj (fields a))) (fun o =>
     Heap.bindH (Heap.push arr (Heap.Ref o)) (fun _ => Heap.retH (g o a)))))
    m.
Proof.
  intros Hf h r.
  unfold Heap.bindH, Heap.run, Heap.alloc, Heap.push, Heap.retH.
  destruct (m r) as [res r']. destruct res; cbn [fst snd result_map];
    rewrite ?Hf; reflexivity.
Qed.

Section Erasure.

Variables lr ldata : Heap.loc.

Lemma erases_parseProgramHeaders (hdr : ElfHeader) :
  Heap.erases snd (Heap.parseProgramHeaders lr ldata hdr)
    (parseProgramHeaders hdr).
Proof.
  unfold Heap.parseProgramHeaders, parseProgramHeaders.
  apply erases_alloc. intros arr.
  apply (erases_then_ret (map (fun x => x)) snd).
  - rewrite <- (map_id (indices (h_phnum hdr))) at 2.
    apply erases_mapH. intros i.
    apply (erases_entry lr ldata arr _ Heap.programHeaderFields
             (fun _ a => a) (fun x => x)).
    reflexivity.
  - intros a. cbn [snd]. symmetry. apply map_id.
Qed.

Lemma erases_parseSectionHeaders (hdr : ElfHeader) :
  Heap.erases (fun x => map snd (snd x))
    (Heap.parseSectionHeaders lr ldata hdr) (parseSectionHeaders hdr).
Proof.
  unfold Heap.parseSectionHeaders, parseSectionHeaders.
  apply erases_alloc. intros arr.
  apply (erases_then_ret (map snd) (fun x => map snd (snd x))).
  - rewrite <- (map_id (indices (h_shnum hdr))) at 2.
    apply erases_mapH. intros i.
    apply (erases_entry lr ldata arr _ Heap.sectionHeaderFields
             (fun o a => (o, a)) snd).
    reflexivity.
  - intros a. reflexivity.
Qed.

Lemma erases_resolveSectionNames (data : Buffer) (shstrndx : Z)
    (shs : list (Heap.loc * SectionHeader)) :
  Heap.erases (fun x => x)
    (Heap.resolveSectionNames lr ldata data shstrndx shs)
    (resolveSectionNames data shstrndx (map snd shs)).
Proof.
  unfold Heap.resolveSectionNames, resolveSectionNames.
  rewrite length_map.
  destruct (shstrndx <? Z.of_nat (length shs));
    [|apply (erases_ret (fun x : list SectionHeader => x))].
  destruct (section_at (map snd shs) shstrndx) as [strtab|];
    [|apply (erases_ret (fun x : list SectionHeader => x))].
  apply (erases_ext (map (fun x => x))); [intros a; apply map_id|].
  apply erases_mapH. intros osh.
  apply (erases_bind (fun x => x) (fun x => x)); [apply erases_run|].
  intros name. apply erases_setField. intros u.
  apply (erases_ret (fun x : SectionHeader => x)).
Qed.

Lemma erases_entries {A} (arr : Heap.loc) (fuel : nat) count
    (body : Z -> M (A * bool)) (fields : A -> list (string * Heap.value)) :
  Heap.erases (fun x => x)
    (Heap.count_loop fuel count
       (fun i =>
          Heap.bindH (Heap.run lr ldata (body i)) (fun ab =>
          Heap.bindH (Heap.alloc (Heap.Obj (fields (fst ab)))) (fun o =>
          Heap.bindH (Heap.push arr (Heap.Ref o)) (fun _ =>
          Heap.retH ab)))) 0)
    (count_loop fuel count body 0).
Proof.
  apply erases_count_loop. intros j.
  apply (erases_entry lr ldata arr (body j) (fun ab => fields (fst ab))
           (fun _ a => a) (fun x => x)).
  reflexivity.
Qed.

Lemma erases_tables {A B} (table : Heap.loc -> A -> Heap.H B)
    (t : A -> M B) (l : list A) :
  (forall outer a, Heap.erases (fun x => x) (table outer a) (t a)) ->
  Heap.erases snd
    (Heap.bindH (Heap.alloc (Heap.Arr [])) (fun outer =>
     Heap.bindH (Heap.mapH (table outer) l) (fun ts =>
     Heap.retH (outer, ts))))
    (mapM t l).
Proof.
  intros Ht. apply erases_alloc. intros outer.
  apply (erases_then_ret (map (fun x => x)) snd).
  - rewrite <- (map_id l) at 2. apply erases_mapH. intros a. apply Ht.
  - intros a. cbn [snd]. symmetry. apply map_id.
Qed.

Lemma erases_symbolTable (fuel : nat) (symbols : Heap.loc)
    (shs : list SectionHeader) (sh : SectionHeader) :
  Heap.erases (fun x => x) (Heap.symbolTable lr ldata fuel symbols shs sh)
    (symbolTable fuel shs sh).
Proof.
  unfold Heap.symbolTable, symbolTable. cbv zeta.
  apply erases_alloc. intros syms.
  apply (erases_bind (fun x => x) (fun x => x)); [apply erases_run|].
  intros w.
  apply (erases_bind (fun x => x) (fun x => x));
    [apply (erases_entries syms fuel _ _ Heap.symbolFields)|].
  intros l. apply erases_alloc. intros t. apply erases_push. intros u.
  apply (erases_ret (fun x : Table ElfSymbol => x)).
Qed.

Lemma erases_parseSymbols (fuel : nat) (shs : list SectionHeader) :
  Heap.erases snd (Heap.parseSymbols lr ldata fuel shs) (parseSymbols fuel shs).
Proof.
  unfold Heap.parseSymbols, parseSymbols.
  apply (erases_tables
           (fun outer => Heap.symbolTable lr ldata fuel outer shs)).
  intros outer sh. apply erases_symbolTable.
Qed.

Lemma erases_dynamicSection (fuel : nat) (arr : Heap.loc)
    (sh : SectionHeader) :
  Heap.erases (fun x => x) (Heap.dynamicSection lr ldata fuel arr sh)
    (dynamicSection fuel sh).
Proof.
  unfold Heap.dynamicSection, dynamicSection. cbv zeta.
  apply (erases_bind (fun x => x) (fun x => x)); [apply erases_run|].
  intros w. apply (erases_entries arr fuel _ _ Heap.dynEntryFields).
Qed.

Lemma erases_parseDynamic (fuel : nat) (arr : Heap.loc)
    (shs : list SectionHeader) (acc : list DynEntry) (dynOff : Z) :
  Heap.erases (fun x => x) (Heap.parseDynamic lr ldata fuel arr shs acc dynOff)
    (parseDynamic fuel shs acc dynOff).
Proof.
  revert acc dynOff.
  induction shs as [|sh shs IH]; intros acc dynOff;
    cbn [Heap.parseDynamic parseDynamic].
  - apply (erases_ret (fun x : list DynEntry * Z => x)).
  - destruct (sh_type sh =? 6); [|apply IH].
    apply (erases_bind (fun x => x) (fun x => x));
      [apply erases_dynamicSection|].
    intros es. apply IH.
Qed.

Lemma erases_relocationTable (fuel : nat) (relocations : Heap.loc)
    (shs : list SectionHeader) (symbols : list (Table ElfSymbol))
    (sh : SectionHeader) :
  Heap.erases (fun x => x)
    (Heap.relocationTable lr ldata fuel relocations shs symbols sh)
    (relocationTable fuel shs symbols sh).
Proof.
  unfold Heap.relocationTable, relocationTable. cbv zeta.
  apply (erases_bind (fun x => x) (fun x => x)); [apply erases_run|].
  intros w. apply erases_alloc. intros entries.
  apply (erases_bind (fun x => x) (fun x => x));
    [apply (erases_entries entries fuel _ _ Heap.relEntryFields)|].
  intros l. apply erases_alloc. intros t. apply erases_push. intros u.
  apply (erases_ret (fun x : Table RelEntry => x)).
Qed.

Lemma erases_parseRelocations (fuel : nat) (shs : list SectionHeader)
    (symbols : list (Table ElfSymbol)) :
  Heap.erases snd (Heap.parseRelocations lr ldata fuel shs symbols)
    (parseRelocations fuel shs symbols).
Proof.
  unfold Heap.parseRelocations, parseRelocations.
  apply (erases_tables
           (fun outer =>
              Heap.relocationTable lr ldata fuel outer shs symbols)).
  intros outer sh. apply erases_relocationTable.
Qed.

Lemma erases_walkStrings (fuel : nat) (strs : Heap.loc) (data : Buffer)
    (pos end_ : Z) :
  Heap.erases (fun x => x)
    (Heap.walkStrings lr ldata fuel strs data pos end_)
    (lift (walkStrings fuel data pos end_)).
Proof.
  revert pos. induction fuel as [|fuel IH]; intros pos;
    apply erases_intro; intros h r res h1 r1 E;
    cbn [Heap.walkStrings walkStrings] in *; destruct (pos <? end_);
    try (injection E as <- <- <-; reflexivity).
  unfold Heap.bindH at 1 in E. unfold Heap.run, lift at 1 in E.
  unfold lift.
  destruct (readCString data pos) as [s|e|];
    try (injection E as <- <- <-; reflexivity).
  cbv zeta in *.
  destruct (0 <? Z.of_nat (length s));
    unfold Heap.bindH, Heap.alloc, Heap.push, Heap.retH in E;
    match type of E with
    | context [Heap.walkStrings lr ldata fuel strs data ?p end_ ?hh r] =>
        specialize (IH p hh r);
        destruct (Heap.walkStrings lr ldata fuel strs data p end_ hh r)
          as [[res' h'] r']
    end;
    unfold lift in IH; cbn [fst snd] in IH; injection IH as E1 E2;
    rewrite <- E1; subst r';
    destruct res'; injection E as <- <- <-; reflexivity.
Qed.

Lemma erases_stringTable (fuel : nat) (stringTables : Heap.loc)
    (sh : SectionHeader) :
  Heap.erases (fun x => x) (Heap.stringTable lr ldata fuel stringTables sh)
    (bind get_buf (fun data => lift (stringTable fuel data sh))).
Proof.
  unfold Heap.stringTable, stringTable. cbv zeta.
  apply erases_alloc. intros strs.
  apply (erases_bind (fun x => x) (fun x => x)); [apply erases_run|].
  intros data h r.
  pose proof (erases_walkStrings fuel strs data
                (JSNumber.Number (sh_offset sh))
                (JSNumber.add (JSNumber.Number (sh_offset sh))
                   (JSNumber.Number (sh_size sh))) h r) as E.
  unfold Heap.bindH, Heap.alloc, Heap.push, Heap.retH.
  destruct (Heap.walkStrings _ _ _ _ _ _ _ _ _) as [[res h'] r'].
  unfold lift in *. cbn [fst snd] in E. injection E as E1 E2.
  rewrite <- E1, E2. destruct res; reflexivity.
Qed.

Lemma erases_parseStringTables (fuel : nat) (shs : list SectionHeader) :
  Heap.erases snd (Heap.parseStringTables lr ldata fuel shs)
    (parseStringTables fuel shs).
Proof.
  unfold Heap.parseStringTables, parseStringTables.
  apply (erases_tables (fun outer => Heap.stringTable lr ldata fuel outer)).
  intros outer sh. apply erases_stringTable.
Qed.

Lemma erases_parseBody (fuel : nat) (elfClass elfData : option Z) :
  Heap.erases snd (Heap.parseBody lr ldata fuel elfClass elfData)
    (parseBody fuel elfClass elfData).
Proof.
  unfold Heap.parseBody, parseBody.
  apply (erases_bind (fun x => x) snd); [apply erases_run|]. intros hdr.
  apply erases_alloc. intros header.
  apply (erases_bind snd snd); [apply erases_parseProgramHeaders|].
  intros phs.
  apply (erases_bind (fun x => map snd (snd x)) snd);
    [apply erases_parseSectionHeaders|].
  intros shs0.
  apply (erases_bind (fun x => x) snd); [apply erases_run|]. intros data.
  apply (erases_bind (fun x => x) snd); [apply erases_resolveSectionNames|].
  intros shs.
  apply (erases_bind snd snd); [apply erases_parseSymbols|]. intros syms.
  apply erases_alloc. intros dynamicEntries.
  apply (erases_bind (fun x => x) snd); [apply erases_parseDynamic|].
  intros dyn.
  apply (erases_bind snd snd); [apply erases_parseRelocations|]. intros rels.
  apply (erases_bind snd snd); [apply erases_parseStringTables|]. intros strs.
  apply erases_alloc. intros file.
  apply (erases_ret snd
           (file, mkElfFile hdr (snd phs) shs (snd syms) (fst dyn) (snd dyn)
                    (snd rels) (snd strs))).
Qed.

End Erasure.

(** [Heap.parseElf] returns the model that [parseElf] returns, or ends
    as it ends. *)
Lemma erases_parseElf (fuel : nat) (ldata : Heap.loc) (data : Buffer)
    (h0 : Heap.heap) :
  result_map (option_map snd) (fst (Heap.parseElf fuel ldata data h0)) =
  fst (parseElf fuel data).
Proof.
  unfold Heap.parseElf, parseElf.
  destruct (buf_length data <? 52); [reflexivity|].
  destruct (bad_magic data); [reflexivity|].
  cbv zeta.
  match goal with
  | |- context [Heap.parseBody ?lr ldata fuel ?c ?d ?h ?r] =>
      pose proof (erases_parseBody lr ldata fuel c d h r) as E;
      destruct (Heap.parseBody lr ldata fuel c d h r) as [[res h1] r1]
  end.
  cbn [fst snd] in E.
  destruct (parseBody _ _ _ _) as [res' r'].
  injection E as E1 E2. subst res' r'.
  destruct res as [[root m]|e|]; reflexivity.
Qed.

(** C10.  Decoding never mutates the buffer, and the model it returns
    is made of objects of its own.
    - The parser: the call leaves the buffer as it received it, whatever
      the outcome, and so does every step the parser takes with its
      reader.
    - The parser with its objects, run in any heap [h0] that holds the
      buffer at [ldata]: it returns the model the parser returns (or
      ends as it ends); every object of [h0], the buffer among them, is
      left as it was; and when the call returns the object at [root],
      that object is new, no object created after the reader is a
      buffer, every reference held by an object created after the reader
      is to another object created after the reader (never to the
      buffer, to the reader or to an object that existed before), no two
      of these references are to the same object, and none is to [root].
      The strings of the model, resolved names included, are values
      that [buf.toString] built: an object holds them by value.  The
      object returned is the object literal of the [return], with the
      seven references and the number of [dynamicSectionOffset]. *)
Theorem C10_buffer_unchanged_model_owned (fuel : nat) (data : Buffer)
    (h0 : Heap.heap) (ldata : Heap.loc) :
  nth_error h0 ldata = Some (Heap.Buf data) ->
  (snd (parseElf fuel data) = data /\
   forall c d r, same_buffer r (snd (parseBody fuel c d r))) /\
  let out := Heap.parseElf fuel ldata data h0 in
  result_map (option_map snd) (fst out) = fst (parseElf fuel data) /\
  Heap.extends h0 (snd out) /\
  nth_error (snd out) ldata = Some (Heap.Buf data) /\
  forall root m,
    fst out = Ok (Some (root, m)) ->
    Heap.owned (length h0) (snd out) root /\
    ~ In ldata (Heap.refs_from (S (length h0)) (snd out)) /\
    exists header programHeaders sectionHeaders symbols dynamicEntries
           relocations stringTables,
      nth_error (snd out) root =
      Some (Heap.Obj
              (Heap.fileFields header programHeaders sectionHeaders symbols
                 dynamicEntries (dynamicSectionOffset m)
                 relocations stringTables)).
Proof.
  intros Hdata. split.
  - split.
    + unfold parseElf.
      destruct (buf_length data <? 52); [reflexivity|].
      destruct (bad_magic data); [reflexivity|].
      match goal with |- context [parseBody ?f ?c ?d ?r] =>
        pose proof (frame_parseBody f c d r) as F;
        destruct (parseBody f c d r) as [[m|e|] r'] end;
        simpl in *; apply F.
    + intros c d r. apply frame_parseBody.
  - cbv zeta.
    destruct (HeapFacts.parseElf_owned fuel ldata data h0) as [Hext Hown].
    split; [apply erases_parseElf|].
    split; [exact Hext|].
    split; [apply (HeapFacts.extends_nth_error h0); assumption|].
    intros root m E. destruct (Hown root m E) as [Ho Hroot].
    split; [exact Ho|]. split; [|exact Hroot].
    destruct Ho as (_ & _ & Hr & _). rewrite Forall_forall in Hr.
    intros Hin. specialize (Hr ldata Hin).
    assert (ldata < length h0)%nat by (apply nth_error_Some; congruence).
    lia.
Qed.

Lemma C10_buffer_unchanged_model_owned_witness :
  nth_error [Heap.Buf rel32_elf] 0 = Some (Heap.Buf rel32_elf) /\
  snd (parseElf 10 rel32_elf) = rel32_elf /\
  Heap.owned 1
    (snd (Heap.parseElf 10 0%nat rel32_elf [Heap.Buf rel32_elf])) 25%nat /\
  ~ In 0%nat
      (Heap.refs_from 2
         (snd (Heap.parseElf 10 0%nat rel32_elf [Heap.Buf rel32_elf]))).
Proof.
  split; [reflexivity|].
  destruct (C10_buffer_unchanged_model_owned 10 rel32_elf
              [Heap.Buf rel32_elf] 0%nat eq_refl)
    as [[Hbuf _] (_ & _ & _ & Hown)].
  split; [exact Hbuf|].
  edestruct Hown as (Ho & Hn & _); [vm_compute; reflexivity|].
  split; [exact Ho|exact Hn].
Defined.

(** ** Facts about the reads *)

Lemma buf_bytes_in (b : Buffer) (p : Z) (n : nat) :
  in_bounds b p (Z.of_nat n) ->
  buf_bytes b p n = Some (map byte_val (firstn n (skipn (Z.to_nat p) b))).
Proof.
  intros [H0 H1]. unfold buf_bytes.
  destruct (Z.leb_spec 0 p); [|lia].
  destruct (Z.leb_spec (p + Z.of_nat n) (buf_length b)); [|lia].
  reflexivity.
Qed.

Lemma buf_bytes_out (b : Buffer) (p : Z) (n : nat) :
  ~ in_bounds b p (Z.of_nat n) -> buf_bytes b p n = None.
Proof.
  intros H. unfold buf_bytes, in_bounds in *.
  destruct (Z.leb_spec 0 p); [|reflexivity].
  destruct (Z.leb_spec (p + Z.of_nat n) (buf_length b)); [|reflexivity].
  exfalso. apply H. lia.
Qed.

Lemma buf_bytes_Some (b : Buffer) (p : Z) (n : nat) (bs : list Z) :
  buf_bytes b p n = Some bs ->
  in_bounds b p (Z.of_nat n) /\
  bs = map byte_val (firstn n (skipn (Z.to_nat p) b)).
Proof.
  unfold buf_bytes, in_bounds.
  destruct (Z.leb_spec 0 p); [|discriminate].
  destruct (Z.leb_spec (p + Z.of_nat n) (buf_length b)); [|discriminate].
  simpl. intros E. inversion E. split; [lia|reflexivity].
Qed.

(** A multi-byte read inside the buffer gives the field at the cursor
    and moves the cursor by the width of the field. *)
Lemma read_n_in (n : nat) (conv : Z -> Z) (data : Buffer) (w le : bool) (p : Z) :
  in_bounds data p (Z.of_nat n) -> p + Z.of_nat n <= 2 ^ 53 ->
  Rd.read_n n conv (mkReader data w le p) =
  (Ok (conv (field data le p n)), mkReader data w le (p + Z.of_nat n)).
Proof.
  intros Hin Hsmall. unfold Rd.read_n. simpl.
  rewrite (buf_bytes_in _ _ _ Hin). unfold set_pos, field. simpl.
  rewrite JSNumberFacts.add_small by (destruct Hin; lia).
  reflexivity.
Qed.

(** A multi-byte read that would leave the buffer raises, and the cursor
    stays where it was. *)
Lemma read_n_out (n : nat) (conv : Z -> Z) (r : Reader) :
  ~ in_bounds (buf r) (pos r) (Z.of_nat n) ->
  Rd.read_n n conv r = (Throw RangeError, r).
Proof.
  intros H. unfold Rd.read_n. rewrite (buf_bytes_out _ _ _ H). reflexivity.
Qed.

Lemma read_n_Ok_inv (n : nat) (conv : Z -> Z) (r r' : Reader) (v : Z) :
  Rd.read_n n conv r = (Ok v, r') ->
  in_bounds (buf r) (pos r) (Z.of_nat n) /\
  v = conv (field (buf r) (isLE r) (pos r) n) /\
  r' = set_pos r (JSNumber.add (pos r) (Z.of_nat n)).
Proof.
  unfold Rd.read_n.
  destruct (buf_bytes (buf r) (pos r) n) as [bs|] eqn:E; [|discriminate].
  apply buf_bytes_Some in E as [Hin ->]. intros H. inversion H.
  repeat split; try apply Hin.
Qed.

Lemma read_n_not_fuel (n : nat) (conv : Z -> Z) (r : Reader) :
  fst (Rd.read_n n conv r) <> OutOfFuel.
Proof.
  unfold Rd.read_n. destruct (buf_bytes (buf r) (pos r) n); discriminate.
Qed.

(** The multi-byte reads ([u16], [u32], [u64], [addr], [off], [xword]
    and [sxword] all are [read_n] at some width): either the field lies
    inside the buffer, the read gives its value and the cursor moves by
    the width, or the read raises and the cursor stays. *)
Lemma read_n_checked (n : nat) (conv : Z -> Z) (r : Reader) :
  buf_length (buf r) < 2 ^ 53 ->
  (in_bounds (buf r) (pos r) (Z.of_nat n) /\
   Rd.read_n n conv r =
   (Ok (conv (field (buf r) (isLE r) (pos r) n)),
    set_pos r (pos r + Z.of_nat n))) \/
  (~ in_bounds (buf r) (pos r) (Z.of_nat n) /\
   Rd.read_n n conv r = (Throw RangeError, r)).
Proof.
  intros Hlen.
  destruct (buf_bytes (buf r) (pos r) n) as [bs|] eqn:E.
  - apply buf_bytes_Some in E as [Hin _]. left. split; [exact Hin|].
    destruct r as [d w le p]. simpl in *.
    apply read_n_in; [exact Hin|]. destruct Hin. lia.
  - right.
    assert (Hout : ~ in_bounds (buf r) (pos r) (Z.of_nat n)).
    { intros Hin. rewrite (buf_bytes_in _ _ _ Hin) in E. discriminate. }
    split; [exact Hout|apply read_n_out; exact Hout].
Qed.

Lemma u16_in (data : Buffer) (w le : bool) (p : Z) :
  in_bounds data p 2 -> p + 2 <= 2 ^ 53 ->
  Rd.u16 (mkReader data w le p) =
  (Ok (field data le p 2), mkReader data w le (p + 2)).
Proof. intros. apply (read_n_in 2 (fun v => v)); assumption. Qed.

Lemma u32_in (data : Buffer) (w le : bool) (p : Z) :
  in_bounds data p 4 -> p + 4 <= 2 ^ 53 ->
  Rd.u32 (mkReader data w le p) =
  (Ok (field data le p 4), mkReader data w le (p + 4)).
Proof. intros. apply (read_n_in 4 (fun v => v)); assumption. Qed.

Lemma addr32_in (data : Buffer) (le : bool) (p : Z) :
  in_bounds data p 4 -> p + 4 <= 2 ^ 53 ->
  Rd.addr (mkReader data false le p) =
  (Ok (field data le p 4), mkReader data false le (p + 4)).
Proof. intros. apply (read_n_in 4 (fun v => v)); assumption. Qed.

Lemma addr64_in (data : Buffer) (le : bool) (p : Z) :
  in_bounds data p 8 -> p + 8 <= 2 ^ 53 ->
  Rd.addr (mkReader data true le p) =
  (Ok (field data le p 8), mkReader data true le (p + 8)).
Proof. intros. apply (read_n_in 8 (fun v => v)); assumption. Qed.

(** ** The header of a file of unknown class or byte order *)

Ltac run_pure :=
  erewrite bind_Ok by reflexivity; cbv beta;
  unfold set_pos; cbn [buf pos is64 isLE].
Ltac run_read L :=
  erewrite bind_Ok
    by (apply L; [unfold in_bounds; lia | rewrite JSNumberFacts.two53; lia]);
  cbv beta; unfold set_pos; cbn [buf pos is64 isLE].

Lemma parseHeader_32 (data : Buffer) :
  52 <= buf_length data ->
  parseHeader (buf_get data 4) (buf_get data 5)
    (mkReader data false (is_num (buf_get data 5) 1) 0) =
  (Ok (header_as false data),
   mkReader data false (is_num (buf_get data 5) 1) 52).
Proof.
  intros Hlen. unfold parseHeader, header_as.
  run_pure. run_pure. run_pure. run_pure.
  unfold Rd.off.
  run_read u16_in. run_read u16_in. run_read u32_in.
  run_read addr32_in. run_read addr32_in. run_read addr32_in.
  run_read u32_in.
  run_read u16_in. run_read u16_in. run_read u16_in. run_read u16_in.
  run_read u16_in. run_read u16_in.
  reflexivity.
Qed.

Lemma parseHeader_64 (data : Buffer) :
  64 <= buf_length data ->
  parseHeader (buf_get data 4) (buf_get data 5)
    (mkReader data true (is_num (buf_get data 5) 1) 0) =
  (Ok (header_as true data),
   mkReader data true (is_num (buf_get data 5) 1) 64).
Proof.
  intros Hlen. unfold parseHeader, header_as.
  run_pure. run_pure. run_pure. run_pure.
  unfold Rd.off.
  run_read u16_in. run_read u16_in. run_read u32_in.
  run_read addr64_in. run_read addr64_in. run_read addr64_in.
  run_read u32_in.
  run_read u16_in. run_read u16_in. run_read u16_in. run_read u16_in.
  run_read u16_in. run_read u16_in.
  reflexivity.
Qed.

(** A loop that only calls functions of the buffer leaves the reader
    alone. *)
Lemma mapM_reader {A B} (f : A -> M B) (l : list A) :
  (forall a r, snd (f a r) = r) -> forall r, snd (mapM f l r) = r.
Proof.
  intros Hf. induction l as [|a l IH]; intros r; simpl; [reflexivity|].
  unfold bind. specialize (Hf a r).
  destruct (f a r) as [[b|e|] r1]; simpl in *; subst r1; try reflexivity.
  specialize (IH r).
  destruct (mapM f l r) as [[bs|e|] r2]; simpl in *; subst r2; reflexivity.
Qed.

Lemma resolveSectionNames_reader (data : Buffer) (i : Z)
    (shs : list SectionHeader) (r : Reader) :
  snd (resolveSectionNames data i shs r) = r.
Proof.
  unfold resolveSectionNames.
  destruct (i <? Z.of_nat (length shs)); [|reflexivity].
  destruct (section_at shs i); [|reflexivity].
  apply mapM_reader. intros sh r0. unfold bind, lift.
  destruct (readCString data _); reflexivity.
Qed.

(** What a model returned by the body of the parser says about each of
    its stages. *)
Lemma parseBody_inv (fuel : nat) (c d : option Z) (r r' : Reader) (m : ElfFile) :
  parseBody fuel c d r = (Ok m, r') ->
  exists r1 r2 r3 r4 r5 r6 shs0,
    parseHeader c d r = (Ok (header m), r1) /\
    parseProgramHeaders (header m) r1 = (Ok (programHeaders m), r2) /\
    parseSectionHeaders (header m) r2 = (Ok shs0, r3) /\
    resolveSectionNames (buf r3) (h_shstrndx (header m)) shs0 r3 =
      (Ok (sectionHeaders m), r3) /\
    parseSymbols fuel (sectionHeaders m) r3 = (Ok (symbols m), r4) /\
    parseDynamic fuel (sectionHeaders m) [] 0 r4 =
      (Ok (dynamicEntries m, dynamicSectionOffset m), r5) /\
    parseRelocations fuel (sectionHeaders m) (symbols m) r5 =
      (Ok (relocations m), r6) /\
    parseStringTables fuel (sectionHeaders m) r6 = (Ok (stringTables m), r').
Proof.
  unfold parseBody. intros H.
  apply bind_Ok_inv in H as (hdr & r1 & H1 & H).
  apply bind_Ok_inv in H as (phs & r2 & H2 & H).
  apply bind_Ok_inv in H as (shs0 & r3 & H3 & H).
  apply bind_Ok_inv in H as (data & r3' & H3' & H).
  inversion H3'; subst data r3'; clear H3'.
  apply bind_Ok_inv in H as (shs & r3' & Hn & H).
  pose proof (resolveSectionNames_reader (buf r3) (h_shstrndx hdr) shs0 r3)
    as Hr3.
  rewrite Hn in Hr3. simpl in Hr3. subst r3'.
  apply bind_Ok_inv in H as (syms & r4 & H4 & H).
  apply bind_Ok_inv in H as ([dyn dynOff] & r5 & H5 & H).
  apply bind_Ok_inv in H as (rels & r6 & H6 & H).
  apply bind_Ok_inv in H as (strs & r7 & H7 & H).
  inversion H; subst m r7; clear H. simpl.
  exists r1, r2, r3, r4, r5, r6, shs0. repeat split; assumption.
Qed.

(** What [parseElf] does once the length and the magic have passed. *)
Lemma parseElf_elf (fuel : nat) (data : Buffer) :
  52 <= buf_length data -> firstn 4 data = ELF_MAGIC ->
  parseElf fuel data =
  match parseBody fuel (buf_get data 4) (buf_get data 5)
          (mkReader data (is_num (buf_get data 4) 2)
             (is_num (buf_get data 5) 1) 0) with
  | (Ok m, r') => (Ok (Some m), buf r')
  | (Throw e, r') => (Throw e, buf r')
  | (OutOfFuel, r') => (OutOfFuel, buf r')
  end.
Proof.
  intros Hlen Hm. unfold parseElf.
  destruct (Z.ltb_spec (buf_length data) 52); [lia|].
  rewrite (bad_magic_ELF _ Hm). reflexivity.
Qed.

Lemma parseElf_Some_inv (fuel : nat) (data : Buffer) (m : ElfFile) :
  fst (parseElf fuel data) = Ok (Some m) ->
  52 <= buf_length data /\ firstn 4 data = ELF_MAGIC /\
  exists r',
    parseBody fuel (buf_get data 4) (buf_get data 5)
      (mkReader data (is_num (buf_get data 4) 2)
         (is_num (buf_get data 5) 1) 0) = (Ok m, r').
Proof.
  unfold parseElf.
  destruct (Z.ltb_spec (buf_length data) 52) as [Hs|Hl]; [discriminate|].
  destruct (bad_magic data) eqn:Hm; [discriminate|].
  apply bad_magic_false in Hm.
  match goal with |- context [parseBody ?f ?c ?d ?r] =>
    destruct (parseBody f c d r) as [[m'|e|] r'] end;
    simpl; intros H; inversion H; subst.
  repeat split; try assumption. exists r'. reflexivity.
Qed.

(** C1 (counterexample).  A 52-byte buffer with the magic, class byte 3
    and data byte 3 is not refused: the parser returns a model, having
    read the header as 32-bit and big-endian (its type field, bytes
    00 02, comes out as 2). *)
Lemma C1_unknown_variant_accepted :
  firstn 4 unknown_variant_elf = ELF_MAGIC /\
  buf_get unknown_variant_elf 4 = Some 3 /\
  buf_get unknown_variant_elf 5 = Some 3 /\
  exists m, fst (parseElf 0 unknown_variant_elf) = Ok (Some m) /\
            h_type (header m) = 2 /\ h_ehsize (header m) = 52.
Proof.
  repeat split. eexists. split; [vm_compute; reflexivity|].
  split; reflexivity.
Qed.

(** C1 (amended).  For every buffer of at least 52 bytes that starts with
    the ELF magic and whose class byte or data byte is neither 1 nor 2,
    the parser does not refuse the buffer: it never answers [null], it
    takes any class byte other than 2 as 32-bit and any data byte other
    than 1 as big-endian, reads the header in that layout, and every
    model it returns carries that header. *)
Theorem C1_unknown_variant_decoded (fuel : nat) (data : Buffer) :
  52 <= buf_length data -> firstn 4 data = ELF_MAGIC ->
  (buf_get data 4 <> Some 1 /\ buf_get data 4 <> Some 2) \/
  (buf_get data 5 <> Some 1 /\ buf_get data 5 <> Some 2) ->
  let w64 := is_num (buf_get data 4) 2 in
  let le := is_num (buf_get data 5) 1 in
  fst (parseElf fuel data) <> Ok None /\
  (w64 = true <-> buf_get data 4 = Some 2) /\
  (le = true <-> buf_get data 5 = Some 1) /\
  (64 <= buf_length data \/ w64 = false ->
     (exists r', parseHeader (buf_get data 4) (buf_get data 5)
                   (mkReader data w64 le 0) = (Ok (header_as w64 data), r')) /\
     forall m, fst (parseElf fuel data) = Ok (Some m) ->
               header m = header_as w64 data).
Proof.
  intros Hlen Hmagic Hvar w64 le.
  assert (Hnum : forall v n, is_num v n = true <-> v = Some n).
  { intros [x|] n; simpl; split; intros E; try discriminate.
    - apply Z.eqb_eq in E. congruence.
    - inversion E. apply Z.eqb_refl. }
  split; [|split; [apply Hnum|split; [apply Hnum|]]].
  - rewrite (parseElf_elf fuel data Hlen Hmagic).
    match goal with |- context [parseBody ?f ?c ?d ?r] =>
      destruct (parseBody f c d r) as [[m|e|] r'] end; discriminate.
  - intros Hw.
    assert (Hhdr : parseHeader (buf_get data 4) (buf_get data 5)
                     (mkReader data w64 le 0) =
                   (Ok (header_as w64 data),
                    mkReader data w64 le (if w64 then 64 else 52))).
    { destruct w64 eqn:E.
      - apply parseHeader_64. destruct Hw as [Hw|Hw]; [lia|discriminate].
      - apply parseHeader_32. exact Hlen. }
    split; [eexists; exact Hhdr|].
    intros m Hm. apply parseElf_Some_inv in Hm as (_ & _ & r' & Hb).
    apply parseBody_inv in Hb as (r1 & _ & _ & _ & _ & _ & _ & Hh & _).
    fold w64 le in Hh. rewrite Hhdr in Hh. congruence.
Qed.

Lemma C1_unknown_variant_decoded_witness :
  fst (parseElf 0 unknown_variant_elf) <> Ok None /\
  forall m, fst (parseElf 0 unknown_variant_elf) = Ok (Some m) ->
            header m = header_as false unknown_variant_elf.
Proof.
  assert (Hlen : 52 <= buf_length unknown_variant_elf)
    by (vm_compute; discriminate).
  assert (Hmagic : firstn 4 unknown_variant_elf = ELF_MAGIC) by reflexivity.
  assert (Hvar : (buf_get unknown_variant_elf 4 <> Some 1 /\
                  buf_get unknown_variant_elf 4 <> Some 2) \/
                 (buf_get unknown_variant_elf 5 <> Some 1 /\
                  buf_get unknown_variant_elf 5 <> Some 2))
    by (left; split; vm_compute; discriminate).
  pose proof (C1_unknown_variant_decoded 0 unknown_variant_elf Hlen Hmagic Hvar)
    as (Hnn & _ & _ & Hh).
  split; [exact Hnn|].
  apply Hh. right. reflexivity.
Defined.

(** ** Reading a string *)

Lemma until_nul_app (l t : list byte) :
  In x00 l -> until_nul (l ++ t) = until_nul l.
Proof.
  induction l as [|b l IH]; intros Hin; [destruct Hin|].
  simpl. destruct (byte_val b =? 0) eqn:E; [reflexivity|].
  destruct Hin as [->|Hin]; [discriminate|].
  rewrite IH by assumption. reflexivity.
Qed.

Lemma until_nul_no_nul (l : list byte) : ~ In x00 (until_nul l).
Proof.
  induction l as [|b l IH]; simpl; [tauto|].
  destruct (byte_val b =? 0) eqn:E; simpl; [tauto|].
  intros [->|H]; [discriminate|contradiction].
Qed.

(** A buffer is the run of its first string, followed by nothing or by
    a NUL. *)
Lemma until_nul_split (l : list byte) :
  skipn (length (until_nul l)) l = [] \/
  exists rest, skipn (length (until_nul l)) l = x00 :: rest.
Proof.
  induction l as [|b l IH]; simpl; [left; reflexivity|].
  destruct (byte_val b =? 0) eqn:E; simpl; [|exact IH].
  right. exists l. f_equal.
  apply byte_val_inj. apply Z.eqb_eq in E. rewrite E. reflexivity.
Qed.

Lemma until_nul_length (l : list byte) :
  (length (until_nul l) <= length l)%nat.
Proof.
  induction l as [|b l IH]; simpl; [lia|].
  destruct (byte_val b =? 0); simpl; lia.
Qed.

Lemma until_nul_nil (l : list byte) :
  until_nul l = [] -> l = [] \/ exists rest, l = x00 :: rest.
Proof.
  destruct l as [|b l]; simpl; [left; reflexivity|].
  destruct (byte_val b =? 0) eqn:E; [|discriminate].
  intros _. right. exists l. f_equal.
  apply byte_val_inj. apply Z.eqb_eq in E. rewrite E. reflexivity.
Qed.

(** The run of a string is a prefix of the bytes it is read from. *)
Lemma until_nul_firstn (l : list byte) :
  firstn (length (until_nul l)) l = until_nul l.
Proof.
  induction l as [|b l IH]; simpl; [reflexivity|].
  destruct (byte_val b =? 0); simpl; [reflexivity|].
  rewrite IH. reflexivity.
Qed.

(** Starting inside a run gives the rest of the run. *)
Lemma until_nul_skipn (l : list byte) (k : nat) :
  (k <= length (until_nul l))%nat ->
  until_nul (skipn k l) = skipn k (until_nul l).
Proof.
  revert l. induction k as [|k IH]; intros l Hk; [reflexivity|].
  destruct l as [|b l]; [reflexivity|].
  simpl in Hk |- *. destruct (byte_val b =? 0); simpl in *; [lia|].
  apply IH. lia.
Qed.

(** A run stops at the first NUL at the latest. *)
Lemma until_nul_stops (l : list byte) (j : nat) (b : byte) :
  nth_error l j = Some b -> byte_val b = 0 ->
  (length (until_nul l) <= j)%nat.
Proof.
  revert l. induction j as [|j IH]; intros l Hj Hb.
  - destruct l as [|x l]; [discriminate|]. simpl in Hj. inversion Hj; subst x.
    simpl. rewrite Hb. simpl. lia.
  - destruct l as [|x l]; [discriminate|]. simpl in Hj |- *.
    destruct (byte_val x =? 0); simpl; [lia|].
    specialize (IH l Hj Hb). lia.
Qed.

Lemma buf_get_nul (data : Buffer) (k : Z) :
  buf_get data k = Some 0 ->
  0 <= k /\ exists b, nth_error data (Z.to_nat k) = Some b /\ byte_val b = 0.
Proof.
  unfold buf_get. destruct (Z.ltb_spec k 0); [discriminate|].
  destruct (nth_error data (Z.to_nat k)) as [b|]; [|discriminate].
  simpl. intros E. inversion E. split; [lia|]. exists b. split; reflexivity.
Qed.

Lemma run_at_facts (data : Buffer) (p : Z) :
  0 <= p < buf_length data ->
  in_bounds data p (Z.of_nat (length (run_at data p))) /\
  ~ In x00 (run_at data p) /\
  (buf_get data (p + Z.of_nat (length (run_at data p))) = Some 0 \/
   p + Z.of_nat (length (run_at data p)) = buf_length data).
Proof.
  intros Hp. unfold run_at, in_bounds, buf_length in *.
  set (l := skipn (Z.to_nat p) data).
  assert (Hl : length l = (length data - Z.to_nat p)%nat)
    by apply length_skipn.
  pose proof (until_nul_length l) as Hle.
  split; [lia|]. split; [apply until_nul_no_nul|].
  destruct (until_nul_split l) as [E|[rest E]].
  - right. apply (f_equal (@length byte)) in E.
    rewrite length_skipn in E. simpl in E. lia.
  - left. unfold buf_get.
    destruct (Z.ltb_spec (p + Z.of_nat (length (until_nul l))) 0); [lia|].
    replace (Z.to_nat (p + Z.of_nat (length (until_nul l))))
      with (Z.to_nat p + length (until_nul l))%nat by lia.
    rewrite <- nth_error_skipn. fold l.
    rewrite <- (Nat.add_0_r (length (until_nul l))).
    rewrite <- nth_error_skipn, E. reflexivity.
Qed.

(** The decoder gives at least one code unit for a run that is not
    empty. *)
Lemma code_points_pending (bs : list Z) (s : Utf8.state) :
  Utf8.code_points bs (Some s) <> [].
Proof.
  revert s. induction bs as [|b bs IH]; intros s; simpl; [discriminate|].
  destruct ((Utf8.lower s <=? b) && (b <=? Utf8.upper s)).
  - destruct (Utf8.needed s =? 1); [discriminate|apply IH].
  - discriminate.
Qed.

Lemma decode_nonempty (bs : list Z) : bs <> [] -> Utf8.decode bs <> [].
Proof.
  destruct bs as [|b bs]; [congruence|]. intros _.
  unfold Utf8.decode. simpl.
  destruct (Utf8.lead b) as [c|s].
  - simpl. unfold Utf8.units at 1. destruct (c <? 65536); discriminate.
  - pose proof (code_points_pending bs s) as H.
    destruct (Utf8.code_points bs (Some s)) as [|c cs]; [congruence|].
    simpl. unfold Utf8.units at 1. destruct (c <? 65536); discriminate.
Qed.

Lemma readCString_out (data : Buffer) (p : Z) :
  p < 0 \/ buf_length data <= p -> readCString data p = Ok [].
Proof.
  intros H. unfold readCString.
  destruct (Z.ltb_spec p 0); [reflexivity|].
  destruct (Z.leb_spec (buf_length data) p); [reflexivity|lia].
Qed.

(** What [readCString] does at an offset inside the buffer.  The search
    for the NUL starts at [from], which is the offset itself up to
    [0x7fffffff] and [0x7fffffff] above; a NUL found before the offset
    gives the empty string, and otherwise the bytes up to the first NUL
    that follows are decoded, unless they are too many. *)
Lemma readCString_cases (data : Buffer) (p : Z) :
  0 <= p < buf_length data ->
  let from := Z.min p 2147483647 in
  let e :=
    from + Z.of_nat (length (until_nul (skipn (Z.to_nat from) data))) in
  (e < p /\ readCString data p = Ok []) \/
  (p <= e /\
   readCString data p =
   if MAX_STRING_LENGTH <? Z.of_nat (length (run_at data p)) then Throw Error
   else Ok (Utf8.decode (map byte_val (run_at data p)))).
Proof.
  intros Hp from e.
  assert (Hfrom : (if 2147483647 <? p then 2147483647 else p) = from).
  { unfold from. destruct (Z.ltb_spec 2147483647 p); lia. }
  assert (Hfp : 0 <= from <= p) by (unfold from; lia).
  set (U := until_nul (skipn (Z.to_nat from) data)) in *.
  assert (HU : Z.of_nat (length U) <= buf_length data - from).
  { unfold U, buf_length in *.
    pose proof (until_nul_length (skipn (Z.to_nat from) data)) as H.
    rewrite length_skipn in H. lia. }
  unfold readCString.
  destruct (Z.ltb_spec p 0); [lia|].
  destruct (Z.leb_spec (buf_length data) p); [lia|]. cbn [orb].
  unfold indexOf_nul. rewrite Hfrom. fold U. fold e.
  destruct (Z.lt_ge_cases e p) as [Hlt|Hge].
  - left. split; [exact Hlt|].
    destruct (Z.ltb_spec e (buf_length data)); [|lia].
    unfold toString.
    destruct (Z.ltb_spec 0 p); destruct (Z.leb_spec (buf_length data) p);
      try lia; cbn [andb];
      (destruct (Z.ltb_spec (buf_length data) e); [lia|]);
      (destruct (Z.leb_spec e (Z.max p 0)); [reflexivity|lia]).
  - right. split; [exact Hge|].
    assert (Hrun : run_at data p = skipn (Z.to_nat (p - from)) U).
    { unfold run_at, U.
      rewrite <- until_nul_skipn by (fold U; unfold e in Hge; lia).
      rewrite skipn_skipn. f_equal. f_equal. lia. }
    assert (Hlen : Z.of_nat (length (run_at data p)) = e - p).
    { rewrite Hrun, length_skipn. unfold e in *. lia. }
    assert (Hfirst : forall n, n = length (run_at data p) ->
              firstn n (skipn (Z.to_nat p) data) = run_at data p).
    { intros n ->. unfold run_at. apply until_nul_firstn. }
    assert (Hmax : Z.max p 0 = p) by lia.
    destruct (Z.ltb_spec e (buf_length data)) as [Hin|Hout].
    + unfold toString.
      assert (Hc : (0 <? p) && (buf_length data <=? p) = false).
      { destruct (Z.leb_spec (buf_length data) p); [lia|].
        apply andb_false_r. }
      rewrite Hc, Hmax.
      destruct (Z.ltb_spec (buf_length data) e); [lia|].
      rewrite <- Hlen.
      destruct (Z.leb_spec e p) as [Hep|Hep].
      * assert (E0 : length (run_at data p) = 0%nat) by lia.
        destruct (run_at data p); [|discriminate].
        reflexivity.
      * destruct (MAX_STRING_LENGTH <? Z.of_nat (length (run_at data p)));
          [reflexivity|].
        rewrite Hfirst by lia. reflexivity.
    + assert (He : e = buf_length data) by lia.
      unfold toString.
      assert (Hc : (0 <? p) && (buf_length data <=? p) = false).
      { destruct (Z.leb_spec (buf_length data) p); [lia|].
        apply andb_false_r. }
      rewrite Hc, Hmax.
      destruct (Z.leb_spec (buf_length data) p); [lia|].
      replace (buf_length data - p) with (Z.of_nat (length (run_at data p)))
        by lia.
      destruct (MAX_STRING_LENGTH <? Z.of_nat (length (run_at data p)));
        [reflexivity|].
      rewrite Hfirst by lia. reflexivity.
Qed.

(** An offset that no NUL separates from [0x7fffffff] (any offset up to
    [0x7fffffff] is one) is read as the string that starts there. *)
Lemma readCString_in (data : Buffer) (p : Z) :
  0 <= p < buf_length data ->
  (forall k, 2147483647 <= k < p -> buf_get data k <> Some 0) ->
  readCString data p =
  if MAX_STRING_LENGTH <? Z.of_nat (length (run_at data p)) then Throw Error
  else Ok (Utf8.decode (map byte_val (run_at data p))).
Proof.
  intros Hp Hno.
  destruct (readCString_cases data p Hp) as [[Hlt _]|[_ E]]; [|exact E].
  exfalso. cbv zeta in Hlt.
  remember 2147483647 as c eqn:Hc.
  assert (Hbig : c < p) by lia.
  replace (Z.min p c) with c in Hlt by lia.
  set (l := skipn (Z.to_nat c) data) in *.
  destruct (until_nul_split l) as [E|[rest E]].
  - apply (f_equal (@length byte)) in E.
    rewrite length_skipn in E. change (length (@nil byte)) with 0%nat in E.
    assert (Hl : length l = (length data - Z.to_nat c)%nat)
      by apply length_skipn.
    unfold buf_length in Hp. lia.
  - apply (Hno (c + Z.of_nat (length (until_nul l)))); [lia|].
    unfold buf_get.
    destruct (Z.ltb_spec (c + Z.of_nat (length (until_nul l))) 0); [lia|].
    replace (Z.to_nat (c + Z.of_nat (length (until_nul l))))
      with (Z.to_nat c + length (until_nul l))%nat by lia.
    rewrite <- nth_error_skipn. fold l.
    rewrite <- (Nat.add_0_r (length (until_nul l))).
    rewrite <- nth_error_skipn, E. reflexivity.
Qed.

(** Above [0x7fffffff], an offset that a NUL separates from
    [0x7fffffff] is read as the empty string, whatever follows it. *)
Lemma readCString_clamped (data : Buffer) (p k : Z) :
  2147483647 <= k < p -> buf_get data k = Some 0 ->
  readCString data p = Ok [].
Proof.
  intros Hk Hnul.
  destruct (Z.lt_ge_cases p (buf_length data)) as [Hin|Hout];
    [|apply readCString_out; right; lia].
  destruct (readCString_cases data p ltac:(lia)) as [[_ E]|[Hge _]];
    [exact E|].
  exfalso. cbv zeta in Hge.
  remember 2147483647 as c eqn:Hc.
  replace (Z.min p c) with c in Hge by lia.
  apply buf_get_nul in Hnul as (Hk0 & b & Hb & Hz).
  assert (Hnth : nth_error (skipn (Z.to_nat c) data)
                   (Z.to_nat (k - c)) = Some b).
  { rewrite nth_error_skipn. rewrite <- Hb. f_equal. lia. }
  pose proof (until_nul_stops _ _ _ Hnth Hz). lia.
Qed.

(** What a string that was read and is not empty is. *)
Lemma readCString_Ok_inv (data : Buffer) (p : Z) (s : jsstring) :
  readCString data p = Ok s -> s <> [] ->
  0 <= p < buf_length data /\
  s = Utf8.decode (map byte_val (run_at data p)) /\
  Z.of_nat (length (run_at data p)) <= MAX_STRING_LENGTH.
Proof.
  intros E Hs.
  assert (Hp : 0 <= p < buf_length data).
  { destruct (Z.lt_ge_cases p 0) as [H|H];
      [rewrite readCString_out in E by lia; congruence|].
    destruct (Z.lt_ge_cases p (buf_length data)) as [H'|H']; [lia|].
    rewrite readCString_out in E by lia. congruence. }
  split; [exact Hp|].
  destruct (readCString_cases data p Hp) as [[_ E']|[_ E']];
    rewrite E' in E; [congruence|].
  destruct (Z.ltb_spec MAX_STRING_LENGTH (Z.of_nat (length (run_at data p))));
    [discriminate|].
  split; [congruence|assumption].
Qed.

(** [readCString] raises nothing but the plain [Error], and only at a
    run of more than [MAX_STRING_LENGTH] bytes. *)
Lemma readCString_Throw_inv (data : Buffer) (p : Z) (e : exn) :
  readCString data p = Throw e ->
  e = Error /\ 0 <= p < buf_length data /\
  MAX_STRING_LENGTH < Z.of_nat (length (run_at data p)).
Proof.
  intros E.
  assert (Hp : 0 <= p < buf_length data).
  { destruct (Z.lt_ge_cases p 0) as [H|H];
      [rewrite readCString_out in E by lia; discriminate|].
    destruct (Z.lt_ge_cases p (buf_length data)) as [H'|H']; [lia|].
    rewrite readCString_out in E by lia. discriminate. }
  destruct (readCString_cases data p Hp) as [[_ E']|[_ E']];
    rewrite E' in E; [discriminate|].
  destruct (Z.ltb_spec MAX_STRING_LENGTH (Z.of_nat (length (run_at data p))));
    [|discriminate].
  inversion E. repeat split; try lia.
Qed.

Lemma readCString_not_fuel (data : Buffer) (p : Z) :
  readCString data p <> OutOfFuel.
Proof.
  destruct (Z.lt_ge_cases p 0) as [H|H];
    [rewrite readCString_out by lia; discriminate|].
  destruct (Z.lt_ge_cases p (buf_length data)) as [H'|H'];
    [|rewrite readCString_out by lia; discriminate].
  destruct (readCString_cases data p ltac:(lia)) as [[_ E]|[_ E]];
    rewrite E; [discriminate|].
  destruct (MAX_STRING_LENGTH <? _); discriminate.
Qed.

(** ** The walk over a string table *)

Lemma walkStrings_done (fuel : nat) (data : Buffer) (p e : Z) :
  e <= p -> walkStrings fuel data p e = Ok [].
Proof.
  intros H. destruct fuel; simpl;
    destruct (Z.ltb_spec p e); try lia; reflexivity.
Qed.

Lemma walkStrings_S (fuel : nat) (data : Buffer) (p e : Z) :
  p < e ->
  walkStrings (S fuel) data p e =
  match readCString data p with
  | Ok s =>
      let slen := Z.of_nat (length s) in
      let rest :=
        walkStrings fuel data (JSNumber.add p (JSNumber.add slen 1)) e in
      if 0 <? slen
      then result_map (cons (mkStringEntry s p (JSNumber.add slen 1))) rest
      else rest
  | Throw x => Throw x
  | OutOfFuel => OutOfFuel
  end.
Proof.
  intros H. simpl. destruct (Z.ltb_spec p e); [reflexivity|lia].
Qed.

(** A turn of the walk at a position where the empty string is read. *)
Lemma walkStrings_skip (fuel : nat) (data : Buffer) (p e : Z) :
  p < e -> 0 <= p < 2 ^ 53 -> readCString data p = Ok [] ->
  walkStrings (S fuel) data p e = walkStrings fuel data (p + 1) e.
Proof.
  intros Hlt Hp E. rewrite walkStrings_S, E by assumption. cbv zeta.
  change (Z.of_nat (length (@nil Z))) with 0.
  change (JSNumber.add 0 1) with 1.
  rewrite JSNumberFacts.add_small by lia. reflexivity.
Qed.

(** Reading a string that starts and ends inside a known window of the
    buffer. *)
Lemma readCString_window (data : Buffer) (base : nat) (B T : list byte) (p : Z) :
  skipn base data = B ++ T ->
  0 <= p - Z.of_nat base < Z.of_nat (length B) ->
  In x00 (skipn (Z.to_nat (p - Z.of_nat base)) B) ->
  p <= 2147483647 -> Z.of_nat (length B) <= MAX_STRING_LENGTH ->
  readCString data p =
  Ok (Utf8.decode
        (map byte_val (until_nul (skipn (Z.to_nat (p - Z.of_nat base)) B)))).
Proof.
  intros Hw Hp Hnul Hlow Hshort.
  assert (Hlen : (base + length B <= length data)%nat).
  { assert (E : length (skipn base data) = (length B + length T)%nat)
      by (rewrite Hw; apply length_app).
    rewrite length_skipn in E. lia. }
  assert (Hrun : run_at data p =
                 until_nul (skipn (Z.to_nat (p - Z.of_nat base)) B)).
  { unfold run_at.
    replace (Z.to_nat p) with (Z.to_nat (p - Z.of_nat base) + base)%nat by lia.
    rewrite <- skipn_skipn, Hw, skipn_app.
    replace (Z.to_nat (p - Z.of_nat base) - length B)%nat with 0%nat by lia.
    rewrite skipn_O. apply until_nul_app. exact Hnul. }
  rewrite readCString_in; [|unfold buf_length; lia|intros k Hk; lia].
  rewrite Hrun.
  pose proof (until_nul_length (skipn (Z.to_nat (p - Z.of_nat base)) B)) as H1.
  rewrite length_skipn in H1.
  destruct (Z.ltb_spec MAX_STRING_LENGTH
              (Z.of_nat (length (until_nul
                 (skipn (Z.to_nat (p - Z.of_nat base)) B))))); [lia|].
  reflexivity.
Qed.

Lemma walk_window_entry (fuel : nat) (data : Buffer) (base : nat)
    (B T : list byte) (p e : Z) (s : jsstring) (l next : Z) :
  skipn base data = B ++ T ->
  0 <= p - Z.of_nat base < Z.of_nat (length B) ->
  In x00 (skipn (Z.to_nat (p - Z.of_nat base)) B) ->
  p <= 2147483647 -> Z.of_nat (length B) <= MAX_STRING_LENGTH ->
  p < e ->
  Utf8.decode
    (map byte_val (until_nul (skipn (Z.to_nat (p - Z.of_nat base)) B))) = s ->
  0 < Z.of_nat (length s) ->
  JSNumber.add (Z.of_nat (length s)) 1 = l ->
  JSNumber.add p l = next ->
  walkStrings (S fuel) data p e =
  result_map (cons (mkStringEntry s p l)) (walkStrings fuel data next e).
Proof.
  intros Hw Hp Hnul Hlow Hshort Hlt Hs Hne Hl Hn.
  rewrite walkStrings_S by assumption.
  rewrite (readCString_window data base B T p Hw Hp Hnul Hlow Hshort), Hs.
  cbv zeta. rewrite Hl, Hn.
  destruct (Z.ltb_spec 0 (Z.of_nat (length s))); [reflexivity|lia].
Qed.

Lemma walk_window_skip (fuel : nat) (data : Buffer) (base : nat)
    (B T : list byte) (p e next : Z) :
  skipn base data = B ++ T ->
  0 <= p - Z.of_nat base < Z.of_nat (length B) ->
  In x00 (skipn (Z.to_nat (p - Z.of_nat base)) B) ->
  p <= 2147483647 -> Z.of_nat (length B) <= MAX_STRING_LENGTH ->
  p < e ->
  Utf8.decode
    (map byte_val (until_nul (skipn (Z.to_nat (p - Z.of_nat base)) B))) = [] ->
  JSNumber.add p 1 = next ->
  walkStrings (S fuel) data p e = walkStrings fuel data next e.
Proof.
  intros Hw Hp Hnul Hlow Hshort Hlt Hs Hn.
  rewrite walkStrings_S by assumption.
  rewrite (readCString_window data base B T p Hw Hp Hnul Hlow Hshort), Hs.
  cbv zeta. simpl. exact (f_equal (fun x => walkStrings fuel data x e) Hn).
Qed.

Ltac window_range :=
  split; [vm_compute; discriminate | vm_compute; reflexivity].
Ltac window_nul :=
  vm_compute; repeat first [left; reflexivity | right].

(** Every entry the walk emits is a run of the buffer. *)
Lemma walkStrings_entries (fuel : nat) (data : Buffer) (lo hi : Z) :
  0 <= lo -> buf_length data < 2 ^ 53 ->
  forall p l,
    Z.min lo (2 ^ 53) <= p ->
    walkStrings fuel data p hi = Ok l ->
    Forall (string_entry_in_buffer data lo hi) l.
Proof.
  intros Hlo Hlen. induction fuel as [|fuel IH]; intros p l Hp H; simpl in H.
  - destruct (p <? hi); [discriminate|]. inversion H. constructor.
  - destruct (Z.ltb_spec p hi) as [Hlt|Hge]; [|inversion H; constructor].
    assert (Hp0 : 0 <= p) by (rewrite JSNumberFacts.two53 in *; lia).
    destruct (readCString data p) as [s| |] eqn:Es; try discriminate.
    cbv zeta in H.
    set (x := JSNumber.add (Z.of_nat (length s)) 1) in *.
    assert (Hx : 0 <= x) by (apply JSNumberFacts.add_nonneg; lia).
    assert (Hnext : Z.min lo (2 ^ 53) <= JSNumber.add p x).
    { pose proof (JSNumberFacts.add_lower p x Hp0 Hx). lia. }
    destruct (Z.ltb_spec 0 (Z.of_nat (length s))) as [Hne|He].
    + destruct (walkStrings fuel data (JSNumber.add p x) hi) as [l'| |] eqn:E;
        try discriminate.
      simpl in H. inversion H; subst l; clear H.
      constructor; [|exact (IH _ _ Hnext E)].
      assert (Hs : s <> []) by (intros E0; rewrite E0 in Hne; simpl in Hne; lia).
      destruct (readCString_Ok_inv data p s Es Hs) as (Hin & Hv & _).
      destruct (run_at_facts data p Hin) as (Hb & Hnn & Hend).
      unfold string_entry_in_buffer. simpl.
      split; [rewrite JSNumberFacts.two53 in *; lia|].
      split; [exact Hb|]. split; [exact Hnn|]. split; [exact Hend|].
      split; [exact Hv|].
      split; [exact Hs|reflexivity].
    + exact (IH _ _ Hnext H).
Qed.

(** The walk ends when the end offset of the section is a number that
    counting up by one can reach. *)
Lemma walkStrings_terminates (fuel : nat) (data : Buffer) (hi : Z) :
  hi <= 2 ^ 53 ->
  forall p, 0 <= p -> hi - p <= Z.of_nat fuel ->
            walkStrings fuel data p hi <> OutOfFuel.
Proof.
  intros Hhi. induction fuel as [|fuel IH]; intros p Hp Hf; simpl.
  - destruct (Z.ltb_spec p hi); [lia|]. discriminate.
  - destruct (Z.ltb_spec p hi) as [Hlt|Hge]; [|discriminate].
    destruct (readCString data p) as [s| |] eqn:Es;
      [|discriminate|destruct (readCString_not_fuel _ _ Es)].
    cbv zeta.
    set (x := JSNumber.add (Z.of_nat (length s)) 1).
    assert (Hx : 1 <= x).
    { pose proof (JSNumberFacts.add_lower (Z.of_nat (length s)) 1
                    ltac:(lia) ltac:(lia)) as H.
      fold x in H. rewrite JSNumberFacts.two53 in *. lia. }
    assert (Hn : p + 1 <= JSNumber.add p x).
    { pose proof (JSNumberFacts.add_lower p x Hp ltac:(lia)) as H.
      rewrite JSNumberFacts.two53 in *. lia. }
    specialize (IH (JSNumber.add p x) ltac:(lia) ltac:(lia)).
    destruct (walkStrings fuel data (JSNumber.add p x) hi);
      destruct (0 <? Z.of_nat (length s)); simpl; congruence.
Qed.

(** The walk raises nothing but the plain [Error], and only at a string
    whose run has more than [MAX_STRING_LENGTH] bytes. *)
Lemma walkStrings_Throw_inv (fuel : nat) (data : Buffer) (lo hi : Z) :
  0 <= lo -> buf_length data < 2 ^ 53 ->
  forall p e,
    Z.min lo (2 ^ 53) <= p ->
    walkStrings fuel data p hi = Throw e ->
    e = Error /\
    exists q, lo <= q < hi /\ 0 <= q < buf_length data /\
              MAX_STRING_LENGTH < Z.of_nat (length (run_at data q)).
Proof.
  intros Hlo Hlen. induction fuel as [|fuel IH]; intros p e Hp H; simpl in H.
  - destruct (p <? hi); discriminate.
  - destruct (Z.ltb_spec p hi) as [Hlt|Hge]; [|discriminate].
    assert (Hp0 : 0 <= p) by (rewrite JSNumberFacts.two53 in *; lia).
    destruct (readCString data p) as [s|e'|] eqn:Es; [| |discriminate].
    + cbv zeta in H.
      set (x := JSNumber.add (Z.of_nat (length s)) 1) in *.
      assert (Hx : 0 <= x) by (apply JSNumberFacts.add_nonneg; lia).
      assert (Hnext : Z.min lo (2 ^ 53) <= JSNumber.add p x).
      { pose proof (JSNumberFacts.add_lower p x Hp0 Hx). lia. }
      apply (IH (JSNumber.add p x) e Hnext).
      destruct (walkStrings fuel data (JSNumber.add p x) hi);
        destruct (0 <? Z.of_nat (length s)); simpl in H; congruence.
    + inversion H; subst e'; clear H.
      destruct (readCString_Throw_inv data p e Es) as (He & Hin & Hrun).
      split; [exact He|]. exists p.
      split; [rewrite JSNumberFacts.two53 in *; lia|].
      split; assumption.
Qed.



(** Over NUL bytes, and past the end of the buffer, the walk emits
    nothing; at any other byte it emits an entry. *)
Lemma walkStrings_padding (data : Buffer) (hi : Z) :
  hi <= 2147483647 ->
  forall fuel p l,
    0 <= p <= hi -> walkStrings fuel data p hi = Ok l ->
    (l = [] <->
     Forall (fun b => b = x00)
       (firstn (Z.to_nat (hi - p)) (skipn (Z.to_nat p) data))).
Proof.
  intros Hhi. induction fuel as [|fuel IH]; intros p l Hp H.
  - simpl in H. destruct (Z.ltb_spec p hi); [discriminate|].
    inversion H. replace (Z.to_nat (hi - p)) with 0%nat by lia.
    simpl. split; [constructor|reflexivity].
  - destruct (Z.lt_ge_cases p hi) as [Hlt|Hge].
    2:{ rewrite walkStrings_done in H by lia. inversion H.
        replace (Z.to_nat (hi - p)) with 0%nat by lia.
        simpl. split; [constructor|reflexivity]. }
    replace (Z.to_nat (hi - p)) with (S (Z.to_nat (hi - (p + 1)))) by lia.
    destruct (skipn (Z.to_nat p) data) as [|b tl] eqn:Esk.
    + assert (Hout : buf_length data <= p).
      { apply (f_equal (@length byte)) in Esk. rewrite length_skipn in Esk.
        simpl in Esk. unfold buf_length. lia. }
      rewrite walkStrings_skip in H;
        [|lia|lia|apply readCString_out; right; lia].
      split; [constructor|]. intros _.
      apply (IH (p + 1) l ltac:(lia) H).
      replace (skipn (Z.to_nat (p + 1)) data) with (@nil byte).
      * rewrite firstn_nil. constructor.
      * symmetry. apply skipn_all2. unfold buf_length in Hout. lia.
    + assert (Hin : 0 <= p < buf_length data).
      { split; [lia|]. unfold buf_length.
        assert (length (skipn (Z.to_nat p) data) <> 0%nat)
          by (rewrite Esk; discriminate).
        rewrite length_skipn in H0. lia. }
      assert (Htl : skipn (Z.to_nat (p + 1)) data = tl).
      { replace (Z.to_nat (p + 1)) with (1 + Z.to_nat p)%nat by lia.
        rewrite <- skipn_skipn, Esk. reflexivity. }
      cbn [firstn].
      assert (Hread := readCString_in data p Hin ltac:(intros k Hk; lia)).
      unfold run_at in Hread. rewrite Esk in Hread. cbn [until_nul] in Hread.
      destruct (Z.eqb_spec (byte_val b) 0) as [Hz|Hnz].
      * assert (b = x00) as -> by (apply byte_val_inj; rewrite Hz; reflexivity).
        change (MAX_STRING_LENGTH <? Z.of_nat (length (@nil byte)))
          with false in Hread.
        cbv iota in Hread. change (Utf8.decode (map byte_val [])) with (@nil Z)
          in Hread.
        rewrite walkStrings_skip in H by (try lia; exact Hread).
        pose proof (IH (p + 1) l ltac:(lia) H) as IHp. rewrite Htl in IHp.
        split.
        -- intros El. constructor; [reflexivity|]. apply IHp. exact El.
        -- intros HF. inversion HF; subst. apply IHp. assumption.
      * split.
        -- intros ->. exfalso.
           rewrite walkStrings_S, Hread in H by assumption.
           destruct (MAX_STRING_LENGTH <? _); [discriminate|].
           cbv zeta in H.
           set (s := Utf8.decode (map byte_val (b :: until_nul tl))) in *.
           assert (Hs : s <> [])
             by (apply decode_nonempty; discriminate).
           destruct (Z.ltb_spec 0 (Z.of_nat (length s))) as [Hne|He].
           ++ destruct (walkStrings fuel data _ hi); discriminate.
           ++ destruct s; [congruence|simpl in He; lia].
        -- intros HF. inversion HF; subst. exfalso. apply Hnz. reflexivity.
Qed.




(** Over NUL bytes, and past the end of the buffer, the walk comes to
    its end having emitted nothing. *)
Lemma walkStrings_over_padding (data : Buffer) (hi : Z) :
  hi <= 2147483647 ->
  forall fuel p,
    0 <= p <= hi -> hi - p <= Z.of_nat fuel ->
    Forall (fun b => b = x00)
      (firstn (Z.to_nat (hi - p)) (skipn (Z.to_nat p) data)) ->
    walkStrings fuel data p hi = Ok [].
Proof.
  intros Hhi. induction fuel as [|fuel IH]; intros p Hp Hf HF.
  - apply walkStrings_done. lia.
  - destruct (Z.lt_ge_cases p hi) as [Hlt|Hge];
      [|apply walkStrings_done; lia].
    replace (Z.to_nat (hi - p)) with (S (Z.to_nat (hi - (p + 1)))) in HF
      by lia.
    assert (Hnext : Forall (fun b => b = x00)
              (firstn (Z.to_nat (hi - (p + 1)))
                 (skipn (Z.to_nat (p + 1)) data))).
    { replace (Z.to_nat (p + 1)) with (1 + Z.to_nat p)%nat by lia.
      rewrite <- skipn_skipn.
      destruct (skipn (Z.to_nat p) data) as [|b tl];
        [rewrite skipn_nil, firstn_nil; constructor|].
      cbn [firstn] in HF. inversion HF. assumption. }
    rewrite walkStrings_skip; [apply IH; [lia|lia|exact Hnext]|lia|lia|].
    destruct (Z.lt_ge_cases p (buf_length data)) as [Hin|Hout];
      [|apply readCString_out; right; lia].
    rewrite readCString_in by (try lia; intros k Hk; lia).
    unfold run_at.
    destruct (skipn (Z.to_nat p) data) as [|b tl] eqn:Esk.
    + reflexivity.
    + cbn [firstn] in HF. inversion HF; subst. reflexivity.
Qed.

(** C9 (amended).  A STRTAB section that spans the bytes from 100 to 120
    and begins with abc, NUL, NUL, de, NUL decodes to a table whose
    first two entries are abc at offset 100 with byte length 4 and de at
    offset 105 with byte length 3; the lone NUL at offset 104 yields no
    entry and uses up one byte, the next string starting at 105.  The
    two entries are the only ones exactly when the bytes that follow,
    from 108 to the end of the section or of the buffer, are all NUL;
    any other byte there starts a further entry, at an offset from 108
    on.  The walk ends within 15 steps, and it returns the table
    whenever the rest of the section is NUL padding or the buffer is
    shorter than the longest string of the engine. *)
Theorem C9_strtab_scenario (fuel : nat) (data : Buffer) (sh : SectionHeader)
    (r : Reader) :
  buf r = data ->
  sh_type sh = 3 -> sh_offset sh = 100 -> sh_size sh = 20 ->
  firstn 8 (skipn 100 data) = strtab_begin ->
  let e1 := mkStringEntry (js "abc") 100 4 in
  let e2 := mkStringEntry (js "de") 105 3 in
  let padding :=
    Forall (fun b => b = x00) (firstn 12 (skipn 108 data)) in
  (padding ->
   parseStringTables (15 + fuel) [sh] r =
   (Ok [mkTable (sh_name sh) 100 [e1; e2]], r)) /\
  (forall ts,
     fst (parseStringTables (15 + fuel) [sh] r) = Ok ts ->
     exists rest,
       ts = [mkTable (sh_name sh) 100 (e1 :: e2 :: rest)] /\
       Forall (fun e => 108 <= str_fileOffset e < 120) rest /\
       (rest = [] <-> padding)) /\
  fst (parseStringTables (15 + fuel) [sh] r) <> OutOfFuel /\
  (buf_length data < MAX_STRING_LENGTH ->
   exists ts, parseStringTables (15 + fuel) [sh] r = (Ok ts, r)).
Proof.
  intros Hbuf Hty Hoff Hsz Hbytes e1 e2 padding.
  assert (Hw : skipn 100 data = strtab_begin ++ skipn 108 data).
  { rewrite <- Hbytes.
    change 108%nat with (8 + 100)%nat. rewrite <- skipn_skipn.
    symmetry. apply firstn_skipn. }
  assert (Hlen : 108 <= buf_length data).
  { apply (f_equal (@length byte)) in Hbytes.
    rewrite length_firstn, length_skipn in Hbytes.
    change (length strtab_begin) with 8%nat in Hbytes.
    unfold buf_length. lia. }
  assert (Hrun : parseStringTables (15 + fuel) [sh] r =
                 (result_map
                    (fun rest => [mkTable (sh_name sh) 100 (e1 :: e2 :: rest)])
                    (walkStrings (12 + fuel) data 108 120), r)).
  { unfold parseStringTables. simpl filter. unfold is_strtab.
    rewrite Hty. simpl mapM.
    unfold bind, get_buf, lift, ret, stringTable.
    rewrite Hbuf, Hoff, Hsz.
    change (JSNumber.Number 100) with 100.
    change (JSNumber.add 100 (JSNumber.Number 20)) with 120.
    cbn [Nat.add].
    erewrite (walk_window_entry _ data 100 _ _ 100 120 (js "abc") 4 104 Hw);
      [|window_range | window_nul | lia | vm_compute; discriminate | lia
       | reflexivity | simpl; lia | reflexivity | reflexivity].
    erewrite (walk_window_skip _ data 100 _ _ 104 120 105 Hw);
      [|window_range | window_nul | lia | vm_compute; discriminate | lia
       | reflexivity | reflexivity].
    erewrite (walk_window_entry _ data 100 _ _ 105 120 (js "de") 3 108 Hw);
      [|window_range | window_nul | lia | vm_compute; discriminate | lia
       | reflexivity | simpl; lia | reflexivity | reflexivity].
    match goal with |- context [walkStrings ?f data 108 120] =>
      destruct (walkStrings f data 108 120) end; reflexivity. }
  assert (Hends : walkStrings (12 + fuel) data 108 120 <> OutOfFuel).
  { apply walkStrings_terminates; [vm_compute; discriminate|lia|lia]. }
  rewrite Hrun. split; [|split; [|split]].
  - intros Hpad.
    rewrite (walkStrings_over_padding data 120 ltac:(lia) (12 + fuel) 108
               ltac:(lia) ltac:(lia) Hpad).
    reflexivity.
  - intros ts Hts. cbn [fst] in Hts.
    destruct (walkStrings (12 + fuel) data 108 120) as [rest| |] eqn:Ew;
      try discriminate.
    cbn [result_map] in Hts. inversion Hts; subst ts; clear Hts.
    exists rest. split; [reflexivity|]. split.
    + assert (Hall : forall f p l, 108 <= p ->
                walkStrings f data p 120 = Ok l ->
                Forall (fun e => 108 <= str_fileOffset e < 120) l).
      { induction f as [|f IH]; intros p l Hp H; simpl in H.
        - destruct (p <? 120); [discriminate|]. inversion H. constructor.
        - destruct (Z.ltb_spec p 120) as [Hlt|Hge];
            [|inversion H; constructor].
          destruct (readCString data p) as [s| |]; try discriminate.
          cbv zeta in H.
          assert (Hn : 108 <= JSNumber.add p
                                (JSNumber.add (Z.of_nat (length s)) 1)).
          { pose proof (JSNumberFacts.add_lower (Z.of_nat (length s)) 1
                          ltac:(lia) ltac:(lia)) as H1.
            pose proof (JSNumberFacts.add_lower p
                          (JSNumber.add (Z.of_nat (length s)) 1)
                          ltac:(lia)
                          ltac:(apply JSNumberFacts.add_nonneg; lia)) as H2.
            rewrite JSNumberFacts.two53 in *. lia. }
          destruct (walkStrings f data _ 120) as [l'| |] eqn:E;
            destruct (0 <? Z.of_nat (length s)); simpl in H;
            try discriminate; inversion H; subst.
          + constructor; [simpl; lia|]. exact (IH _ _ Hn E).
          + exact (IH _ _ Hn E). }
      exact (Hall (12 + fuel)%nat 108 rest ltac:(lia) Ew).
    + exact (walkStrings_padding data 120 ltac:(lia) (12 + fuel) 108 rest
               ltac:(lia) Ew).
  - cbn [fst]. destruct (walkStrings (12 + fuel) data 108 120);
      cbn [result_map]; congruence.
  - intros Hshort.
    destruct (walkStrings (12 + fuel) data 108 120) as [rest|e|] eqn:Ew;
      [eexists; reflexivity| |congruence].
    exfalso.
    destruct (Z.lt_ge_cases (buf_length data) (2 ^ 53)) as [Hs|Hs];
      [|unfold MAX_STRING_LENGTH in Hshort; rewrite JSNumberFacts.two53 in Hs;
        lia].
    destruct (walkStrings_Throw_inv (12 + fuel) data 108 120 ltac:(lia) Hs
                108 e ltac:(rewrite JSNumberFacts.two53; lia) Ew)
      as (_ & q & _ & Hq & Hlong).
    destruct (run_at_facts data q Hq) as ([_ Hb] & _). lia.
Qed.

Lemma C9_strtab_scenario_witness :
  parseStringTables 15 [mkSectionHeader 0 [] 3 0 0 100 20 0 0 1 0]
    (mkReader (repeat x00 100 ++ strtab_scenario) false true 0) =
  (Ok [mkTable [] 100
         [mkStringEntry (js "abc") 100 4; mkStringEntry (js "de") 105 3]],
   mkReader (repeat x00 100 ++ strtab_scenario) false true 0).
Proof.
  refine (proj1 (C9_strtab_scenario 0 (repeat x00 100 ++ strtab_scenario)
                   (mkSectionHeader 0 [] 3 0 0 100 20 0 0 1 0)
                   (mkReader (repeat x00 100 ++ strtab_scenario) false true 0)
                   eq_refl eq_refl eq_refl eq_refl eq_refl) _).
  repeat constructor.
Defined.



(** Past [2^53] the walk cannot count up by one: a 64-bit section header
    that declares an end offset beyond it keeps the loop turning for
    ever. *)
Remark stringTable_may_not_end (fuel : nat) :
  stringTable fuel [] (mkSectionHeader 0 [] 3 0 0 (2 ^ 53) 2 0 0 0 0)
  = OutOfFuel.
Proof.
  unfold stringTable.
  change (JSNumber.Number (sh_offset _)) with 9007199254740992.
  change (JSNumber.add _ (JSNumber.Number (sh_size _)))
    with 9007199254740994.
  assert (H : walkStrings fuel [] 9007199254740992 9007199254740994
              = OutOfFuel); [|rewrite H; reflexivity].
  induction fuel as [|fuel IH]; [reflexivity|].
  rewrite walkStrings_S by lia.
  rewrite readCString_out by (right; unfold buf_length; simpl; lia).
  cbv zeta.
  change (JSNumber.add 9007199254740992 (JSNumber.add (Z.of_nat (length (@nil Z))) 1))
    with 9007199254740992.
  simpl. exact IH.
Qed.

Lemma until_nul_repeat (b : byte) (n : nat) :
  byte_val b <> 0 -> until_nul (repeat b n) = repeat b n.
Proof.
  intros Hb. induction n as [|n IH]; [reflexivity|].
  cbn [repeat until_nul]. destruct (Z.eqb_spec (byte_val b) 0); [contradiction|].
  rewrite IH. reflexivity.
Qed.

(** The plain [Error] does occur: in a buffer of more than [2^29 - 24]
    bytes that holds no NUL, a string table that starts at the first
    byte makes the walk raise at its first string. *)
Remark stringTable_may_raise (n : nat) :
  MAX_STRING_LENGTH < Z.of_nat n ->
  stringTable 1 (repeat x61 n) (mkSectionHeader 0 [] 3 0 0 0 1 0 0 0 0)
  = Throw Error.
Proof.
  intros Hn. unfold stringTable.
  change (JSNumber.Number (sh_offset _)) with 0.
  change (JSNumber.add 0 (JSNumber.Number (sh_size _))) with 1.
  assert (Hlen : buf_length (repeat x61 n) = Z.of_nat n).
  { unfold buf_length. rewrite repeat_length. reflexivity. }
  rewrite walkStrings_S by lia.
  rewrite readCString_in;
    [|rewrite Hlen; unfold MAX_STRING_LENGTH in Hn; lia|intros k Hk; lia].
  unfold run_at. change (Z.to_nat 0) with 0%nat. rewrite skipn_O.
  rewrite until_nul_repeat by (vm_compute; discriminate).
  rewrite repeat_length.
  destruct (Z.ltb_spec MAX_STRING_LENGTH (Z.of_nat n)); [|lia].
  reflexivity.
Qed.
(** ** What a finished loop says about its turns *)

Lemma mapM_Ok_inv {A B} (f : A -> M B) (l : list A) :
  (forall a, frame (f a)) ->
  forall r bs r',
    mapM f l r = (Ok bs, r') ->
    Forall2 (fun a b => exists r1 r2,
                 same_buffer r r1 /\ f a r1 = (Ok b, r2)) l bs.
Proof.
  intros Ff. induction l as [|a l IH]; intros r bs r' H; simpl in H.
  - inversion H. constructor.
  - apply bind_Ok_inv in H as (b & r1 & Hb & H).
    apply bind_Ok_inv in H as (bs' & r2 & Hbs & H).
    inversion H; subst bs r'; clear H.
    constructor.
    + exists r, r1. split; [apply same_buffer_refl|exact Hb].
    + eapply Forall2_impl; [|exact (IH _ _ _ Hbs)].
      intros a' b' (r3 & r4 & Hs & Hf). exists r3, r4.
      split; [|exact Hf].
      eapply same_buffer_trans; [exact (frame_run _ _ _ _ (Ff a) Hb)|exact Hs].
Qed.

Lemma mapM_length {A B} (f : A -> M B) (l : list A) (r r' : Reader) (bs : list B) :
  mapM f l r = (Ok bs, r') -> length bs = length l.
Proof.
  revert r bs r'. induction l as [|a l IH]; intros r bs r' H; simpl in H.
  - inversion H. reflexivity.
  - apply bind_Ok_inv in H as (b & r1 & Hb & H).
    apply bind_Ok_inv in H as (bs' & r2 & Hbs & H).
    inversion H; subst. simpl. f_equal. exact (IH _ _ _ Hbs).
Qed.

Lemma loop_ran_impl {A} (count : spec_float) (P Q : Z -> A -> bool -> Prop) :
  (forall i a brk, P i a brk -> Q i a brk) ->
  forall l i, loop_ran count P i l -> loop_ran count Q i l.
Proof.
  intros HPQ. induction l as [|a l IH]; intros i H; simpl in *; [exact H|].
  destruct H as (Hc & brk & HP & Hrest). split; [exact Hc|].
  exists brk. split; [apply HPQ; exact HP|].
  destruct brk; [exact Hrest|apply IH; exact Hrest].
Qed.

Lemma count_loop_Ok_inv {A} (count : spec_float) (body : Z -> M (A * bool)) :
  (forall i, frame (body i)) ->
  forall fuel i r l r',
    count_loop fuel count body i r = (Ok l, r') ->
    loop_ran count
      (fun j a brk => exists r1 r2,
           same_buffer r r1 /\ body j r1 = (Ok (a, brk), r2))
      i l.
Proof.
  intros Fb. induction fuel as [|fuel IH]; intros i r l r' H; simpl in H.
  - destruct (JSNumber.ltb_float i count) eqn:Hc; [discriminate|].
    inversion H. exact Hc.
  - destruct (JSNumber.ltb_float i count) eqn:Hc;
      [|inversion H; exact Hc].
    apply bind_Ok_inv in H as ([a brk] & r1 & Hb & H). simpl in H.
    destruct brk.
    + inversion H; subst l r'. simpl. split; [exact Hc|].
      exists true. split; [|reflexivity].
      exists r, r1. split; [apply same_buffer_refl|exact Hb].
    + apply bind_Ok_inv in H as (rest & r2 & Hrest & H).
      inversion H; subst l r'. simpl. split; [exact Hc|].
      exists false. split.
      * exists r, r1. split; [apply same_buffer_refl|exact Hb].
      * eapply loop_ran_impl; [|exact (IH _ _ _ _ Hrest)].
        intros j a' brk' (r3 & r4 & Hs & Hf). exists r3, r4.
        split; [|exact Hf].
        eapply same_buffer_trans;
          [exact (frame_run _ _ _ _ (Fb i) Hb)|exact Hs].
Qed.

(** ** What a successful read says about the cursor *)

Lemma seek_facts (d : Buffer) (w : bool) (p : Z) (r r' : Reader) (u : unit) :
  reads_from d w r -> Rd.seek p r = (Ok u, r') ->
  reads_from d w r' /\ pos r' = p.
Proof.
  intros [Hb Hw] H. unfold Rd.seek in H. inversion H; subst r'.
  repeat split; assumption.
Qed.

Lemma get_is64_facts (d : Buffer) (w : bool) (r r' : Reader) (v : bool) :
  reads_from d w r -> get_is64 r = (Ok v, r') -> r' = r /\ v = w.
Proof.
  intros [Hb Hw] H. unfold get_is64 in H. inversion H. split; congruence.
Qed.

Lemma u8_facts (d : Buffer) (w : bool) (r r' : Reader) (v : option Z) :
  reads_from d w r -> buf_length d < 9007199254740992 ->
  Rd.u8 r = (Ok v, r') ->
  reads_from d w r' /\
  (0 <= pos r -> 0 <= pos r') /\
  (0 <= pos r -> pos r' <= buf_length d -> pos r' = pos r + 1).
Proof.
  intros [Hb Hw] Hlen H. unfold Rd.u8 in H. inversion H; subst r' v.
  simpl. split; [split; assumption|]. split.
  - intros Hp. apply JSNumberFacts.add_nonneg; lia.
  - intros Hp Hle.
    apply (JSNumberFacts.add_exact _ _ (buf_length d)); lia.
Qed.

Lemma read_n_facts (n : nat) (conv : Z -> Z) (d : Buffer) (w : bool)
    (r r' : Reader) (v : Z) :
  reads_from d w r -> buf_length d < 9007199254740992 ->
  Rd.read_n n conv r = (Ok v, r') ->
  reads_from d w r' /\ 0 <= pos r /\
  pos r + Z.of_nat n <= buf_length d /\ pos r' = pos r + Z.of_nat n /\
  v = conv (field d (isLE r) (pos r) n).
Proof.
  intros [Hb Hw] Hlen H.
  apply read_n_Ok_inv in H as ([H0 H1] & Hv & ->). rewrite Hb in *.
  simpl. split; [split; assumption|].
  split; [exact H0|]. split; [exact H1|]. split; [|exact Hv].
  apply JSNumberFacts.add_small; lia.
Qed.

Lemma u16_facts (d : Buffer) (w : bool) (r r' : Reader) (v : Z) :
  reads_from d w r -> buf_length d < 9007199254740992 ->
  Rd.u16 r = (Ok v, r') ->
  reads_from d w r' /\ 0 <= pos r /\
  pos r + 2 <= buf_length d /\ pos r' = pos r + 2.
Proof.
  intros Ha Hlen H.
  destruct (read_n_facts 2 _ d w r r' v Ha Hlen H) as (A & B & C & D & _).
  split; [exact A|]. split; [exact B|]. split; [exact C|exact D].
Qed.

Lemma u32_facts (d : Buffer) (w : bool) (r r' : Reader) (v : Z) :
  reads_from d w r -> buf_length d < 9007199254740992 ->
  Rd.u32 r = (Ok v, r') ->
  reads_from d w r' /\ 0 <= pos r /\
  pos r + 4 <= buf_length d /\ pos r' = pos r + 4.
Proof.
  intros Ha Hlen H.
  destruct (read_n_facts 4 _ d w r r' v Ha Hlen H) as (A & B & C & D & _).
  split; [exact A|]. split; [exact B|]. split; [exact C|exact D].
Qed.

Lemma addr_facts (d : Buffer) (w : bool) (r r' : Reader) (v : Z) :
  reads_from d w r -> buf_length d < 9007199254740992 ->
  Rd.addr r = (Ok v, r') ->
  reads_from d w r' /\ 0 <= pos r /\
  pos r + (if w then 8 else 4) <= buf_length d /\
  pos r' = pos r + (if w then 8 else 4).
Proof.
  intros Ha Hlen H. unfold Rd.addr in H.
  destruct Ha as [Hb Hw]. rewrite Hw in H. destruct w.
  - destruct (read_n_facts 8 _ d true r r' v (conj Hb Hw) Hlen H)
      as (A & B & C & D & _).
    split; [exact A|]. split; [exact B|]. split; [exact C|exact D].
  - destruct (read_n_facts 4 _ d false r r' v (conj Hb Hw) Hlen H)
      as (A & B & C & D & _).
    split; [exact A|]. split; [exact B|]. split; [exact C|exact D].
Qed.

Lemma sxword_facts (d : Buffer) (w : bool) (r r' : Reader) (v : Z) :
  reads_from d w r -> buf_length d < 9007199254740992 ->
  Rd.sxword r = (Ok v, r') ->
  reads_from d w r' /\ 0 <= pos r /\
  pos r + (if w then 8 else 4) <= buf_length d /\
  pos r' = pos r + (if w then 8 else 4).
Proof.
  intros Ha Hlen H. unfold Rd.sxword in H.
  destruct Ha as [Hb Hw]. rewrite Hw in H. destruct w.
  - destruct (read_n_facts 8 _ d true r r' v (conj Hb Hw) Hlen H)
      as (A & B & C & D & _).
    split; [exact A|]. split; [exact B|]. split; [exact C|exact D].
  - destruct (read_n_facts 4 _ d false r r' v (conj Hb Hw) Hlen H)
      as (A & B & C & D & _).
    split; [exact A|]. split; [exact B|]. split; [exact C|exact D].
Qed.

(** Turning the equations of a chain of reads into facts about the
    cursor, one read at a time. *)
Ltac reads_inv Hlen :=
  unfold Rd.off, Rd.xword in *;
  repeat match goal with
  | H : Rd.seek _ ?r = (Ok _, _), Ha : reads_from _ _ ?r |- _ =>
      apply (seek_facts _ _ _ _ _ _ Ha) in H; destruct H as (? & ?)
  | H : get_is64 ?r = (Ok _, _), Ha : reads_from _ _ ?r |- _ =>
      apply (get_is64_facts _ _ _ _ _ Ha) in H; destruct H as (? & ?); subst
  | H : get_buf ?r = (Ok _, _) |- _ =>
      unfold get_buf in H; inversion H; subst; clear H
  | H : ret _ ?r = (Ok _, _) |- _ =>
      unfold ret in H; inversion H; subst; clear H
  | H : Rd.u8 ?r = (Ok _, _), Ha : reads_from _ _ ?r |- _ =>
      apply (u8_facts _ _ _ _ _ Ha Hlen) in H; destruct H as (? & ? & ?)
  | H : Rd.u16 ?r = (Ok _, _), Ha : reads_from _ _ ?r |- _ =>
      apply (u16_facts _ _ _ _ _ Ha Hlen) in H; destruct H as (? & ? & ? & ?)
  | H : Rd.u32 ?r = (Ok _, _), Ha : reads_from _ _ ?r |- _ =>
      apply (u32_facts _ _ _ _ _ Ha Hlen) in H; destruct H as (? & ? & ? & ?)
  | H : Rd.addr ?r = (Ok _, _), Ha : reads_from _ _ ?r |- _ =>
      apply (addr_facts _ _ _ _ _ Ha Hlen) in H; destruct H as (? & ? & ? & ?)
  | H : Rd.sxword ?r = (Ok _, _), Ha : reads_from _ _ ?r |- _ =>
      apply (sxword_facts _ _ _ _ _ Ha Hlen) in H;
      destruct H as (? & ? & ? & ?)
  end.

Ltac binds_inv H :=
  repeat (let v := fresh "v" in let r := fresh "r" in let E := fresh "E" in
          apply bind_Ok_inv in H as (v & r & E & H); cbv beta in H).

(** The end of the body of the symbol loop: the name is read when there
    is a section to read it from. *)
Ltac name_inv H :=
  match type of H with
  | (match ?s with Some _ => _ | None => _ end) _ = (Ok _, _) =>
      destruct s;
      [let n := fresh "name" in let r := fresh "r" in let E := fresh "Ename" in
       apply bind_Ok_inv in H as (n & r & E & H);
       unfold lift in E; inversion E; subst r; clear E|]
  end.

(** ** Every decoded entry was read inside the buffer *)

Lemma programHeader_fits (d : Buffer) (w : bool) (phoff phentsize i : Z)
    (r r' : Reader) (ph : ProgramHeader) :
  reads_from d w r -> buf_length d < 9007199254740992 ->
  programHeader phoff phentsize i r = (Ok ph, r') ->
  reads_from d w r' /\
  in_bounds d (entry_pos (JSNumber.Number phoff) phentsize i) (ph_span w).
Proof.
  intros Ha Hlen H. unfold programHeader in H.
  binds_inv H. reads_inv Hlen.
  destruct w; reads_inv Hlen; unfold in_bounds, entry_pos, ph_span;
    (split; [assumption|lia]).
Qed.

Lemma sectionHeader_fits (d : Buffer) (w : bool) (shoff shentsize i : Z)
    (r r' : Reader) (sh : SectionHeader) :
  reads_from d w r -> buf_length d < 9007199254740992 ->
  sectionHeader shoff shentsize i r = (Ok sh, r') ->
  reads_from d w r' /\
  in_bounds d (entry_pos (JSNumber.Number shoff) shentsize i) (sh_span w).
Proof.
  intros Ha Hlen H. unfold sectionHeader in H.
  binds_inv H. reads_inv Hlen.
  destruct w; unfold in_bounds, entry_pos, sh_span;
    (split; [assumption|lia]).
Qed.

Lemma symbol_fits (d : Buffer) (w : bool) (secOff entSize : Z)
    (strSec : option SectionHeader) (strOff i : Z)
    (r r' : Reader) (s : ElfSymbol) (brk : bool) :
  reads_from d w r -> buf_length d < 9007199254740992 ->
  symbol secOff entSize strSec strOff i r = (Ok (s, brk), r') ->
  sym_fileOffset s = entry_pos secOff entSize i /\
  in_bounds d (sym_fileOffset s) (sym_span w) /\
  brk = false.
Proof.
  intros Ha Hlen H. unfold symbol in H.
  binds_inv H. name_inv H; reads_inv Hlen;
  match goal with E : (if ?b then _ else _) _ = _ |- _ =>
    destruct b; binds_inv E end;
    reads_inv Hlen;
    (split; [reflexivity|]);
    (split; [|reflexivity]);
    unfold in_bounds, entry_pos, sym_span in *;
    simpl; lia.
Qed.

Lemma dynEntry_fits (d : Buffer) (w : bool) (secOff entSize i : Z)
    (r r' : Reader) (e : DynEntry) (brk : bool) :
  reads_from d w r -> buf_length d < 9007199254740992 ->
  dynEntry secOff entSize i r = (Ok (e, brk), r') ->
  dyn_fileOffset e = entry_pos secOff entSize i /\
  in_bounds d (dyn_fileOffset e) (dyn_span w) /\
  brk = (dyn_tag e =? 0).
Proof.
  intros Ha Hlen H. unfold dynEntry in H.
  binds_inv H. reads_inv Hlen.
  split; [reflexivity|]. split; [|reflexivity].
  unfold in_bounds, entry_pos, dyn_span in *. simpl. destruct w; lia.
Qed.

Lemma relEntry_fits (d : Buffer) (w : bool) (isRela : bool)
    (secOff entSize : Z) (syms : option (list ElfSymbol)) (i : Z)
    (r r' : Reader) (e : RelEntry) (brk : bool) :
  reads_from d w r -> buf_length d < 9007199254740992 ->
  relEntry isRela secOff entSize syms i r = (Ok (e, brk), r') ->
  rel_fileOffset e = entry_pos secOff entSize i /\
  in_bounds d (rel_fileOffset e) (rel_span w isRela) /\
  brk = false.
Proof.
  intros Ha Hlen H. unfold relEntry in H.
  binds_inv H. reads_inv Hlen.
  split; [reflexivity|]. split; [|reflexivity].
  unfold in_bounds, entry_pos, rel_span in *. simpl.
  destruct isRela.
  - match goal with E : bind _ _ _ = _ |- _ => binds_inv E end.
    reads_inv Hlen. destruct w; lia.
  - reads_inv Hlen. destruct w; lia.
Qed.

Lemma reads_from_same (d : Buffer) (w : bool) (r r' : Reader) :
  reads_from d w r -> same_buffer r r' -> reads_from d w r'.
Proof.
  unfold reads_from, same_buffer. intros [A B] (C & D & _).
  split; congruence.
Qed.

Lemma Forall2_left {A B} (R : A -> B -> Prop) (P : A -> Prop)
    (l : list A) (l' : list B) :
  (forall a b, R a b -> P a) -> Forall2 R l l' -> Forall P l.
Proof.
  intros HRP H. induction H; constructor; eauto.
Qed.

Lemma indices_length (n : Z) : length (indices n) = Z.to_nat n.
Proof. unfold indices. rewrite length_map, length_seq. reflexivity. Qed.

Lemma parseProgramHeaders_fits (d : Buffer) (w : bool) (h : ElfHeader)
    (r r' : Reader) (phs : list ProgramHeader) :
  reads_from d w r -> buf_length d < 9007199254740992 ->
  parseProgramHeaders h r = (Ok phs, r') ->
  length phs = Z.to_nat (h_phnum h) /\
  Forall (fun i => in_bounds d
                     (entry_pos (JSNumber.Number (h_phoff h)) (h_phentsize h) i)
                     (ph_span w))
         (indices (h_phnum h)).
Proof.
  intros Ha Hlen H. unfold parseProgramHeaders in H. split.
  - rewrite (mapM_length _ _ _ _ _ H). apply indices_length.
  - apply mapM_Ok_inv in H; [|intros i; apply frame_programHeader].
    eapply Forall2_left; [|exact H].
    intros i ph (r1 & r2 & Hs & Hf).
    apply (programHeader_fits d w _ _ _ r1 r2 ph
             (reads_from_same _ _ _ _ Ha Hs) Hlen Hf).
Qed.

Lemma parseSectionHeaders_fits (d : Buffer) (w : bool) (h : ElfHeader)
    (r r' : Reader) (shs : list SectionHeader) :
  reads_from d w r -> buf_length d < 9007199254740992 ->
  parseSectionHeaders h r = (Ok shs, r') ->
  length shs = Z.to_nat (h_shnum h) /\
  Forall (fun i => in_bounds d
                     (entry_pos (JSNumber.Number (h_shoff h)) (h_shentsize h) i)
                     (sh_span w))
         (indices (h_shnum h)).
Proof.
  intros Ha Hlen H. unfold parseSectionHeaders in H. split.
  - rewrite (mapM_length _ _ _ _ _ H). apply indices_length.
  - apply mapM_Ok_inv in H; [|intros i; apply frame_sectionHeader].
    eapply Forall2_left; [|exact H].
    intros i sh (r1 & r2 & Hs & Hf).
    apply (sectionHeader_fits d w _ _ _ r1 r2 sh
             (reads_from_same _ _ _ _ Ha Hs) Hlen Hf).
Qed.

Lemma symbolTable_complete (d : Buffer) (w : bool) (fuel : nat)
    (shs : list SectionHeader) (sh : SectionHeader) (r r' : Reader)
    (t : Table ElfSymbol) :
  reads_from d w r -> buf_length d < 9007199254740992 ->
  symbolTable fuel shs sh r = (Ok t, r') ->
  table_complete sym_fileOffset (fun _ => false) d (sym_span w)
    (entryCount sh (symEntSize w sh))
    (JSNumber.Number (sh_offset sh)) (symEntSize w sh) (entries t).
Proof.
  intros Ha Hlen H. unfold symbolTable in H.
  apply bind_Ok_inv in H as (v & r1 & E & H).
  apply (get_is64_facts _ _ _ _ _ Ha) in E as [-> ->].
  cbv zeta in H.
  apply bind_Ok_inv in H as (l & r2 & El & H).
  inversion H; subst t r'; clear H. simpl.
  apply count_loop_Ok_inv in El; [|intros i; apply frame_symbol].
  unfold table_complete. eapply loop_ran_impl; [|exact El].
  intros i s brk (ra & rb & Hs & Hf).
  apply (symbol_fits d w _ _ _ _ _ ra rb s brk
           (reads_from_same _ _ _ _ Ha Hs) Hlen Hf).
Qed.

Lemma dynamicSection_complete (d : Buffer) (w : bool) (fuel : nat)
    (sh : SectionHeader) (r r' : Reader) (l : list DynEntry) :
  reads_from d w r -> buf_length d < 9007199254740992 ->
  dynamicSection fuel sh r = (Ok l, r') ->
  table_complete dyn_fileOffset (fun e => dyn_tag e =? 0) d (dyn_span w)
    (entryCount sh (dynEntSize w sh))
    (JSNumber.Number (sh_offset sh)) (dynEntSize w sh) l.
Proof.
  intros Ha Hlen H. unfold dynamicSection in H.
  apply bind_Ok_inv in H as (v & r1 & E & H).
  apply (get_is64_facts _ _ _ _ _ Ha) in E as [-> ->].
  cbv zeta in H.
  apply count_loop_Ok_inv in H; [|intros i; apply frame_dynEntry].
  unfold table_complete. eapply loop_ran_impl; [|exact H].
  intros i e brk (ra & rb & Hs & Hf).
  apply (dynEntry_fits d w _ _ _ ra rb e brk
           (reads_from_same _ _ _ _ Ha Hs) Hlen Hf).
Qed.

Lemma frame_dynamicSection (fuel : nat) (sh : SectionHeader) :
  frame (dynamicSection fuel sh).
Proof.
  unfold dynamicSection. apply frame_bind; [apply frame_get_is64|].
  intros b. apply frame_count_loop. intros i. apply frame_dynEntry.
Qed.

Lemma parseDynamic_complete (d : Buffer) (w : bool) (fuel : nat)
    (shs : list SectionHeader) :
  buf_length d < 9007199254740992 ->
  forall acc off r r' des off',
    reads_from d w r ->
    parseDynamic fuel shs acc off r = (Ok (des, off'), r') ->
    exists parts,
      des = acc ++ concat parts /\
      Forall2 (fun sh l =>
                 table_complete dyn_fileOffset (fun e => dyn_tag e =? 0) d
                   (dyn_span w) (entryCount sh (dynEntSize w sh))
                   (JSNumber.Number (sh_offset sh)) (dynEntSize w sh) l)
              (filter is_dynamic shs) parts.
Proof.
  intros Hlen. induction shs as [|sh shs IH];
    intros acc off r r' des off' Ha H; simpl in H.
  - inversion H; subst. exists []. simpl. rewrite app_nil_r.
    split; [reflexivity|constructor].
  - simpl. unfold is_dynamic at 1. destruct (sh_type sh =? 6).
    + apply bind_Ok_inv in H as (es & r1 & E & H).
      pose proof (frame_run _ _ _ _ (frame_dynamicSection fuel sh) E) as Hs.
      destruct (IH _ _ _ _ _ _ (reads_from_same _ _ _ _ Ha Hs) H)
        as (parts & -> & HF).
      exists (es :: parts). simpl. rewrite app_assoc.
      split; [reflexivity|]. constructor; [|exact HF].
      exact (dynamicSection_complete d w fuel sh r r1 es Ha Hlen E).
    + exact (IH _ _ _ _ _ _ Ha H).
Qed.

Lemma relocationTable_complete (d : Buffer) (w : bool) (fuel : nat)
    (shs : list SectionHeader) (syms : list (Table ElfSymbol))
    (sh : SectionHeader) (r r' : Reader) (t : Table RelEntry) :
  reads_from d w r -> buf_length d < 9007199254740992 ->
  relocationTable fuel shs syms sh r = (Ok t, r') ->
  table_complete rel_fileOffset (fun _ => false) d
    (rel_span w (sh_type sh =? 4))
    (entryCount sh (relEntSize w (sh_type sh =? 4) sh))
    (JSNumber.Number (sh_offset sh)) (relEntSize w (sh_type sh =? 4) sh)
    (entries t).
Proof.
  intros Ha Hlen H. unfold relocationTable in H.
  apply bind_Ok_inv in H as (v & r1 & E & H).
  apply (get_is64_facts _ _ _ _ _ Ha) in E as [-> ->].
  cbv zeta in H.
  apply bind_Ok_inv in H as (l & r2 & El & H).
  inversion H; subst t r'; clear H. simpl.
  apply count_loop_Ok_inv in El; [|intros i; apply frame_relEntry].
  unfold table_complete. eapply loop_ran_impl; [|exact El].
  intros i e brk (ra & rb & Hs & Hf).
  apply (relEntry_fits d w _ _ _ _ _ ra rb e brk
           (reads_from_same _ _ _ _ Ha Hs) Hlen Hf).
Qed.

(** ** The stages that need no fuel *)

Lemma fuel_free_ret {A} (a : A) : fuel_free (ret a).
Proof. intros r. discriminate. Qed.

Lemma fuel_free_bind {A B} (m : M A) (k : A -> M B) :
  fuel_free m -> (forall a, fuel_free (k a)) -> fuel_free (bind m k).
Proof.
  intros Fm Fk r. unfold bind. specialize (Fm r).
  destruct (m r) as [[a|e|] r1]; simpl in *;
    [apply Fk|discriminate|congruence].
Qed.

Lemma fuel_free_seek (p : Z) : fuel_free (Rd.seek p).
Proof. intros r. discriminate. Qed.

Lemma fuel_free_u8 : fuel_free Rd.u8.
Proof. intros r. discriminate. Qed.

Lemma fuel_free_get_is64 : fuel_free get_is64.
Proof. intros r. discriminate. Qed.

Lemma fuel_free_read_n (n : nat) (conv : Z -> Z) : fuel_free (Rd.read_n n conv).
Proof. intros r. apply read_n_not_fuel. Qed.

Lemma fuel_free_addr : fuel_free Rd.addr.
Proof.
  intros r. unfold Rd.addr. destruct (is64 r); apply read_n_not_fuel.
Qed.

Lemma fuel_free_mapM {A B} (f : A -> M B) (l : list A) :
  (forall a, fuel_free (f a)) -> fuel_free (mapM f l).
Proof.
  intros Ff. induction l as [|a l IH]; simpl.
  - apply fuel_free_ret.
  - apply fuel_free_bind; [apply Ff|]. intros b.
    apply fuel_free_bind; [exact IH|]. intros bs. apply fuel_free_ret.
Qed.

Ltac fuel_free_step :=
  match goal with
  | |- fuel_free (bind _ _) => apply fuel_free_bind; [|intros ?]
  | |- fuel_free (if ?c then _ else _) => destruct c
  | |- fuel_free (ret _) => apply fuel_free_ret
  | |- fuel_free (Rd.seek _) => apply fuel_free_seek
  | |- fuel_free Rd.u8 => apply fuel_free_u8
  | |- fuel_free get_is64 => apply fuel_free_get_is64
  | |- fuel_free Rd.u16 => apply fuel_free_read_n
  | |- fuel_free Rd.u32 => apply fuel_free_read_n
  | |- fuel_free Rd.addr => apply fuel_free_addr
  | |- fuel_free Rd.off => apply fuel_free_addr
  | |- fuel_free Rd.xword => apply fuel_free_addr
  end.

Lemma fuel_free_programHeader (a b i : Z) : fuel_free (programHeader a b i).
Proof. unfold programHeader. repeat fuel_free_step. Qed.

Lemma fuel_free_sectionHeader (a b i : Z) : fuel_free (sectionHeader a b i).
Proof. unfold sectionHeader. repeat fuel_free_step. Qed.

(** ** The stages that raise nothing but [RangeError] *)

Lemma range_only_ret {A} (a : A) : range_only (ret a).
Proof. intros r e H. discriminate. Qed.

Lemma range_only_bind {A B} (m : M A) (k : A -> M B) :
  range_only m -> (forall a, range_only (k a)) -> range_only (bind m k).
Proof.
  intros Fm Fk r e. unfold bind. specialize (Fm r).
  destruct (m r) as [[a|e'|] r1]; simpl in *.
  - apply Fk.
  - intros H. inversion H; subst. apply Fm. reflexivity.
  - discriminate.
Qed.

Lemma range_only_seek (p : Z) : range_only (Rd.seek p).
Proof. intros r e H. discriminate. Qed.

Lemma range_only_u8 : range_only Rd.u8.
Proof. intros r e H. discriminate. Qed.

Lemma range_only_get_is64 : range_only get_is64.
Proof. intros r e H. discriminate. Qed.

Lemma range_only_read_n (n : nat) (conv : Z -> Z) :
  range_only (Rd.read_n n conv).
Proof.
  intros r e. unfold Rd.read_n.
  destruct (buf_bytes (buf r) (pos r) n); simpl; intros H;
    [discriminate|congruence].
Qed.

Lemma range_only_addr : range_only Rd.addr.
Proof.
  intros r. unfold Rd.addr. destruct (is64 r); apply range_only_read_n.
Qed.

Lemma range_only_sxword : range_only Rd.sxword.
Proof.
  intros r. unfold Rd.sxword. destruct (is64 r); apply range_only_read_n.
Qed.

Lemma range_only_mapM {A B} (f : A -> M B) (l : list A) :
  (forall a, range_only (f a)) -> range_only (mapM f l).
Proof.
  intros Ff. induction l as [|a l IH]; simpl.
  - apply range_only_ret.
  - apply range_only_bind; [apply Ff|]. intros b.
    apply range_only_bind; [exact IH|]. intros bs. apply range_only_ret.
Qed.

Lemma range_only_count_loop {A} (fuel : nat) (count : spec_float)
    (body : Z -> M (A * bool)) :
  (forall i, range_only (body i)) ->
  forall i, range_only (count_loop fuel count body i).
Proof.
  intros Fb. induction fuel as [|fuel IH]; intros i; simpl.
  - destruct (JSNumber.ltb_float i count).
    + intros r e H. discriminate.
    + apply range_only_ret.
  - destruct (JSNumber.ltb_float i count); [|apply range_only_ret].
    apply range_only_bind; [apply Fb|]. intros [a brk]. simpl.
    destruct brk; [apply range_only_ret|].
    apply range_only_bind; [apply IH|]. intros rest. apply range_only_ret.
Qed.

Ltac range_only_step :=
  match goal with
  | |- range_only (bind _ _) => apply range_only_bind; [|intros ?]
  | |- range_only (if ?c then _ else _) => destruct c
  | |- range_only (ret _) => apply range_only_ret
  | |- range_only (Rd.seek _) => apply range_only_seek
  | |- range_only Rd.u8 => apply range_only_u8
  | |- range_only get_is64 => apply range_only_get_is64
  | |- range_only Rd.u16 => apply range_only_read_n
  | |- range_only Rd.u32 => apply range_only_read_n
  | |- range_only Rd.addr => apply range_only_addr
  | |- range_only Rd.off => apply range_only_addr
  | |- range_only Rd.xword => apply range_only_addr
  | |- range_only Rd.sxword => apply range_only_sxword
  end.

Lemma range_only_parseHeader (c d : option Z) : range_only (parseHeader c d).
Proof. unfold parseHeader. repeat range_only_step. Qed.

Lemma range_only_programHeader (a b i : Z) : range_only (programHeader a b i).
Proof. unfold programHeader. repeat range_only_step. Qed.

Lemma range_only_sectionHeader (a b i : Z) : range_only (sectionHeader a b i).
Proof. unfold sectionHeader. repeat range_only_step. Qed.

Lemma range_only_parseProgramHeaders (h : ElfHeader) :
  range_only (parseProgramHeaders h).
Proof. apply range_only_mapM. intros i. apply range_only_programHeader. Qed.

Lemma range_only_parseSectionHeaders (h : ElfHeader) :
  range_only (parseSectionHeaders h).
Proof. apply range_only_mapM. intros i. apply range_only_sectionHeader. Qed.

(** A table of the header that does not fit in the buffer makes its
    stage raise. *)
Lemma parseProgramHeaders_throws (d : Buffer) (w : bool) (h : ElfHeader)
    (r : Reader) :
  reads_from d w r -> buf_length d < 9007199254740992 ->
  Exists (fun i => ~ in_bounds d
                       (entry_pos (JSNumber.Number (h_phoff h))
                          (h_phentsize h) i)
                       (ph_span w))
         (indices (h_phnum h)) ->
  fst (parseProgramHeaders h r) = Throw RangeError.
Proof.
  intros Ha Hlen Hex.
  destruct (parseProgramHeaders h r) as [[phs|e|] r'] eqn:E; simpl.
  - destruct (parseProgramHeaders_fits d w h r r' phs Ha Hlen E) as [_ HF].
    apply Exists_exists in Hex as (i & Hi & Hn).
    rewrite Forall_forall in HF. exfalso. exact (Hn (HF i Hi)).
  - f_equal. apply (range_only_parseProgramHeaders h r). rewrite E.
    reflexivity.
  - exfalso.
    apply (fuel_free_mapM (programHeader (h_phoff h) (h_phentsize h))
             (indices (h_phnum h))
             (fun i => fuel_free_programHeader _ _ i) r).
    unfold parseProgramHeaders in E. rewrite E. reflexivity.
Qed.

Lemma parseSectionHeaders_throws (d : Buffer) (w : bool) (h : ElfHeader)
    (r : Reader) :
  reads_from d w r -> buf_length d < 9007199254740992 ->
  Exists (fun i => ~ in_bounds d
                       (entry_pos (JSNumber.Number (h_shoff h))
                          (h_shentsize h) i)
                       (sh_span w))
         (indices (h_shnum h)) ->
  fst (parseSectionHeaders h r) = Throw RangeError.
Proof.
  intros Ha Hlen Hex.
  destruct (parseSectionHeaders h r) as [[shs|e|] r'] eqn:E; simpl.
  - destruct (parseSectionHeaders_fits d w h r r' shs Ha Hlen E) as [_ HF].
    apply Exists_exists in Hex as (i & Hi & Hn).
    rewrite Forall_forall in HF. exfalso. exact (Hn (HF i Hi)).
  - f_equal. apply (range_only_parseSectionHeaders h r). rewrite E.
    reflexivity.
  - exfalso.
    apply (fuel_free_mapM (sectionHeader (h_shoff h) (h_shentsize h))
             (indices (h_shnum h))
             (fun i => fuel_free_sectionHeader _ _ i) r).
    unfold parseSectionHeaders in E. rewrite E. reflexivity.
Qed.

Lemma parseHeader_class (c d : option Z) (r r' : Reader) (h : ElfHeader) :
  parseHeader c d r = (Ok h, r') -> h_class h = c.
Proof.
  intros H. unfold parseHeader in H. binds_inv H.
  inversion H. reflexivity.
Qed.

(** What the section headers are once their names are set: the headers
    read from the table, each with the name read for it when [shstrndx]
    is the index of a section, and as they were read otherwise. *)
Lemma resolveSectionNames_inv (data : Buffer) (i : Z)
    (shs0 shs : list SectionHeader) (r r' : Reader) :
  resolveSectionNames data i shs0 r = (Ok shs, r') ->
  (i < Z.of_nat (length shs0) /\
   exists strtab,
     section_at shs0 i = Some strtab /\
     Forall2 (fun s0 s =>
                exists name,
                  readCString data
                    (JSNumber.add (JSNumber.Number (sh_offset strtab))
                       (sh_nameIdx s0)) = Ok name /\
                  s = set_sh_name s0 name)
             shs0 shs) \/
  ((Z.of_nat (length shs0) <= i \/ section_at shs0 i = None) /\ shs = shs0).
Proof.
  unfold resolveSectionNames. intros H.
  destruct (Z.ltb_spec i (Z.of_nat (length shs0))) as [Hlt|Hge].
  2:{ right. unfold ret in H. split; [left; exact Hge|congruence]. }
  destruct (section_at shs0 i) as [strtab|] eqn:Es.
  2:{ right. unfold ret in H. split; [right; reflexivity|congruence]. }
  left. split; [exact Hlt|]. exists strtab. split; [reflexivity|].
  cbv zeta in H. clear Es Hlt.
  revert r shs r' H. induction shs0 as [|s0 l IH]; intros r shs r' H;
    simpl in H.
  - inversion H. constructor.
  - apply bind_Ok_inv in H as (b & r1 & Hb & H).
    apply bind_Ok_inv in H as (bs & r2 & Hbs & H).
    inversion H; subst shs r'; clear H.
    apply bind_Ok_inv in Hb as (name & r0 & En & Hb).
    unfold lift in En. inversion En; subst r0. inversion Hb; subst b r1.
    constructor; [|exact (IH _ _ _ Hbs)].
    exists name. split; [assumption|reflexivity].
Qed.

Lemma resolveSectionNames_length (data : Buffer) (i : Z)
    (shs0 shs : list SectionHeader) (r r' : Reader) :
  resolveSectionNames data i shs0 r = (Ok shs, r') ->
  length shs = length shs0.
Proof.
  intros H.
  apply resolveSectionNames_inv in H as [(_ & st & _ & HF)|[_ ->]];
    [|reflexivity].
  symmetry. exact (Forall2_length HF).
Qed.

Lemma frame_symbolTable (fuel : nat) (shs : list SectionHeader)
    (sh : SectionHeader) : frame (symbolTable fuel shs sh).
Proof.
  unfold symbolTable.
  apply frame_bind; [apply frame_get_is64|]. intros b. cbv zeta.
  apply frame_bind; [|intros; apply frame_ret].
  apply frame_count_loop. intros i. apply frame_symbol.
Qed.

Lemma frame_relocationTable (fuel : nat) (shs : list SectionHeader)
    (syms : list (Table ElfSymbol)) (sh : SectionHeader) :
  frame (relocationTable fuel shs syms sh).
Proof.
  unfold relocationTable.
  apply frame_bind; [apply frame_get_is64|]. intros b. cbv zeta.
  apply frame_bind; [|intros; apply frame_ret].
  apply frame_count_loop. intros i. apply frame_relEntry.
Qed.

Lemma frame_parseProgramHeaders (h : ElfHeader) : frame (parseProgramHeaders h).
Proof. apply frame_mapM. intros i. apply frame_programHeader. Qed.

Lemma frame_parseSectionHeaders (h : ElfHeader) : frame (parseSectionHeaders h).
Proof. apply frame_mapM. intros i. apply frame_sectionHeader. Qed.

Lemma frame_parseSymbols (fuel : nat) (shs : list SectionHeader) :
  frame (parseSymbols fuel shs).
Proof. apply frame_mapM. intros sh. apply frame_symbolTable. Qed.

Lemma frame_parseRelocations (fuel : nat) (shs : list SectionHeader)
    (syms : list (Table ElfSymbol)) : frame (parseRelocations fuel shs syms).
Proof. apply frame_mapM. intros sh. apply frame_relocationTable. Qed.

(** C3 (amended).  For every buffer (of a length Node can allocate)
    whose header decodes, a table entry that would be read past the end
    of the buffer is not skipped: if it belongs to the program header
    table or to the section header table, the whole decode raises
    [RangeError]; and whenever the decode does return a model, every
    table of the model holds all the entries of its loop, at consecutive
    indices, each one read inside the buffer. *)
Theorem C3_out_of_bounds_entry_aborts (fuel : nat) (data : Buffer) :
  buf_length data < 2 ^ 53 ->
  let w := is_num (buf_get data 4) 2 in
  let r0 := mkReader data w (is_num (buf_get data 5) 1) 0 in
  (52 <= buf_length data -> firstn 4 data = ELF_MAGIC ->
   forall h r1,
     parseHeader (buf_get data 4) (buf_get data 5) r0 = (Ok h, r1) ->
     header_table_overruns data w h ->
     fst (parseElf fuel data) = Throw RangeError) /\
  (forall m, fst (parseElf fuel data) = Ok (Some m) ->
             all_entries_fit data m).
Proof.
  intros Hlen w r0. rewrite JSNumberFacts.two53 in Hlen.
  assert (Ha0 : reads_from data w r0) by (split; reflexivity).
  split.
  - intros H52 Hmagic h r1 Hh Hover.
    rewrite (parseElf_elf fuel data H52 Hmagic). fold w r0.
    unfold parseBody. rewrite (bind_Ok _ _ _ _ _ Hh).
    pose proof (reads_from_same _ _ _ _ Ha0
                  (frame_run _ _ _ _ (frame_parseHeader _ _) Hh)) as Ha1.
    destruct (parseProgramHeaders h r1) as [[phs|e|] r2] eqn:Eph.
    + rewrite (bind_Ok _ _ _ _ _ Eph).
      destruct Hover as [Hover|Hover].
      * pose proof (parseProgramHeaders_throws data w h r1 Ha1 Hlen Hover) as T.
        rewrite Eph in T. discriminate.
      * pose proof (reads_from_same _ _ _ _ Ha1
                      (frame_run _ _ _ _ (frame_parseProgramHeaders h) Eph))
          as Ha2.
        pose proof (parseSectionHeaders_throws data w h r2 Ha2 Hlen Hover) as T.
        destruct (parseSectionHeaders h r2) as [res r3] eqn:Esh.
        simpl in T. subst res.
        rewrite (bind_Throw _ _ _ _ _ Esh). reflexivity.
    + rewrite (bind_Throw _ _ _ _ _ Eph). cbn [fst]. f_equal.
      apply (range_only_parseProgramHeaders h r1). rewrite Eph. reflexivity.
    + exfalso.
      apply (fuel_free_mapM (programHeader (h_phoff h) (h_phentsize h))
               (indices (h_phnum h))
               (fun i => fuel_free_programHeader _ _ i) r1).
      unfold parseProgramHeaders in Eph. rewrite Eph. reflexivity.
  - intros m Hm.
    apply parseElf_Some_inv in Hm as (H52 & Hmagic & r' & Hb).
    fold w r0 in Hb.
    apply parseBody_inv in Hb
      as (r1 & r2 & r3 & r4 & r5 & r6 & shs0 &
          Hh & Hph & Hsh & Hnames & Hsym & Hdyn & Hrel & Hstr).
    pose proof (parseHeader_class _ _ _ _ _ Hh) as Hc.
    pose proof (reads_from_same _ _ _ _ Ha0
                  (frame_run _ _ _ _ (frame_parseHeader _ _) Hh)) as Ha1.
    pose proof (reads_from_same _ _ _ _ Ha1
                  (frame_run _ _ _ _ (frame_parseProgramHeaders _) Hph)) as Ha2.
    pose proof (reads_from_same _ _ _ _ Ha2
                  (frame_run _ _ _ _ (frame_parseSectionHeaders _) Hsh)) as Ha3.
    pose proof (reads_from_same _ _ _ _ Ha3
                  (frame_run _ _ _ _ (frame_parseSymbols _ _) Hsym)) as Ha4.
    pose proof (reads_from_same _ _ _ _ Ha4
                  (frame_run _ _ _ _ (frame_parseDynamic _ _ _ _) Hdyn)) as Ha5.
    unfold all_entries_fit. rewrite Hc. fold w.
    split; [exact (parseProgramHeaders_fits data w _ r1 r2 _ Ha1 Hlen Hph)|].
    split.
    { destruct (parseSectionHeaders_fits data w _ r2 r3 _ Ha2 Hlen Hsh)
        as [Hl HF].
      split; [|exact HF].
      rewrite (resolveSectionNames_length _ _ _ _ _ _ Hnames). exact Hl. }
    split.
    { unfold parseSymbols in Hsym.
      apply mapM_Ok_inv in Hsym; [|intros sh; apply frame_symbolTable].
      eapply Forall2_impl; [|exact Hsym].
      intros sh t (ra & rb & Hs & Hf).
      exact (symbolTable_complete data w fuel _ sh ra rb t
               (reads_from_same _ _ _ _ Ha3 Hs) Hlen Hf). }
    split.
    { destruct (parseDynamic_complete data w fuel (sectionHeaders m) Hlen
                  _ _ _ _ _ _ Ha4 Hdyn) as (parts & Hd & HF).
      exists parts. split; [exact Hd|exact HF]. }
    unfold parseRelocations in Hrel.
    apply mapM_Ok_inv in Hrel; [|intros sh; apply frame_relocationTable].
    eapply Forall2_impl; [|exact Hrel].
    intros sh t (ra & rb & Hs & Hf).
    exact (relocationTable_complete data w fuel _ _ sh ra rb t
             (reads_from_same _ _ _ _ Ha5 Hs) Hlen Hf).
Qed.

Lemma C3_out_of_bounds_entry_aborts_witness :
  fst (parseElf 1 truncated_phdr_elf) = Throw RangeError.
Proof.
  pose proof (C3_out_of_bounds_entry_aborts 1 truncated_phdr_elf
                ltac:(vm_compute; reflexivity)) as [HB _].
  eapply HB.
  - vm_compute. discriminate.
  - reflexivity.
  - vm_compute. reflexivity.
  - left. apply Exists_cons_tl. apply Exists_cons_hd.
    vm_compute. intros [_ H]. apply H. reflexivity.
Defined.

(** ** The symbol index of a relocation *)

Lemma le_value_range (bs : list Z) :
  Forall (fun b => 0 <= b < 256) bs ->
  0 <= le_value bs < 256 ^ Z.of_nat (length bs).
Proof.
  induction 1 as [|b bs Hb Hbs IH].
  - simpl. lia.
  - change (le_value (b :: bs)) with (b + 256 * le_value bs).
    replace (Z.of_nat (length (b :: bs))) with (Z.of_nat (length bs) + 1)
      by (simpl length; lia).
    rewrite Z.pow_add_r by lia. change (256 ^ 1) with 256. lia.
Qed.

Lemma field_range (data : Buffer) (le : bool) (p : Z) (n : nat) :
  0 <= field data le p n < 256 ^ Z.of_nat n.
Proof.
  unfold field.
  set (bs := map byte_val (firstn n (skipn (Z.to_nat p) data))).
  assert (Hall : Forall (fun b => 0 <= b < 256) bs).
  { unfold bs. apply Forall_forall. intros x Hx.
    apply in_map_iff in Hx as (b & <- & _). apply byte_val_range. }
  assert (Hlen : (length bs <= n)%nat).
  { unfold bs. rewrite length_map. apply firstn_le_length. }
  assert (Hpow : 256 ^ Z.of_nat (length bs) <= 256 ^ Z.of_nat n)
    by (apply Z.pow_le_mono_r; lia).
  destruct le.
  - pose proof (le_value_range bs Hall). lia.
  - unfold be_value.
    pose proof (le_value_range (rev bs) (Forall_rev Hall)) as H.
    rewrite length_rev in H. lia.
Qed.

Lemma symIdx_bits (w : bool) (info : Z) :
  0 <= info < 2 ^ (if w then 64 else 32) ->
  symIdx w info = info / 2 ^ sym_shift w /\
  0 <= symIdx w info < 2 ^ sym_bits w /\
  forall k, 0 <= k ->
            Z.testbit (symIdx w info) k = Z.testbit info (k + sym_shift w).
Proof.
  intros Hi. unfold symIdx, sym_shift, sym_bits, JSNumber.Number.
  destruct w.
  - assert (Hr : 0 <= Z.shiftr info 32 < 2 ^ 32).
    { rewrite Z.shiftr_div_pow2 by lia. split.
      - apply Z.div_pos; lia.
      - apply Z.div_lt_upper_bound; lia. }
    rewrite JSNumberFacts.fround_exact by lia.
    split; [apply Z.shiftr_div_pow2; lia|]. split; [exact Hr|].
    intros k Hk. apply Z.shiftr_spec. exact Hk.
  - assert (Hr : 0 <= Z.shiftr info 8 < 2 ^ 24).
    { rewrite Z.shiftr_div_pow2 by lia. split.
      - apply Z.div_pos; lia.
      - apply Z.div_lt_upper_bound; lia. }
    rewrite JSNumberFacts.fround_exact by lia.
    split; [apply Z.shiftr_div_pow2; lia|]. split; [exact Hr|].
    intros k Hk. apply Z.shiftr_spec. exact Hk.
Qed.

Lemma relEntry_symbol (isRela : bool) (secOff entSize : Z)
    (syms : option (list ElfSymbol)) (i : Z) (r r' : Reader)
    (e : RelEntry) (brk : bool) :
  relEntry isRela secOff entSize syms i r = (Ok (e, brk), r') ->
  rel_symbolName e = relSymbolName syms (symIdx (is64 r) (rel_info e)) /\
  0 <= rel_info e < 2 ^ (if is64 r then 64 else 32).
Proof.
  intros H. unfold relEntry in H.
  apply bind_Ok_inv in H as (u & r1 & E1 & H).
  apply bind_Ok_inv in H as (w & r2 & E2 & H).
  apply bind_Ok_inv in H as (offset & r3 & E3 & H).
  apply bind_Ok_inv in H as (info & r4 & E4 & H).
  apply bind_Ok_inv in H as (addend & r5 & E5 & H).
  inversion H; subst e brk r'; clear H. simpl.
  pose proof (frame_run _ _ _ _ (frame_seek _) E1) as (_ & W1 & _).
  unfold get_is64 in E2. inversion E2; subst w r2; clear E2.
  pose proof (frame_run _ _ _ _ frame_addr E3) as (_ & W3 & _).
  rewrite W1. split; [reflexivity|].
  unfold Rd.xword, Rd.addr, Rd.u64, Rd.u32 in E4.
  rewrite W3, W1 in E4.
  destruct (is64 r);
    apply read_n_Ok_inv in E4 as (_ & -> & _); apply field_range.
Qed.

Lemma loop_ran_Forall {A} (count : spec_float) (P : Z -> A -> bool -> Prop)
    (Q : A -> Prop) :
  (forall i a brk, P i a brk -> Q a) ->
  forall l i, loop_ran count P i l -> Forall Q l.
Proof.
  intros HPQ. induction l as [|a l IH]; intros i H; [constructor|].
  simpl in H. destruct H as (_ & brk & HP & Hrest).
  constructor; [exact (HPQ _ _ _ HP)|].
  destruct brk; [subst l; constructor|exact (IH _ Hrest)].
Qed.

(** In a table whose loop breaks after the entries that [stop] marks,
    such an entry can only be the last one: the enumeration of a dynamic
    section ends with the first terminator it meets. *)
Lemma table_stops_at_marked {A} (fileOffset : A -> Z) (stop : A -> bool)
    (data : Buffer) (span : Z) (count : spec_float) (base entsize : Z)
    (l : list A) :
  table_complete fileOffset stop data span count base entsize l ->
  forall k a, nth_error l k = Some a -> stop a = true -> length l = S k.
Proof.
  unfold table_complete. generalize 0 as i. induction l as [|x l IH];
    intros i H k a Hk Hstop; [destruct k; discriminate|].
  simpl in H. destruct H as (_ & brk & (_ & _ & Hb) & Hrest).
  destruct k as [|k]; simpl in Hk.
  - inversion Hk; subst x. rewrite Hstop in Hb. subst brk. subst l.
    reflexivity.
  - destruct brk; [subst l; destruct k; discriminate|].
    simpl. f_equal. exact (IH _ Hrest k a Hk Hstop).
Qed.

(** C5 (amended).  For every decoded relocation entry, the symbol index
    is taken from the packed [info] field at a bit position that depends
    on the width: the high-order 24 bits ([info >> 8], leaving out the
    low-order byte) for 32-bit files, and the high-order 32 bits
    ([info >> 32]) for 64-bit files; the entry's symbol name is the
    name of the symbol at that index in the linked symbol table. *)
Theorem C5_symbol_index_is_high_bits (fuel : nat) (data : Buffer) (m : ElfFile) :
  fst (parseElf fuel data) = Ok (Some m) -> rel_indices_resolved m.
Proof.
  intros Hm.
  apply parseElf_Some_inv in Hm as (H52 & Hmagic & r' & Hb).
  apply parseBody_inv in Hb
    as (r1 & r2 & r3 & r4 & r5 & r6 & shs0 &
        Hh & Hph & Hsh & Hnames & Hsym & Hdyn & Hrel & Hstr).
  pose proof (parseHeader_class _ _ _ _ _ Hh) as Hc.
  set (w := is_num (buf_get data 4) 2) in *.
  assert (Hw5 : is64 r5 = w).
  { pose proof (frame_run _ _ _ _ (frame_parseHeader _ _) Hh) as (_ & W1 & _).
    pose proof (frame_run _ _ _ _ (frame_parseProgramHeaders _) Hph)
      as (_ & W2 & _).
    pose proof (frame_run _ _ _ _ (frame_parseSectionHeaders _) Hsh)
      as (_ & W3 & _).
    pose proof (frame_run _ _ _ _ (frame_parseSymbols _ _) Hsym)
      as (_ & W4 & _).
    pose proof (frame_run _ _ _ _ (frame_parseDynamic _ _ _ _) Hdyn)
      as (_ & W5 & _).
    simpl in W1. congruence. }
  unfold rel_indices_resolved. rewrite Hc. fold w.
  unfold parseRelocations in Hrel.
  apply mapM_Ok_inv in Hrel; [|intros sh; apply frame_relocationTable].
  eapply Forall2_impl; [|exact Hrel].
  intros sh t (ra & rb & (_ & Wa & _) & Hf).
  unfold relocationTable in Hf.
  apply bind_Ok_inv in Hf as (v & rc & E & Hf).
  unfold get_is64 in E. inversion E; subst v rc; clear E.
  cbv zeta in Hf.
  apply bind_Ok_inv in Hf as (l & rd & El & Hf).
  inversion Hf; subst t rb; clear Hf. simpl.
  apply count_loop_Ok_inv in El; [|intros i; apply frame_relEntry].
  eapply loop_ran_Forall; [|exact El].
  intros i e brk (rx & ry & (_ & Wx & _) & He). cbv beta.
  apply relEntry_symbol in He as [Hname Hinfo].
  assert (Wxw : is64 rx = w) by congruence.
  rewrite Wxw in Hname, Hinfo.
  split; [exact Hname|]. apply symIdx_bits. exact Hinfo.
Qed.

Lemma C5_symbol_index_is_high_bits_witness :
  exists m, fst (parseElf 4 rel32_elf) = Ok (Some m) /\
            rel_indices_resolved m.
Proof.
  eexists. split; [vm_compute; reflexivity|].
  apply (C5_symbol_index_is_high_bits 4 rel32_elf). vm_compute. reflexivity.
Defined.

(** ** More fuel changes nothing *)

Lemma fuel_mono_const {A} (m : M A) : fuel_mono (fun _ => m).
Proof. intros f f' r _ _. reflexivity. Qed.

Lemma fuel_mono_bind {A B} (m : nat -> M A) (k : nat -> A -> M B) :
  fuel_mono m -> (forall a, fuel_mono (fun f => k f a)) ->
  fuel_mono (fun f => bind (m f) (k f)).
Proof.
  intros Hm Hk f f' r Hle Hne. unfold bind in *.
  assert (Hm1 : fst (m f r) <> OutOfFuel).
  { destruct (m f r) as [[a|e|] r1]; simpl in *; congruence. }
  rewrite (Hm f f' r Hle Hm1).
  destruct (m f r) as [[a|e|] r1]; try reflexivity.
  apply (Hk a f f' r1 Hle Hne).
Qed.

Lemma fuel_mono_mapM {A B} (g : nat -> A -> M B) (l : list A) :
  (forall a, fuel_mono (fun f => g f a)) ->
  fuel_mono (fun f => mapM (g f) l).
Proof.
  intros Hg. induction l as [|a l IH]; simpl.
  - apply fuel_mono_const.
  - apply (fuel_mono_bind (fun f => g f a)
             (fun f b => bind (mapM (g f) l) (fun bs => ret (b :: bs))));
      [apply Hg|].
    intros b.
    apply (fuel_mono_bind (fun f => mapM (g f) l)
             (fun _ bs => ret (b :: bs))); [exact IH|].
    intros bs. apply fuel_mono_const.
Qed.

Lemma fuel_mono_count_loop {A} (count : spec_float) (body : Z -> M (A * bool))
    (i : Z) : fuel_mono (fun f => count_loop f count body i).
Proof.
  intros f. revert i. induction f as [|f IH]; intros i f' r Hle Hne.
  - simpl in Hne. destruct f'; simpl;
      destruct (JSNumber.ltb_float i count); simpl in *;
      try reflexivity; congruence.
  - destruct f' as [|f']; [lia|]. simpl in *.
    destruct (JSNumber.ltb_float i count); [|reflexivity].
    unfold bind in *.
    destruct (body i r) as [[[a brk]|e|] r1]; simpl in *; try reflexivity.
    destruct brk; [reflexivity|].
    assert (Hin : fst (count_loop f count body (JSNumber.add i 1) r1)
                  <> OutOfFuel).
    { destruct (count_loop f count body (JSNumber.add i 1) r1)
        as [[l|e|] r2]; simpl in *; congruence. }
    rewrite (IH _ f' r1 ltac:(lia) Hin). reflexivity.
Qed.

Lemma walkStrings_mono (data : Buffer) (hi : Z) (f : nat) :
  forall f' p,
    (f <= f')%nat -> walkStrings f data p hi <> OutOfFuel ->
    walkStrings f' data p hi = walkStrings f data p hi.
Proof.
  induction f as [|f IH]; intros f' p Hle H.
  - simpl in H. destruct (Z.ltb_spec p hi); [congruence|].
    rewrite !walkStrings_done by lia. reflexivity.
  - destruct f' as [|f']; [lia|]. simpl in *.
    destruct (p <? hi); [|reflexivity].
    destruct (readCString data p) as [s|e|]; try reflexivity.
    cbv zeta in *.
    set (next := JSNumber.add p (JSNumber.add (Z.of_nat (length s)) 1)) in *.
    assert (Hn : walkStrings f data next hi <> OutOfFuel).
    { destruct (walkStrings f data next hi);
        destruct (0 <? Z.of_nat (length s)); simpl in H; congruence. }
    rewrite (IH f' next ltac:(lia) Hn). reflexivity.
Qed.

Lemma fuel_mono_stringTable (sh : SectionHeader) :
  fuel_mono (fun f => bind get_buf (fun data => lift (stringTable f data sh))).
Proof.
  intros f f' r Hle Hne. unfold bind, get_buf, lift, stringTable in *.
  cbn [fst] in Hne.
  rewrite (walkStrings_mono _ _ f f' _ Hle); [reflexivity|].
  destruct (walkStrings f (buf r) _ _); cbn [result_map] in Hne; congruence.
Qed.

Lemma fuel_mono_parseDynamic (shs : list SectionHeader) :
  forall acc off, fuel_mono (fun f => parseDynamic f shs acc off).
Proof.
  induction shs as [|sh shs IH]; intros acc off; simpl.
  - apply fuel_mono_const.
  - destruct (sh_type sh =? 6); [|apply IH].
    apply (fuel_mono_bind (fun f => dynamicSection f sh)
             (fun f es => parseDynamic f shs (acc ++ es)
                            (JSNumber.Number (sh_offset sh)))).
    + unfold dynamicSection.
      apply (fuel_mono_bind (fun _ => get_is64)
               (fun f w => count_loop f _ _ 0)); [apply fuel_mono_const|].
      intros w. apply fuel_mono_count_loop.
    + intros es. apply IH.
Qed.

Lemma fuel_mono_parseBody (c d : option Z) : fuel_mono (fun f => parseBody f c d).
Proof.
  unfold parseBody.
  apply (fuel_mono_bind (fun _ => parseHeader c d)); [apply fuel_mono_const|].
  intros hdr.
  apply (fuel_mono_bind (fun _ => parseProgramHeaders hdr));
    [apply fuel_mono_const|].
  intros phs.
  apply (fuel_mono_bind (fun _ => parseSectionHeaders hdr));
    [apply fuel_mono_const|].
  intros shs0.
  apply (fuel_mono_bind (fun _ => get_buf)); [apply fuel_mono_const|].
  intros data.
  apply (fuel_mono_bind
           (fun _ => resolveSectionNames data (h_shstrndx hdr) shs0));
    [apply fuel_mono_const|].
  intros shs.
  apply (fuel_mono_bind (fun f => parseSymbols f shs)).
  { unfold parseSymbols. apply fuel_mono_mapM. intros sh.
    unfold symbolTable.
    apply (fuel_mono_bind (fun _ => get_is64)); [apply fuel_mono_const|].
    intros w. cbv zeta.
    apply (fuel_mono_bind (fun f => count_loop f _ _ 0));
      [apply fuel_mono_count_loop|].
    intros l. apply fuel_mono_const. }
  intros syms.
  apply (fuel_mono_bind (fun f => parseDynamic f shs [] 0));
    [apply fuel_mono_parseDynamic|].
  intros dyn.
  apply (fuel_mono_bind (fun f => parseRelocations f shs syms)).
  { unfold parseRelocations. apply fuel_mono_mapM. intros sh.
    unfold relocationTable.
    apply (fuel_mono_bind (fun _ => get_is64)); [apply fuel_mono_const|].
    intros w. cbv zeta.
    apply (fuel_mono_bind (fun f => count_loop f _ _ 0));
      [apply fuel_mono_count_loop|].
    intros l. apply fuel_mono_const. }
  intros rels.
  apply (fuel_mono_bind (fun f => parseStringTables f shs)).
  { unfold parseStringTables. apply fuel_mono_mapM. intros sh.
    apply fuel_mono_stringTable. }
  intros strs. apply fuel_mono_const.
Qed.

(** Once [parseElf] has answered with some fuel, it gives the same
    answer with any larger amount: the fuel only bounds the number of
    turns the loops are followed for. *)
Lemma parseElf_fuel_mono (f f' : nat) (data : Buffer) :
  (f <= f')%nat -> fst (parseElf f data) <> OutOfFuel ->
  parseElf f' data = parseElf f data.
Proof.
  intros Hle Hne. unfold parseElf in *.
  destruct (buf_length data <? 52); [reflexivity|].
  destruct (bad_magic data); [reflexivity|].
  match goal with |- context [parseBody f' ?c ?d ?r] =>
    assert (Hb : fst (parseBody f c d r) <> OutOfFuel);
    [destruct (parseBody f c d r) as [[m|e|] r1]; simpl in *; congruence|];
    rewrite (fuel_mono_parseBody c d f f' r Hle Hb) end.
  reflexivity.
Qed.

(** ** Evaluations on the sample files *)

(** C4.  A one-byte read with the cursor at the end of the buffer does
    not fail: [u8] gives [undefined] and still moves the cursor, to a
    position past the end, where the two-byte read of the same reader
    raises [RangeError] and leaves the cursor alone. *)
Theorem C4_u8_past_end_is_silent :
  let r := mkReader [x01; x02; x03; x04] false true 4 in
  Rd.u8 r = (Ok None, set_pos r 5) /\
  Rd.u16 r = (Throw RangeError, r).
Proof. split; reflexivity. Qed.

(** C3 (counterexample).  The second of two declared program headers is
    cut short by the end of the buffer: the parser raises [RangeError]
    and returns no model, instead of skipping the entry and going on. *)
Lemma C3_truncated_entry_aborts :
  fst (parseElf 0 truncated_phdr_elf) = Throw RangeError.
Proof. vm_compute. reflexivity. Qed.

(** C5 (counterexample).  A 32-bit relocation entry with [info] =
    0x00000102 resolves to symbol 1 (named a), the value of [info >> 8],
    and not to symbol 2 (named b), which is what the low-order byte of
    [info] designates. *)
Lemma C5_rel32_index_is_not_low_byte :
  exists m st rt s1 s2 e,
    fst (parseElf 4 rel32_elf) = Ok (Some m) /\
    h_class (header m) = Some 1 /\
    symbols m = [st] /\ nth_error (entries st) 1 = Some s1 /\
    nth_error (entries st) 2 = Some s2 /\
    sym_name s1 = js "a" /\ sym_name s2 = js "b" /\
    relocations m = [rt] /\ entries rt = [e] /\
    rel_info e = 258 /\ Z.land (rel_info e) 255 = 2 /\
    symIdx false (rel_info e) = 1 /\
    rel_symbolName e = Some (js "a").
Proof.
  do 6 eexists. split; [vm_compute; reflexivity|].
  repeat split.
Qed.


(** C9 (counterexample).  A STRTAB section that spans the bytes from
    100 to 120 and begins with abc, NUL, NUL, de, NUL, in a file that
    goes on with xy and NUL padding: three entries are decoded, not two,
    the third one being xy at offset 108 with byte length 3. *)
Lemma C9_strtab_third_entry :
  exists m sh t,
    fst (parseElf 15 tail_strtab_elf) = Ok (Some m) /\
    sectionHeaders m = [sh] /\ sh_type sh = 3 /\
    sh_offset sh = 100 /\ sh_size sh = 20 /\
    firstn 8 (skipn 100 tail_strtab_elf) = strtab_begin /\
    stringTables m = [t] /\
    entries t = [mkStringEntry (js "abc") 100 4;
                 mkStringEntry (js "de") 105 3;
                 mkStringEntry (js "xy") 108 3].
Proof.
  do 3 eexists. split; [vm_compute; reflexivity|].
  repeat split.
Qed.

(** C7.  A SYMTAB section of declared size 17 with 16-byte entries: the
    truncating quotient is 1, yet the parser decodes two symbols, the
    second one from the 16 bytes that follow the first, almost all of
    them outside the section. *)
Theorem C7_ragged_symtab_decodes_two (fuel : nat) :
  exists m sh t,
    fst (parseElf (2 + fuel) ragged_symtab_elf) = Ok (Some m) /\
    sectionHeaders m = [sh] /\ sh_type sh = 2 /\
    sh_size sh = 17 /\ symEntSize false sh = 16 /\
    sh_size sh / symEntSize false sh = 1 /\
    symbols m = [t] /\ length (entries t) = 2%nat /\
    map sym_fileOffset (entries t) = [92; 108].
Proof.
  assert (E : parseElf (2 + fuel) ragged_symtab_elf =
              parseElf 2 ragged_symtab_elf)
    by (apply parseElf_fuel_mono; [lia|vm_compute; discriminate]).
  rewrite E. do 3 eexists. split; [vm_compute; reflexivity|].
  repeat split.
Qed.

(** C8.  A DYNAMIC section of declared size 12 with 8-byte entries and
    no terminator: the truncating quotient is 1 and the section ends at
    offset 104, yet the parser enumerates two entries, the second one
    spanning the bytes from 100 to 108. *)
Theorem C8_ragged_dynamic_enumerates_two (fuel : nat) :
  exists m sh,
    fst (parseElf (2 + fuel) ragged_dynamic_elf) = Ok (Some m) /\
    sectionHeaders m = [sh] /\ sh_type sh = 6 /\
    sh_offset sh = 92 /\ sh_size sh = 12 /\ dynEntSize false sh = 8 /\
    sh_size sh / dynEntSize false sh = 1 /\
    map dyn_tag (dynamicEntries m) = [1; 14] /\
    map dyn_fileOffset (dynamicEntries m) = [92; 100].
Proof.
  assert (E : parseElf (2 + fuel) ragged_dynamic_elf =
              parseElf 2 ragged_dynamic_elf)
    by (apply parseElf_fuel_mono; [lia|vm_compute; discriminate]).
  rewrite E. do 2 eexists. split; [vm_compute; reflexivity|].
  repeat split.
Qed.

(** * Properties of the rest of the code *)

(** ** What a successful read says about the value *)

Lemma reads_as_from (d : Buffer) (w le : bool) (r : Reader) :
  reads_as d w le r -> reads_from d w r.
Proof. intros (A & B & _). split; assumption. Qed.

Lemma reads_as_same (d : Buffer) (w le : bool) (r r' : Reader) :
  reads_as d w le r -> same_buffer r r' -> reads_as d w le r'.
Proof.
  unfold reads_as, same_buffer. intros (A & B & C) (D & E & F).
  repeat split; congruence.
Qed.

Lemma seek_value (d : Buffer) (w le : bool) (p : Z) (r r' : Reader) (u : unit) :
  reads_as d w le r -> Rd.seek p r = (Ok u, r') ->
  reads_as d w le r' /\ pos r' = p.
Proof.
  intros (Hb & Hw & Hl) H. unfold Rd.seek in H. inversion H; subst r'.
  repeat split; assumption.
Qed.

Lemma get_is64_value (d : Buffer) (w le : bool) (r r' : Reader) (v : bool) :
  reads_as d w le r -> get_is64 r = (Ok v, r') -> r' = r /\ v = w.
Proof.
  intros (Hb & Hw & Hl) H. unfold get_is64 in H. inversion H.
  split; congruence.
Qed.

Lemma get_buf_value (d : Buffer) (w le : bool) (r r' : Reader) (v : Buffer) :
  reads_as d w le r -> get_buf r = (Ok v, r') -> r' = r /\ v = d.
Proof.
  intros (Hb & Hw & Hl) H. unfold get_buf in H. inversion H.
  split; congruence.
Qed.

Lemma u8_value (d : Buffer) (w le : bool) (r r' : Reader) (v : option Z) :
  reads_as d w le r -> buf_length d < 9007199254740992 ->
  Rd.u8 r = (Ok v, r') ->
  reads_as d w le r' /\
  (0 <= pos r -> 0 <= pos r') /\
  (0 <= pos r -> pos r' <= buf_length d -> pos r' = pos r + 1) /\
  v = buf_get d (pos r) /\
  pos r' = JSNumber.add (pos r) 1.
Proof.
  intros Ha Hlen H.
  destruct (u8_facts d w r r' v (reads_as_from _ _ _ _ Ha) Hlen H)
    as (_ & A & B).
  destruct Ha as (Hb & Hw & Hl).
  unfold Rd.u8 in H. inversion H; subst r' v. simpl in *.
  split; [repeat split; assumption|]. split; [exact A|].
  split; [exact B|]. rewrite Hb. split; reflexivity.
Qed.

Lemma read_n_value (n : nat) (conv : Z -> Z) (d : Buffer) (w le : bool)
    (r r' : Reader) (v : Z) :
  reads_as d w le r -> buf_length d < 9007199254740992 ->
  Rd.read_n n conv r = (Ok v, r') ->
  reads_as d w le r' /\ 0 <= pos r /\
  pos r + Z.of_nat n <= buf_length d /\ pos r' = pos r + Z.of_nat n /\
  v = conv (field d le (pos r) n).
Proof.
  intros Ha Hlen H.
  destruct (read_n_facts n conv d w r r' v (reads_as_from _ _ _ _ Ha) Hlen H)
    as (_ & A & B & C & D).
  destruct Ha as (Hb & Hw & Hl).
  apply read_n_Ok_inv in H as (_ & _ & ->). simpl in *.
  split; [repeat split; assumption|]. split; [exact A|].
  split; [exact B|]. split; [exact C|]. rewrite <- Hl. exact D.
Qed.

Lemma u16_value (d : Buffer) (w le : bool) (r r' : Reader) (v : Z) :
  reads_as d w le r -> buf_length d < 9007199254740992 ->
  Rd.u16 r = (Ok v, r') ->
  reads_as d w le r' /\ 0 <= pos r /\
  pos r + 2 <= buf_length d /\ pos r' = pos r + 2 /\
  v = field d le (pos r) 2.
Proof. intros Ha Hlen H. exact (read_n_value 2 _ d w le r r' v Ha Hlen H). Qed.

Lemma u32_value (d : Buffer) (w le : bool) (r r' : Reader) (v : Z) :
  reads_as d w le r -> buf_length d < 9007199254740992 ->
  Rd.u32 r = (Ok v, r') ->
  reads_as d w le r' /\ 0 <= pos r /\
  pos r + 4 <= buf_length d /\ pos r' = pos r + 4 /\
  v = field d le (pos r) 4.
Proof. intros Ha Hlen H. exact (read_n_value 4 _ d w le r r' v Ha Hlen H). Qed.

Lemma addr_value (d : Buffer) (w le : bool) (r r' : Reader) (v : Z) :
  reads_as d w le r -> buf_length d < 9007199254740992 ->
  Rd.addr r = (Ok v, r') ->
  reads_as d w le r' /\ 0 <= pos r /\
  pos r + wordSize w <= buf_length d /\ pos r' = pos r + wordSize w /\
  v = field d le (pos r) (Z.to_nat (wordSize w)).
Proof.
  intros Ha Hlen H. unfold Rd.addr in H.
  pose proof Ha as (Hb & Hw & Hl). rewrite Hw in H. destruct w.
  - exact (read_n_value 8 _ d true le r r' v Ha Hlen H).
  - exact (read_n_value 4 _ d false le r r' v Ha Hlen H).
Qed.

Lemma sxword_value (d : Buffer) (w le : bool) (r r' : Reader) (v : Z) :
  reads_as d w le r -> buf_length d < 9007199254740992 ->
  Rd.sxword r = (Ok v, r') ->
  reads_as d w le r' /\ 0 <= pos r /\
  pos r + wordSize w <= buf_length d /\ pos r' = pos r + wordSize w /\
  v = to_signed (8 * wordSize w) (field d le (pos r) (Z.to_nat (wordSize w))).
Proof.
  intros Ha Hlen H. unfold Rd.sxword in H.
  pose proof Ha as (Hb & Hw & Hl). rewrite Hw in H. destruct w.
  - exact (read_n_value 8 _ d true le r r' v Ha Hlen H).
  - exact (read_n_value 4 _ d false le r r' v Ha Hlen H).
Qed.

(** Turning the equations of a chain of reads into facts about the
    cursor and the values read. *)
Ltac vals_inv Hlen :=
  unfold Rd.off, Rd.xword in *;
  repeat match goal with
  | H : Rd.seek _ ?r = (Ok _, _), Ha : reads_as _ _ _ ?r |- _ =>
      apply (seek_value _ _ _ _ _ _ _ Ha) in H; destruct H as (? & ?)
  | H : get_is64 ?r = (Ok _, _), Ha : reads_as _ _ _ ?r |- _ =>
      apply (get_is64_value _ _ _ _ _ _ Ha) in H; destruct H as (? & ?); subst
  | H : get_buf ?r = (Ok _, _), Ha : reads_as _ _ _ ?r |- _ =>
      apply (get_buf_value _ _ _ _ _ _ Ha) in H; destruct H as (? & ?); subst
  | H : ret _ ?r = (Ok _, _) |- _ =>
      unfold ret in H; inversion H; subst; clear H
  | H : Rd.u8 ?r = (Ok _, _), Ha : reads_as _ _ _ ?r |- _ =>
      apply (u8_value _ _ _ _ _ _ Ha Hlen) in H;
      destruct H as (? & ? & ? & ? & ?)
  | H : Rd.u16 ?r = (Ok _, _), Ha : reads_as _ _ _ ?r |- _ =>
      apply (u16_value _ _ _ _ _ _ Ha Hlen) in H;
      destruct H as (? & ? & ? & ? & ?)
  | H : Rd.u32 ?r = (Ok _, _), Ha : reads_as _ _ _ ?r |- _ =>
      apply (u32_value _ _ _ _ _ _ Ha Hlen) in H;
      destruct H as (? & ? & ? & ? & ?)
  | H : Rd.addr ?r = (Ok _, _), Ha : reads_as _ _ _ ?r |- _ =>
      apply (addr_value _ _ _ _ _ _ Ha Hlen) in H;
      destruct H as (? & ? & ? & ? & ?)
  | H : Rd.sxword ?r = (Ok _, _), Ha : reads_as _ _ _ ?r |- _ =>
      apply (sxword_value _ _ _ _ _ _ Ha Hlen) in H;
      destruct H as (? & ? & ? & ? & ?)
  end.

(** A field read at the cursor is the field of the span the tree shows,
    once the two offsets are known to agree. *)
Lemma field_at_span (d : Buffer) (le : bool) (p q : Z) (n : nat) (s : Z) :
  p = q -> Z.of_nat n = s -> field d le p n = reread d le (q, s).
Proof.
  intros -> <-. unfold reread. simpl. rewrite Nat2Z.id. reflexivity.
Qed.

(** ** The tree spans point at the bytes the parser decoded *)

(** Closing a goal [v = reread d le (JSNumber.add p k, s)] where [v] is a
    field read at a cursor known to be [p + k]. *)
Ltac span_eq :=
  subst; unfold reread_signed, reread; cbn [fst snd wordSize];
  repeat match goal with
  | |- context [JSNumber.add ?a ?b] =>
      rewrite (JSNumberFacts.add_small a b) by lia
  end;
  try reflexivity;
  repeat (f_equal; try lia).

Lemma programHeader_values (d : Buffer) (w le : bool) (phoff phentsize i : Z)
    (r r' : Reader) (ph : ProgramHeader) :
  reads_as d w le r -> buf_length d < 9007199254740992 ->
  programHeader phoff phentsize i r = (Ok ph, r') ->
  let sp := phSpans w (entry_pos (JSNumber.Number phoff) phentsize i) in
  ph_type ph = reread d le (phs_type sp) /\
  ph_flags ph = reread d le (phs_flags sp) /\
  ph_offset ph = reread d le (phs_offset sp) /\
  ph_vaddr ph = reread d le (phs_vaddr sp) /\
  ph_paddr ph = reread d le (phs_paddr sp) /\
  ph_filesz ph = reread d le (phs_filesz sp) /\
  ph_memsz ph = reread d le (phs_memsz sp) /\
  ph_align ph = reread d le (phs_align sp).
Proof.
  intros Ha Hlen H. unfold programHeader in H.
  binds_inv H. vals_inv Hlen.
  unfold entry_pos in *.
  destruct w; vals_inv Hlen; cbn [phSpans wordSize] in *; simpl;
    repeat split; span_eq.
Qed.

Lemma sectionHeader_values (d : Buffer) (w le : bool) (shoff shentsize i : Z)
    (r r' : Reader) (sh : SectionHeader) :
  reads_as d w le r -> buf_length d < 9007199254740992 ->
  sectionHeader shoff shentsize i r = (Ok sh, r') ->
  let sp := shSpans w (entry_pos (JSNumber.Number shoff) shentsize i) in
  sh_nameIdx sh = reread d le (shs_name sp) /\
  sh_type sh = reread d le (shs_type sp) /\
  sh_flags sh = reread d le (shs_flags sp) /\
  sh_addr sh = reread d le (shs_addr sp) /\
  sh_offset sh = reread d le (shs_offset sp) /\
  sh_size sh = reread d le (shs_size sp) /\
  sh_link sh = reread d le (shs_link sp) /\
  sh_info sh = reread d le (shs_info sp) /\
  sh_addralign sh = reread d le (shs_addralign sp) /\
  sh_entsize sh = reread d le (shs_entsize sp) /\
  sh_name sh = [].
Proof.
  intros Ha Hlen H. unfold sectionHeader in H.
  binds_inv H. vals_inv Hlen.
  unfold entry_pos in *.
  destruct w; cbn [shSpans wordSize] in *; simpl;
    repeat split; span_eq.
Qed.

Lemma buf_get_field (d : Buffer) (le : bool) (p : Z) :
  0 <= p -> p + 1 <= buf_length d ->
  buf_get d p = Some (field d le p 1).
Proof.
  intros H0 H1. unfold buf_get, field, buf_length in *.
  destruct (Z.ltb_spec p 0); [lia|].
  destruct (nth_error d (Z.to_nat p)) as [b|] eqn:E.
  - apply nth_error_split in E as (l1 & l2 & -> & Hl).
    rewrite <- Hl, skipn_app, Nat.sub_diag, skipn_all. simpl.
    destruct le; unfold be_value; simpl; f_equal; lia.
  - apply nth_error_None in E. lia.
Qed.

Lemma symbol_values (d : Buffer) (w le : bool) (secOff entSize : Z)
    (strSec : option SectionHeader) (strOff i : Z)
    (r r' : Reader) (s : ElfSymbol) (brk : bool) :
  reads_as d w le r -> buf_length d < 9007199254740992 ->
  symbol secOff entSize strSec strOff i r = (Ok (s, brk), r') ->
  let sp := symSpans w (sym_fileOffset s) in
  sym_nameIdx s = reread d le (sys_name sp) /\
  sym_info s = Some (reread d le (sys_info sp)) /\
  sym_other s = Some (reread d le (sys_other sp)) /\
  sym_shndx s = reread d le (sys_shndx sp) /\
  sym_value s = reread d le (sys_value sp) /\
  sym_size s = reread d le (sys_size sp) /\
  sym_entSize s = entSize /\
  match strSec with
  | Some _ =>
      readCString d (JSNumber.add strOff (sym_nameIdx s)) = Ok (sym_name s)
  | None => sym_name s = []
  end.
Proof.
  intros Ha Hlen H. unfold symbol in H.
  binds_inv H. name_inv H; vals_inv Hlen;
  match goal with E : (if ?b then _ else _) _ = _ |- _ =>
    destruct b; binds_inv E end;
    vals_inv Hlen; cbn [symSpans wordSize sym_nameIdx] in *;
    simpl;
    repeat match goal with
    | |- _ /\ _ => split
    | |- buf_get ?d ?p = Some _ =>
        rewrite (buf_get_field d le p) by lia; f_equal
    | |- readCString _ _ = Ok _ => assumption
    end; span_eq.
Qed.

Lemma dynEntry_values (d : Buffer) (w le : bool) (secOff entSize i : Z)
    (r r' : Reader) (e : DynEntry) (brk : bool) :
  reads_as d w le r -> buf_length d < 9007199254740992 ->
  dynEntry secOff entSize i r = (Ok (e, brk), r') ->
  let sp := dynSpans w (dyn_fileOffset e) in
  dyn_tag e = reread_signed d le (dys_tag sp) /\
  dyn_val e = reread d le (dys_val sp) /\
  dyn_entSize e = entSize.
Proof.
  intros Ha Hlen H. unfold dynEntry in H.
  binds_inv H. vals_inv Hlen.
  destruct w; cbn [dynSpans wordSize] in *; simpl;
    repeat split; span_eq.
Qed.

Lemma relEntry_values (d : Buffer) (w le : bool) (isRela : bool)
    (secOff entSize : Z) (syms : option (list ElfSymbol)) (i : Z)
    (r r' : Reader) (e : RelEntry) (brk : bool) :
  reads_as d w le r -> buf_length d < 9007199254740992 ->
  relEntry isRela secOff entSize syms i r = (Ok (e, brk), r') ->
  let sp := relSpans w isRela (rel_fileOffset e) in
  rel_offset e = reread d le (res_offset sp) /\
  rel_info e = reread d le (res_info sp) /\
  rel_addend e = option_map (reread_signed d le) (res_addend sp) /\
  rel_entSize e = entSize.
Proof.
  intros Ha Hlen H. unfold relEntry in H.
  binds_inv H. vals_inv Hlen.
  destruct isRela.
  - match goal with E : bind _ _ _ = _ |- _ => binds_inv E end.
    vals_inv Hlen.
    destruct w; cbn [relSpans wordSize] in *; simpl;
      repeat split; span_eq.
  - vals_inv Hlen.
    destruct w; cbn [relSpans wordSize] in *; simpl;
      repeat split; span_eq.
Qed.

Lemma Forall2_nth_error {A B} (R : A -> B -> Prop) (l : list A) (l' : list B) :
  Forall2 R l l' ->
  forall i b, nth_error l' i = Some b ->
              exists a, nth_error l i = Some a /\ R a b.
Proof.
  induction 1 as [|a b l l' Hab H IH]; intros i y Hi.
  - destruct i; discriminate.
  - destruct i as [|i]; simpl in *.
    + inversion Hi; subst. exists a. split; [reflexivity|assumption].
    + exact (IH i y Hi).
Qed.

Lemma indices_nth (n : Z) (i : nat) (x : Z) :
  nth_error (indices n) i = Some x -> x = Z.of_nat i.
Proof.
  unfold indices. intros H.
  rewrite nth_error_map in H.
  destruct (nth_error (seq 0 (Z.to_nat n)) i) as [k|] eqn:E; [|discriminate].
  simpl in H. inversion H.
  assert (Hi : (i < length (seq 0 (Z.to_nat n)))%nat)
    by (apply nth_error_Some; congruence).
  rewrite length_seq in Hi.
  rewrite (nth_error_nth' _ 0%nat) in E by (rewrite length_seq; exact Hi).
  rewrite seq_nth in E by exact Hi. inversion E. reflexivity.
Qed.

(** ** The stages of a successful parse *)

Lemma parseElf_stages (fuel : nat) (data : Buffer) (m : ElfFile) :
  fst (parseElf fuel data) = Ok (Some m) ->
  let w := treeIs64 (header m) in
  let le := readLE (header m) in
  52 <= buf_length data /\
  h_class (header m) = buf_get data 4 /\
  h_data (header m) = buf_get data 5 /\
  exists r0 r1 r2 r3 r4 r5 r6 r7 shs0,
    reads_as data w le r0 /\ reads_as data w le r1 /\
    reads_as data w le r2 /\ reads_as data w le r3 /\
    reads_as data w le r4 /\ reads_as data w le r5 /\
    reads_as data w le r6 /\
    parseHeader (buf_get data 4) (buf_get data 5) r0 = (Ok (header m), r1) /\
    parseProgramHeaders (header m) r1 = (Ok (programHeaders m), r2) /\
    parseSectionHeaders (header m) r2 = (Ok shs0, r3) /\
    resolveSectionNames data (h_shstrndx (header m)) shs0 r3 =
      (Ok (sectionHeaders m), r3) /\
    parseSymbols fuel (sectionHeaders m) r3 = (Ok (symbols m), r4) /\
    parseDynamic fuel (sectionHeaders m) [] 0 r4 =
      (Ok (dynamicEntries m, dynamicSectionOffset m), r5) /\
    parseRelocations fuel (sectionHeaders m) (symbols m) r5 =
      (Ok (relocations m), r6) /\
    parseStringTables fuel (sectionHeaders m) r6 = (Ok (stringTables m), r7).
Proof.
  intros Hm w le.
  apply parseElf_Some_inv in Hm as (H52 & Hmagic & r' & Hb).
  apply parseBody_inv in Hb
    as (r1 & r2 & r3 & r4 & r5 & r6 & shs0 &
        Hh & Hph & Hsh & Hnames & Hsym & Hdyn & Hrel & Hstr).
  assert (Hcd : h_class (header m) = buf_get data 4 /\
                h_data (header m) = buf_get data 5).
  { clear - Hh. unfold parseHeader in Hh. binds_inv Hh.
    inversion Hh. split; reflexivity. }
  destruct Hcd as [Hc Hd].
  assert (Ew : is_num (buf_get data 4) 2 = w)
    by (unfold w, treeIs64; rewrite Hc; reflexivity).
  assert (El : is_num (buf_get data 5) 1 = le)
    by (unfold le, readLE; rewrite Hd; reflexivity).
  rewrite Ew, El in Hh.
  assert (A0 : reads_as data w le (mkReader data w le 0))
    by (repeat split).
  pose proof (reads_as_same _ _ _ _ _ A0
                (frame_run _ _ _ _ (frame_parseHeader _ _) Hh)) as A1.
  pose proof (reads_as_same _ _ _ _ _ A1
                (frame_run _ _ _ _ (frame_parseProgramHeaders _) Hph)) as A2.
  pose proof (reads_as_same _ _ _ _ _ A2
                (frame_run _ _ _ _ (frame_parseSectionHeaders _) Hsh)) as A3.
  pose proof (reads_as_same _ _ _ _ _ A3
                (frame_run _ _ _ _ (frame_parseSymbols _ _) Hsym)) as A4.
  pose proof (reads_as_same _ _ _ _ _ A4
                (frame_run _ _ _ _ (frame_parseDynamic _ _ _ _) Hdyn)) as A5.
  pose proof (reads_as_same _ _ _ _ _ A5
                (frame_run _ _ _ _ (frame_parseRelocations _ _ _) Hrel)) as A6.
  split; [exact H52|]. split; [exact Hc|]. split; [exact Hd|].
  exists (mkReader data w le 0), r1, r2, r3, r4, r5, r6, r', shs0.
  pose proof A3 as (B3 & _ & _).
  rewrite B3 in Hnames.
  repeat match goal with |- _ /\ _ => split end; assumption.
Qed.

Lemma parseHeader_values (d : Buffer) (w le : bool) (c dd : option Z)
    (r r' : Reader) (h : ElfHeader) :
  reads_as d w le r -> buf_length d < 9007199254740992 ->
  52 <= buf_length d ->
  parseHeader c dd r = (Ok h, r') ->
  let sp := headerSpans w in
  h_class h = c /\ h_data h = dd /\
  h_version h = buf_get d 6 /\
  h_osabi h = Some (reread d le (hs_osabi sp)) /\
  h_type h = reread d le (hs_type sp) /\
  h_machine h = reread d le (hs_machine sp) /\
  h_entry h = reread d le (hs_entry sp) /\
  h_phoff h = reread d le (hs_phoff sp) /\
  h_shoff h = reread d le (hs_shoff sp) /\
  h_flags h = reread d le (hs_flags sp) /\
  h_ehsize h = reread d le (hs_ehsize sp) /\
  h_phentsize h = reread d le (hs_phentsize sp) /\
  h_phnum h = reread d le (hs_phnum sp) /\
  h_shentsize h = reread d le (hs_shentsize sp) /\
  h_shnum h = reread d le (hs_shnum sp) /\
  h_shstrndx h = reread d le (hs_shstrndx sp).
Proof.
  intros Ha Hlen H52 H. unfold parseHeader in H.
  binds_inv H. vals_inv Hlen.
  repeat match goal with
  | E : pos ?a = ?k, E' : pos ?b = JSNumber.add (pos ?a) 1 |- _ =>
      rewrite E in E'; rewrite JSNumberFacts.add_small in E' by lia
  end.
  destruct w; cbn [headerSpans wordSize] in *; simpl; subst;
    repeat match goal with
    | |- _ /\ _ => split
    | |- buf_get ?d ?p = Some _ =>
        rewrite (buf_get_field d le p) by lia; f_equal
    end; span_eq.
Qed.

Lemma Forall2_right {A B} (R : A -> B -> Prop) (Q : B -> Prop)
    (l : list A) (l' : list B) :
  (forall a b, In a l -> R a b -> Q b) -> Forall2 R l l' -> Forall Q l'.
Proof.
  intros HRQ H. induction H as [|a b l l' Hab H IH]; constructor.
  - apply (HRQ a b); [left; reflexivity|exact Hab].
  - apply IH. intros a' b' Hin. apply HRQ. right. exact Hin.
Qed.

Lemma set_sh_name_same (sh : SectionHeader) : set_sh_name sh (sh_name sh) = sh.
Proof. destruct sh. reflexivity. Qed.

(** Resolving the names leaves every section header in its place and
    touches nothing but its name. *)
Lemma resolveSectionNames_nth (data : Buffer) (idx : Z)
    (shs0 shs : list SectionHeader) (r r' : Reader) (i : nat)
    (sh : SectionHeader) :
  resolveSectionNames data idx shs0 r = (Ok shs, r') ->
  nth_error shs i = Some sh ->
  exists sh0, nth_error shs0 i = Some sh0 /\
              sh = set_sh_name sh0 (sh_name sh).
Proof.
  intros Hn H.
  apply resolveSectionNames_inv in Hn as [(_ & strtab & _ & HF)|[_ ->]].
  - destruct (Forall2_nth_error _ _ _ HF i sh H)
      as (sh0 & E0 & name & _ & ->).
    exists sh0. split; [exact E0|]. reflexivity.
  - exists sh. split; [exact H|].
    symmetry. apply set_sh_name_same.
Qed.

(** ** The spans of the tree, for a whole model *)

(** X1.  In every model the parser returns, each field of the ELF
    header that the tree shows (class, encoding, OS/ABI, type, machine,
    entry point, the two table offsets, flags, header size, and the
    entry sizes, counts and string index) is the value of the bytes at
    the offset and size the tree gives its item, read in the byte order
    of the file; this holds for the 32-bit and the 64-bit layout. *)
Theorem header_items_show_their_bytes (fuel : nat) (data : Buffer)
    (m : ElfFile) :
  safe_length data ->
  fst (parseElf fuel data) = Ok (Some m) ->
  header_at_spans data (header m).
Proof.
  intros Hlen Hm.
  destruct (parseElf_stages fuel data m Hm)
    as (H52 & Hc & Hd & r0 & r1 & r2 & r3 & r4 & r5 & r6 & r7 & shs0 &
        A0 & A1 & A2 & A3 & A4 & A5 & A6 &
        Hh & Hph & Hsh & Hnames & Hsym & Hdyn & Hrel & Hstr).
  destruct (parseHeader_values _ _ _ _ _ _ _ _ A0 Hlen H52 Hh)
    as (_ & _ & _ & Hrest).
  unfold header_at_spans. cbv zeta.
  split; [|split; [|exact Hrest]].
  - rewrite Hc. rewrite (buf_get_field data (readLE (header m)) 4) by lia.
    destruct (treeIs64 (header m)); reflexivity.
  - rewrite Hd. rewrite (buf_get_field data (readLE (header m)) 5) by lia.
    destruct (treeIs64 (header m)); reflexivity.
Qed.

Lemma header_items_show_their_bytes_witness :
  exists m, fst (parseElf 8 full64_elf) = Ok (Some m) /\
            header_at_spans full64_elf (header m).
Proof.
  eexists. split; [vm_compute; reflexivity|].
  apply (header_items_show_their_bytes 8 full64_elf);
    vm_compute; reflexivity.
Defined.

(** X2.  In every model the parser returns, each field of the program
    header at index [i] is the value of the bytes at the span the tree
    gives its item, counted from [phoff + i * phentsize] in the layout
    of the file's width: for a 32-bit file the flags sit at +24, for a
    64-bit file at +4. *)
Theorem program_header_items_show_their_bytes (fuel : nat) (data : Buffer)
    (m : ElfFile) (i : nat) (ph : ProgramHeader) :
  safe_length data ->
  fst (parseElf fuel data) = Ok (Some m) ->
  nth_error (programHeaders m) i = Some ph ->
  ph_at_spans data (header m) (Z.of_nat i) ph.
Proof.
  intros Hlen Hm Hi.
  destruct (parseElf_stages fuel data m Hm)
    as (H52 & Hc & Hd & r0 & r1 & r2 & r3 & r4 & r5 & r6 & r7 & shs0 &
        A0 & A1 & A2 & A3 & A4 & A5 & A6 &
        Hh & Hph & Hsh & Hnames & Hsym & Hdyn & Hrel & Hstr).
  unfold parseProgramHeaders in Hph.
  apply mapM_Ok_inv in Hph; [|intros k; apply frame_programHeader].
  destruct (Forall2_nth_error _ _ _ Hph i ph Hi)
    as (k & Hk & ra & rb & Hs & Hf).
  apply indices_nth in Hk. subst k.
  exact (programHeader_values _ _ _ _ _ _ _ _ _
           (reads_as_same _ _ _ _ _ A1 Hs) Hlen Hf).
Qed.

Lemma program_header_items_show_their_bytes_witness :
  exists m ph, fst (parseElf 8 full64_elf) = Ok (Some m) /\
               nth_error (programHeaders m) 0 = Some ph /\
               ph_at_spans full64_elf (header m) 0 ph.
Proof.
  eexists. eexists. split; [vm_compute; reflexivity|].
  split; [reflexivity|].
  apply (program_header_items_show_their_bytes 8 full64_elf _ 0%nat);
    vm_compute; reflexivity.
Defined.

(** X3.  In every model the parser returns, each numeric field of the
    section header at index [i] is the value of the bytes at the span
    the tree gives its item, counted from [shoff + i * shentsize];
    resolving the section names changes none of them. *)
Theorem section_header_items_show_their_bytes (fuel : nat) (data : Buffer)
    (m : ElfFile) (i : nat) (sh : SectionHeader) :
  safe_length data ->
  fst (parseElf fuel data) = Ok (Some m) ->
  nth_error (sectionHeaders m) i = Some sh ->
  sh_at_spans data (header m) (Z.of_nat i) sh.
Proof.
  intros Hlen Hm Hi.
  destruct (parseElf_stages fuel data m Hm)
    as (H52 & Hc & Hd & r0 & r1 & r2 & r3 & r4 & r5 & r6 & r7 & shs0 &
        A0 & A1 & A2 & A3 & A4 & A5 & A6 &
        Hh & Hph & Hsh & Hnames & Hsym & Hdyn & Hrel & Hstr).
  destruct (resolveSectionNames_nth _ _ _ _ _ _ i sh Hnames Hi)
    as (sh0 & Hi0 & Esh).
  unfold parseSectionHeaders in Hsh.
  apply mapM_Ok_inv in Hsh; [|intros k; apply frame_sectionHeader].
  destruct (Forall2_nth_error _ _ _ Hsh i sh0 Hi0)
    as (k & Hk & ra & rb & Hs & Hf).
  apply indices_nth in Hk. subst k.
  pose proof (sectionHeader_values _ _ _ _ _ _ _ _ _
                (reads_as_same _ _ _ _ _ A2 Hs) Hlen Hf) as Hv.
  cbv zeta in Hv.
  destruct Hv as (V1 & V2 & V3 & V4 & V5 & V6 & V7 & V8 & V9 & V10 & _).
  rewrite Esh. unfold sh_at_spans. cbv zeta.
  destruct sh0; simpl in *.
  repeat split; assumption.
Qed.

Lemma section_header_items_show_their_bytes_witness :
  exists m sh, fst (parseElf 8 full64_elf) = Ok (Some m) /\
               nth_error (sectionHeaders m) 2 = Some sh /\
               sh_at_spans full64_elf (header m) 2 sh.
Proof.
  eexists. eexists. split; [vm_compute; reflexivity|].
  split; [reflexivity|].
  apply (section_header_items_show_their_bytes 8 full64_elf _ 2%nat);
    vm_compute; reflexivity.
Defined.

Lemma symbolTable_values (d : Buffer) (w le : bool) (fuel : nat)
    (shs : list SectionHeader) (sh : SectionHeader) (r r' : Reader)
    (t : Table ElfSymbol) :
  reads_as d w le r -> buf_length d < 9007199254740992 ->
  symbolTable fuel shs sh r = (Ok t, r') ->
  section t = str_or (sh_name sh)
                (if sh_type sh =? 2 then js ".symtab" else js ".dynsym") /\
  sectionOffset t = JSNumber.Number (sh_offset sh) /\
  Forall (fun s =>
            let sp := symSpans w (sym_fileOffset s) in
            sym_nameIdx s = reread d le (sys_name sp) /\
            sym_info s = Some (reread d le (sys_info sp)) /\
            sym_other s = Some (reread d le (sys_other sp)) /\
            sym_shndx s = reread d le (sys_shndx sp) /\
            sym_value s = reread d le (sys_value sp) /\
            sym_size s = reread d le (sys_size sp) /\
            sym_entSize s = symEntSize w sh /\
            match linked_section shs sh with
            | Some sec =>
                readCString d (JSNumber.add (JSNumber.Number (sh_offset sec))
                                 (sym_nameIdx s)) = Ok (sym_name s)
            | None => sym_name s = []
            end)
         (entries t).
Proof.
  intros Ha Hlen H. unfold symbolTable in H.
  apply bind_Ok_inv in H as (v & r1 & E & H).
  apply (get_is64_value _ _ _ _ _ _ Ha) in E as [-> ->].
  cbv zeta in H.
  apply bind_Ok_inv in H as (l & r2 & El & H).
  inversion H; subst t r'; clear H. simpl.
  split; [reflexivity|]. split; [reflexivity|].
  apply count_loop_Ok_inv in El; [|intros i; apply frame_symbol].
  eapply loop_ran_Forall; [|exact El].
  intros i s brk (ra & rb & Hs & Hf). cbv beta zeta.
  pose proof (symbol_values _ _ _ _ _ _ _ _ _ _ _ _
                (reads_as_same _ _ _ _ _ Ha Hs) Hlen Hf) as Hv.
  cbv zeta in Hv.
  destruct Hv as (V1 & V2 & V3 & V4 & V5 & V6 & V7 & V8).
  repeat split; try assumption.
  destruct (linked_section shs sh); exact V8.
Qed.

(** X4.  In every model the parser returns, each field of every symbol
    is the value of the bytes at the span the tree gives its item,
    counted from the symbol's own file offset (info at +4 in a 64-bit
    file and at +12 in a 32-bit file); the info and other bytes of a
    decoded symbol are never undefined. *)
Theorem symbol_items_show_their_bytes (fuel : nat) (data : Buffer)
    (m : ElfFile) (t : Table ElfSymbol) (s : ElfSymbol) :
  safe_length data ->
  fst (parseElf fuel data) = Ok (Some m) ->
  In t (symbols m) -> In s (entries t) ->
  sym_at_spans data (header m) s.
Proof.
  intros Hlen Hm Ht Hs.
  destruct (parseElf_stages fuel data m Hm)
    as (H52 & Hc & Hd & r0 & r1 & r2 & r3 & r4 & r5 & r6 & r7 & shs0 &
        A0 & A1 & A2 & A3 & A4 & A5 & A6 &
        Hh & Hph & Hsh & Hnames & Hsym & Hdyn & Hrel & Hstr).
  unfold parseSymbols in Hsym.
  apply mapM_Ok_inv in Hsym; [|intros sh; apply frame_symbolTable].
  assert (HF : Forall (fun t => Forall (sym_at_spans data (header m))
                                  (entries t)) (symbols m)).
  { eapply Forall2_right; [|exact Hsym].
    intros sh t' _ (ra & rb & Hsame & Hf).
    destruct (symbolTable_values _ _ _ _ _ _ _ _ _
                (reads_as_same _ _ _ _ _ A3 Hsame) Hlen Hf) as (_ & _ & HF).
    eapply Forall_impl; [|exact HF].
    intros s' Hv. cbv zeta in Hv.
    destruct Hv as (V1 & V2 & V3 & V4 & V5 & V6 & _).
    unfold sym_at_spans. cbv zeta. repeat split; assumption. }
  rewrite Forall_forall in HF. specialize (HF t Ht).
  rewrite Forall_forall in HF. exact (HF s Hs).
Qed.

Lemma symbol_items_show_their_bytes_witness :
  exists m t s, fst (parseElf 8 full64_elf) = Ok (Some m) /\
                 nth_error (symbols m) 0 = Some t /\
                 nth_error (entries t) 1 = Some s /\
                 sym_at_spans full64_elf (header m) s.
Proof.
  eexists. eexists. eexists. split; [vm_compute; reflexivity|].
  split; [reflexivity|]. split; [reflexivity|].
  eapply (symbol_items_show_their_bytes 8 full64_elf).
  - vm_compute; reflexivity.
  - vm_compute; reflexivity.
  - left. reflexivity.
  - right. left. reflexivity.
Defined.

Lemma dynamicSection_values (d : Buffer) (w le : bool) (fuel : nat)
    (sh : SectionHeader) (r r' : Reader) (l : list DynEntry) :
  reads_as d w le r -> buf_length d < 9007199254740992 ->
  dynamicSection fuel sh r = (Ok l, r') ->
  Forall (fun e =>
            let sp := dynSpans w (dyn_fileOffset e) in
            dyn_tag e = reread_signed d le (dys_tag sp) /\
            dyn_val e = reread d le (dys_val sp) /\
            dyn_entSize e = dynEntSize w sh) l.
Proof.
  intros Ha Hlen H. unfold dynamicSection in H.
  apply bind_Ok_inv in H as (v & r1 & E & H).
  apply (get_is64_value _ _ _ _ _ _ Ha) in E as [-> ->].
  cbv zeta in H.
  apply count_loop_Ok_inv in H; [|intros i; apply frame_dynEntry].
  eapply loop_ran_Forall; [|exact H].
  intros i e brk (ra & rb & Hs & Hf).
  exact (dynEntry_values _ _ _ _ _ _ _ _ _ _
           (reads_as_same _ _ _ _ _ Ha Hs) Hlen Hf).
Qed.

Lemma parseDynamic_Forall (d : Buffer) (w le : bool) (fuel : nat)
    (Q : DynEntry -> Prop) (shs : list SectionHeader) :
  (forall sh r r' l, reads_as d w le r ->
                     dynamicSection fuel sh r = (Ok l, r') -> Forall Q l) ->
  forall acc off r r' des off',
    reads_as d w le r -> Forall Q acc ->
    parseDynamic fuel shs acc off r = (Ok (des, off'), r') ->
    Forall Q des.
Proof.
  intros HQ. induction shs as [|sh shs IH];
    intros acc off r r' des off' Ha Hacc H; simpl in H.
  - inversion H; subst. exact Hacc.
  - destruct (sh_type sh =? 6).
    + apply bind_Ok_inv in H as (es & r1 & E & H).
      pose proof (frame_run _ _ _ _ (frame_dynamicSection fuel sh) E) as Hs.
      apply (IH _ _ _ _ _ _ (reads_as_same _ _ _ _ _ Ha Hs)) in H;
        [exact H|].
      apply Forall_app. split; [exact Hacc|exact (HQ _ _ _ _ Ha E)].
    + exact (IH _ _ _ _ _ _ Ha Hacc H).
Qed.

(** X5.  In every model the parser returns, the tag and the value of
    every dynamic entry are the bytes at the spans the tree gives their
    items, counted from the entry's own file offset; the tag is the
    two's-complement reading of its bytes. *)
Theorem dynamic_items_show_their_bytes (fuel : nat) (data : Buffer)
    (m : ElfFile) (e : DynEntry) :
  safe_length data ->
  fst (parseElf fuel data) = Ok (Some m) ->
  In e (dynamicEntries m) ->
  dyn_at_spans data (header m) e.
Proof.
  intros Hlen Hm He.
  destruct (parseElf_stages fuel data m Hm)
    as (H52 & Hc & Hd & r0 & r1 & r2 & r3 & r4 & r5 & r6 & r7 & shs0 &
        A0 & A1 & A2 & A3 & A4 & A5 & A6 &
        Hh & Hph & Hsh & Hnames & Hsym & Hdyn & Hrel & Hstr).
  assert (HF : Forall (dyn_at_spans data (header m)) (dynamicEntries m)).
  { eapply (parseDynamic_Forall data _ _ fuel _ (sectionHeaders m));
      [|exact A4|constructor|exact Hdyn].
    intros sh ra rb l Ha Hf.
    eapply Forall_impl; [|exact (dynamicSection_values _ _ _ _ _ _ _ _
                                   Ha Hlen Hf)].
    intros e' (V1 & V2 & _). split; assumption. }
  rewrite Forall_forall in HF. exact (HF e He).
Qed.

Lemma dynamic_items_show_their_bytes_witness :
  exists m e, fst (parseElf 8 full64_elf) = Ok (Some m) /\
              nth_error (dynamicEntries m) 0 = Some e /\
              dyn_at_spans full64_elf (header m) e.
Proof.
  eexists. eexists. split; [vm_compute; reflexivity|].
  split; [reflexivity|].
  eapply (dynamic_items_show_their_bytes 8 full64_elf).
  - vm_compute; reflexivity.
  - vm_compute; reflexivity.
  - left. reflexivity.
Defined.

Lemma relocationTable_values (d : Buffer) (w le : bool) (fuel : nat)
    (shs : list SectionHeader) (syms : list (Table ElfSymbol))
    (sh : SectionHeader) (r r' : Reader) (t : Table RelEntry) :
  reads_as d w le r -> buf_length d < 9007199254740992 ->
  relocationTable fuel shs syms sh r = (Ok t, r') ->
  section t = sh_name sh /\
  sectionOffset t = JSNumber.Number (sh_offset sh) /\
  Forall (fun e =>
            let sp := relSpans w (sh_type sh =? 4) (rel_fileOffset e) in
            rel_offset e = reread d le (res_offset sp) /\
            rel_info e = reread d le (res_info sp) /\
            rel_addend e = option_map (reread_signed d le) (res_addend sp) /\
            rel_entSize e = relEntSize w (sh_type sh =? 4) sh)
         (entries t).
Proof.
  intros Ha Hlen H. unfold relocationTable in H.
  apply bind_Ok_inv in H as (v & r1 & E & H).
  apply (get_is64_value _ _ _ _ _ _ Ha) in E as [-> ->].
  cbv zeta in H.
  apply bind_Ok_inv in H as (l & r2 & El & H).
  inversion H; subst t r'; clear H. simpl.
  split; [reflexivity|]. split; [reflexivity|].
  apply count_loop_Ok_inv in El; [|intros i; apply frame_relEntry].
  eapply loop_ran_Forall; [|exact El].
  intros i e brk (ra & rb & Hs & Hf).
  exact (relEntry_values _ _ _ _ _ _ _ _ _ _ _ _
           (reads_as_same _ _ _ _ _ Ha Hs) Hlen Hf).
Qed.

(** The offset and info spans of a relocation entry do not depend on
    the RELA flag, and an addend span, when there is one, is the same
    under both. *)
Lemma relSpans_flag (w a b : bool) (off : Z) :
  res_offset (relSpans w a off) = res_offset (relSpans w b off) /\
  res_info (relSpans w a off) = res_info (relSpans w b off) /\
  forall sp, res_addend (relSpans w a off) = Some sp ->
             res_addend (relSpans w true off) = Some sp.
Proof.
  destruct w, a, b; simpl; repeat split; intros sp E;
    try discriminate; exact E.
Qed.

(** X6.  In every model the parser returns, the offset and info of
    every relocation entry are the bytes at the spans the tree gives
    their items, and whenever the tree shows an Addend item, the value
    it shows is the two's-complement reading of the bytes at the span of
    that item; this does not depend on which section the tree's lookup
    by name finds. *)
Theorem relocation_items_show_their_bytes (fuel : nat) (data : Buffer)
    (m : ElfFile) (t : Table RelEntry) (e : RelEntry) :
  safe_length data ->
  fst (parseElf fuel data) = Ok (Some m) ->
  In t (relocations m) -> In e (entries t) ->
  rel_at_spans data (header m) (sectionHeaders m) t e.
Proof.
  intros Hlen Hm Ht He.
  destruct (parseElf_stages fuel data m Hm)
    as (H52 & Hc & Hd & r0 & r1 & r2 & r3 & r4 & r5 & r6 & r7 & shs0 &
        A0 & A1 & A2 & A3 & A4 & A5 & A6 &
        Hh & Hph & Hsh & Hnames & Hsym & Hdyn & Hrel & Hstr).
  unfold parseRelocations in Hrel.
  apply mapM_Ok_inv in Hrel; [|intros sh; apply frame_relocationTable].
  assert (HF : Forall (fun t => Forall (rel_at_spans data (header m)
                                          (sectionHeaders m) t)
                                  (entries t)) (relocations m)).
  { eapply Forall2_right; [|exact Hrel].
    intros sh t' _ (ra & rb & Hsame & Hf).
    destruct (relocationTable_values _ _ _ _ _ _ _ _ _ _
                (reads_as_same _ _ _ _ _ A5 Hsame) Hlen Hf) as (_ & _ & HF).
    eapply Forall_impl; [|exact HF].
    intros e' Hv. cbv zeta in Hv. destruct Hv as (V1 & V2 & V3 & _).
    unfold rel_at_spans. cbv zeta.
    set (w := treeIs64 (header m)) in *.
    destruct (relSpans_flag w (treeIsRela (sectionHeaders m) t')
                (sh_type sh =? 4) (rel_fileOffset e')) as (E1 & E2 & E3).
    split; [rewrite E1; exact V1|]. split; [rewrite E2; exact V2|].
    intros a spa Hitem. unfold addendItem in Hitem.
    destruct (rel_addend e') as [a'|] eqn:Ea; [|discriminate].
    destruct (res_addend (relSpans w (treeIsRela (sectionHeaders m) t')
                            (rel_fileOffset e'))) as [sp|] eqn:Esp;
      [|discriminate].
    inversion Hitem; subst a' sp; clear Hitem.
    pose proof (E3 _ eq_refl) as Esp'.
    destruct (sh_type sh =? 4).
    - rewrite Esp' in V3. simpl in V3. congruence.
    - destruct w; simpl in V3; discriminate. }
  rewrite Forall_forall in HF. specialize (HF t Ht).
  rewrite Forall_forall in HF. exact (HF e He).
Qed.

Lemma relocation_items_show_their_bytes_witness :
  exists m t e, fst (parseElf 8 full64_elf) = Ok (Some m) /\
                 nth_error (relocations m) 0 = Some t /\
                 nth_error (entries t) 0 = Some e /\
                 rel_at_spans full64_elf (header m) (sectionHeaders m) t e.
Proof.
  eexists. eexists. eexists. split; [vm_compute; reflexivity|].
  split; [reflexivity|]. split; [reflexivity|].
  eapply (relocation_items_show_their_bytes 8 full64_elf).
  - vm_compute; reflexivity.
  - vm_compute; reflexivity.
  - left. reflexivity.
  - left. reflexivity.
Defined.

(** ** Names and tables *)

Lemma parseSectionHeaders_unnamed (h : ElfHeader) (r r' : Reader)
    (shs : list SectionHeader) :
  parseSectionHeaders h r = (Ok shs, r') ->
  Forall (fun sh => sh_name sh = []) shs.
Proof.
  unfold parseSectionHeaders. intros H.
  apply mapM_Ok_inv in H; [|intros k; apply frame_sectionHeader].
  eapply Forall2_right; [|exact H].
  intros i sh _ (ra & rb & _ & Hf). unfold sectionHeader in Hf.
  binds_inv Hf. inversion Hf. reflexivity.
Qed.

(** What [readCString] has returned, said without the function. *)
Lemma readCString_Ok_spec (data : Buffer) (p : Z) (s : jsstring) :
  readCString data p = Ok s -> string_read_at data p s.
Proof.
  intros E. split; [exact E|]. split.
  - intros Hout. rewrite readCString_out in E by exact Hout. congruence.
  - intros Hin. split.
    + intros k Hk Hnul.
      rewrite (readCString_clamped data p k Hk Hnul) in E. congruence.
    + intros Hno. rewrite (readCString_in data p Hin Hno) in E.
      destruct (MAX_STRING_LENGTH <? _); [discriminate|congruence].
Qed.

(** X7.  In every model the parser returns there are as many section
    headers as the header counts; when the string index of the header is
    the index of a section, each section name is what [readCString]
    returned for the section's name index counted from the file offset
    of that section: the empty string outside the buffer, the string
    that starts there otherwise (its bytes up to the first NUL or to the
    end of the buffer), except above 2^31-1 behind a NUL, where it is
    the empty string; when the string index is no section index (it is
    at least the section count), every section name is empty. *)
Theorem section_names_come_from_shstrndx (fuel : nat) (data : Buffer)
    (m : ElfFile) :
  safe_length data ->
  fst (parseElf fuel data) = Ok (Some m) ->
  section_names_resolved data (header m) (sectionHeaders m).
Proof.
  intros Hlen Hm.
  destruct (parseElf_stages fuel data m Hm)
    as (H52 & Hc & Hd & r0 & r1 & r2 & r3 & r4 & r5 & r6 & r7 & shs0 &
        A0 & A1 & A2 & A3 & A4 & A5 & A6 &
        Hh & Hph & Hsh & Hnames & Hsym & Hdyn & Hrel & Hstr).
  pose proof (parseSectionHeaders_unnamed _ _ _ _ Hsh) as Hun.
  destruct (parseSectionHeaders_fits _ _ _ _ _ _
              (reads_as_from _ _ _ _ A2) Hlen Hsh) as (Hn & _).
  destruct (parseHeader_values _ _ _ _ _ _ _ _ A0 Hlen H52 Hh)
    as (_ & _ & _ & _ & _ & _ & _ & _ & _ & _ & _ & _ & _ & _ & Hnum & Hidx).
  assert (Hnum0 : 0 <= h_shnum (header m)).
  { rewrite Hnum. unfold reread. apply field_range. }
  assert (Hidx0 : 0 <= h_shstrndx (header m)).
  { rewrite Hidx. unfold reread. apply field_range. }
  assert (Hlen0 : Z.of_nat (length shs0) = h_shnum (header m))
    by (rewrite Hn; lia).
  pose proof (resolveSectionNames_length _ _ _ _ _ _ Hnames) as Hlen1.
  unfold section_names_resolved. rewrite Hlen1.
  split; [exact Hlen0|].
  apply resolveSectionNames_inv in Hnames
    as [(Hlt & strtab0 & Es & HF)|[Hor Heq]].
  - split; [|intros Hge; lia]. intros _.
    unfold section_at in Es.
    destruct (Z.ltb_spec (h_shstrndx (header m)) 0) as [Hneg|_]; [lia|].
    destruct (nth_error (sectionHeaders m)
                (Z.to_nat (h_shstrndx (header m)))) as [strtab|] eqn:E.
    2:{ apply nth_error_None in E. lia. }
    destruct (Forall2_nth_error _ _ _ HF _ _ E)
      as (a & Ea & name & _ & Estr).
    assert (a = strtab0) by congruence. subst a.
    exists strtab. split; [reflexivity|].
    assert (Eoff : sh_offset strtab = sh_offset strtab0)
      by (rewrite Estr; reflexivity).
    rewrite Eoff.
    eapply Forall2_right; [|exact HF].
    intros s0 sh _ (n & En & ->). cbn [set_sh_name sh_nameIdx sh_name].
    apply readCString_Ok_spec. exact En.
  - rewrite Heq. split; [|intros _; exact Hun].
    intros Hlt. exfalso. destruct Hor as [Hge|Hnone]; [lia|].
    unfold section_at in Hnone.
    destruct (Z.ltb_spec (h_shstrndx (header m)) 0) as [Hneg|_]; [lia|].
    apply nth_error_None in Hnone. lia.
Qed.

Lemma section_names_come_from_shstrndx_witness :
  exists m, fst (parseElf 8 full64_elf) = Ok (Some m) /\
            section_names_resolved full64_elf (header m) (sectionHeaders m).
Proof.
  eexists. split; [vm_compute; reflexivity|].
  apply (section_names_come_from_shstrndx 8 full64_elf);
    vm_compute; reflexivity.
Defined.

(** X8.  In every model the parser returns there is one symbol table
    per section of type 2 or 11, in the order of the section headers; it
    is named after its section, or [.symtab] (type 2) or [.dynsym] when
    the section has no name; each symbol records the entry size in use,
    and its name is what [readCString] returned for its name index
    counted from the file offset of the section the table links to (the
    string that starts there, or the empty string outside the buffer
    and, above 2^31-1, behind a NUL), or empty when the link is no
    section index. *)
Theorem symbol_tables_follow_their_sections (fuel : nat) (data : Buffer)
    (m : ElfFile) :
  safe_length data ->
  fst (parseElf fuel data) = Ok (Some m) ->
  Forall2 (symbol_table_of data (treeIs64 (header m)) (sectionHeaders m))
    (filter is_symtab (sectionHeaders m)) (symbols m).
Proof.
  intros Hlen Hm.
  destruct (parseElf_stages fuel data m Hm)
    as (H52 & Hc & Hd & r0 & r1 & r2 & r3 & r4 & r5 & r6 & r7 & shs0 &
        A0 & A1 & A2 & A3 & A4 & A5 & A6 &
        Hh & Hph & Hsh & Hnames & Hsym & Hdyn & Hrel & Hstr).
  unfold parseSymbols in Hsym.
  apply mapM_Ok_inv in Hsym; [|intros sh; apply frame_symbolTable].
  eapply Forall2_impl; [|exact Hsym].
  intros sh t (ra & rb & Hsame & Hf).
  destruct (symbolTable_values _ _ _ _ _ _ _ _ _
              (reads_as_same _ _ _ _ _ A3 Hsame) Hlen Hf) as (N & O & HF).
  split; [exact N|]. split; [exact O|].
  eapply Forall_impl; [|exact HF].
  intros s Hv. cbv zeta in Hv.
  destruct Hv as (_ & _ & _ & _ & _ & _ & V7 & V8).
  split; [exact V7|].
  destruct (linked_section (sectionHeaders m) sh); [|exact V8].
  apply readCString_Ok_spec. exact V8.
Qed.

Lemma symbol_tables_follow_their_sections_witness :
  exists m, fst (parseElf 8 full64_elf) = Ok (Some m) /\
            Forall2 (symbol_table_of full64_elf (treeIs64 (header m))
                       (sectionHeaders m))
              (filter is_symtab (sectionHeaders m)) (symbols m).
Proof.
  eexists. split; [vm_compute; reflexivity|].
  apply (symbol_tables_follow_their_sections 8 full64_elf);
    vm_compute; reflexivity.
Defined.

(** X9.  In every model the parser returns there is one relocation
    table per section of type 4 or 9, in the order of the section
    headers, named after its section; its entries carry an addend
    exactly when the section has type 4 (RELA), and record the entry
    size in use. *)
Theorem relocation_tables_follow_their_sections (fuel : nat)
    (data : Buffer) (m : ElfFile) :
  safe_length data ->
  fst (parseElf fuel data) = Ok (Some m) ->
  Forall2 (relocation_table_of (treeIs64 (header m)))
    (filter is_reloc (sectionHeaders m)) (relocations m).
Proof.
  intros Hlen Hm.
  destruct (parseElf_stages fuel data m Hm)
    as (H52 & Hc & Hd & r0 & r1 & r2 & r3 & r4 & r5 & r6 & r7 & shs0 &
        A0 & A1 & A2 & A3 & A4 & A5 & A6 &
        Hh & Hph & Hsh & Hnames & Hsym & Hdyn & Hrel & Hstr).
  unfold parseRelocations in Hrel.
  apply mapM_Ok_inv in Hrel; [|intros sh; apply frame_relocationTable].
  eapply Forall2_impl; [|exact Hrel].
  intros sh t (ra & rb & Hsame & Hf).
  destruct (relocationTable_values _ _ _ _ _ _ _ _ _ _
              (reads_as_same _ _ _ _ _ A5 Hsame) Hlen Hf) as (N & O & HF).
  split; [exact N|]. split; [exact O|].
  eapply Forall_impl; [|exact HF].
  intros e Hv. cbv zeta in Hv. destruct Hv as (_ & _ & V3 & V4).
  split; [|exact V4]. rewrite V3.
  destruct (Z.eqb_spec (sh_type sh) 4) as [E|E].
  - split; [intros _; exact E|intros _].
    destruct (treeIs64 (header m)); simpl; discriminate.
  - split; [intros N'; exfalso; apply N'|intros E'; contradiction].
    destruct (treeIs64 (header m)); reflexivity.
Qed.

Lemma relocation_tables_follow_their_sections_witness :
  exists m, fst (parseElf 8 full64_elf) = Ok (Some m) /\
            Forall2 (relocation_table_of (treeIs64 (header m)))
              (filter is_reloc (sectionHeaders m)) (relocations m).
Proof.
  eexists. split; [vm_compute; reflexivity|].
  apply (relocation_tables_follow_their_sections 8 full64_elf);
    vm_compute; reflexivity.
Defined.

Lemma last_cons_default {A} (l : list A) (z d : A) :
  last (z :: l) d = last l z.
Proof.
  revert z d. induction l as [|y l IH]; intros z d; [reflexivity|].
  change (last (z :: y :: l) d) with (last (y :: l) d).
  rewrite (IH y d). symmetry. apply (IH y z).
Qed.

Lemma parseDynamic_offset (fuel : nat) (shs : list SectionHeader) :
  forall acc off r r' des off',
    parseDynamic fuel shs acc off r = (Ok (des, off'), r') ->
    off' = last (map (fun sh => JSNumber.Number (sh_offset sh))
                   (filter is_dynamic shs)) off.
Proof.
  induction shs as [|sh shs IH]; intros acc off r r' des off' H; simpl in H.
  - inversion H. reflexivity.
  - cbn [filter]. unfold is_dynamic at 1. destruct (sh_type sh =? 6).
    + apply bind_Ok_inv in H as (es & r1 & E & H).
      apply IH in H. rewrite H. cbn [map].
      symmetry. apply last_cons_default.
    + exact (IH _ _ _ _ _ _ H).
Qed.

(** X10.  In every model the parser returns, the dynamic entries are
    those of the sections of type 6, one run per section in the order of
    the section headers, and the enumeration of a section stops with the
    first entry whose tag is 0: in each run such an entry can only be
    the last.  The recorded offset of the dynamic section is that of the
    last section of type 6, and 0 when the file has none. *)
Theorem dynamic_enumeration_stops_at_null_tag (fuel : nat) (data : Buffer)
    (m : ElfFile) :
  safe_length data ->
  fst (parseElf fuel data) = Ok (Some m) ->
  dynamic_runs_end_at_terminator m.
Proof.
  intros Hlen Hm.
  destruct (parseElf_stages fuel data m Hm)
    as (H52 & Hc & Hd & r0 & r1 & r2 & r3 & r4 & r5 & r6 & r7 & shs0 &
        A0 & A1 & A2 & A3 & A4 & A5 & A6 &
        Hh & Hph & Hsh & Hnames & Hsym & Hdyn & Hrel & Hstr).
  destruct (parseDynamic_complete data _ fuel (sectionHeaders m) Hlen
              _ _ _ _ _ _ (reads_as_from _ _ _ _ A4) Hdyn)
    as (parts & Hparts & HF).
  exists parts. split; [exact Hparts|]. split.
  - eapply Forall2_impl; [|exact HF].
    intros sh l Hc' k e Hk Htag.
    apply (table_stops_at_marked _ _ _ _ _ _ _ _ Hc' k e Hk).
    apply Z.eqb_eq. exact Htag.
  - exact (parseDynamic_offset _ _ _ _ _ _ _ _ Hdyn).
Qed.

Lemma dynamic_enumeration_stops_at_null_tag_witness :
  exists m, fst (parseElf 8 full64_elf) = Ok (Some m) /\
            length (dynamicEntries m) = 2%nat /\
            dynamic_runs_end_at_terminator m.
Proof.
  eexists. split; [vm_compute; reflexivity|].
  split; [reflexivity|].
  apply (dynamic_enumeration_stops_at_null_tag 8 full64_elf);
    vm_compute; reflexivity.
Defined.

Lemma jsstring_eqb_refl (a : jsstring) : jsstring_eqb a a = true.
Proof.
  unfold jsstring_eqb. destruct (list_eq_dec Z.eq_dec a a); congruence.
Qed.

Lemma jsstring_eqb_eq (a b : jsstring) : jsstring_eqb a b = true -> a = b.
Proof.
  unfold jsstring_eqb. destruct (list_eq_dec Z.eq_dec a b);
    [trivial|discriminate].
Qed.

(** Among sections with distinct names, looking a section up by its
    name finds that section. *)
Lemma findSection_unique (shs : list SectionHeader) (sh : SectionHeader) :
  NoDup (map sh_name shs) -> In sh shs ->
  findSection shs (sh_name sh) = Some sh.
Proof.
  unfold findSection. induction shs as [|x shs IH]; intros Hnd Hin;
    [contradiction|].
  simpl in Hnd. inversion Hnd as [|n l Hnotin Hnd']; subst.
  simpl. destruct (jsstring_eqb (sh_name x) (sh_name sh)) eqn:E.
  - destruct Hin as [->|Hin]; [reflexivity|].
    apply jsstring_eqb_eq in E. exfalso. apply Hnotin.
    rewrite E. apply in_map. exact Hin.
  - destruct Hin as [->|Hin];
      [rewrite jsstring_eqb_refl in E; discriminate|].
    exact (IH Hnd' Hin).
Qed.

(** X11.  The tree decides whether a relocation table is RELA by looking
    its section up by name.  In a model whose section names are all
    distinct, the lookup finds the section the table was decoded from,
    so the tree shows an Addend item for exactly the entries that were
    decoded with an addend. *)
Theorem distinct_names_show_every_addend (fuel : nat) (data : Buffer)
    (m : ElfFile) :
  safe_length data ->
  fst (parseElf fuel data) = Ok (Some m) ->
  NoDup (map sh_name (sectionHeaders m)) ->
  Forall2 (fun sh t =>
             treeIsRela (sectionHeaders m) t = (sh_type sh =? 4) /\
             addends_all_shown (treeIs64 (header m)) (sectionHeaders m) t)
    (filter is_reloc (sectionHeaders m)) (relocations m).
Proof.
  intros Hlen Hm Hnd.
  destruct (parseElf_stages fuel data m Hm)
    as (H52 & Hc & Hd & r0 & r1 & r2 & r3 & r4 & r5 & r6 & r7 & shs0 &
        A0 & A1 & A2 & A3 & A4 & A5 & A6 &
        Hh & Hph & Hsh & Hnames & Hsym & Hdyn & Hrel & Hstr).
  unfold parseRelocations in Hrel.
  apply mapM_Ok_inv in Hrel; [|intros sh; apply frame_relocationTable].
  assert (Hin : Forall (fun sh => In sh (sectionHeaders m))
                  (filter is_reloc (sectionHeaders m))).
  { apply Forall_forall. intros sh Hf. apply filter_In in Hf. tauto. }
  revert Hin Hrel.
  generalize (filter is_reloc (sectionHeaders m)) as l.
  generalize (relocations m) as ts.
  intros ts l Hin HF. induction HF as [|sh t l ts Hst HF IH];
    [constructor|].
  inversion Hin as [|? ? Hsh_in Hin']; subst.
  constructor; [|exact (IH Hin')].
  destruct Hst as (ra & rb & Hsame & Hf).
  destruct (relocationTable_values _ _ _ _ _ _ _ _ _ _
              (reads_as_same _ _ _ _ _ A5 Hsame) Hlen Hf) as (N & _ & HV).
  assert (Hflag : treeIsRela (sectionHeaders m) t = (sh_type sh =? 4)).
  { unfold treeIsRela. rewrite N.
    rewrite (findSection_unique _ _ Hnd Hsh_in). reflexivity. }
  split; [exact Hflag|].
  unfold addends_all_shown. rewrite Hflag.
  eapply Forall_impl; [|exact HV].
  intros e Hv. cbv zeta in Hv. destruct Hv as (_ & _ & V3 & _).
  unfold addendItem. rewrite V3.
  destruct (res_addend (relSpans (treeIs64 (header m)) (sh_type sh =? 4)
                          (rel_fileOffset e))); simpl;
    split; intros E; try reflexivity; discriminate.
Qed.

Lemma distinct_names_show_every_addend_witness :
  exists m,
    fst (parseElf 8 full64_elf) = Ok (Some m) /\
    Forall2 (fun sh t =>
               treeIsRela (sectionHeaders m) t = (sh_type sh =? 4) /\
               addends_all_shown (treeIs64 (header m)) (sectionHeaders m) t)
      (filter is_reloc (sectionHeaders m)) (relocations m).
Proof.
  eexists. split; [vm_compute; reflexivity|].
  apply (distinct_names_show_every_addend 8 full64_elf).
  - vm_compute; reflexivity.
  - vm_compute; reflexivity.
  - vm_compute.
    repeat (constructor; [simpl; intuition discriminate|]). constructor.
Defined.

(** ** The loops end *)

Lemma entry_pos_lower (base entsize i : Z) :
  0 <= base -> 1 <= entsize -> 0 <= i ->
  Z.min i (2 ^ 53) <= entry_pos base entsize i.
Proof.
  intros Hb He Hi. unfold entry_pos.
  assert (Hm : Z.min i (2 ^ 53) <= JSNumber.mul i entsize).
  { unfold JSNumber.mul.
    pose proof (JSNumberFacts.fround_lower (i * entsize) ltac:(nia)) as H.
    assert (i <= i * entsize) by nia. lia. }
  pose proof (JSNumberFacts.add_lower base (JSNumber.mul i entsize) Hb
                ltac:(rewrite JSNumberFacts.two53 in *; lia)) as Ha.
  rewrite JSNumberFacts.two53 in *. lia.
Qed.

Lemma or_default_pos (x d : Z) :
  0 <= x -> 1 <= d -> 1 <= JSNumber.or_default (JSNumber.Number x) d.
Proof.
  intros Hx Hd. rewrite or_default_Number by exact Hx.
  destruct (Z.eqb_spec x 0) as [->|Hne]; [exact Hd|].
  pose proof (JSNumberFacts.fround_lower x Hx) as H.
  rewrite JSNumberFacts.two53 in H. unfold JSNumber.Number. lia.
Qed.

(** An entry read inside the buffer has an index below the length of
    the buffer. *)
Lemma index_below_length (d : Buffer) (base entsize i span : Z) :
  buf_length d < 9007199254740992 ->
  0 <= base -> 1 <= entsize -> 0 <= i -> 0 < span ->
  in_bounds d (entry_pos base entsize i) span ->
  i < buf_length d.
Proof.
  intros Hlen Hb He Hi Hs [_ Hin].
  pose proof (entry_pos_lower base entsize i Hb He Hi) as H.
  rewrite JSNumberFacts.two53 in H. lia.
Qed.

(** A counted loop whose turns read inside the buffer stops within
    [buf_length + 1] turns. *)
Lemma count_loop_ends {A} (d : Buffer) (w : bool) (count : spec_float)
    (body : Z -> M (A * bool)) :
  buf_length d < 9007199254740992 ->
  (forall i, frame (body i)) ->
  (forall i, fuel_free (body i)) ->
  (forall i r r' a brk, reads_from d w r -> 0 <= i ->
                        body i r = (Ok (a, brk), r') -> i < buf_length d) ->
  forall fuel i r,
    reads_from d w r -> 0 <= i <= buf_length d ->
    buf_length d - i < Z.of_nat fuel ->
    fst (count_loop fuel count body i r) <> OutOfFuel.
Proof.
  intros Hlen Fb Ff Hb. induction fuel as [|fuel IH]; intros i r Ha Hi Hf;
    [lia|].
  simpl. destruct (JSNumber.ltb_float i count); [|discriminate].
  unfold bind. pose proof (Ff i r) as Hff.
  destruct (body i r) as [[[a brk]|e|] r1] eqn:E; simpl in *;
    [|discriminate|congruence].
  pose proof (Hb _ _ _ _ _ Ha (proj1 Hi) E) as Hlt.
  destruct brk; [discriminate|].
  assert (Hnext : JSNumber.add i 1 = i + 1)
    by (apply JSNumberFacts.add_small; rewrite ?JSNumberFacts.two53; lia).
  rewrite Hnext.
  pose proof (frame_run _ _ _ _ (Fb i) E) as Hs.
  specialize (IH (i + 1) r1 (reads_from_same _ _ _ _ Ha Hs)
                ltac:(lia) ltac:(lia)).
  destruct (count_loop fuel count body (i + 1) r1) as [[l|e|] r2];
    simpl in *; congruence.
Qed.

Lemma fuel_free_get_buf : fuel_free get_buf.
Proof. intros r. discriminate. Qed.

Lemma fuel_free_sxword : fuel_free Rd.sxword.
Proof.
  intros r. unfold Rd.sxword. destruct (is64 r); apply read_n_not_fuel.
Qed.

Lemma fuel_free_symbol (a b : Z) (s : option SectionHeader) (c i : Z) :
  fuel_free (symbol a b s c i).
Proof.
  unfold symbol. cbv zeta.
  apply fuel_free_bind; [apply fuel_free_seek|intros _].
  apply fuel_free_bind; [apply fuel_free_get_is64|intros v].
  apply fuel_free_bind.
  - destruct v; repeat fuel_free_step.
  - intros sym. apply fuel_free_bind; [apply fuel_free_get_buf|intros data].
    destruct s; [|apply fuel_free_ret].
    apply fuel_free_bind; [|intros name; apply fuel_free_ret].
    intros r. apply readCString_not_fuel.
Qed.

Lemma fuel_free_dynEntry (a b i : Z) : fuel_free (dynEntry a b i).
Proof.
  unfold dynEntry. cbv zeta.
  apply fuel_free_bind; [apply fuel_free_seek|intros _].
  apply fuel_free_bind; [apply fuel_free_sxword|intros tag].
  apply fuel_free_bind; [apply fuel_free_addr|intros val].
  apply fuel_free_ret.
Qed.

Lemma fuel_free_relEntry (ra : bool) (a b : Z) (s : option (list ElfSymbol))
    (i : Z) : fuel_free (relEntry ra a b s i).
Proof.
  unfold relEntry. cbv zeta.
  apply fuel_free_bind; [apply fuel_free_seek|intros _].
  apply fuel_free_bind; [apply fuel_free_get_is64|intros v].
  apply fuel_free_bind; [apply fuel_free_addr|intros off].
  apply fuel_free_bind; [apply fuel_free_addr|intros info].
  apply fuel_free_bind.
  - destruct ra; [|apply fuel_free_ret].
    apply fuel_free_bind; [apply fuel_free_sxword|intros x].
    apply fuel_free_ret.
  - intros x. apply fuel_free_ret.
Qed.

Lemma sym_span_pos (w : bool) : 0 < sym_span w.
Proof. destruct w; reflexivity. Qed.
Lemma dyn_span_pos (w : bool) : 0 < dyn_span w.
Proof. destruct w; reflexivity. Qed.
Lemma rel_span_pos (w a : bool) : 0 < rel_span w a.
Proof. destruct w, a; reflexivity. Qed.

Lemma symbolTable_ends (d : Buffer) (w : bool) (fuel : nat)
    (shs : list SectionHeader) (sh : SectionHeader) (r : Reader) :
  buf_length d < 9007199254740992 -> buf_length d < Z.of_nat fuel ->
  0 <= sh_offset sh -> 0 <= sh_entsize sh ->
  reads_from d w r ->
  fst (symbolTable fuel shs sh r) <> OutOfFuel.
Proof.
  intros Hlen Hfuel Ho He Ha. unfold symbolTable, bind at 1, get_is64.
  pose proof Ha as [Hb Hw]. rewrite Hw. cbv zeta.
  unfold bind.
  match goal with |- context [count_loop fuel ?c ?b 0 r] =>
    assert (Hends : fst (count_loop fuel c b 0 r) <> OutOfFuel);
    [|destruct (count_loop fuel c b 0 r) as [[l|e|] r1];
      simpl in *; congruence]
  end.
  match goal with |- fst (count_loop fuel ?c ?b 0 r) <> _ =>
    apply (count_loop_ends d w c b Hlen)
  end; [intros i; apply frame_symbol|intros i; apply fuel_free_symbol| | | |].
  - intros i ra rb s brk Hra Hi Hs.
    destruct (symbol_fits d w _ _ _ _ _ ra rb s brk Hra Hlen Hs)
      as (Eo & Hin & _).
    rewrite Eo in Hin.
    apply (index_below_length d _ _ i _ Hlen
             (JSNumberFacts.Number_nonneg _ Ho)
             (or_default_pos _ (if w then 24 else 16) He
                ltac:(destruct w; lia)) Hi
             (sym_span_pos w) Hin).
  - exact Ha.
  - unfold buf_length in *. lia.
  - lia.
Qed.

Lemma dynamicSection_ends (d : Buffer) (w : bool) (fuel : nat)
    (sh : SectionHeader) (r : Reader) :
  buf_length d < 9007199254740992 -> buf_length d < Z.of_nat fuel ->
  0 <= sh_offset sh -> 0 <= sh_entsize sh ->
  reads_from d w r ->
  fst (dynamicSection fuel sh r) <> OutOfFuel.
Proof.
  intros Hlen Hfuel Ho He Ha. unfold dynamicSection, bind, get_is64.
  pose proof Ha as [Hb Hw]. rewrite Hw. cbv zeta.
  match goal with |- fst (count_loop fuel ?c ?b 0 r) <> _ =>
    apply (count_loop_ends d w c b Hlen)
  end; [intros i; apply frame_dynEntry|intros i; apply fuel_free_dynEntry
       | | | |].
  - intros i ra rb e brk Hra Hi Hs.
    destruct (dynEntry_fits d w _ _ _ ra rb e brk Hra Hlen Hs)
      as (Eo & Hin & _).
    rewrite Eo in Hin.
    apply (index_below_length d _ _ i _ Hlen
             (JSNumberFacts.Number_nonneg _ Ho)
             (or_default_pos _ (if w then 16 else 8) He
                ltac:(destruct w; lia)) Hi
             (dyn_span_pos w) Hin).
  - exact Ha.
  - unfold buf_length in *. lia.
  - lia.
Qed.

Lemma relocationTable_ends (d : Buffer) (w : bool) (fuel : nat)
    (shs : list SectionHeader) (syms : list (Table ElfSymbol))
    (sh : SectionHeader) (r : Reader) :
  buf_length d < 9007199254740992 -> buf_length d < Z.of_nat fuel ->
  0 <= sh_offset sh -> 0 <= sh_entsize sh ->
  reads_from d w r ->
  fst (relocationTable fuel shs syms sh r) <> OutOfFuel.
Proof.
  intros Hlen Hfuel Ho He Ha. unfold relocationTable, bind at 1, get_is64.
  pose proof Ha as [Hb Hw]. rewrite Hw. cbv zeta.
  unfold bind.
  match goal with |- context [count_loop fuel ?c ?b 0 r] =>
    assert (Hends : fst (count_loop fuel c b 0 r) <> OutOfFuel);
    [|destruct (count_loop fuel c b 0 r) as [[l|e|] r1];
      simpl in *; congruence]
  end.
  match goal with |- fst (count_loop fuel ?c ?b 0 r) <> _ =>
    apply (count_loop_ends d w c b Hlen)
  end; [intros i; apply frame_relEntry|intros i; apply fuel_free_relEntry
       | | | |].
  - intros i ra rb e brk Hra Hi Hs.
    destruct (relEntry_fits d w _ _ _ _ _ ra rb e brk Hra Hlen Hs)
      as (Eo & Hin & _).
    rewrite Eo in Hin.
    apply (index_below_length d _ _ i _ Hlen
             (JSNumberFacts.Number_nonneg _ Ho)
             (or_default_pos _
                (if w then (if sh_type sh =? 4 then 24 else 16)
                 else (if sh_type sh =? 4 then 12 else 8)) He
                ltac:(destruct w, (sh_type sh =? 4); lia)) Hi
             (rel_span_pos w _) Hin).
  - exact Ha.
  - unfold buf_length in *. lia.
  - lia.
Qed.

(** Running a list of actions that all end, ends. *)
Lemma mapM_ends {A B} (d : Buffer) (w : bool) (f : A -> M B) (l : list A) :
  (forall a, frame (f a)) ->
  (forall a r, In a l -> reads_from d w r -> fst (f a r) <> OutOfFuel) ->
  forall r, reads_from d w r -> fst (mapM f l r) <> OutOfFuel.
Proof.
  intros Ff. induction l as [|a l IH]; intros Hf r Ha; simpl;
    [discriminate|].
  unfold bind. pose proof (Hf a r (or_introl eq_refl) Ha) as H1.
  destruct (f a r) as [[b|e|] r1] eqn:E; simpl in *;
    [|discriminate|congruence].
  pose proof (frame_run _ _ _ _ (Ff a) E) as Hs.
  specialize (IH (fun a' r' Hin => Hf a' r' (or_intror Hin)) r1
                (reads_from_same _ _ _ _ Ha Hs)).
  destruct (mapM f l r1) as [[bs|e|] r2]; simpl in *;
    [discriminate|discriminate|congruence].
Qed.

Lemma parseDynamic_ends (d : Buffer) (w : bool) (fuel : nat)
    (shs : list SectionHeader) :
  buf_length d < 9007199254740992 -> buf_length d < Z.of_nat fuel ->
  unsigned_sections shs ->
  forall acc off r, reads_from d w r ->
                    fst (parseDynamic fuel shs acc off r) <> OutOfFuel.
Proof.
  intros Hlen Hfuel. induction shs as [|sh shs IH]; intros Hu acc off r Ha;
    simpl; [discriminate|].
  inversion Hu as [|? ? [Ho He] Hu']; subst.
  destruct (sh_type sh =? 6); [|exact (IH Hu' _ _ _ Ha)].
  unfold bind.
  pose proof (dynamicSection_ends d w fuel sh r Hlen Hfuel Ho He Ha) as H1.
  destruct (dynamicSection fuel sh r) as [[es|e|] r1] eqn:E; simpl in *;
    [|discriminate|congruence].
  pose proof (frame_run _ _ _ _ (frame_dynamicSection fuel sh) E) as Hs.
  exact (IH Hu' _ _ _ (reads_from_same _ _ _ _ Ha Hs)).
Qed.

Lemma table_loops_end_aux (fuel : nat) (data : Buffer) (w : bool)
    (shs : list SectionHeader) :
  buf_length data < 9007199254740992 -> buf_length data < Z.of_nat fuel ->
  unsigned_sections shs ->
  (forall r, reads_from data w r ->
             fst (parseSymbols fuel shs r) <> OutOfFuel) /\
  (forall r, reads_from data w r ->
             fst (parseDynamic fuel shs [] 0 r) <> OutOfFuel) /\
  (forall syms r, reads_from data w r ->
                  fst (parseRelocations fuel shs syms r) <> OutOfFuel).
Proof.
  intros Hlen Hfuel Hu.
  assert (Hin : forall sh, In sh shs ->
                           0 <= sh_offset sh /\ 0 <= sh_entsize sh).
  { apply Forall_forall. exact Hu. }
  split; [|split].
  - intros r Ha. unfold parseSymbols.
    apply (mapM_ends data w); [intros sh; apply frame_symbolTable| |exact Ha].
    intros sh r' Hsh Hr'. apply filter_In in Hsh as [Hsh _].
    destruct (Hin sh Hsh) as [Ho He].
    exact (symbolTable_ends data w fuel shs sh r' Hlen Hfuel Ho He Hr').
  - intros r Ha.
    exact (parseDynamic_ends data w fuel shs Hlen Hfuel Hu _ _ _ Ha).
  - intros syms r Ha. unfold parseRelocations.
    apply (mapM_ends data w);
      [intros sh; apply frame_relocationTable| |exact Ha].
    intros sh r' Hsh Hr'. apply filter_In in Hsh as [Hsh _].
    destruct (Hin sh Hsh) as [Ho He].
    exact (relocationTable_ends data w fuel shs syms sh r' Hlen Hfuel
             Ho He Hr').
Qed.

(** X12.  Whatever sizes the section headers declare, the symbol, the
    dynamic and the relocation loops stop within [buf_length + 1] turns:
    an entry that leaves the buffer raises, so with more fuel than the
    buffer has bytes none of the three stages is still running when the
    fuel is spent. *)
Theorem table_loops_end (fuel : nat) (data : Buffer) (w : bool)
    (shs : list SectionHeader) (syms : list (Table ElfSymbol)) (r : Reader) :
  safe_length data -> buf_length data < Z.of_nat fuel ->
  unsigned_sections shs -> reads_from data w r ->
  fst (parseSymbols fuel shs r) <> OutOfFuel /\
  fst (parseDynamic fuel shs [] 0 r) <> OutOfFuel /\
  fst (parseRelocations fuel shs syms r) <> OutOfFuel.
Proof.
  intros Hlen Hfuel Hu Ha.
  destruct (table_loops_end_aux fuel data w shs Hlen Hfuel Hu)
    as (T1 & T2 & T3).
  split; [exact (T1 r Ha)|]. split; [exact (T2 r Ha)|exact (T3 syms r Ha)].
Qed.

Lemma table_loops_end_witness :
  let r := mkReader ragged_symtab_elf false true 0 in
  fst (parseSymbols 125 [oversized_symtab] r) <> OutOfFuel /\
  fst (parseDynamic 125 [oversized_symtab] [] 0 r) <> OutOfFuel /\
  fst (parseRelocations 125 [oversized_symtab] [] r) <> OutOfFuel.
Proof.
  apply (table_loops_end 125 ragged_symtab_elf false).
  - vm_compute; reflexivity.
  - vm_compute; reflexivity.
  - constructor; [split; vm_compute; discriminate|constructor].
  - split; reflexivity.
Defined.

Lemma fuel_free_parseHeader (c d : option Z) : fuel_free (parseHeader c d).
Proof. unfold parseHeader. repeat fuel_free_step. Qed.

(** What the reader gives for the offset, the size and the entry size
    of a section header: unsigned values of the width of the file. *)
Lemma parseSectionHeaders_ranges (d : Buffer) (w le : bool) (h : ElfHeader)
    (r r' : Reader) (shs : list SectionHeader) :
  reads_as d w le r -> buf_length d < 9007199254740992 ->
  parseSectionHeaders h r = (Ok shs, r') ->
  Forall (fun sh => 0 <= sh_offset sh < 256 ^ wordSize w /\
                    0 <= sh_size sh < 256 ^ wordSize w /\
                    0 <= sh_entsize sh < 256 ^ wordSize w) shs.
Proof.
  intros Ha Hlen H. unfold parseSectionHeaders in H.
  apply mapM_Ok_inv in H; [|intros k; apply frame_sectionHeader].
  eapply Forall2_right; [|exact H].
  intros i sh _ (ra & rb & Hs & Hf).
  pose proof (sectionHeader_values _ _ _ _ _ _ _ _ _
                (reads_as_same _ _ _ _ _ Ha Hs) Hlen Hf) as Hv.
  cbv zeta in Hv.
  destruct Hv as (_ & _ & _ & _ & V5 & V6 & _ & _ & _ & V10 & _).
  rewrite V5, V6, V10. unfold reread.
  destruct w;
    cbn [shSpans snd fst wordSize shs_offset shs_size shs_entsize];
    repeat match goal with
    | |- context [field ?a ?b ?c ?n] =>
        lazymatch goal with
        | X : 0 <= field a b c n < _ |- _ => fail
        | _ => pose proof (field_range a b c n)
        end
    end;
    change (Z.of_nat (Z.to_nat 8)) with 8 in *;
    change (Z.of_nat (Z.to_nat 4)) with 4 in *; lia.
Qed.

Lemma resolveSectionNames_Forall (P : SectionHeader -> Prop)
    (data : Buffer) (idx : Z) (shs0 shs : list SectionHeader)
    (r r' : Reader) :
  (forall sh n, P sh -> P (set_sh_name sh n)) ->
  resolveSectionNames data idx shs0 r = (Ok shs, r') ->
  Forall P shs0 -> Forall P shs.
Proof.
  intros HP Hn H.
  apply resolveSectionNames_inv in Hn as [(_ & strtab & _ & HF)|[_ ->]];
    [|exact H].
  rewrite Forall_forall in H.
  eapply Forall2_right; [|exact HF].
  intros s0 sh Hin (n & _ & ->). apply HP. apply H. exact Hin.
Qed.

(** The string table stage ends when every section is smaller than the
    fuel and ends below 2^53. *)
Lemma parseStringTables_ends (fuel : nat) (shs : list SectionHeader) :
  Forall (fun sh => 0 <= sh_offset sh /\ 0 <= sh_size sh /\
                    sh_offset sh + sh_size sh <= 2 ^ 53 /\
                    sh_size sh <= Z.of_nat fuel) shs ->
  forall r, fst (parseStringTables fuel shs r) <> OutOfFuel.
Proof.
  intros Hall. unfold parseStringTables.
  assert (Hf : Forall (fun sh => forall r,
                         fst (bind get_buf
                                (fun data =>
                                   lift (stringTable fuel data sh)) r)
                         <> OutOfFuel) (filter is_strtab shs)).
  { apply Forall_forall. intros sh Hin. apply filter_In in Hin as [Hin _].
    rewrite Forall_forall in Hall.
    destruct (Hall sh Hin) as (Ho & Hs & Hsum & Hfu).
    intros r. unfold bind, get_buf, lift, stringTable.
    rewrite JSNumberFacts.two53 in Hsum.
    assert (E1 : JSNumber.Number (sh_offset sh) = sh_offset sh)
      by (apply JSNumberFacts.fround_exact;
          rewrite JSNumberFacts.two53; lia).
    assert (E2 : JSNumber.Number (sh_size sh) = sh_size sh)
      by (apply JSNumberFacts.fround_exact;
          rewrite JSNumberFacts.two53; lia).
    rewrite E1, E2.
    rewrite JSNumberFacts.add_small
      by (rewrite ?JSNumberFacts.two53; lia).
    pose proof (walkStrings_terminates fuel (buf r)
                  (sh_offset sh + sh_size sh)
                  ltac:(rewrite JSNumberFacts.two53; lia)
                  (sh_offset sh) Ho ltac:(lia)) as El.
    cbn [fst].
    destruct (walkStrings fuel (buf r) (sh_offset sh)
                (sh_offset sh + sh_size sh));
      cbn [result_map]; congruence. }
  revert Hf. generalize (filter is_strtab shs) as l.
  induction l as [|sh l IH]; intros Hf r; simpl; [discriminate|].
  inversion Hf as [|? ? H1 H2]; subst.
  unfold bind at 1. specialize (H1 r).
  destruct (bind get_buf _ r) as [[t|e|] r1]; simpl in *;
    [|discriminate|congruence].
  unfold bind. specialize (IH H2 r1).
  destruct (mapM _ l r1) as [[ts|e|] r2]; simpl in *;
    [discriminate|discriminate|congruence].
Qed.

Lemma fuel_free_resolveSectionNames (data : Buffer) (i : Z)
    (shs : list SectionHeader) : fuel_free (resolveSectionNames data i shs).
Proof.
  unfold resolveSectionNames.
  destruct (i <? Z.of_nat (length shs)); [|apply fuel_free_ret].
  destruct (section_at shs i); [|apply fuel_free_ret].
  apply fuel_free_mapM. intros sh.
  apply fuel_free_bind; [|intros name; apply fuel_free_ret].
  intros r. apply readCString_not_fuel.
Qed.

(** ** What the parser raises on a buffer of ordinary size *)

Lemma range_only_on_any {A} (d : Buffer) (m : M A) :
  range_only m -> range_only_on d m.
Proof. intros H r e _. apply H. Qed.

Lemma range_only_on_bind {A B} (d : Buffer) (m : M A) (k : A -> M B) :
  frame m -> range_only_on d m -> (forall a, range_only_on d (k a)) ->
  range_only_on d (bind m k).
Proof.
  intros Fr Fm Fk r e Hb. unfold bind. specialize (Fm r).
  pose proof (Fr r) as (Hsame & _).
  destruct (m r) as [[a|e'|] r1]; simpl in *.
  - apply Fk. congruence.
  - intros H. inversion H; subst e'. apply Fm; [exact Hb|reflexivity].
  - discriminate.
Qed.

Lemma range_only_on_mapM {A B} (d : Buffer) (f : A -> M B) (l : list A) :
  (forall a, frame (f a)) -> (forall a, range_only_on d (f a)) ->
  range_only_on d (mapM f l).
Proof.
  intros Fr Ff. induction l as [|a l IH]; simpl.
  - apply range_only_on_any, range_only_ret.
  - apply range_only_on_bind; [apply Fr|apply Ff|]. intros b.
    apply range_only_on_bind; [apply frame_mapM; exact Fr|exact IH|].
    intros bs. apply range_only_on_any, range_only_ret.
Qed.

Lemma range_only_on_count_loop {A} (d : Buffer) (fuel : nat)
    (count : spec_float) (body : Z -> M (A * bool)) :
  (forall i, frame (body i)) -> (forall i, range_only_on d (body i)) ->
  forall i, range_only_on d (count_loop fuel count body i).
Proof.
  intros Fr Fb. induction fuel as [|fuel IH]; intros i; simpl.
  - destruct (JSNumber.ltb_float i count).
    + intros r e _ H. discriminate.
    + apply range_only_on_any, range_only_ret.
  - destruct (JSNumber.ltb_float i count);
      [|apply range_only_on_any, range_only_ret].
    apply range_only_on_bind; [apply Fr|apply Fb|]. intros [a brk]. simpl.
    destruct brk; [apply range_only_on_any, range_only_ret|].
    apply range_only_on_bind;
      [apply frame_count_loop; exact Fr|apply IH|].
    intros rest. apply range_only_on_any, range_only_ret.
Qed.

(** In a buffer shorter than the longest string, no string is too
    long. *)
Lemma readCString_short (data : Buffer) (p : Z) (e : exn) :
  buf_length data < MAX_STRING_LENGTH -> readCString data p <> Throw e.
Proof.
  intros Hshort E.
  apply readCString_Throw_inv in E as (_ & Hp & Hlong).
  destruct (run_at_facts data p Hp) as ([_ Hb] & _). lia.
Qed.

Lemma range_only_on_readCString {A} (d : Buffer) (p : Z)
    (k : jsstring -> M A) :
  buf_length d < MAX_STRING_LENGTH ->
  (forall s, range_only_on d (k s)) ->
  range_only_on d (bind (lift (readCString d p)) k).
Proof.
  intros Hshort Hk r e Hb. unfold bind, lift.
  destruct (readCString d p) as [s|e'|] eqn:E; simpl.
  - apply Hk. exact Hb.
  - destruct (readCString_short d p e' Hshort E).
  - discriminate.
Qed.

Lemma range_only_on_symbol (d : Buffer) (a b : Z) (s : option SectionHeader)
    (c i : Z) :
  buf_length d < MAX_STRING_LENGTH -> range_only_on d (symbol a b s c i).
Proof.
  intros Hshort. unfold symbol. cbv zeta.
  apply range_only_on_bind;
    [apply frame_seek|apply range_only_on_any, range_only_seek|intros _].
  apply range_only_on_bind;
    [apply frame_get_is64|apply range_only_on_any, range_only_get_is64|].
  intros v. apply range_only_on_bind.
  - destruct v; frame_auto.
  - apply range_only_on_any. destruct v; repeat range_only_step.
  - intros sym r e Hb. unfold bind at 1, get_buf. rewrite Hb.
    destruct s; [|discriminate].
    apply (range_only_on_readCString d _ _ Hshort); [|exact Hb].
    intros name. apply range_only_on_any, range_only_ret.
Qed.

Lemma range_only_dynEntry (a b i : Z) : range_only (dynEntry a b i).
Proof. unfold dynEntry. cbv zeta. repeat range_only_step. Qed.

Lemma range_only_relEntry (ra : bool) (a b : Z) (s : option (list ElfSymbol))
    (i : Z) : range_only (relEntry ra a b s i).
Proof. unfold relEntry. cbv zeta. repeat range_only_step. Qed.

Lemma range_only_parseDynamic (fuel : nat) (shs : list SectionHeader) :
  forall acc d, range_only (parseDynamic fuel shs acc d).
Proof.
  induction shs as [|sh shs IH]; intros acc d; simpl.
  - apply range_only_ret.
  - destruct (sh_type sh =? 6); [|apply IH].
    apply range_only_bind; [|intros es; apply IH].
    unfold dynamicSection. apply range_only_bind;
      [apply range_only_get_is64|].
    intros b. apply range_only_count_loop. intros i.
    apply range_only_dynEntry.
Qed.

Lemma stringTable_short (fuel : nat) (data : Buffer) (sh : SectionHeader)
    (e : exn) :
  buf_length data < MAX_STRING_LENGTH -> stringTable fuel data sh <> Throw e.
Proof.
  intros Hshort. unfold stringTable.
  generalize (JSNumber.add (JSNumber.Number (sh_offset sh))
                (JSNumber.Number (sh_size sh))) as hi.
  intros hi. generalize (JSNumber.Number (sh_offset sh)) as p.
  induction fuel as [|fuel IH]; intros p; simpl.
  - destruct (p <? hi); discriminate.
  - destruct (p <? hi); [|discriminate].
    destruct (readCString data p) as [s|e'|] eqn:Es; [| |discriminate].
    + cbv zeta.
      specialize (IH (JSNumber.add p (JSNumber.add (Z.of_nat (length s)) 1))).
      destruct (walkStrings fuel data _ hi);
        destruct (0 <? Z.of_nat (length s)); simpl in *; congruence.
    + destruct (readCString_short data p e' Hshort Es).
Qed.

Lemma range_only_on_parseStringTables (fuel : nat) (data : Buffer)
    (shs : list SectionHeader) :
  buf_length data < MAX_STRING_LENGTH ->
  range_only_on data (parseStringTables fuel shs).
Proof.
  intros Hshort. unfold parseStringTables.
  apply range_only_on_mapM; [intros sh; frame_auto|].
  intros sh r e Hb. unfold bind, get_buf, lift. cbn [fst]. rewrite Hb.
  intros E. destruct (stringTable_short fuel data sh e Hshort E).
Qed.

(** On a buffer shorter than the longest string, the body of the parser
    raises nothing but [RangeError]. *)
Lemma range_only_on_parseBody (fuel : nat) (data : Buffer) (c d : option Z) :
  buf_length data < MAX_STRING_LENGTH ->
  range_only_on data (parseBody fuel c d).
Proof.
  intros Hshort. unfold parseBody.
  apply range_only_on_bind;
    [apply frame_parseHeader
    |apply range_only_on_any, range_only_parseHeader|intros hdr].
  apply range_only_on_bind;
    [apply frame_parseProgramHeaders
    |apply range_only_on_any, range_only_parseProgramHeaders|intros phs].
  apply range_only_on_bind;
    [apply frame_parseSectionHeaders
    |apply range_only_on_any, range_only_parseSectionHeaders|intros shs0].
  intros r e Hb. unfold bind at 1, get_buf. rewrite Hb. revert r e Hb.
  change (range_only_on data
            (shs <- resolveSectionNames data (h_shstrndx hdr) shs0 ;;
             syms <- parseSymbols fuel shs ;;
             dyn <- parseDynamic fuel shs [] 0 ;;
             rels <- parseRelocations fuel shs syms ;;
             strs <- parseStringTables fuel shs ;;
             ret (mkElfFile hdr phs shs syms (fst dyn) (snd dyn) rels strs))).
  apply range_only_on_bind; [apply frame_resolveSectionNames| |intros shs].
  { unfold resolveSectionNames.
    destruct (h_shstrndx hdr <? Z.of_nat (length shs0));
      [|apply range_only_on_any, range_only_ret].
    destruct (section_at shs0 (h_shstrndx hdr));
      [|apply range_only_on_any, range_only_ret].
    apply range_only_on_mapM; [intros sh; frame_auto|].
    intros sh. apply (range_only_on_readCString data _ _ Hshort).
    intros name. apply range_only_on_any, range_only_ret. }
  apply range_only_on_bind; [apply frame_parseSymbols| |intros syms].
  { apply range_only_on_mapM; [intros sh; apply frame_symbolTable|].
    intros sh. unfold symbolTable.
    apply range_only_on_bind;
      [apply frame_get_is64|apply range_only_on_any, range_only_get_is64|].
    intros w. cbv zeta.
    apply range_only_on_bind;
      [apply frame_count_loop; intros i; apply frame_symbol| |].
    - apply range_only_on_count_loop; [intros i; apply frame_symbol|].
      intros i. apply range_only_on_symbol. exact Hshort.
    - intros l. apply range_only_on_any, range_only_ret. }
  apply range_only_on_bind;
    [apply frame_parseDynamic
    |apply range_only_on_any, range_only_parseDynamic|intros dyn].
  apply range_only_on_bind;
    [apply frame_parseRelocations| |intros rels].
  { apply range_only_on_any. apply range_only_mapM. intros sh.
    unfold relocationTable.
    apply range_only_bind; [apply range_only_get_is64|]. intros w. cbv zeta.
    apply range_only_bind; [|intros l; apply range_only_ret].
    apply range_only_count_loop. intros i. apply range_only_relEntry. }
  apply range_only_on_bind;
    [apply frame_mapM; intros sh; frame_auto
    |apply range_only_on_parseStringTables; exact Hshort
    |intros strs; apply range_only_on_any, range_only_ret].
Qed.

(** X13.  The parser always comes to an end on a file it reads as
    32-bit (class byte other than 2): whatever the header and the
    section headers declare, it returns a model, answers [null] or
    raises within a number of loop turns bounded by the length of the
    buffer and by 2^32; and on a buffer shorter than the longest string
    of the engine (2^29 - 24 bytes) what it raises can only be
    [RangeError]. *)
Theorem parse_of_32bit_file_ends (fuel : nat) (data : Buffer) :
  safe_length data ->
  buf_get data 4 <> Some 2 ->
  buf_length data < Z.of_nat fuel -> 2 ^ 32 <= Z.of_nat fuel ->
  fst (parseElf fuel data) <> OutOfFuel /\
  (buf_length data < MAX_STRING_LENGTH ->
   forall e, fst (parseElf fuel data) = Throw e -> e = RangeError).
Proof.
  intros Hlen Hclass Hfuel Hbig. unfold safe_length in Hlen.
  split.
  2:{ intros Hshort e. unfold parseElf.
      destruct (buf_length data <? 52); [discriminate|].
      destruct (bad_magic data); [discriminate|].
      match goal with |- context [parseBody ?f ?c ?d ?r] =>
        pose proof (range_only_on_parseBody f data c d Hshort r e eq_refl)
          as Hr;
        destruct (parseBody f c d r) as [[m|e'|] r'] end;
        cbn [fst] in *; try discriminate.
      intros E. apply Hr. congruence. }
  unfold parseElf.
  destruct (buf_length data <? 52); [discriminate|].
  destruct (bad_magic data); [discriminate|].
  assert (Hw : is_num (buf_get data 4) 2 = false).
  { destruct (buf_get data 4) as [c|]; [|reflexivity]. simpl.
    apply Z.eqb_neq. congruence. }
  rewrite Hw.
  set (le := is_num (buf_get data 5) 1).
  set (r0 := mkReader data false le 0).
  assert (A0 : reads_as data false le r0) by (repeat split).
  assert (Hbody : fst (parseBody fuel (buf_get data 4) (buf_get data 5) r0)
                  <> OutOfFuel).
  { unfold parseBody.
    unfold bind at 1.
    pose proof (fuel_free_parseHeader (buf_get data 4) (buf_get data 5) r0)
      as F1.
    destruct (parseHeader (buf_get data 4) (buf_get data 5) r0)
      as [[h|e|] r1] eqn:E1; simpl in F1; [|discriminate|congruence].
    pose proof (reads_as_same _ _ _ _ _ A0
                  (frame_run _ _ _ _ (frame_parseHeader _ _) E1)) as A1.
    unfold bind at 1.
    pose proof (fuel_free_mapM _ (indices (h_phnum h))
                  (fuel_free_programHeader (h_phoff h) (h_phentsize h)) r1)
      as F2.
    fold (parseProgramHeaders h) in F2.
    destruct (parseProgramHeaders h r1) as [[phs|e|] r2] eqn:E2;
      simpl in F2; [|discriminate|congruence].
    pose proof (reads_as_same _ _ _ _ _ A1
                  (frame_run _ _ _ _ (frame_parseProgramHeaders _) E2)) as A2.
    unfold bind at 1.
    pose proof (fuel_free_mapM _ (indices (h_shnum h))
                  (fuel_free_sectionHeader (h_shoff h) (h_shentsize h)) r2)
      as F3.
    fold (parseSectionHeaders h) in F3.
    destruct (parseSectionHeaders h r2) as [[shs0|e|] r3] eqn:E3;
      simpl in F3; [|discriminate|congruence].
    pose proof (reads_as_same _ _ _ _ _ A2
                  (frame_run _ _ _ _ (frame_parseSectionHeaders _) E3)) as A3.
    pose proof (parseSectionHeaders_ranges _ _ _ _ _ _ _ A2 Hlen E3) as Hr0.
    unfold bind at 1, get_buf.
    unfold bind at 1.
    pose proof (fuel_free_resolveSectionNames (buf r3) (h_shstrndx h) shs0 r3)
      as Fn.
    pose proof (resolveSectionNames_reader (buf r3) (h_shstrndx h) shs0 r3)
      as Hrd.
    destruct (resolveSectionNames (buf r3) (h_shstrndx h) shs0 r3)
      as [[shs|e|] r3'] eqn:En; simpl in Fn, Hrd;
      [|discriminate|congruence].
    subst r3'.
    assert (Hr : Forall (fun sh => 0 <= sh_offset sh < 256 ^ wordSize false /\
                                   0 <= sh_size sh < 256 ^ wordSize false /\
                                   0 <= sh_entsize sh < 256 ^ wordSize false)
                   shs).
    { eapply resolveSectionNames_Forall; [|exact En|exact Hr0].
      intros sh n. destruct sh; simpl. trivial. }
    assert (Hu : unsigned_sections shs).
    { eapply Forall_impl; [|exact Hr]. intros sh (Ho & _ & He).
      split; lia. }
    destruct (table_loops_end_aux fuel data false shs Hlen Hfuel Hu)
      as (T1 & T2 & T3).
    unfold bind at 1.
    pose proof (T1 r3 (reads_as_from _ _ _ _ A3)) as F4.
    destruct (parseSymbols fuel shs r3) as [[syms|e|] r4] eqn:E4;
      simpl in F4; [|discriminate|congruence].
    pose proof (reads_as_same _ _ _ _ _ A3
                  (frame_run _ _ _ _ (frame_parseSymbols _ _) E4)) as A4.
    unfold bind at 1.
    pose proof (T2 r4 (reads_as_from _ _ _ _ A4)) as F5.
    destruct (parseDynamic fuel shs [] 0 r4) as [[dyn|e|] r5] eqn:E5;
      simpl in F5; [|discriminate|congruence].
    pose proof (reads_as_same _ _ _ _ _ A4
                  (frame_run _ _ _ _ (frame_parseDynamic _ _ _ _) E5)) as A5.
    unfold bind at 1.
    pose proof (T3 syms r5 (reads_as_from _ _ _ _ A5)) as F6.
    destruct (parseRelocations fuel shs syms r5) as [[rels|e|] r6] eqn:E6;
      simpl in F6; [|discriminate|congruence].
    unfold bind.
    assert (F7 : fst (parseStringTables fuel shs r6) <> OutOfFuel).
    { apply parseStringTables_ends.
      eapply Forall_impl; [|exact Hr].
      intros sh (Ho & Hs & _). cbn [wordSize] in *.
      change (256 ^ 4) with 4294967296 in *.
      change (2 ^ 32) with 4294967296 in *.
      rewrite JSNumberFacts.two53. lia. }
    destruct (parseStringTables fuel shs r6) as [[strs|e|] r7];
      simpl in *; [discriminate|discriminate|congruence]. }
  destruct (parseBody fuel (buf_get data 4) (buf_get data 5) r0)
    as [[m|e|] r']; simpl in *; [discriminate|discriminate|congruence].
Qed.

Lemma parse_of_32bit_file_ends_witness :
  fst (parseElf (Z.to_nat (2 ^ 32)) overrun_strtab_elf) <> OutOfFuel.
Proof.
  apply (parse_of_32bit_file_ends (Z.to_nat (2 ^ 32)) overrun_strtab_elf).
  - vm_compute; reflexivity.
  - vm_compute; discriminate.
  - rewrite Z2Nat.id by lia. vm_compute; reflexivity.
  - rewrite Z2Nat.id by lia. lia.
Defined.

(** * Properties of the hex editor document *)

(** ** Index writes *)

Lemma to_uint8_byte_val (b : byte) : to_uint8 (Some (byte_val b)) = b.
Proof.
  unfold to_uint8. pose proof (byte_val_range b) as Hr.
  rewrite Z.mod_small by lia. unfold byte_val.
  rewrite N2Z.id. rewrite Byte.of_to_N. reflexivity.
Qed.

Lemma byte_val_to_uint8 (x : Z) : byte_val (to_uint8 (Some x)) = x mod 256.
Proof.
  unfold to_uint8, byte_val.
  assert (Hr : 0 <= x mod 256 < 256) by (apply Z.mod_pos_bound; lia).
  destruct (Byte.of_N (Z.to_N (x mod 256))) as [b|] eqn:E.
  - apply Byte.to_of_N in E. rewrite E. rewrite Z2N.id by lia.
    reflexivity.
  - apply Byte.of_N_None_iff in E. lia.
Qed.

Lemma firstn_app_exact {A} (l1 l2 : list A) :
  firstn (length l1) (l1 ++ l2) = l1.
Proof. induction l1 as [|a l1 IH]; simpl; [destruct l2|]; congruence. Qed.

Lemma skipn_app_exact {A} (l1 l2 : list A) :
  skipn (length l1) (l1 ++ l2) = l2.
Proof. induction l1 as [|a l1 IH]; simpl; [reflexivity|exact IH]. Qed.

Lemma skipn_S_app_exact {A} (l1 l2 : list A) (x : A) :
  skipn (S (length l1)) (l1 ++ x :: l2) = l2.
Proof. induction l1 as [|a l1 IH]; simpl; [reflexivity|exact IH]. Qed.

(** A buffer cut at an index inside it. *)
Lemma buf_split (b : Buffer) (i : Z) :
  0 <= i < buf_length b ->
  exists l1 x l2, b = l1 ++ x :: l2 /\ length l1 = Z.to_nat i.
Proof.
  unfold buf_length. intros H.
  destruct (nth_error b (Z.to_nat i)) as [x|] eqn:E.
  - apply nth_error_split in E as (l1 & l2 & -> & Hl).
    exists l1, x, l2. split; [reflexivity|exact Hl].
  - apply nth_error_None in E. lia.
Qed.

Lemma buf_set_split (l1 l2 : list byte) (x : byte) (v : option Z) :
  buf_set (l1 ++ x :: l2) (Z.of_nat (length l1)) v = l1 ++ to_uint8 v :: l2.
Proof.
  unfold buf_set, buf_length. rewrite length_app. cbn [length].
  destruct (Z.leb_spec 0 (Z.of_nat (length l1))); [|lia].
  destruct (Z.ltb_spec (Z.of_nat (length l1))
              (Z.of_nat (length l1 + S (length l2)))); [|lia].
  cbn [andb]. rewrite Nat2Z.id. rewrite firstn_app_exact.
  rewrite skipn_S_app_exact. reflexivity.
Qed.

Lemma buf_get_split (l1 l2 : list byte) (x : byte) :
  buf_get (l1 ++ x :: l2) (Z.of_nat (length l1)) = Some (byte_val x).
Proof.
  unfold buf_get. destruct (Z.ltb_spec (Z.of_nat (length l1)) 0); [lia|].
  rewrite Nat2Z.id. rewrite nth_error_app2 by lia.
  rewrite Nat.sub_diag. reflexivity.
Qed.

Lemma buf_set_out (b : Buffer) (i : Z) (v : option Z) :
  i < 0 \/ buf_length b <= i -> buf_set b i v = b.
Proof.
  unfold buf_set. intros H.
  destruct (Z.leb_spec 0 i); simpl; [|reflexivity].
  destruct (Z.ltb_spec i (buf_length b)); [lia|reflexivity].
Qed.

Lemma buf_set_length (b : Buffer) (i : Z) (v : option Z) :
  buf_length (buf_set b i v) = buf_length b.
Proof.
  destruct (Z.lt_ge_cases i 0) as [Hn|H0];
    [rewrite buf_set_out by lia; reflexivity|].
  destruct (Z.lt_ge_cases i (buf_length b)) as [H1|H1];
    [|rewrite buf_set_out by lia; reflexivity].
  destruct (buf_split b i ltac:(lia)) as (l1 & x & l2 & -> & Hl).
  replace i with (Z.of_nat (length l1)) by lia.
  rewrite buf_set_split. unfold buf_length. rewrite !length_app.
  reflexivity.
Qed.

Lemma buf_get_set_same (b : Buffer) (i : Z) (v : option Z) :
  0 <= i < buf_length b ->
  buf_get (buf_set b i v) i = Some (byte_val (to_uint8 v)).
Proof.
  intros H. destruct (buf_split b i H) as (l1 & x & l2 & -> & Hl).
  replace i with (Z.of_nat (length l1)) by lia.
  rewrite buf_set_split. apply buf_get_split.
Qed.

Lemma buf_get_set_other (b : Buffer) (i j : Z) (v : option Z) :
  j <> i -> buf_get (buf_set b i v) j = buf_get b j.
Proof.
  intros Hne.
  destruct (Z.lt_ge_cases i 0) as [Hn|H0];
    [rewrite buf_set_out by lia; reflexivity|].
  destruct (Z.lt_ge_cases i (buf_length b)) as [H1|H1];
    [|rewrite buf_set_out by lia; reflexivity].
  destruct (buf_split b i ltac:(lia)) as (l1 & x & l2 & -> & Hl).
  replace i with (Z.of_nat (length l1)) by lia.
  rewrite buf_set_split. unfold buf_get.
  destruct (Z.ltb_spec j 0); [reflexivity|]. f_equal.
  destruct (Z.lt_ge_cases j i) as [Hlt|Hge].
  - rewrite !nth_error_app1 by lia. reflexivity.
  - rewrite !nth_error_app2 by lia.
    replace (Z.to_nat j - length l1)%nat
      with (S (Z.to_nat j - S (length l1)))%nat by lia.
    reflexivity.
Qed.

(** Writing back the value an index read gave changes nothing. *)
Lemma buf_set_get (b : Buffer) (i : Z) : buf_set b i (buf_get b i) = b.
Proof.
  destruct (Z.lt_ge_cases i 0) as [Hn|H0];
    [apply buf_set_out; lia|].
  destruct (Z.lt_ge_cases i (buf_length b)) as [H1|H1];
    [|apply buf_set_out; lia].
  destruct (buf_split b i ltac:(lia)) as (l1 & x & l2 & -> & Hl).
  replace i with (Z.of_nat (length l1)) by lia.
  rewrite buf_get_split, buf_set_split, to_uint8_byte_val. reflexivity.
Qed.

(** A second write at the same index replaces the first. *)
Lemma buf_set_set (b : Buffer) (i : Z) (u v : option Z) :
  buf_set (buf_set b i u) i v = buf_set b i v.
Proof.
  destruct (Z.lt_ge_cases i 0) as [Hn|H0];
    [rewrite !buf_set_out by (rewrite ?buf_set_length; lia); reflexivity|].
  destruct (Z.lt_ge_cases i (buf_length b)) as [H1|H1];
    [|rewrite !buf_set_out by (rewrite ?buf_set_length; lia); reflexivity].
  destruct (buf_split b i ltac:(lia)) as (l1 & x & l2 & -> & Hl).
  replace i with (Z.of_nat (length l1)) by lia.
  rewrite !buf_set_split. reflexivity.
Qed.

(** ** Edits and their undoing *)

Lemma undoEdit_applyEdit (doc : ElfDocument) (offset : Z)
    (newValue : option Z) :
  fst (undoEdit (fst (applyEdit doc offset newValue))) = doc.
Proof.
  unfold undoEdit, applyEdit. cbn [fst doc_edits doc_data doc_savedEditCount].
  rewrite rev_unit. cbn [fst ed_offset ed_oldValue].
  rewrite removelast_last, buf_set_set, buf_set_get.
  destruct doc. reflexivity.
Qed.

(** X14.  Undoing right after an edit gives back the document as it
    was before the edit, buffer and edit log alike, and reports the
    offset and the value the edit had replaced; this holds for every
    offset, inside or outside the buffer, and every value. *)
Theorem undo_reverts_the_last_edit (doc : ElfDocument) (offset : Z)
    (newValue : option Z) :
  undoEdit (fst (applyEdit doc offset newValue)) =
  (doc, Some (offset, buf_get (doc_data doc) offset)) /\
  snd (applyEdit doc offset newValue) = buf_get (doc_data doc) offset.
Proof.
  split; [|reflexivity].
  pose proof (undoEdit_applyEdit doc offset newValue) as H.
  unfold undoEdit, applyEdit in *.
  cbn [fst doc_edits doc_data doc_savedEditCount] in *.
  rewrite rev_unit in *. cbn [fst snd ed_offset ed_oldValue] in *.
  rewrite H. reflexivity.
Qed.

Lemma undoEdits_writeBytes_from (bytes : list (option Z)) :
  forall doc offset i,
    undoEdits (length bytes) (writeBytes_from doc offset i bytes) = doc.
Proof.
  induction bytes as [|b rest IH]; intros doc offset i; [reflexivity|].
  cbn [length writeBytes_from]. unfold undoEdits in *.
  rewrite Nat.iter_succ. rewrite IH. apply undoEdit_applyEdit.
Qed.

(** X15.  [writeBytes] logs one edit per byte, so undoing as many times
    as bytes were written gives back the document as it was, whatever
    the offset and the values. *)
Theorem undoing_every_byte_reverts_writeBytes (doc : ElfDocument)
    (offset : Z) (bytes : list (option Z)) :
  undoEdits (length bytes) (writeBytes doc offset bytes) = doc /\
  length (doc_edits (writeBytes doc offset bytes)) =
    (length (doc_edits doc) + length bytes)%nat.
Proof.
  split; [apply undoEdits_writeBytes_from|].
  unfold writeBytes. generalize 0 as i. revert doc.
  induction bytes as [|b rest IH]; intros doc i; cbn [writeBytes_from length];
    [lia|].
  rewrite IH. unfold applyEdit. cbn [fst doc_edits].
  rewrite length_app. simpl. lia.
Qed.

(** X16.  An edit changes at most the byte at its offset: the buffer
    keeps its length and every other byte; an offset inside the buffer
    then holds the new value modulo 256, while an offset outside of it
    leaves the whole buffer as it was, though the edit is still logged
    and the document counts as modified. *)
Theorem edit_writes_one_byte (doc : ElfDocument) (offset x : Z) :
  let doc' := fst (applyEdit doc offset (Some x)) in
  buf_length (doc_data doc') = buf_length (doc_data doc) /\
  (forall j, j <> offset ->
             buf_get (doc_data doc') j = buf_get (doc_data doc) j) /\
  (0 <= offset < buf_length (doc_data doc) ->
   buf_get (doc_data doc') offset = Some (x mod 256)) /\
  (offset < 0 \/ buf_length (doc_data doc) <= offset ->
   doc_data doc' = doc_data doc) /\
  (isDirty doc = false -> isDirty doc' = true).
Proof.
  cbv zeta. unfold applyEdit. cbn [fst doc_data doc_edits].
  split; [apply buf_set_length|].
  split; [intros j Hj; apply buf_get_set_other; exact Hj|].
  split; [intros Hin; rewrite buf_get_set_same by exact Hin;
          rewrite byte_val_to_uint8; reflexivity|].
  split; [intros Hout; apply buf_set_out; exact Hout|].
  unfold isDirty. cbn [doc_edits doc_savedEditCount].
  rewrite length_app. simpl. intros H.
  apply Bool.negb_false_iff in H. apply Z.eqb_eq in H.
  apply Bool.negb_true_iff. apply Z.eqb_neq. lia.
Qed.

(** X17.  [isDirty] compares the number of logged edits with the number
    at the last save and looks at nothing else: after a save, undoing
    one edit and making another one leaves it [false], even when the
    new edit put a byte into the buffer that the saved file does not
    have. *)
Theorem isDirty_only_counts_edits (doc : ElfDocument) (offset : Z)
    (newValue : option Z) :
  doc_edits doc <> [] ->
  let saved := save doc in
  let doc' := fst (applyEdit (fst (undoEdit (fst saved))) offset newValue) in
  isDirty doc' = false /\
  (0 <= offset < buf_length (snd saved) ->
   buf_get (snd saved) offset <> Some (byte_val (to_uint8 newValue)) ->
   doc_data doc' <> snd saved).
Proof.
  intros Hne. cbv zeta. unfold save. cbn [fst snd].
  unfold undoEdit. cbn [doc_edits doc_data doc_savedEditCount].
  destruct (rev (doc_edits doc)) as [|e l] eqn:Er.
  { exfalso. apply Hne. apply (f_equal (@rev Edit)) in Er.
    rewrite rev_involutive in Er. exact Er. }
  unfold applyEdit. cbn [fst doc_edits doc_data doc_savedEditCount].
  assert (El : doc_edits doc = rev l ++ [e]).
  { apply (f_equal (@rev Edit)) in Er. rewrite rev_involutive in Er.
    exact Er. }
  split.
  - unfold isDirty. cbn [doc_edits doc_savedEditCount].
    rewrite El. rewrite removelast_last. rewrite !length_app. simpl.
    apply Bool.negb_false_iff. apply Z.eqb_eq. reflexivity.
  - intros Hin Hdiff Heq.
    apply Hdiff. rewrite <- Heq at 1.
    apply buf_get_set_same. rewrite buf_set_length. exact Hin.
Qed.

Lemma isDirty_only_counts_edits_witness :
  let doc := fst (applyEdit (openDocument [x7f; x45]) 0 (Some 1)) in
  let saved := save doc in
  let doc' := fst (applyEdit (fst (undoEdit (fst saved))) 0 (Some 2)) in
  isDirty doc' = false /\ doc_data doc' <> snd saved.
Proof.
  cbv zeta.
  destruct (isDirty_only_counts_edits
              (fst (applyEdit (openDocument [x7f; x45]) 0 (Some 1)))
              0 (Some 2)) as [H1 H2].
  - simpl. discriminate.
  - split; [exact H1|]. apply H2.
    + vm_compute. split; [discriminate|reflexivity].
    + vm_compute. discriminate.
Defined.

(** ** Writing and reading back a run of bytes *)

Lemma splice_nil (b : Buffer) (p : Z) :
  0 <= p <= buf_length b -> splice b p [] = b.
Proof.
  intros H. unfold splice. simpl. rewrite Nat.add_0_r.
  apply firstn_skipn.
Qed.

Lemma firstn_S_app_exact {A} (l1 l2 : list A) (x : A) :
  firstn (S (length l1)) (l1 ++ x :: l2) = l1 ++ [x].
Proof.
  induction l1 as [|a l1 IH]; [reflexivity|].
  cbn [length app]. rewrite firstn_cons. f_equal. exact IH.
Qed.

Lemma skipn_past_app {A} (l1 l2 : list A) (x : A) (k : nat) :
  skipn (S (length l1) + k) (l1 ++ x :: l2) = skipn k l2 /\
  skipn (length l1 + S k) (l1 ++ x :: l2) = skipn k l2.
Proof.
  induction l1 as [|a l1 IH]; [split; reflexivity|].
  destruct IH as [IH1 IH2]. split; [exact IH1|exact IH2].
Qed.

Lemma splice_cons (b : Buffer) (p : Z) (x : byte) (new : list byte) :
  0 <= p < buf_length b ->
  splice (buf_set b p (Some (byte_val x))) (p + 1) new =
  splice b p (x :: new).
Proof.
  intros H. destruct (buf_split b p H) as (l1 & y & l2 & -> & Hl).
  replace p with (Z.of_nat (length l1)) by lia.
  rewrite buf_set_split, to_uint8_byte_val. unfold splice.
  replace (Z.to_nat (Z.of_nat (length l1) + 1)) with (S (length l1)) by lia.
  rewrite Nat2Z.id. cbn [length].
  rewrite firstn_S_app_exact, firstn_app_exact.
  rewrite (proj1 (skipn_past_app l1 l2 x (length new))).
  rewrite (proj2 (skipn_past_app l1 l2 y (length new))).
  rewrite <- app_assoc. reflexivity.
Qed.

(** What [writeBytes] leaves in the buffer when the run fits. *)
Lemma writeBytes_from_data (bs : list byte) :
  forall doc offset i,
    buf_length (doc_data doc) < 9007199254740992 ->
    0 <= offset -> 0 <= i ->
    offset + i + Z.of_nat (length bs) <= buf_length (doc_data doc) ->
    doc_data (writeBytes_from doc offset i (as_values bs)) =
    splice (doc_data doc) (offset + i) bs.
Proof.
  induction bs as [|x bs IH]; intros doc offset i Hlen Ho Hi Hfit.
  - simpl. rewrite splice_nil by (simpl in Hfit; lia). reflexivity.
  - cbn [as_values map writeBytes_from]. fold (as_values bs).
    cbn [length] in Hfit.
    rewrite !JSNumberFacts.add_small by (rewrite ?JSNumberFacts.two53; lia).
    rewrite IH.
    + unfold applyEdit. cbn [fst doc_data].
      replace (offset + (i + 1)) with (offset + i + 1) by lia.
      apply splice_cons. lia.
    + unfold applyEdit. cbn [fst doc_data]. rewrite buf_set_length.
      exact Hlen.
    + exact Ho.
    + lia.
    + unfold applyEdit. cbn [fst doc_data]. rewrite buf_set_length. lia.
Qed.

Lemma splice_window (b : Buffer) (p : Z) (new : list byte) :
  0 <= p -> p + Z.of_nat (length new) <= buf_length b ->
  firstn (length new) (skipn (Z.to_nat p) (splice b p new)) = new.
Proof.
  intros H0 H1. unfold splice, buf_length in *.
  assert (Hl : length (firstn (Z.to_nat p) b) = Z.to_nat p)
    by (rewrite length_firstn; lia).
  rewrite <- Hl at 1. rewrite skipn_app_exact. apply firstn_app_exact.
Qed.

Lemma splice_length (b : Buffer) (p : Z) (new : list byte) :
  0 <= p -> p + Z.of_nat (length new) <= buf_length b ->
  buf_length (splice b p new) = buf_length b.
Proof.
  intros H0 H1. unfold splice, buf_length in *.
  rewrite !length_app, length_firstn, length_skipn. lia.
Qed.

(** The bytes of a window that does not meet the spliced run are those
    of the buffer. *)
Lemma splice_window_other (b : Buffer) (p : Z) (new : list byte)
    (q : Z) (n : nat) :
  0 <= p -> p + Z.of_nat (length new) <= buf_length b ->
  0 <= q ->
  q + Z.of_nat n <= p \/ p + Z.of_nat (length new) <= q ->
  firstn n (skipn (Z.to_nat q) (splice b p new)) =
  firstn n (skipn (Z.to_nat q) b).
Proof.
  intros H0 H1 Hq Hdis. unfold buf_length in *.
  apply nth_error_ext. intros k.
  rewrite !nth_error_firstn.
  destruct (Nat.ltb_spec k n) as [Hk|Hk]; [|reflexivity].
  rewrite !nth_error_skipn. unfold splice.
  assert (Hl : length (firstn (Z.to_nat p) b) = Z.to_nat p)
    by (rewrite length_firstn; lia).
  destruct Hdis as [Hb|Ha].
  - rewrite nth_error_app1 by lia.
    rewrite nth_error_firstn.
    destruct (Nat.ltb_spec (Z.to_nat q + k) (Z.to_nat p)); [reflexivity|lia].
  - rewrite nth_error_app2 by lia.
    rewrite nth_error_app2 by lia.
    rewrite nth_error_skipn. f_equal. lia.
Qed.

Lemma subarray_window (b : Buffer) (offset size : Z) :
  buf_length b < 9007199254740992 ->
  0 <= offset -> 0 <= size -> offset + size <= buf_length b ->
  subarray b offset (JSNumber.add offset size) =
  firstn (Z.to_nat size) (skipn (Z.to_nat offset) b).
Proof.
  intros Hlen Ho Hs Hfit. unfold subarray, adjustOffset.
  rewrite (JSNumberFacts.add_small offset size)
    by (rewrite ?JSNumberFacts.two53; lia).
  destruct (Z.ltb_spec offset 0); [lia|].
  destruct (Z.ltb_spec (offset + size) 0); [lia|].
  rewrite !Z.min_l by lia.
  destruct (Z.ltb_spec offset (offset + size)) as [Hlt|Hge].
  - f_equal. f_equal. lia.
  - replace size with 0 by lia. reflexivity.
Qed.

Lemma readBytes_writeBytes (doc : ElfDocument) (offset : Z)
    (bs : list byte) :
  safe_length (doc_data doc) -> 0 <= offset ->
  offset + Z.of_nat (length bs) <= buf_length (doc_data doc) ->
  let doc' := writeBytes doc offset (as_values bs) in
  readBytes (Some doc') offset (Z.of_nat (length bs)) =
    Some (flat_map (fun b => byteHex (byte_val b)) bs) /\
  buf_length (doc_data doc') = buf_length (doc_data doc) /\
  forall j, j < offset \/ offset + Z.of_nat (length bs) <= j ->
            buf_get (doc_data doc') j = buf_get (doc_data doc) j.
Proof.
  intros Hlen Ho Hfit. cbv zeta. unfold safe_length in Hlen.
  assert (Ed : doc_data (writeBytes doc offset (as_values bs)) =
               splice (doc_data doc) offset bs).
  { unfold writeBytes.
    rewrite (writeBytes_from_data bs doc offset 0 Hlen Ho) by lia.
    f_equal. lia. }
  assert (El : buf_length (splice (doc_data doc) offset bs) =
               buf_length (doc_data doc))
    by (apply splice_length; assumption).
  split; [|split].
  - unfold readBytes. rewrite Ed. f_equal.
    rewrite subarray_window by (rewrite ?El; lia).
    rewrite Nat2Z.id. rewrite splice_window by assumption. reflexivity.
  - rewrite Ed. exact El.
  - intros j Hj. rewrite Ed. unfold buf_get.
    destruct (Z.ltb_spec j 0); [reflexivity|]. f_equal.
    pose proof (splice_window_other (doc_data doc) offset bs j 1 Ho Hfit
                  ltac:(lia) ltac:(lia)) as Hw.
    assert (Hone : forall l : list byte,
               nth_error l (Z.to_nat j) =
               nth_error (firstn 1 (skipn (Z.to_nat j) l)) 0).
    { intros l. rewrite nth_error_firstn.
      change (0 <? 1)%nat with true. cbv iota.
      rewrite nth_error_skipn. rewrite Nat.add_0_r. reflexivity. }
    rewrite (Hone (splice _ _ _)), (Hone (doc_data doc)). rewrite Hw.
    reflexivity.
Qed.

(** X18.  Bytes written with [writeBytes] into a span that fits in the
    buffer are what [readBytes] then reads in that span, two lower-case
    hexadecimal characters per byte; the buffer keeps its length, and
    the bytes outside the span are left as they were. *)
Theorem readBytes_after_writeBytes (doc : ElfDocument) (offset : Z)
    (bs : list byte) :
  safe_length (doc_data doc) -> 0 <= offset ->
  offset + Z.of_nat (length bs) <= buf_length (doc_data doc) ->
  let doc' := writeBytes doc offset (as_values bs) in
  readBytes (Some doc') offset (Z.of_nat (length bs)) =
    Some (flat_map (fun b => byteHex (byte_val b)) bs) /\
  buf_length (doc_data doc') = buf_length (doc_data doc) /\
  forall j, j < offset \/ offset + Z.of_nat (length bs) <= j ->
            buf_get (doc_data doc') j = buf_get (doc_data doc) j.
Proof. exact (readBytes_writeBytes doc offset bs). Qed.

Lemma readBytes_after_writeBytes_witness :
  readBytes
    (Some (writeBytes (openDocument ELF_MAGIC) 1 (as_values [xab; x05])))
    1 2 = Some (js "ab05").
Proof.
  destruct (readBytes_after_writeBytes (openDocument ELF_MAGIC) 1 [xab; x05])
    as (H & _).
  - vm_compute; reflexivity.
  - lia.
  - vm_compute; discriminate.
  - exact H.
Defined.

(** X19.  After [writeBytes] has put bytes into a span that fits in the
    buffer, re-reading that span gives the number the bytes spell in the
    byte order of the file, and re-reading any span that does not
    overlap it gives what it gave before: an edit made through the tree
    changes the item it was made on and no item beside it. *)
Theorem edited_span_holds_the_new_value (doc : ElfDocument) (offset : Z)
    (bs : list byte) (le : bool) :
  safe_length (doc_data doc) -> 0 <= offset ->
  offset + Z.of_nat (length bs) <= buf_length (doc_data doc) ->
  let data' := doc_data (writeBytes doc offset (as_values bs)) in
  reread data' le (offset, Z.of_nat (length bs)) =
    (if le then le_value (map byte_val bs)
     else be_value (map byte_val bs)) /\
  forall sp : Span,
    0 <= fst sp -> 0 <= snd sp ->
    fst sp + snd sp <= offset \/ offset + Z.of_nat (length bs) <= fst sp ->
    reread data' le sp = reread (doc_data doc) le sp.
Proof.
  intros Hlen Ho Hfit. cbv zeta. unfold safe_length in Hlen.
  assert (Ed : doc_data (writeBytes doc offset (as_values bs)) =
               splice (doc_data doc) offset bs).
  { unfold writeBytes.
    rewrite (writeBytes_from_data bs doc offset 0 Hlen Ho) by lia.
    f_equal. lia. }
  rewrite Ed. unfold reread, field. cbn [fst snd]. split.
  - rewrite Nat2Z.id. rewrite splice_window by assumption. reflexivity.
  - intros [q n] Hq Hn Hdis. cbn [fst snd] in *.
    rewrite (splice_window_other (doc_data doc) offset bs q (Z.to_nat n)
               Ho Hfit Hq ltac:(lia)).
    reflexivity.
Qed.

Lemma edited_span_holds_the_new_value_witness :
  let data' := doc_data (writeBytes (openDocument full64_elf) 16
                           (as_values [x03; x00])) in
  reread data' true (16, 2) = 3 /\
  reread data' true (18, 2) = reread full64_elf true (18, 2).
Proof.
  cbv zeta.
  destruct (edited_span_holds_the_new_value (openDocument full64_elf) 16
              [x03; x00] true) as (H1 & H2).
  - vm_compute; reflexivity.
  - lia.
  - vm_compute; discriminate.
  - split; [exact H1|]. apply (H2 (18, 2)); simpl; lia.
Defined.

(** ** The edit dialog *)

Lemma fround_double (x : Z) :
  0 <= x < 2 ^ 53 -> JSNumber.mul x 2 = x * 2.
Proof.
  intros Hx. unfold JSNumber.mul.
  destruct (Z.le_gt_cases (x * 2) (2 ^ 53)) as [Hs|Hb];
    [apply JSNumberFacts.fround_exact; lia|].
  unfold JSNumber.fround.
  destruct (Z.ltb_spec (x * 2) 0); [lia|].
  unfold JSNumber.fround_pos.
  destruct (Z.ltb_spec (x * 2) (2 ^ 53)); [lia|].
  assert (Hlog : Z.log2 (x * 2) = 53).
  { apply Z.log2_unique; [lia|]. change (2 ^ (53 + 1)) with (2 ^ 53 * 2).
    lia. }
  rewrite Hlog. change (53 - 52) with 1. change (2 ^ 1) with 2.
  change (2 ^ (1 - 1)) with 1. cbv zeta.
  rewrite Z.div_mul by lia. rewrite Z.mod_mul by lia. reflexivity.
Qed.

Lemma hex_digit_cases (c : Z) : is_hex_digit c = true -> In c hexDigits.
Proof.
  unfold is_hex_digit, hex_value. intros H.
  assert (Hc : 48 <= c <= 57 \/ 97 <= c <= 102 \/ 65 <= c <= 70).
  { destruct (Z.leb_spec 48 c); destruct (Z.leb_spec c 57);
      cbn [andb] in H; try lia;
      destruct (Z.leb_spec 97 c); destruct (Z.leb_spec c 102);
      cbn [andb] in H; try lia;
      destruct (Z.leb_spec 65 c); destruct (Z.leb_spec c 70);
      cbn [andb] in H; try lia; discriminate. }
  unfold hexDigits. simpl. lia.
Qed.

(** Two hexadecimal digits are read as the byte they spell, and that
    byte is printed as the same two digits in lower case. *)
Lemma parseInt16_pair (a b : Z) :
  is_hex_digit a = true -> is_hex_digit b = true ->
  exists x, parseInt16 [a; b] = Some x /\ 0 <= x < 256 /\
            byteHex x = [lowerHex a; lowerHex b].
Proof.
  intros Ha Hb. apply hex_digit_cases in Ha, Hb.
  set (check := fun a b =>
         match parseInt16 [a; b] with
         | Some x => (0 <=? x) && (x <? 256) &&
                     jsstring_eqb (byteHex x) [lowerHex a; lowerHex b]
         | None => false
         end).
  assert (Hall : forallb (fun a => forallb (check a) hexDigits) hexDigits
                 = true) by (vm_compute; reflexivity).
  rewrite forallb_forall in Hall. specialize (Hall a Ha).
  rewrite forallb_forall in Hall. specialize (Hall b Hb).
  unfold check in Hall.
  destruct (parseInt16 [a; b]) as [x|]; [|discriminate].
  apply Bool.andb_true_iff in Hall as [Hr He].
  apply Bool.andb_true_iff in Hr as [H0 H1].
  exists x. split; [reflexivity|]. split; [lia|].
  apply jsstring_eqb_eq. exact He.
Qed.

(** A byte is printed as two hexadecimal digits, which are read back as
    that byte. *)
Lemma byteHex_byte (b : byte) :
  exists c1 c2,
    byteHex (byte_val b) = [c1; c2] /\
    is_hex_digit c1 = true /\ is_hex_digit c2 = true /\
    parseInt16 [c1; c2] = Some (byte_val b).
Proof.
  set (check := fun x =>
         match byteHex x with
         | [c1; c2] =>
             is_hex_digit c1 && is_hex_digit c2 &&
             match parseInt16 [c1; c2] with
             | Some y => y =? x
             | None => false
             end
         | _ => false
         end).
  assert (Hall : forallb check (map Z.of_nat (seq 0 256)) = true)
    by (vm_compute; reflexivity).
  rewrite forallb_forall in Hall.
  pose proof (byte_val_range b) as Hr.
  specialize (Hall (byte_val b)).
  assert (Hin : In (byte_val b) (map Z.of_nat (seq 0 256))).
  { apply in_map_iff. exists (Z.to_nat (byte_val b)).
    split; [lia|]. apply in_seq. lia. }
  specialize (Hall Hin). unfold check in Hall.
  destruct (byteHex (byte_val b)) as [|c1 [|c2 [|c3 l]]]; try discriminate.
  apply Bool.andb_true_iff in Hall as [Hd Hp].
  apply Bool.andb_true_iff in Hd as [H1 H2].
  destruct (parseInt16 [c1; c2]) as [y|] eqn:Ep; [|discriminate].
  apply Z.eqb_eq in Hp. subst y.
  exists c1, c2. repeat split; assumption.
Qed.

Lemma hex_digit_plain (c : Z) :
  is_hex_digit c = true ->
  is_space c = false /\ is_line_terminator c = false.
Proof.
  intros H. apply hex_digit_cases in H. unfold hexDigits in H. simpl in H.
  repeat match goal with
  | H : _ \/ _ |- _ => destruct H as [<-|H]
  end; try contradiction; split; reflexivity.
Qed.

(** The bytes an accepted input spells. *)
Lemma newBytes_accepted (n : nat) :
  forall c, length c = (2 * n)%nat -> forallb is_hex_digit c = true ->
  exists bs, newBytes c = as_values bs /\ length bs = n /\
             flat_map (fun b => byteHex (byte_val b)) bs = map lowerHex c.
Proof.
  induction n as [|n IH]; intros c Hlen Hall.
  - destruct c; [|discriminate]. exists []. repeat split.
  - destruct c as [|a [|b rest]]; try (simpl in Hlen; lia).
    cbn [forallb] in Hall.
    apply Bool.andb_true_iff in Hall as [Ha Hall].
    apply Bool.andb_true_iff in Hall as [Hb Hall].
    destruct (IH rest ltac:(simpl in Hlen; lia) Hall) as (bs & E1 & E2 & E3).
    destruct (parseInt16_pair a b Ha Hb) as (x & Ex & Hx & Eh).
    exists (to_uint8 (Some x) :: bs).
    assert (Hv : byte_val (to_uint8 (Some x)) = x)
      by (rewrite byte_val_to_uint8; apply Z.mod_small; lia).
    split; [|split].
    + unfold newBytes in *. cbn [substrings2 map as_values].
      rewrite Ex, E1, Hv. reflexivity.
    + simpl. rewrite E2. reflexivity.
    + cbn [flat_map map]. rewrite Hv, Eh, E3. reflexivity.
Qed.

Lemma flat_map_byteHex_length (bs : list byte) :
  length (flat_map (fun b => byteHex (byte_val b)) bs) = (2 * length bs)%nat.
Proof.
  induction bs as [|b bs IH]; [reflexivity|].
  cbn [flat_map length]. rewrite length_app, IH.
  destruct (byteHex_byte b) as (c1 & c2 & -> & _). simpl. lia.
Qed.

Lemma window_length (b : Buffer) (offset size : Z) :
  0 <= offset -> 0 <= size -> offset + size <= buf_length b ->
  length (firstn (Z.to_nat size) (skipn (Z.to_nat offset) b)) = Z.to_nat size.
Proof.
  unfold buf_length. intros. rewrite length_firstn, length_skipn. lia.
Qed.

(** The dialog goes on to write whenever the span holds a byte. *)
Lemma editDialog_writes (doc : ElfDocument) (offset size : Z)
    (val : jsstring) :
  buf_length (doc_data doc) < 9007199254740992 ->
  0 <= offset -> 0 < size -> offset + size <= buf_length (doc_data doc) ->
  editDialog doc offset size (Some val) =
  writeBytes doc offset (newBytes (clean val)).
Proof.
  intros Hlen Ho Hs Hfit. unfold editDialog, readBytes.
  rewrite subarray_window by lia.
  pose proof (window_length (doc_data doc) offset size Ho ltac:(lia) Hfit)
    as Hw.
  pose proof (flat_map_byteHex_length
                (firstn (Z.to_nat size)
                   (skipn (Z.to_nat offset) (doc_data doc))))
    as Hl.
  destruct (flat_map _ _) as [|c l]; [simpl in Hl; lia|reflexivity].
Qed.

(** X20.  A text the input box accepted for an item whose span holds at
    least one byte and fits in the buffer is written so that reading the
    span again gives the digits of the text, white space removed and
    letters in lower case. *)
Theorem accepted_input_is_read_back (doc : ElfDocument)
    (fileOffset fileSize : Z) (val : jsstring) :
  safe_length (doc_data doc) ->
  0 <= fileOffset -> 0 < fileSize ->
  fileOffset + fileSize <= buf_length (doc_data doc) ->
  validateInput fileSize val = Accepted ->
  readBytes (Some (editDialog doc fileOffset fileSize (Some val)))
    fileOffset fileSize =
  Some (map lowerHex (clean val)).
Proof.
  intros Hlen Ho Hs Hfit Hval. unfold safe_length in Hlen.
  rewrite editDialog_writes by assumption.
  unfold validateInput in Hval. cbv zeta in Hval.
  destruct (forallb is_hex_digit (clean val)) eqn:Hhex;
    [|discriminate].
  cbn [negb] in Hval.
  destruct (Z.eqb_spec (Z.of_nat (length (clean val)))
              (JSNumber.mul fileSize 2)) as [El|]; [|discriminate].
  rewrite fround_double in El by (rewrite JSNumberFacts.two53; lia).
  destruct (newBytes_accepted (Z.to_nat fileSize) (clean val)
              ltac:(lia) Hhex) as (bs & E1 & E2 & E3).
  rewrite E1.
  destruct (readBytes_writeBytes doc fileOffset bs Hlen Ho ltac:(lia))
    as (Hr & _).
  replace fileSize with (Z.of_nat (length bs)) by lia.
  rewrite Hr, E3. reflexivity.
Qed.

Lemma accepted_input_is_read_back_witness :
  readBytes (Some (editDialog (openDocument ELF_MAGIC) 1 2
                     (Some (js "AB 0c"))))
    1 2 = Some (js "ab0c").
Proof.
  apply (accepted_input_is_read_back (openDocument ELF_MAGIC) 1 2
           (js "AB 0c")).
  - vm_compute; reflexivity.
  - lia.
  - lia.
  - vm_compute; discriminate.
  - vm_compute; reflexivity.
Defined.

Lemma matchPairs_bytes (ws : list byte) :
  matchPairs (flat_map (fun b => byteHex (byte_val b)) ws) =
  map (fun b => byteHex (byte_val b)) ws.
Proof.
  induction ws as [|b ws IH]; [reflexivity|].
  cbn [flat_map map].
  destruct (byteHex_byte b) as (c1 & c2 & -> & H1 & H2 & _).
  apply hex_digit_plain in H1 as [_ L1].
  apply hex_digit_plain in H2 as [_ L2].
  cbn [app matchPairs]. rewrite L1, L2. cbn [negb andb].
  rewrite IH. reflexivity.
Qed.

Lemma substrings2_bytes (ws : list byte) :
  substrings2 (flat_map (fun b => byteHex (byte_val b)) ws) =
  map (fun b => byteHex (byte_val b)) ws.
Proof.
  induction ws as [|b ws IH]; [reflexivity|].
  cbn [flat_map map].
  destruct (byteHex_byte b) as (c1 & c2 & -> & _).
  cbn [app substrings2]. rewrite IH. reflexivity.
Qed.

Lemma clean_joinSpace_bytes (ws : list byte) :
  clean (joinSpace (map (fun b => byteHex (byte_val b)) ws)) =
  flat_map (fun b => byteHex (byte_val b)) ws.
Proof.
  induction ws as [|b ws IH]; [reflexivity|].
  cbn [flat_map map joinSpace].
  destruct (byteHex_byte b) as (c1 & c2 & E & H1 & H2 & _).
  apply hex_digit_plain in H1 as [S1 _].
  apply hex_digit_plain in H2 as [S2 _].
  rewrite E.
  destruct ws as [|b' ws].
  - unfold clean. simpl. rewrite S1, S2. reflexivity.
  - change (map (fun b0 => byteHex (byte_val b0)) (b' :: ws))
      with (byteHex (byte_val b') ::
            map (fun b0 => byteHex (byte_val b0)) ws) in *.
    unfold clean in *. cbn [app filter]. rewrite S1, S2.
    change (is_space 32) with true. cbn [negb].
    rewrite IH. reflexivity.
Qed.

Lemma formatted_bytes (ws : list byte) :
  clean (formatted (flat_map (fun b => byteHex (byte_val b)) ws)) =
  flat_map (fun b => byteHex (byte_val b)) ws.
Proof.
  unfold formatted. rewrite matchPairs_bytes.
  destruct (joinSpace (map (fun b => byteHex (byte_val b)) ws))
    as [|c l] eqn:E.
  - rewrite <- (clean_joinSpace_bytes ws), E. reflexivity.
  - rewrite <- E. apply clean_joinSpace_bytes.
Qed.

Lemma newBytes_bytes (ws : list byte) :
  newBytes (flat_map (fun b => byteHex (byte_val b)) ws) = as_values ws.
Proof.
  unfold newBytes, as_values. rewrite substrings2_bytes, map_map.
  apply map_ext. intros b.
  destruct (byteHex_byte b) as (c1 & c2 & -> & _ & _ & E). exact E.
Qed.

Lemma hex_bytes_are_digits (ws : list byte) :
  forallb is_hex_digit (flat_map (fun b => byteHex (byte_val b)) ws) = true.
Proof.
  induction ws as [|b ws IH]; [reflexivity|].
  cbn [flat_map]. rewrite forallb_app, IH.
  destruct (byteHex_byte b) as (c1 & c2 & -> & H1 & H2 & _).
  simpl. rewrite H1, H2. reflexivity.
Qed.

Lemma splice_self (b : Buffer) (offset size : Z) :
  0 <= offset -> 0 <= size -> offset + size <= buf_length b ->
  splice b offset (firstn (Z.to_nat size) (skipn (Z.to_nat offset) b)) = b.
Proof.
  intros Ho Hs Hfit. unfold splice.
  rewrite (window_length b offset size Ho Hs Hfit).
  rewrite Nat.add_comm, <- skipn_skipn.
  rewrite firstn_skipn. apply firstn_skipn.
Qed.

(** X21.  The text the dialog proposes for an item whose span holds at
    least one byte and fits in the buffer (the bytes of the span in
    hexadecimal, a space between bytes) is accepted by the validation,
    and confirming it as it stands leaves every byte of the buffer as
    it was. *)
Theorem proposed_text_changes_nothing (doc : ElfDocument)
    (fileOffset fileSize : Z) (currentHex : jsstring) :
  safe_length (doc_data doc) ->
  0 <= fileOffset -> 0 < fileSize ->
  fileOffset + fileSize <= buf_length (doc_data doc) ->
  readBytes (Some doc) fileOffset fileSize = Some currentHex ->
  validateInput fileSize (formatted currentHex) = Accepted /\
  doc_data (editDialog doc fileOffset fileSize (Some (formatted currentHex)))
  = doc_data doc.
Proof.
  intros Hlen Ho Hs Hfit Hread. unfold safe_length in Hlen.
  unfold readBytes in Hread. rewrite subarray_window in Hread by lia.
  inversion Hread as [Eh]; clear Hread.
  set (ws := firstn (Z.to_nat fileSize)
               (skipn (Z.to_nat fileOffset) (doc_data doc))) in *.
  pose proof (window_length (doc_data doc) fileOffset fileSize Ho
                ltac:(lia) Hfit) as Hw. fold ws in Hw.
  split.
  - unfold validateInput. cbv zeta. rewrite formatted_bytes.
    rewrite hex_bytes_are_digits. cbn [negb].
    rewrite flat_map_byteHex_length, Hw.
    rewrite fround_double by (rewrite JSNumberFacts.two53; lia).
    destruct (Z.eqb_spec (Z.of_nat (2 * Z.to_nat fileSize)) (fileSize * 2));
      [reflexivity|lia].
  - rewrite editDialog_writes by assumption.
    rewrite formatted_bytes, newBytes_bytes.
    unfold writeBytes.
    rewrite (writeBytes_from_data ws doc fileOffset 0 Hlen Ho) by lia.
    rewrite Z.add_0_r. unfold ws. apply splice_self; lia.
Qed.

Lemma proposed_text_changes_nothing_witness :
  readBytes (Some (openDocument ELF_MAGIC)) 1 3 = Some (js "454c46") /\
  formatted (js "454c46") = js "45 4c 46" /\
  validateInput 3 (js "45 4c 46") = Accepted /\
  doc_data (editDialog (openDocument ELF_MAGIC) 1 3 (Some (js "45 4c 46")))
  = ELF_MAGIC.
Proof.
  split; [vm_compute; reflexivity|]. split; [vm_compute; reflexivity|].
  change (js "45 4c 46") with (formatted (js "454c46")).
  apply (proposed_text_changes_nothing (openDocument ELF_MAGIC) 1 3).
  - vm_compute; reflexivity.
  - lia.
  - lia.
  - vm_compute; discriminate.
  - vm_compute; reflexivity.
Defined.

(** * Properties of the helpers *)

(** ** [isElfFile] and the answer [null] *)

Lemma isElfFile_magic (data : Buffer) :
  4 <= buf_length data ->
  (isElfFile (Some data) = true <-> firstn 4 data = ELF_MAGIC).
Proof.
  unfold isElfFile, buf_length. intros Hlen.
  replace (4 - length data)%nat with 0%nat by lia.
  simpl repeat. rewrite app_nil_r.
  destruct (list_eq_dec Byte.byte_eq_dec (firstn 4 data) ELF_MAGIC);
    split; intros H; congruence.
Qed.

(** X22.  The parser answers [null] exactly for the buffers that are
    shorter than 52 bytes or that [isElfFile] turns down: whatever
    passes [isElfFile] and has 52 bytes gets a model or an exception,
    never [null]. *)
Theorem null_means_short_or_not_elf (fuel : nat) (data : Buffer) :
  fst (parseElf fuel data) = Ok None <->
  buf_length data < 52 \/ isElfFile (Some data) = false.
Proof.
  unfold parseElf.
  destruct (Z.ltb_spec (buf_length data) 52) as [Hs|Hl].
  - split; [intros _; left; exact Hs|reflexivity].
  - pose proof (isElfFile_magic data ltac:(lia)) as Hm.
    destruct (bad_magic data) eqn:Eb.
    + split; [intros _; right|reflexivity].
      destruct (isElfFile (Some data)); [|reflexivity].
      rewrite (bad_magic_ELF data (proj1 Hm eq_refl)) in Eb. discriminate.
    + apply bad_magic_false in Eb. pose proof (proj2 Hm Eb) as Et.
      match goal with |- context [parseBody ?f ?c ?d ?r] =>
        destruct (parseBody f c d r) as [[m|e|] r'] end;
        cbn [fst]; (split; [discriminate|intros [H|H]; [lia|congruence]]).
Qed.

(** ** [hex] *)

Lemma js_inj (s t : string) : js s = js t -> s = t.
Proof.
  unfold js. intros H.
  rewrite <- (string_of_list_ascii_of_string s).
  rewrite <- (string_of_list_ascii_of_string t). f_equal.
  revert H. generalize (list_ascii_of_string s) as l.
  generalize (list_ascii_of_string t) as l'.
  intros l' l. revert l'. induction l as [|a l IH]; intros [|b l'] H;
    try discriminate; [reflexivity|].
  simpl in H. inversion H as [[Ha Hl]]. f_equal; [|exact (IH _ Hl)].
  apply Nat2Z.inj in Ha || apply N2Z.inj in Ha.
  rewrite <- (ascii_N_embedding a), <- (ascii_N_embedding b).
  f_equal. exact Ha.
Qed.

Lemma to_hex_int_proper (v : Z) :
  Z.to_hex_int v <> Hexadecimal.Pos Hexadecimal.Nil /\
  Z.to_hex_int v <> Hexadecimal.Neg Hexadecimal.Nil.
Proof.
  destruct v as [|p|p]; simpl; split; intros H; try discriminate;
    inversion H as [E];
    exact (HexadecimalPos.Unsigned.to_uint_nonnil p E).
Qed.

Lemma toString16_inj (a b : Z) : toString16 a = toString16 b -> a = b.
Proof.
  unfold toString16. intros H. apply js_inj in H.
  apply HexadecimalZ.to_int_inj.
  destruct (to_hex_int_proper a) as [A1 A2].
  destruct (to_hex_int_proper b) as [B1 B2].
  pose proof (HexadecimalString.NilZero.isi _ A1 A2) as Ea.
  pose proof (HexadecimalString.NilZero.isi _ B1 B2) as Eb.
  rewrite H in Ea. congruence.
Qed.

(** X23.  [hex] gives different labels to different numbers, negative
    ones included, and the same label to the same number: a label
    stands for one value. *)
Theorem hex_labels_are_distinct (a b : Z) : hex a = hex b <-> a = b.
Proof.
  split; [|intros ->; reflexivity].
  unfold hex. intros H. apply app_inv_head in H.
  apply toString16_inj. exact H.
Qed.

(** ** Typing two digits into a cell *)

Lemma nibble_arith (d1 d2 old : Z) :
  0 <= d1 < 16 -> 0 <= d2 < 16 -> 0 <= old < 256 ->
  Z.lor (Z.shiftl d1 4) (Z.land old 15) = 16 * d1 + old mod 16 /\
  Z.lor (Z.land (16 * d1 + old mod 16) 240) d2 = 16 * d1 + d2.
Proof.
  intros H1 H2 Ho.
  set (check := fun d1 d2 old =>
         (Z.lor (Z.shiftl d1 4) (Z.land old 15) =? 16 * d1 + old mod 16) &&
         (Z.lor (Z.land (16 * d1 + old mod 16) 240) d2 =? 16 * d1 + d2)).
  set (digits := map Z.of_nat (seq 0 16)).
  set (bytes := map Z.of_nat (seq 0 256)).
  assert (Hall : forallb (fun a => forallb (fun b =>
                   forallb (check a b) bytes) digits) digits = true)
    by (vm_compute; reflexivity).
  assert (Hin : forall n x, 0 <= x < Z.of_nat n ->
                            In x (map Z.of_nat (seq 0 n))).
  { intros n x Hx. apply in_map_iff. exists (Z.to_nat x).
    split; [lia|]. apply in_seq. lia. }
  rewrite forallb_forall in Hall.
  specialize (Hall d1 (Hin 16%nat d1 ltac:(lia))).
  rewrite forallb_forall in Hall.
  specialize (Hall d2 (Hin 16%nat d2 ltac:(lia))).
  rewrite forallb_forall in Hall.
  specialize (Hall old (Hin 256%nat old ltac:(lia))).
  unfold check in Hall. apply Bool.andb_true_iff in Hall as [A B].
  apply Z.eqb_eq in A, B. split; assumption.
Qed.

(** X24.  In the hex view, typing two hexadecimal digits into a cell
    that is being edited replaces its byte by the value the two digits
    spell, whatever the byte held: the first key sets the high nibble
    and keeps the low one, the second key sets the low nibble; each key
    posts one edit message for that offset, the second one carrying the
    final byte; and the cursor then moves to the next cell unless the
    cell is the last one. *)
Theorem two_digits_spell_the_byte (st : EditState) (d1 d2 old : Z) :
  es_editNibble st = 0 ->
  buf_get (es_bytes st) (es_editingOffset st) = Some old ->
  0 <= d1 < 16 -> 0 <= d2 < 16 ->
  let offset := es_editingOffset st in
  let k1 := keyHexDigit st d1 in
  let k2 := keyHexDigit (fst k1) d2 in
  snd k1 = Some (offset, 16 * d1 + old mod 16) /\
  snd k2 = Some (offset, 16 * d1 + d2) /\
  buf_get (es_bytes (fst k2)) offset = Some (16 * d1 + d2) /\
  (forall j, j <> offset ->
             buf_get (es_bytes (fst k2)) j = buf_get (es_bytes st) j) /\
  es_editNibble (fst k2) = 0 /\
  es_editingOffset (fst k2) =
    (if offset <? buf_length (es_bytes st) - 1 then offset + 1 else offset).
Proof.
  intros Hn Hold H1 H2. cbv zeta.
  assert (Hin : 0 <= es_editingOffset st < buf_length (es_bytes st)).
  { unfold buf_get, buf_length in *.
    destruct (Z.ltb_spec (es_editingOffset st) 0); [discriminate|].
    destruct (nth_error (es_bytes st) (Z.to_nat (es_editingOffset st)))
      eqn:E; [|discriminate].
    assert (nth_error (es_bytes st) (Z.to_nat (es_editingOffset st)) <> None)
      by congruence.
    apply nth_error_Some in H0. lia. }
  assert (Hr : 0 <= old < 256).
  { unfold buf_get in Hold.
    destruct (es_editingOffset st <? 0); [discriminate|].
    destruct (nth_error _ _) as [b|]; [|discriminate].
    simpl in Hold. inversion Hold. apply byte_val_range. }
  destruct (nibble_arith d1 d2 old H1 H2 Hr) as [A B].
  assert (Hmod : 0 <= old mod 16 < 16) by (apply Z.mod_pos_bound; lia).
  assert (E1 : keyHexDigit st d1 =
               (mkEditState
                  (buf_set (es_bytes st) (es_editingOffset st)
                     (Some (16 * d1 + old mod 16)))
                  (es_editingOffset st) 1,
                Some (es_editingOffset st, 16 * d1 + old mod 16))).
  { unfold keyHexDigit.
    destruct (Z.ltb_spec (es_editingOffset st) 0); [lia|].
    rewrite Hn, Hold. cbn [and_mask]. change (0 =? 0) with true.
    cbv iota zeta. change (1 =? 0) with false. cbn [andb].
    rewrite A. reflexivity. }
  rewrite E1. cbn [fst snd].
  assert (E2 : keyHexDigit
                 (mkEditState
                    (buf_set (es_bytes st) (es_editingOffset st)
                       (Some (16 * d1 + old mod 16)))
                    (es_editingOffset st) 1) d2 =
               (mkEditState
                  (buf_set (es_bytes st) (es_editingOffset st)
                     (Some (16 * d1 + d2)))
                  (if es_editingOffset st <? buf_length (es_bytes st) - 1
                   then es_editingOffset st + 1 else es_editingOffset st) 0,
                Some (es_editingOffset st, 16 * d1 + d2))).
  { unfold keyHexDigit.
    cbn [es_editingOffset es_editNibble es_bytes].
    destruct (Z.ltb_spec (es_editingOffset st) 0); [lia|].
    change (1 =? 0) with false. cbv iota zeta.
    rewrite buf_get_set_same by exact Hin.
    rewrite byte_val_to_uint8.
    rewrite (Z.mod_small (16 * d1 + old mod 16)) by lia.
    cbn [and_mask]. rewrite B. change (0 =? 0) with true. cbn [andb].
    rewrite buf_set_set. rewrite !buf_set_length. reflexivity. }
  rewrite E2. cbn [fst snd es_bytes es_editNibble es_editingOffset].
  split; [reflexivity|]. split; [reflexivity|].
  split; [rewrite buf_get_set_same by exact Hin;
          rewrite byte_val_to_uint8; f_equal; apply Z.mod_small; lia|].
  split; [intros j Hj; apply buf_get_set_other; exact Hj|].
  split; reflexivity.
Qed.

Lemma two_digits_spell_the_byte_witness :
  let st := mkEditState ELF_MAGIC 1 0 in
  let k2 := keyHexDigit (fst (keyHexDigit st 10)) 11 in
  snd k2 = Some (1, 171) /\
  buf_get (es_bytes (fst k2)) 1 = Some 171 /\
  es_editingOffset (fst k2) = 2.
Proof.
  cbv zeta.
  destruct (two_digits_spell_the_byte (mkEditState ELF_MAGIC 1 0) 10 11 69)
    as (_ & M2 & B2 & _ & _ & O2).
  - reflexivity.
  - reflexivity.
  - lia.
  - lia.
  - split; [exact M2|]. split; [exact B2|exact O2].
Defined.

(** * Strings *)

Lemma units_length (c : Z) : (1 <= length (Utf8.units c) <= 2)%nat.
Proof. unfold Utf8.units. destruct (c <? 65536); simpl; lia. Qed.

(** Decoding never gives more UTF-16 units than there are bytes; a
    pending sequence has used one byte without giving a unit yet. *)
Lemma code_points_length (bs : list Z) :
  forall st,
    (length (flat_map Utf8.units (Utf8.code_points bs st)) <=
     length bs + match st with Some _ => 1 | None => 0 end)%nat.
Proof.
  induction bs as [|b bs IH]; intros st.
  - destruct st; simpl; lia.
  - destruct st as [s|]; cbn [Utf8.code_points].
    + destruct ((Utf8.lower s <=? b) && (b <=? Utf8.upper s)).
      * cbv zeta. destruct (Utf8.needed s =? 1).
        -- cbn [flat_map]. rewrite length_app.
           pose proof (units_length
                         (Z.lor (Z.shiftl (Utf8.cp s) 6) (Z.land b 63))).
           pose proof (IH None). simpl in *. lia.
        -- pose proof (IH (Some (Utf8.mkState
                                   (Z.lor (Z.shiftl (Utf8.cp s) 6)
                                      (Z.land b 63))
                                   (Utf8.needed s - 1) 128 191))).
           simpl in *. lia.
      * cbn [flat_map]. rewrite length_app.
        change (length (Utf8.units 65533)) with 1%nat.
        destruct (Utf8.lead b) as [c|s'] eqn:El.
        -- cbn [flat_map]. rewrite length_app.
           assert (Hc : length (Utf8.units c) = 1%nat).
           { unfold Utf8.lead in El.
             repeat match type of El with
             | (if ?t then _ else _) = _ => destruct t eqn:?
             end; inversion El; subst;
             unfold Utf8.units;
             match goal with
             | H : (?c <=? 127) = true |- _ =>
                 apply Z.leb_le in H;
                 destruct (Z.ltb_spec c 65536); [reflexivity|lia]
             | _ => reflexivity
             end. }
           pose proof (IH None). simpl in *. lia.
        -- pose proof (IH (Some s')). simpl in *. lia.
    + destruct (Utf8.lead b) as [c|s'] eqn:El.
      * cbn [flat_map]. rewrite length_app.
        assert (Hc : length (Utf8.units c) = 1%nat).
        { unfold Utf8.lead in El.
          repeat match type of El with
          | (if ?t then _ else _) = _ => destruct t eqn:?
          end; inversion El; subst;
          unfold Utf8.units;
          match goal with
          | H : (?c <=? 127) = true |- _ =>
              apply Z.leb_le in H;
              destruct (Z.ltb_spec c 65536); [reflexivity|lia]
          | _ => reflexivity
          end. }
        pose proof (IH None). simpl in *. lia.
      * pose proof (IH (Some s')). simpl in *. lia.
Qed.

Lemma decode_length (bs : list Z) :
  (length (Utf8.decode bs) <= length bs)%nat.
Proof.
  unfold Utf8.decode. pose proof (code_points_length bs None) as H.
  cbv beta iota in H. lia.
Qed.

(** ASCII bytes are decoded as themselves. *)
Lemma decode_ascii (bs : list byte) :
  Forall (fun b => byte_val b < 128) bs ->
  Utf8.decode (map byte_val bs) = map byte_val bs.
Proof.
  unfold Utf8.decode. induction 1 as [|b bs Hb Hbs IH]; [reflexivity|].
  cbn [map Utf8.code_points]. unfold Utf8.lead.
  destruct (Z.leb_spec (byte_val b) 127); [|lia].
  cbn [flat_map]. rewrite IH. unfold Utf8.units.
  destruct (Z.ltb_spec (byte_val b) 65536); [reflexivity|lia].
Qed.

Lemma string_entry_item (data : Buffer) (lo hi : Z) (e : StringEntry) :
  buf_length data < 9007199254740992 ->
  string_entry_in_buffer data lo hi e -> 0 <= lo ->
  string_item_covers_its_bytes data e.
Proof.
  intros Hlen (Hp & Hb & _ & _ & Hv & Hne & Hl) Hlo.
  unfold string_item_covers_its_bytes. cbv zeta.
  set (run := run_at data (str_fileOffset e)) in *.
  pose proof (decode_length (map byte_val run)) as Hd.
  rewrite length_map in Hd. rewrite <- Hv in Hd.
  destruct Hb as [Hb0 Hb1].
  assert (Hl' : str_length e = Z.of_nat (length (str_value e)) + 1).
  { rewrite Hl. apply JSNumberFacts.add_small;
      rewrite ?JSNumberFacts.two53; lia. }
  assert (Hrun : (1 <= length run)%nat).
  { destruct run; [|simpl; lia]. exfalso. apply Hne. exact Hv. }
  split; [lia|]. split; [lia|]. split; [lia|].
  intros Hascii. rewrite Hl', Hv.
  rewrite (decode_ascii run Hascii). rewrite length_map.
  split; reflexivity.
Qed.

(** X25.  In every model the parser returns, the span the tree gives a
    string item starts inside the buffer and covers at most the bytes
    of the string and one byte more: it never runs into the string that
    follows, and it passes the end of the buffer by at most one byte
    (when the buffer ends before a NUL does).  For a string of ASCII
    bytes the text is these bytes and the span is the string with its
    terminator. *)
Theorem string_items_cover_their_bytes (fuel : nat) (data : Buffer)
    (m : ElfFile) (t : Table StringEntry) (e : StringEntry) :
  safe_length data ->
  fst (parseElf fuel data) = Ok (Some m) ->
  In t (stringTables m) -> In e (entries t) ->
  string_item_covers_its_bytes data e.
Proof.
  intros Hlen Hm Ht He. unfold safe_length in Hlen.
  destruct (parseElf_stages fuel data m Hm)
    as (H52 & Hc & Hd & r0 & r1 & r2 & r3 & r4 & r5 & r6 & r7 & shs0 &
        A0 & A1 & A2 & A3 & A4 & A5 & A6 &
        Hh & Hph & Hsh & Hnames & Hsym & Hdyn & Hrel & Hstr).
  pose proof (parseSectionHeaders_ranges _ _ _ _ _ _ _ A2 Hlen Hsh) as Hr0.
  assert (Hr : Forall (fun sh => 0 <= sh_offset sh) (sectionHeaders m)).
  { eapply resolveSectionNames_Forall; [|exact Hnames|].
    - intros sh n. destruct sh; simpl. trivial.
    - eapply Forall_impl; [|exact Hr0]. intros sh (Ho & _). lia. }
  unfold parseStringTables in Hstr.
  apply mapM_Ok_inv in Hstr; [|intros sh; frame_auto].
  assert (HF : Forall (fun t => Forall (string_item_covers_its_bytes data)
                                  (entries t)) (stringTables m)).
  { eapply Forall2_right; [|exact Hstr].
    intros sh t' Hin (ra & rb & Hsame & Hf).
    apply filter_In in Hin as [Hin _].
    rewrite Forall_forall in Hr. specialize (Hr sh Hin).
    pose proof (reads_as_same _ _ _ _ _ A6 Hsame) as (Hbuf & _ & _).
    unfold bind, get_buf, lift in Hf. rewrite Hbuf in Hf.
    destruct (stringTable fuel data sh) as [t0| |] eqn:Et;
      try discriminate.
    inversion Hf; subst t0. unfold stringTable in Et.
    destruct (walkStrings fuel data _ _) as [l| |] eqn:Ew;
      try discriminate.
    cbn [result_map] in Et. inversion Et; subst t'. cbn [entries].
    pose proof (JSNumberFacts.Number_nonneg _ Hr) as Hoff.
    assert (Hlen' : buf_length data < 2 ^ 53)
      by (rewrite JSNumberFacts.two53; exact Hlen).
    pose proof (walkStrings_entries fuel data
                  (JSNumber.Number (sh_offset sh)) _ Hoff Hlen'
                  (JSNumber.Number (sh_offset sh)) l
                  (Z.le_min_l _ _) Ew) as Hent.
    eapply Forall_impl; [|exact Hent].
    intros e' He'. exact (string_entry_item data _ _ e' Hlen He' Hoff). }
  rewrite Forall_forall in HF. specialize (HF t Ht).
  rewrite Forall_forall in HF. exact (HF e He).
Qed.

Lemma string_items_cover_their_bytes_witness :
  exists m t e, fst (parseElf 40 full64_elf) = Ok (Some m) /\
                 nth_error (stringTables m) 0 = Some t /\
                 nth_error (entries t) 1 = Some e /\
                 str_value e = js ".symtab" /\
                 string_item_covers_its_bytes full64_elf e.
Proof.
  eexists. eexists. eexists. split; [vm_compute; reflexivity|].
  split; [reflexivity|]. split; [reflexivity|]. split; [reflexivity|].
  eapply (string_items_cover_their_bytes 40 full64_elf).
  - vm_compute; reflexivity.
  - vm_compute; reflexivity.
  - left. reflexivity.
  - right. left. reflexivity.
Defined.

(** * A 64-bit header in a short buffer *)

Lemma parseHeader_Ok_length (d : Buffer) (le : bool) (c dd : option Z)
    (r r' : Reader) (h : ElfHeader) :
  reads_as d true le r -> buf_length d < 9007199254740992 ->
  parseHeader c dd r = (Ok h, r') -> 64 <= buf_length d.
Proof.
  intros Ha Hlen H. unfold parseHeader in H.
  binds_inv H. vals_inv Hlen. cbn [wordSize] in *. lia.
Qed.

(** X26.  A buffer of 52 to 63 bytes that starts with the magic and
    whose class byte is 2 passes the length test of the parser, which
    is the one of the 32-bit header, and then makes it raise
    [RangeError] while it reads the 64-byte header: no model and no
    [null] comes back. *)
Theorem short_64bit_header_raises (fuel : nat) (data : Buffer) :
  52 <= buf_length data < 64 ->
  isElfFile (Some data) = true ->
  buf_get data 4 = Some 2 ->
  fst (parseElf fuel data) = Throw RangeError.
Proof.
  intros Hlen Hmagic Hclass.
  apply (isElfFile_magic data ltac:(lia)) in Hmagic.
  rewrite (parseElf_elf fuel data ltac:(lia) Hmagic).
  rewrite Hclass. change (is_num (Some 2) 2) with true.
  set (le := is_num (buf_get data 5) 1).
  set (r0 := mkReader data true le 0).
  assert (A0 : reads_as data true le r0) by (repeat split).
  unfold parseBody, bind.
  pose proof (fuel_free_parseHeader (Some 2) (buf_get data 5) r0) as Hff.
  destruct (parseHeader (Some 2) (buf_get data 5) r0) as [[h|e|] r1] eqn:E;
    cbn [fst] in *.
  - pose proof (parseHeader_Ok_length data le _ _ r0 r1 h A0 ltac:(lia) E).
    lia.
  - f_equal. apply (range_only_parseHeader (Some 2) (buf_get data 5) r0).
    rewrite E. reflexivity.
  - congruence.
Qed.

Lemma short_64bit_header_raises_witness :
  fst (parseElf 0 (firstn 60 full64_elf)) = Throw RangeError.
Proof.
  apply (short_64bit_header_raises 0 (firstn 60 full64_elf)).
  - vm_compute. split; [discriminate|reflexivity].
  - vm_compute; reflexivity.
  - vm_compute; reflexivity.
Defined.

(** * Every editable item can be edited *)

Lemma field_fits (d : Buffer) (p total k size : Z) :
  buf_length d < 9007199254740992 ->
  in_bounds d p total -> 0 <= k -> 0 < size -> k + size <= total ->
  fits d (JSNumber.add p k, size).
Proof.
  intros Hlen [H0 H1] Hk Hs Hfit. unfold fits. cbn [fst snd].
  rewrite JSNumberFacts.add_small by (rewrite ?JSNumberFacts.two53; lia).
  lia.
Qed.

Ltac fits_all Hlen Hin :=
  repeat match goal with
  | |- Forall _ (_ :: _) => constructor
  | |- Forall _ [] => constructor
  | |- fits _ (JSNumber.add _ _, _) =>
      apply (field_fits _ _ _ _ _ Hlen Hin); cbn; lia
  end.

Lemma phItems_fit (d : Buffer) (w : bool) (p : Z) :
  buf_length d < 9007199254740992 -> in_bounds d p (ph_span w) ->
  Forall (fits d) (phItems (phSpans w p)).
Proof.
  intros Hlen Hin. unfold phItems.
  destruct w; cbn [phSpans wordSize phs_type phs_flags phs_offset phs_vaddr
                   phs_paddr phs_filesz phs_memsz phs_align ph_span] in *;
    fits_all Hlen Hin.
Qed.

Lemma shItems_fit (d : Buffer) (w : bool) (p : Z) :
  buf_length d < 9007199254740992 -> in_bounds d p (sh_span w) ->
  Forall (fits d) (shItems (shSpans w p)).
Proof.
  intros Hlen Hin. unfold shItems.
  destruct w; cbn [shSpans wordSize shs_name shs_type shs_flags shs_addr
                   shs_offset shs_size shs_link shs_info shs_addralign
                   shs_entsize sh_span] in *;
    fits_all Hlen Hin.
Qed.

Lemma symItems_fit (d : Buffer) (w : bool) (p : Z) :
  buf_length d < 9007199254740992 -> in_bounds d p (sym_span w) ->
  Forall (fits d) (symItems (symSpans w p)).
Proof.
  intros Hlen Hin. unfold symItems.
  destruct w; cbn [symSpans wordSize sys_name sys_info sys_other sys_shndx
                   sys_value sys_size sym_span] in *;
    fits_all Hlen Hin.
Qed.

Lemma dynItems_fit (d : Buffer) (w : bool) (p : Z) :
  buf_length d < 9007199254740992 -> in_bounds d p (dyn_span w) ->
  Forall (fits d) (dynItems (dynSpans w p)).
Proof.
  intros Hlen Hin. unfold dynItems.
  destruct w; cbn [dynSpans wordSize dys_tag dys_val dyn_span] in *;
    fits_all Hlen Hin.
Qed.

Lemma relItems_fit (d : Buffer) (w isRela flag : bool) (e : RelEntry) :
  buf_length d < 9007199254740992 ->
  in_bounds d (rel_fileOffset e) (rel_span w isRela) ->
  (rel_addend e <> None -> isRela = true) ->
  Forall (fits d) (relItems w flag e).
Proof.
  intros Hlen Hin Hadd. unfold relItems, addendItem. cbv zeta.
  destruct (rel_addend e) as [a|].
  - rewrite (Hadd ltac:(discriminate)) in Hin.
    destruct w, flag;
      cbn [relSpans wordSize res_offset res_info res_addend rel_span app]
        in *;
      fits_all Hlen Hin.
  - assert (Hin' : in_bounds d (rel_fileOffset e) (rel_span w false)).
    { destruct Hin as [H0 H1]. split; [exact H0|].
      destruct w, isRela; cbn [rel_span] in *; lia. }
    destruct w, flag;
      cbn [relSpans wordSize res_offset res_info res_addend rel_span app]
        in *;
      fits_all Hlen Hin'.
Qed.

Lemma headerItems_fit (d : Buffer) (w : bool) :
  (if w then 64 else 52) <= buf_length d ->
  Forall (fits d) (headerItems w).
Proof.
  intros Hlen. unfold headerItems, fits.
  destruct w; cbn; repeat constructor; cbn; lia.
Qed.

Lemma table_complete_fits {A} (fileOffset : A -> Z) (stop : A -> bool)
    (d : Buffer) (span : Z) (count : spec_float) (base entsize : Z)
    (l : list A) :
  table_complete fileOffset stop d span count base entsize l ->
  Forall (fun a => in_bounds d (fileOffset a) span) l.
Proof.
  unfold table_complete. intros H.
  eapply loop_ran_Forall; [|exact H].
  intros i a brk (_ & Hin & _). exact Hin.
Qed.

(** X27.  In every model the parser returns, the span of every editable
    item of the tree (the fields of the header, of the program and
    section headers, of the symbols, of the dynamic entries and of the
    relocation entries, the addend when it is shown) holds at least one
    byte and lies inside the buffer: what the parser did not raise on,
    the edit dialog can read and write back. *)
Theorem editable_items_fit_in_the_buffer (fuel : nat) (data : Buffer)
    (m : ElfFile) :
  safe_length data ->
  fst (parseElf fuel data) = Ok (Some m) ->
  Forall (fits data) (editableItems m).
Proof.
  intros Hlen Hm. unfold safe_length in Hlen.
  destruct (parseElf_stages fuel data m Hm)
    as (H52 & Hc & Hd & r0 & r1 & r2 & r3 & r4 & r5 & r6 & r7 & shs0 &
        A0 & A1 & A2 & A3 & A4 & A5 & A6 &
        Hh & Hph & Hsh & Hnames & Hsym & Hdyn & Hrel & Hstr).
  set (w := treeIs64 (header m)) in *.
  unfold editableItems. cbv zeta. fold w.
  repeat (apply Forall_app; split).
  - apply headerItems_fit. destruct w eqn:Ew; [|exact H52].
    exact (parseHeader_Ok_length data _ _ _ r0 r1 _ A0 Hlen Hh).
  - destruct (parseProgramHeaders_fits _ _ _ _ _ _
                (reads_as_from _ _ _ _ A1) Hlen Hph) as (Hn & HF).
    rewrite Hn.
    assert (E : Z.of_nat (Z.to_nat (h_phnum (header m))) = h_phnum (header m)
                \/ indices (Z.of_nat (Z.to_nat (h_phnum (header m)))) =
                   indices (h_phnum (header m))).
    { right. unfold indices. rewrite Nat2Z.id. reflexivity. }
    destruct E as [E|E]; [rewrite E|rewrite E];
      (apply Forall_flat_map; eapply Forall_impl; [|exact HF];
       intros i Hi; apply phItems_fit; assumption).
  - destruct (parseSectionHeaders_fits _ _ _ _ _ _
                (reads_as_from _ _ _ _ A2) Hlen Hsh) as (Hn & HF).
    rewrite (resolveSectionNames_length _ _ _ _ _ _ Hnames), Hn.
    assert (E : indices (Z.of_nat (Z.to_nat (h_shnum (header m)))) =
                indices (h_shnum (header m)))
      by (unfold indices; rewrite Nat2Z.id; reflexivity).
    rewrite E.
    apply Forall_flat_map. eapply Forall_impl; [|exact HF].
    intros i Hi. apply shItems_fit; assumption.
  - unfold parseSymbols in Hsym.
    apply mapM_Ok_inv in Hsym; [|intros sh; apply frame_symbolTable].
    apply Forall_flat_map.
    eapply Forall2_right; [|exact Hsym].
    intros sh t _ (ra & rb & Hsame & Hf).
    pose proof (symbolTable_complete data w fuel _ sh ra rb t
                  (reads_from_same _ _ _ _ (reads_as_from _ _ _ _ A3) Hsame)
                  Hlen Hf) as Hcomp.
    apply table_complete_fits in Hcomp.
    apply Forall_flat_map. eapply Forall_impl; [|exact Hcomp].
    intros s Hs. apply symItems_fit; assumption.
  - destruct (parseDynamic_complete data w fuel (sectionHeaders m) Hlen
                _ _ _ _ _ _ (reads_as_from _ _ _ _ A4) Hdyn)
      as (parts & Hparts & HF).
    simpl in Hparts. rewrite Hparts.
    apply Forall_flat_map. apply Forall_concat.
    eapply Forall2_right; [|exact HF].
    intros sh l _ Hcomp. apply table_complete_fits in Hcomp.
    eapply Forall_impl; [|exact Hcomp].
    intros e He. apply dynItems_fit; assumption.
  - unfold parseRelocations in Hrel.
    apply mapM_Ok_inv in Hrel; [|intros sh; apply frame_relocationTable].
    apply Forall_flat_map.
    eapply Forall2_right; [|exact Hrel].
    intros sh t _ (ra & rb & Hsame & Hf).
    pose proof (relocationTable_complete data w fuel _ _ sh ra rb t
                  (reads_from_same _ _ _ _ (reads_as_from _ _ _ _ A5) Hsame)
                  Hlen Hf) as Hcomp.
    apply table_complete_fits in Hcomp.
    destruct (relocationTable_values _ _ _ _ _ _ _ _ _ _
                (reads_as_same _ _ _ _ _ A5 Hsame) Hlen Hf) as (_ & _ & HV).
    apply Forall_flat_map.
    rewrite Forall_forall in *. intros e He.
    specialize (Hcomp e He). specialize (HV e He). cbv zeta in HV.
    destruct HV as (_ & _ & V3 & _).
    apply (relItems_fit data w (sh_type sh =? 4)); [exact Hlen|exact Hcomp|].
    intros Hne. rewrite V3 in Hne.
    destruct (sh_type sh =? 4); [reflexivity|].
    exfalso. apply Hne. fold w. destruct w; reflexivity.
Qed.

Lemma editable_items_fit_in_the_buffer_witness :
  exists m, fst (parseElf 8 full64_elf) = Ok (Some m) /\
            length (editableItems m) = 92%nat /\
            Forall (fits full64_elf) (editableItems m).
Proof.
  eexists. split; [vm_compute; reflexivity|].
  split; [vm_compute; reflexivity|].
  apply (editable_items_fit_in_the_buffer 8 full64_elf);
    vm_compute; reflexivity.
Defined.

(** * The document and the view *)

Lemma updateBytes_from_data (values : list (option Z)) :
  forall doc bytes offset i,
    doc_data doc = bytes ->
    doc_data (writeBytes_from doc offset i values) =
    updateBytes_from bytes offset i values.
Proof.
  induction values as [|v rest IH]; intros doc bytes offset i H;
    [exact H|].
  cbn [writeBytes_from updateBytes_from]. apply IH.
  unfold applyEdit, updateByte. cbn [fst doc_data]. rewrite H. reflexivity.
Qed.

(** X28.  When the view and the document hold the same bytes, an edit
    made in the view and an edit made through the tree both keep them
    in step; running the [undo] closure of a view edit right away gives
    back the session exactly as it was, and running [redo] after it
    brings the edit back in both copies. *)
Theorem undo_after_its_edit_restores_both (s : Session) (offset : Z)
    (newValue : option Z) (values : list (option Z)) :
  in_step s ->
  let e := viewEdit s offset newValue in
  in_step (fst e) /\
  in_step (treeEdit s offset values) /\
  undo (snd e) (fst e) = s /\
  in_step (redo (snd e) (undo (snd e) (fst e))) /\
  doc_data (ses_doc (redo (snd e) (undo (snd e) (fst e)))) =
    doc_data (ses_doc (fst e)).
Proof.
  unfold in_step. intros Hs. cbv zeta.
  assert (Et : doc_data (ses_doc (treeEdit s offset values)) =
               ses_bytes (treeEdit s offset values))
    by (apply updateBytes_from_data; exact Hs).
  assert (Eu : undo (snd (viewEdit s offset newValue))
                 (fst (viewEdit s offset newValue)) = s).
  { unfold undo, viewEdit, updateByte.
    cbn [fst snd ses_doc ses_bytes un_offset un_oldValue].
    rewrite undoEdit_applyEdit.
    unfold applyEdit. cbn [snd]. rewrite Hs.
    rewrite buf_set_set, buf_set_get. destruct s. reflexivity. }
  split; [|split; [exact Et|split; [exact Eu|]]].
  - unfold viewEdit, applyEdit. cbn [fst ses_doc ses_bytes doc_data].
    rewrite Hs. reflexivity.
  - rewrite Eu. unfold redo, viewEdit, updateByte, applyEdit.
    cbn [fst snd ses_doc ses_bytes doc_data un_offset un_newValue].
    rewrite Hs. split; reflexivity.
Qed.

Lemma undo_after_its_edit_restores_both_witness :
  let s := mkSession (openDocument ELF_MAGIC) ELF_MAGIC in
  let e := viewEdit s 1 (Some 0) in
  in_step (fst e) /\ undo (snd e) (fst e) = s.
Proof.
  cbv zeta.
  destruct (undo_after_its_edit_restores_both
              (mkSession (openDocument ELF_MAGIC) ELF_MAGIC) 1 (Some 0) [])
    as (H1 & _ & H2 & _).
  - reflexivity.
  - split; [exact H1|exact H2].
Defined.

(** X29.  The [undo] closure of an edit calls [undoEdit], which takes
    back whatever edit was logged last.  After an edit in the view at
    one offset and then an edit through the tree at another offset
    (which logs an edit but fires no edit event), running the [undo]
    closure of the first edit takes the tree edit out of the document
    and the first edit out of the view: the document still holds the
    first edit and the view still shows the tree edit, so the two no
    longer agree on either byte once the edits changed them. *)
Theorem undo_after_a_tree_edit_splits_the_copies (s : Session)
    (o1 o2 v1 v2 : Z) :
  in_step s -> safe_length (ses_bytes s) ->
  0 <= o1 < buf_length (ses_bytes s) ->
  0 <= o2 < buf_length (ses_bytes s) -> o1 <> o2 ->
  let e := viewEdit s o1 (Some v1) in
  let s' := undo (snd e) (treeEdit (fst e) o2 [Some v2]) in
  buf_get (doc_data (ses_doc s')) o1 = Some (v1 mod 256) /\
  buf_get (ses_bytes s') o1 = buf_get (ses_bytes s) o1 /\
  buf_get (doc_data (ses_doc s')) o2 = buf_get (ses_bytes s) o2 /\
  buf_get (ses_bytes s') o2 = Some (v2 mod 256) /\
  (buf_get (ses_bytes s) o1 <> Some (v1 mod 256) -> ~ in_step s').
Proof.
  unfold in_step, safe_length. intros Hs Hlen H1 H2 Hne. cbv zeta.
  assert (Ho : JSNumber.add o2 0 = o2).
  { rewrite JSNumberFacts.add_small by (rewrite ?JSNumberFacts.two53; lia).
    lia. }
  assert (A : buf_get (doc_data
                (ses_doc (undo (snd (viewEdit s o1 (Some v1)))
                            (treeEdit (fst (viewEdit s o1 (Some v1))) o2
                               [Some v2])))) o1 = Some (v1 mod 256) /\
              buf_get (doc_data
                (ses_doc (undo (snd (viewEdit s o1 (Some v1)))
                            (treeEdit (fst (viewEdit s o1 (Some v1))) o2
                               [Some v2])))) o2 = buf_get (ses_bytes s) o2).
  { unfold undo, treeEdit, viewEdit, writeBytes.
    cbn [fst snd ses_doc ses_bytes writeBytes_from].
    rewrite Ho. rewrite undoEdit_applyEdit.
    unfold applyEdit. cbn [fst doc_data]. rewrite Hs. split.
    - rewrite buf_get_set_same by exact H1.
      rewrite byte_val_to_uint8. reflexivity.
    - apply buf_get_set_other. intros E. apply Hne. symmetry. exact E. }
  destruct A as [A1 A2].
  assert (B : buf_get (ses_bytes
                (undo (snd (viewEdit s o1 (Some v1)))
                   (treeEdit (fst (viewEdit s o1 (Some v1))) o2
                      [Some v2]))) o1 = buf_get (ses_bytes s) o1 /\
              buf_get (ses_bytes
                (undo (snd (viewEdit s o1 (Some v1)))
                   (treeEdit (fst (viewEdit s o1 (Some v1))) o2
                      [Some v2]))) o2 = Some (v2 mod 256)).
  { unfold undo, treeEdit, viewEdit, updateByte.
    cbn [fst snd ses_doc ses_bytes updateBytes_from un_offset un_oldValue].
    unfold updateByte. rewrite Ho.
    unfold applyEdit. cbn [snd]. rewrite Hs. split.
    - rewrite buf_get_set_same
        by (rewrite !buf_set_length; exact H1).
      destruct (buf_split (ses_bytes s) o1 H1) as (l1 & x & l2 & E & Hl).
      rewrite E. replace o1 with (Z.of_nat (length l1)) by lia.
      rewrite buf_get_split. rewrite to_uint8_byte_val. reflexivity.
    - rewrite buf_get_set_other by (intros E; apply Hne; symmetry; exact E).
      rewrite buf_get_set_same by (rewrite ?buf_set_length; exact H2).
      rewrite byte_val_to_uint8. reflexivity. }
  destruct B as [B1 B2].
  split; [exact A1|]. split; [exact B1|]. split; [exact A2|].
  split; [exact B2|].
  intros Hdiff Hstep. apply Hdiff.
  rewrite <- B1, <- Hstep. exact A1.
Qed.

Lemma undo_after_a_tree_edit_splits_the_copies_witness :
  let s := mkSession (openDocument ELF_MAGIC) ELF_MAGIC in
  let e := viewEdit s 1 (Some 0) in
  let s' := undo (snd e) (treeEdit (fst e) 2 [Some 255]) in
  doc_data (ses_doc s') = [x7f; x00; x4c; x46] /\
  ses_bytes s' = [x7f; x45; xff; x46] /\
  ~ in_step s'.
Proof.
  cbv zeta. split; [reflexivity|]. split; [reflexivity|].
  destruct (undo_after_a_tree_edit_splits_the_copies
              (mkSession (openDocument ELF_MAGIC) ELF_MAGIC) 1 2 0 255)
    as (_ & _ & _ & _ & H).
  - reflexivity.
  - vm_compute; reflexivity.
  - vm_compute. split; [discriminate|reflexivity].
  - vm_compute. split; [discriminate|reflexivity].
  - discriminate.
  - apply H. vm_compute. discriminate.
Defined.
